(** * A shallow embedding of the stencil halo-exchange library

    The development follows the layout of the library: integer 3-vectors
    ([Dim3]), the prime-factor partitioner ([PFP], [partition.hpp]), the
    local subdomain geometry ([LocalDomain]), the pack / unpack / translate
    kernels ([copy.cuh]), the topology probe and the communication plan of
    [DistributedDomain], and the exchange round.

    Conventions.  C++ integers are embedded in [Z]; [/] and [%] on them are
    [Z.quot] and [Z.rem] (truncation toward zero).  [double] is Rocq's
    primitive binary64 float.  Device memory maps every allocation to a
    total map from byte offsets to bytes; a device pointer is the name of
    its allocation. *)

From Stdlib Require Import ZArith List Lia Bool Floats Uint63 Znumtheory Sorted.
From coqutil Require Import Byte Word.LittleEndianList Z.bitblast.
Import ListNotations.
Local Open Scope Z_scope.

(* ================================================================== *)
(** * Geometry primitives *)
(* ================================================================== *)

Module Dim3.

(** Modelled from the spec: the integer 3-vector of [dim3.hpp], which is
    not part of the sources at hand: three signed components with
    componentwise arithmetic, wrap-to-bounds and flatten. *)
Record t : Set := mk { x : Z; y : Z; z : Z }.

Definition add (a b : t) : t := mk (x a + x b) (y a + y b) (z a + z b).
Definition sub (a b : t) : t := mk (x a - x b) (y a - y b) (z a - z b).
Definition mul (a b : t) : t := mk (x a * x b) (y a * y b) (z a * z b).
Definition div (a b : t) : t :=
  mk (Z.quot (x a) (x b)) (Z.quot (y a) (y b)) (Z.quot (z a) (z b)).
Definition rem (a b : t) : t :=
  mk (Z.rem (x a) (x b)) (Z.rem (y a) (y b)) (Z.rem (z a) (z b)).
Definition neg (a : t) : t := mk (- x a) (- y a) (- z a).

(** Modelled from the spec: periodic indexing, "a helper that returns
    values in [0, n) for negative operands". *)
Definition wrap (a lims : t) : t :=
  mk (x a mod x lims) (y a mod y lims) (z a mod z lims).

Definition flatten (a : t) : Z := x a * y a * z a.

Definition eqb (a b : t) : bool :=
  (x a =? x b) && (y a =? y b) && (z a =? z b).

Definition zero : t := mk 0 0 0.

End Dim3.

Abbreviation Dim3 := Dim3.t.

(* ================================================================== *)
(** * Prime-factor partitioner ([class PFP]) *)
(* ================================================================== *)

Module PFP.

(** [static size_t div_ceil(size_t n, size_t d)], on integers: the
    [size_t] sum of the source while [n + d - 1] stays below [2^64]. *)
Definition div_ceil (n d : Z) : Z := Z.quot (n + d - 1) d.

(** Conversion of a (non-negative) integer argument to [double]. *)
Definition to_double (n : Z) : float := PrimFloat.of_uint63 (Uint63.of_Z n).

(** [std::min] and [std::max] on doubles. *)
Definition fmin (a b : float) : float := if PrimFloat.ltb b a then b else a.
Definition fmax (a b : float) : float := if PrimFloat.ltb a b then b else a.

(** [static double cubeness(double x, double y, double z)] *)
Definition cubeness (x y z : float) : float :=
  let smallest := fmin x (fmin y z) in
  let largest := fmax x (fmax y z) in
  PrimFloat.div smallest largest.

(** The inner loop of [prime_factors]:
    [while (n % i == 0) { result.push_back(i); n = n / i; }].
    It does not terminate for [n = 0]; the fuel runs out there. *)
Fixpoint strip (fuel : nat) (i n : Z) (result : list Z)
  : option (list Z * Z) :=
  match fuel with
  | O => None
  | S k =>
      if Z.rem n i =? 0
      then strip k i (Z.quot n i) (result ++ [i])
      else Some (result, n)
  end.

(** [for (int i = 3; i <= sqrt(n); i = i + 2) { while ... }].  The test
    [i <= sqrt(n)] is taken on integers, [i * i <= n]; the two agree for
    every [n] below [2^52], hence for every [int] rank or gpu count. *)
Fixpoint odd_factors (fuel : nat) (i n : Z) (result : list Z)
  : option (list Z * Z) :=
  match fuel with
  | O => None
  | S k =>
      if i * i <=? n
      then match strip (S (Z.to_nat n)) i n result with
           | Some (result', n') => odd_factors k (i + 2) n' result'
           | None => None
           end
      else Some (result, n)
  end.

(** [std::sort(result.begin(), result.end(), [](a, b) { return b < a; })]:
    the descending arrangement of the factors. *)
Fixpoint insert_desc (a : Z) (l : list Z) : list Z :=
  match l with
  | [] => [a]
  | b :: l' => if b <? a then a :: l else b :: insert_desc a l'
  end.

Definition sort_desc (l : list Z) : list Z := fold_right insert_desc [] l.

(** [static std::vector<size_t> prime_factors(size_t n)].  Each loop is
    given as many steps as the value it works on, which bounds the number
    of its iterations whenever the loop terminates at all. *)
Definition prime_factors (n : Z) : option (list Z) :=
  match strip (S (Z.to_nat n)) 2 n [] with
  | Some (result, n1) =>
      match odd_factors (S (Z.to_nat n1)) 3 n1 result with
      | Some (result', n2) =>
          Some (sort_desc (if 2 <? n2 then result' ++ [n2] else result'))
      | None => None
      end
  | None => None
  end.

Inductive Axis : Set := AxisX | AxisY | AxisZ.

(** The three-way test of the constructor's loop body, with the operands
    exactly as the source writes them. *)
Definition split_axis (domSize : Dim3) (amt : Z) : Axis :=
  let dx := to_double (Dim3.x domSize) in
  let dy := to_double (Dim3.y domSize) in
  let dz := to_double (Dim3.z domSize) in
  let xSplitCubeness :=
    cubeness (to_double (div_ceil (Dim3.x domSize) amt)) dy dz in
  let ySplitCubeness :=
    cubeness dx (to_double (div_ceil (Dim3.y domSize) amt)) dz in
  let zSplitCubeness :=
    cubeness dx dy (to_double (div_ceil (Dim3.z domSize) amt)) in
  if PrimFloat.leb (fmax ySplitCubeness zSplitCubeness) xSplitCubeness
  then AxisX
  else if PrimFloat.leb (fmax xSplitCubeness ySplitCubeness) ySplitCubeness
  then AxisY
  else AxisZ.

(** One iteration of either loop of the constructor: [st] is the pair
    (running [domSize_], grid being refined: [rankDim_] or [gpuDim_]). *)
Definition split_step (st : Dim3 * Dim3) (amt : Z) : Dim3 * Dim3 :=
  let (domSize, dim) := st in
  if amt <? 2 then st
  else
    match split_axis domSize amt with
    | AxisX =>
        (Dim3.mk (div_ceil (Dim3.x domSize) amt) (Dim3.y domSize) (Dim3.z domSize),
         Dim3.mk (Dim3.x dim * amt) (Dim3.y dim) (Dim3.z dim))
    | AxisY =>
        (Dim3.mk (Dim3.x domSize) (div_ceil (Dim3.y domSize) amt) (Dim3.z domSize),
         Dim3.mk (Dim3.x dim) (Dim3.y dim * amt) (Dim3.z dim))
    | AxisZ =>
        (Dim3.mk (Dim3.x domSize) (Dim3.y domSize) (div_ceil (Dim3.z domSize) amt),
         Dim3.mk (Dim3.x dim) (Dim3.y dim) (Dim3.z dim * amt))
    end.

Definition split_all (domSize : Dim3) (factors : list Z) : Dim3 * Dim3 :=
  fold_left split_step factors (domSize, Dim3.mk 1 1 1).

Record t : Set := mk {
  gpus_ : Z;
  ranks_ : Z;
  size_ : Dim3;
  gpuDim_ : Dim3;
  rankDim_ : Dim3;
  domSize_ : Dim3
}.

(** [PFP(const Dim3 &domSize, const int ranks, const int gpus)];
    [None] when [prime_factors] does not return. *)
Definition new (domSize : Dim3) (ranks gpus : Z) : option t :=
  match prime_factors ranks with
  | None => None
  | Some rankFactors =>
      let (domSize1, rankDim) := split_all domSize rankFactors in
      match prime_factors gpus with
      | None => None
      | Some gpuFactors =>
          let (domSize2, gpuDim) := split_all domSize1 gpuFactors in
          Some (mk gpus ranks domSize gpuDim rankDim domSize2)
      end
  end.

Definition gpu_dim (p : t) : Dim3 := gpuDim_ p.
Definition rank_dim (p : t) : Dim3 := rankDim_ p.

Definition get_rank (p : t) (idx : Dim3) : Z :=
  let rankIdx := Dim3.div idx (gpuDim_ p) in
  Dim3.x rankIdx + Dim3.y rankIdx * Dim3.x (rankDim_ p)
  + Dim3.z rankIdx * Dim3.y (rankDim_ p) * Dim3.x (rankDim_ p).

Definition get_gpu (p : t) (idx : Dim3) : Z :=
  let gpuIdx := Dim3.rem idx (gpuDim_ p) in
  Dim3.x gpuIdx + Dim3.y gpuIdx * Dim3.x (gpuDim_ p)
  + Dim3.z gpuIdx * Dim3.y (gpuDim_ p) * Dim3.x (gpuDim_ p).

Definition gpu_idx (p : t) (gpu : Z) : Dim3 :=
  let rx := Z.rem gpu (Dim3.x (gpuDim_ p)) in
  let gpu1 := Z.quot gpu (Dim3.x (gpuDim_ p)) in
  let ry := Z.rem gpu1 (Dim3.y (gpuDim_ p)) in
  let gpu2 := Z.quot gpu1 (Dim3.y (gpuDim_ p)) in
  Dim3.mk rx ry gpu2.

Definition rank_idx (p : t) (rank : Z) : Dim3 :=
  let rx := Z.rem rank (Dim3.x (rankDim_ p)) in
  let rank1 := Z.quot rank (Dim3.x (rankDim_ p)) in
  let ry := Z.rem rank1 (Dim3.y (rankDim_ p)) in
  let rank2 := Z.quot rank1 (Dim3.y (rankDim_ p)) in
  Dim3.mk rx ry rank2.

(** [Partition::dom_idx]: the subdomain of a (rank, gpu) pair. *)
Definition dom_idx (p : t) (rank gpu : Z) : Dim3 :=
  Dim3.add (Dim3.mul (rank_idx p rank) (gpu_dim p)) (gpu_idx p gpu).

(** The extent of the subdomain grid, [rankDim_ * gpuDim_]. *)
Definition grid (p : t) : Dim3 := Dim3.mul (rankDim_ p) (gpuDim_ p).

Definition local_domain_size (p : t) (idx : Dim3) : Dim3 :=
  let ret := domSize_ p in
  let rem := Dim3.rem (size_ p) (Dim3.mul (rankDim_ p) (gpuDim_ p)) in
  let rx := if negb (Dim3.x rem =? 0) && (Dim3.x rem <=? Dim3.x idx)
            then Dim3.x ret - 1 else Dim3.x ret in
  let ry := if negb (Dim3.y rem =? 0) && (Dim3.y rem <=? Dim3.y idx)
            then Dim3.y ret - 1 else Dim3.y ret in
  let rz := if negb (Dim3.z rem =? 0) && (Dim3.z rem <=? Dim3.z idx)
            then Dim3.z ret - 1 else Dim3.z ret in
  Dim3.mk rx ry rz.

(** The spec's rule for the axis to split, in its own words: the axis
    whose post-split cubeness is largest, ties broken x over y over z. *)
Definition spec_split_axis (domSize : Dim3) (amt : Z) : Axis :=
  let dx := to_double (Dim3.x domSize) in
  let dy := to_double (Dim3.y domSize) in
  let dz := to_double (Dim3.z domSize) in
  let cx := cubeness (to_double (div_ceil (Dim3.x domSize) amt)) dy dz in
  let cy := cubeness dx (to_double (div_ceil (Dim3.y domSize) amt)) dz in
  let cz := cubeness dx dy (to_double (div_ceil (Dim3.z domSize) amt)) in
  if PrimFloat.leb cy cx && PrimFloat.leb cz cx then AxisX
  else if PrimFloat.leb cz cy then AxisY
  else AxisZ.

End PFP.

(** Sum of [f 0 + ... + f (n-1)]. *)
Definition Zsum (n : Z) (f : Z -> Z) : Z :=
  fold_right Z.add 0 (map (fun i => f (Z.of_nat i)) (seq 0 (Z.to_nat n))).



(** What the partitioner guarantees about the local sizes along one axis:
    [extent] is the global extent, [g] the number of subdomains along the
    axis, [base] the split size [domSize_], and [local i] the local size of
    the subdomains whose index on this axis is [i]. *)
Definition axis_distributes (extent g base : Z) (local : Z -> Z) : Prop :=
  1 <= g /\
  base = (extent + g - 1) / g /\
  (forall i, local i =
             base - (if negb (extent mod g =? 0) && (extent mod g <=? i)
                     then 1 else 0)) /\
  Zsum g local = extent.

(** The statement of the sum property for one partition. *)
Definition partition_sums (size : Dim3) (ranks gpus : Z) : Prop :=
  exists p,
    PFP.new size ranks gpus = Some p /\
    PFP.size_ p = size /\
    (forall iy iz,
        axis_distributes (Dim3.x size) (Dim3.x (PFP.grid p))
          (Dim3.x (PFP.domSize_ p))
          (fun ix => Dim3.x (PFP.local_domain_size p (Dim3.mk ix iy iz)))) /\
    (forall ix iz,
        axis_distributes (Dim3.y size) (Dim3.y (PFP.grid p))
          (Dim3.y (PFP.domSize_ p))
          (fun iy => Dim3.y (PFP.local_domain_size p (Dim3.mk ix iy iz)))) /\
    (forall ix iy,
        axis_distributes (Dim3.z size) (Dim3.z (PFP.grid p))
          (Dim3.z (PFP.domSize_ p))
          (fun iz => Dim3.z (PFP.local_domain_size p (Dim3.mk ix iy iz)))).

(** Each component of a local size is the split size or one less, and is
    not negative. *)
Definition near_base (base v : Z) : Prop :=
  (v = base \/ v = base - 1) /\ 0 <= v.

Definition partition_balanced (size : Dim3) (ranks gpus : Z) : Prop :=
  exists p,
    PFP.new size ranks gpus = Some p /\
    (forall idx,
        let r := PFP.local_domain_size p idx in
        near_base (Dim3.x (PFP.domSize_ p)) (Dim3.x r) /\
        near_base (Dim3.y (PFP.domSize_ p)) (Dim3.y r) /\
        near_base (Dim3.z (PFP.domSize_ p)) (Dim3.z r)) /\
    (forall idx1 idx2,
        let r1 := PFP.local_domain_size p idx1 in
        let r2 := PFP.local_domain_size p idx2 in
        Z.abs (Dim3.x r1 - Dim3.x r2) <= 1 /\
        Z.abs (Dim3.y r1 - Dim3.y r2) <= 1 /\
        Z.abs (Dim3.z r1 - Dim3.z r2) <= 1).

(** Invariant of the two splitting loops of the constructor: [base] is the
    grid fixed by the earlier loop, [dim] the grid being refined; the
    running extent is the global extent split by both. *)
Definition split_inv (size base : Dim3) (st : Dim3 * Dim3) : Prop :=
  let (domSize, dim) := st in
  (1 <= Dim3.x dim /\ 1 <= Dim3.y dim /\ 1 <= Dim3.z dim) /\
  Dim3.x domSize = PFP.div_ceil (Dim3.x size) (Dim3.x base * Dim3.x dim) /\
  Dim3.y domSize = PFP.div_ceil (Dim3.y size) (Dim3.y base * Dim3.y dim) /\
  Dim3.z domSize = PFP.div_ceil (Dim3.z size) (Dim3.z base * Dim3.z dim).

(* ================================================================== *)
(** * Pointers, the CUDA runtime, loops and vectors *)
(* ================================================================== *)

(** Device pointers: an allocation is a block, [nullptr] is block 0. *)
Definition ptr : Set := Z.
Definition nullptr : ptr := 0.

Module Cuda.

(** Status codes of the CUDA runtime, with the values of its header; the
    probe only depends on [cudaErrorInvalidDevice] not being zero. *)
Definition cudaError_t : Set := Z.
Definition cudaSuccess : cudaError_t := 0.
Definition cudaErrorInvalidDevice : cudaError_t := 101.
Definition cudaErrorPeerAccessAlreadyEnabled : cudaError_t := 704.

(** [cudaMalloc]: the next fresh block of the process; [brk] counts the
    blocks handed out so far. *)
Definition cudaMalloc (brk : Z) : ptr * Z := (brk + 1, brk + 1).

End Cuda.

(** [for (int i = start; i < start + n; ++i) body], where the body may
    terminate the program ([None]). *)
Fixpoint for_range {S : Type} (i n : nat) (body : nat -> S -> option S) (s : S)
  : option S :=
  match n with
  | O => Some s
  | S k =>
      match body i s with
      | Some s' => for_range (Datatypes.S i) k body s'
      | None => None
      end
  end.

(** [v[i] = a] on a vector; nothing happens out of range in the model
    (the source never indexes out of range there). *)
Fixpoint set_nth {A : Type} (i : nat) (a : A) (l : list A) : list A :=
  match l, i with
  | [], _ => []
  | _ :: l', O => a :: l'
  | b :: l', S k => b :: set_nth k a l'
  end.


(* ================================================================== *)
(** * Local subdomain geometry *)
(* ================================================================== *)

(** A direction has its three components in {-1, 0, +1}; the source
    asserts this at the head of every geometry query. *)
Definition is_dir (dir : Dim3) : Prop :=
  (-1 <= Dim3.x dir <= 1) /\ (-1 <= Dim3.y dir <= 1) /\ (-1 <= Dim3.z dir <= 1).

Definition is_dirb (dir : Dim3) : bool :=
  (-1 <=? Dim3.x dir) && (Dim3.x dir <=? 1) &&
  (-1 <=? Dim3.y dir) && (Dim3.y dir <=? 1) &&
  (-1 <=? Dim3.z dir) && (Dim3.z dir <=? 1).

(** The 27 direction vectors, in the order of the planner's loops
    ([xDir] outermost, [zDir] innermost, each over -1, 0, 1). *)
Definition all_dirs : list Dim3 :=
  flat_map (fun xDir =>
    flat_map (fun yDir =>
      map (fun zDir => Dim3.mk xDir yDir zDir) [-1; 0; 1]) [-1; 0; 1])
    [-1; 0; 1].

(** ** [LocalDomain] with a scalar radius (the version used by
       [DistributedDomain]) *)
Module LocalDomain.

Record t : Set := mk {
  sz_ : Dim3;
  radius_ : Z;
  currDataPtrs_ : list ptr;
  nextDataPtrs_ : list ptr;
  dataElemSize_ : list Z;
  dev_ : Z
}.

(** [LocalDomain(Dim3 sz, int dev)]; the radius is set afterwards. *)
Definition new (sz : Dim3) (dev : Z) : t := mk sz 0 [] [] [] dev.

Definition set_radius (d : t) (r : Z) : t :=
  mk (sz_ d) r (currDataPtrs_ d) (nextDataPtrs_ d) (dataElemSize_ d) (dev_ d).

(** [size_t add_data(size_t n)] *)
Definition add_data (d : t) (n : Z) : t :=
  mk (sz_ d) (radius_ d) (currDataPtrs_ d ++ [nullptr])
     (nextDataPtrs_ d ++ [nullptr]) (dataElemSize_ d ++ [n]) (dev_ d).

Definition num_data (d : t) : Z := Z.of_nat (length (currDataPtrs_ d)).
Definition elem_size (d : t) (idx : nat) : Z := nth idx (dataElemSize_ d) 0.
Definition curr_data (d : t) (idx : nat) : ptr := nth idx (currDataPtrs_ d) nullptr.
Definition next_data (d : t) (idx : nat) : ptr := nth idx (nextDataPtrs_ d) nullptr.
Definition gpu (d : t) : Z := dev_ d.
Definition size (d : t) : Dim3 := sz_ d.

(** One axis of [halo_pos]; the last branch is the source's
    [__builtin_unreachable()], not reached for a direction. *)
Definition halo_pos_axis (sz radius dir : Z) (halo : bool) : Z :=
  if 1 =? dir then sz + (if halo then radius else 0)
  else if -1 =? dir then (if halo then 0 else radius)
  else if 0 =? dir then radius
  else 0.

(** [Dim3 halo_pos(const Dim3 &dir, const bool halo)] *)
Definition halo_pos (d : t) (dir : Dim3) (halo : bool) : Dim3 :=
  Dim3.mk (halo_pos_axis (Dim3.x (sz_ d)) (radius_ d) (Dim3.x dir) halo)
          (halo_pos_axis (Dim3.y (sz_ d)) (radius_ d) (Dim3.y dir) halo)
          (halo_pos_axis (Dim3.z (sz_ d)) (radius_ d) (Dim3.z dir) halo).

(** [static Dim3 halo_extent(const Dim3 &dir, const Dim3 &sz, const size_t radius)] *)
Definition halo_extent_of (dir sz : Dim3) (radius : Z) : Dim3 :=
  Dim3.mk (if negb (Dim3.x dir =? 0) then radius else Dim3.x sz)
          (if negb (Dim3.y dir =? 0) then radius else Dim3.y sz)
          (if negb (Dim3.z dir =? 0) then radius else Dim3.z sz).

Definition halo_extent (d : t) (dir : Dim3) : Dim3 :=
  halo_extent_of dir (sz_ d) (radius_ d).

Definition halo_bytes (d : t) (dir : Dim3) (idx : nat) : Z :=
  elem_size d idx * Dim3.flatten (halo_extent d dir).

Definition raw_size (d : t) : Dim3 :=
  Dim3.mk (Dim3.x (sz_ d) + 2 * radius_ d) (Dim3.y (sz_ d) + 2 * radius_ d)
          (Dim3.z (sz_ d) + 2 * radius_ d).

(** One iteration of the allocation loop of [realize()]. *)
Definition realize_field (st : t * Z) (i : nat) : t * Z :=
  let (d, brk) := st in
  let (c, brk1) := Cuda.cudaMalloc brk in
  let (n, brk2) := Cuda.cudaMalloc brk1 in
  (mk (sz_ d) (radius_ d) (set_nth i c (currDataPtrs_ d))
      (set_nth i n (nextDataPtrs_ d)) (dataElemSize_ d) (dev_ d), brk2).

(** [void realize()]: allocate [curr] and [next] of every field.  [brk]
    is the allocator state of the process before and after. *)
Definition realize (d : t) (brk : Z) : t * Z :=
  fold_left realize_field (seq 0 (length (currDataPtrs_ d))) (d, brk).

(** Modelled from the spec: [LocalDomain::swap], declared but not defined
    in the sources at hand: "swap exchanges curr and next pointers" of
    every field. *)
Definition swap (d : t) : t :=
  mk (sz_ d) (radius_ d) (nextDataPtrs_ d) (currDataPtrs_ d)
     (dataElemSize_ d) (dev_ d).

End LocalDomain.

(** ** [Radius] and the geometry of [LocalDomain] with a per-side radius *)
Module Radius.

(** Modelled from the spec: the radius type of [radius.hpp], which is not
    part of the sources at hand: "a per-axis, per-direction halo thickness
    (6 nonnegative integers)". *)
Record t : Set := mk {
  x_neg : Z; x_pos : Z;
  y_neg : Z; y_pos : Z;
  z_neg : Z; z_pos : Z
}.

(** Thickness on the side [d] (-1 or +1) of an axis. *)
Definition x (r : t) (d : Z) : Z := if d <? 0 then x_neg r else x_pos r.
Definition y (r : t) (d : Z) : Z := if d <? 0 then y_neg r else y_pos r.
Definition z (r : t) (d : Z) : Z := if d <? 0 then z_neg r else z_pos r.

(** [Radius::constant(r)] *)
Definition constant (r : Z) : t := mk r r r r r r.

(** The same thickness on both sides of every axis. *)
Definition symmetric (r : t) : Prop :=
  x_neg r = x_pos r /\ y_neg r = y_pos r /\ z_neg r = z_pos r.

End Radius.

Module LocalDomainR.

(** [static Dim3 halo_extent(const Dim3 &dir, const Dim3 &sz, const Radius &radius)] *)
Definition halo_extent (dir sz : Dim3) (radius : Radius.t) : Dim3 :=
  Dim3.mk (if 0 =? Dim3.x dir then Dim3.x sz else Radius.x radius (Dim3.x dir))
          (if 0 =? Dim3.y dir then Dim3.y sz else Radius.y radius (Dim3.y dir))
          (if 0 =? Dim3.z dir then Dim3.z sz else Radius.z radius (Dim3.z dir)).

(** [Dim3 raw_size()] *)
Definition raw_size (sz : Dim3) (radius : Radius.t) : Dim3 :=
  Dim3.mk (Dim3.x sz + Radius.x radius (-1) + Radius.x radius 1)
          (Dim3.y sz + Radius.y radius (-1) + Radius.y radius 1)
          (Dim3.z sz + Radius.z radius (-1) + Radius.z radius 1).

End LocalDomainR.

(** ** [Array] ([array.hpp]): a size and a data pointer *)
Module Array.

Record t : Set := mk { size_ : Dim3; data_ : ptr }.

(** [friend void swap(Array &a, Array &b)]: the pair after the call. *)
Definition swap (ab : t * t) : t * t :=
  let (a, b) := ab in
  (mk (size_ b) (data_ b), mk (size_ a) (data_ a)).

(** The host heap: the live blocks, the number of blocks handed out so
    far, and the requests, in bytes, the allocator can serve. *)
Record Heap : Set := mkHeap { live : list ptr; brk : Z; serves : Z -> bool }.

(** [new T[n]] with [sizeofT = sizeof(T)]: a fresh block, or the
    exception ([None]) when the byte count does not fit a [size_t] or the
    allocator cannot serve it. *)
Definition new_array (h : Heap) (n sizeofT : Z) : option (ptr * Heap) :=
  if (n * sizeofT <? 2 ^ 64) && serves h (n * sizeofT)
  then Some (brk h + 1, mkHeap (brk h + 1 :: live h) (brk h + 1) (serves h))
  else None.

(** [delete[] p]: nothing happens on [nullptr]. *)
Definition delete_array (h : Heap) (p : ptr) : Heap :=
  if p =? nullptr then h
  else mkHeap (List.remove Z.eq_dec p (live h)) (brk h) (serves h).

(** [Array()] *)
Definition empty : t := mk (Dim3.mk 0 0 0) nullptr.

(** How a member function ends: it returns, or an exception leaves it;
    either way with the array and the heap as they are at that point. *)
Inductive outcome : Set :=
| Returned (a : t) (h : Heap)
| Thrown (a : t) (h : Heap).

(** [void resize(const Dim3 &d)]; [n] is a [size_t].  When [new T[n]]
    throws, [delete[]] and [data_ = nullptr] have run and [size_ = d] has
    not. *)
Definition resize (sizeofT : Z) (a : t) (h : Heap) (d : Dim3) : outcome :=
  if negb (Dim3.eqb d (size_ a)) then
    let h1 := delete_array h (data_ a) in
    let n := Dim3.flatten d mod 2 ^ 64 in
    if 0 <? n
    then match new_array h1 n sizeofT with
         | Some (data, h2) => Returned (mk d data) h2
         | None => Thrown (mk (size_ a) nullptr) h1
         end
    else Returned (mk d nullptr) h1
  else Returned a h.

(** [Array(Dim3 d)] *)
Definition of_size (sizeofT : Z) (h : Heap) (d : Dim3) : outcome :=
  resize sizeofT empty h d.

(** [~Array()] *)
Definition destroy (sizeofT : Z) (a : t) (h : Heap) : outcome :=
  resize sizeofT a h (Dim3.mk 0 0 0).

End Array.

(* ================================================================== *)
(** * Device memory and the pack / unpack / translate kernels *)
(* ================================================================== *)

(** The bytes of one allocation, by byte offset from its start. *)
Definition buffer : Type := Z -> byte.

Definition load_bytes (m : buffer) (a : Z) (n : nat) : list byte :=
  map (fun k => m (a + Z.of_nat k)) (seq 0 n).

Definition store_bytes (m : buffer) (a : Z) (bs : list byte) : buffer :=
  fun p =>
    if (a <=? p) && (p <? a + Z.of_nat (length bs))
    then nth (Z.to_nat (p - a)) bs (m p)
    else m p.

(** [p[i]] read and written through a pointer to [n]-byte unsigned
    words ([uint32_t *], [uint64_t *]) at byte offset [base]. *)
Definition load_word (n : nat) (m : buffer) (base i : Z) : Z :=
  le_combine (load_bytes m (base + Z.of_nat n * i) n).

Definition store_word (n : nat) (m : buffer) (base i : Z) (w : Z) : buffer :=
  store_bytes m (base + Z.of_nat n * i) (le_split n w).

(** [memcpy(&dst[da], &src[sa], n)] between two allocations. *)
Definition memcpy (dst : buffer) (da : Z) (src : buffer) (sa : Z) (n : Z)
  : buffer :=
  store_bytes dst da (load_bytes src sa (Z.to_nat n)).

(** The copy of one element at the end of the loop body of
    [grid_unpack]: word stores for 4- and 8-byte elements, a byte copy
    otherwise.  [dst] and [src] are pointers: an allocation and a byte
    offset into it. *)
Definition copy_elem (elemSize : Z) (dst : buffer) (dst_base oi : Z)
    (src : buffer) (src_base ii : Z) : buffer :=
  if 4 =? elemSize
  then store_word 4 dst dst_base oi (load_word 4 src src_base ii)
  else if 8 =? elemSize
  then store_word 8 dst dst_base oi (load_word 8 src src_base ii)
  else memcpy dst (dst_base + oi * elemSize) src (src_base + ii * elemSize)
              elemSize.

(** The values of [i] in [for (size_t i = t; i < n; i += stride)]. *)
Fixpoint strided (fuel : nat) (i stride n : Z) : list Z :=
  match fuel with
  | O => []
  | S k => if i <? n then i :: strided k (i + stride) stride n else []
  end.

(** At most [n] iterations start below [n] when the stride is positive. *)
Definition loop_range (t stride n : Z) : list Z :=
  strided (Z.to_nat n) t stride n.

(** A launch configuration [<<<gridDim, blockDim>>>]. *)
Record Launch : Set := mkLaunch { gridDim : Dim3; blockDim : Dim3 }.

Definition zrange (n : Z) : list Z := map Z.of_nat (seq 0 (Z.to_nat n)).

Definition dim3_range (d : Dim3) : list Dim3 :=
  flat_map (fun z =>
    flat_map (fun y =>
      map (fun x => Dim3.mk x y z) (zrange (Dim3.x d)))
      (zrange (Dim3.y d)))
    (zrange (Dim3.z d)).

(** The threads of a launch, as pairs ([blockIdx], [threadIdx]). *)
Definition threads (l : Launch) : list (Dim3 * Dim3) :=
  flat_map (fun b => map (fun t => (b, t)) (dim3_range (blockDim l)))
           (dim3_range (gridDim l)).

(** The triples ([xi], [yi], [zi]) one thread visits in the three nested
    grid-stride loops over [extent], in the order it visits them.  The
    thread index and the stride are taken on integers: they are the
    [unsigned int] products of the source while [blockDim * gridDim]
    stays below [2^32] on the axis. *)
Definition thread_iters (l : Launch) (blockIdx threadIdx extent : Dim3)
  : list Dim3 :=
  let tz := Dim3.z (blockDim l) * Dim3.z blockIdx + Dim3.z threadIdx in
  let ty := Dim3.y (blockDim l) * Dim3.y blockIdx + Dim3.y threadIdx in
  let tx := Dim3.x (blockDim l) * Dim3.x blockIdx + Dim3.x threadIdx in
  flat_map (fun zi =>
    flat_map (fun yi =>
      map (fun xi => Dim3.mk xi yi zi)
          (loop_range tx (Dim3.x (blockDim l) * Dim3.x (gridDim l))
                      (Dim3.x extent)))
      (loop_range ty (Dim3.y (blockDim l) * Dim3.y (gridDim l))
                  (Dim3.y extent)))
    (loop_range tz (Dim3.z (blockDim l) * Dim3.z (gridDim l)) (Dim3.z extent)).

(** Linear index of a point in an allocation of raw size [size]. *)
Definition linear (size p : Dim3) : Z :=
  Dim3.z p * Dim3.y size * Dim3.x size + Dim3.y p * Dim3.x size + Dim3.x p.

(** [grid_unpack], as one thread runs it. *)
Definition grid_unpack (l : Launch) (blockIdx threadIdx : Dim3)
    (dst : buffer) (dst_base : Z) (dstSize dstPos dstExtent : Dim3)
    (src : buffer) (src_base : Z) (elemSize : Z) : buffer :=
  fold_left
    (fun dst i =>
       let zo := Dim3.z i + Dim3.z dstPos in
       let yo := Dim3.y i + Dim3.y dstPos in
       let xo := Dim3.x i + Dim3.x dstPos in
       let oi := zo * Dim3.y dstSize * Dim3.x dstSize + yo * Dim3.x dstSize + xo in
       let ii := Dim3.z i * Dim3.y dstExtent * Dim3.x dstExtent
                 + Dim3.y i * Dim3.x dstExtent + Dim3.x i in
       copy_elem elemSize dst dst_base oi src src_base ii)
    (thread_iters l blockIdx threadIdx dstExtent) dst.

(** Modelled from the spec: [grid_pack] of [pack_kernel.cuh], which is not
    part of the sources at hand: "pack: dst[linear i] <- src[pos + i] for
    all i in [0, ext), src laid out with pitch srcSize, element size e",
    with the element copy of its inverse [grid_unpack]. *)
Definition grid_pack (l : Launch) (blockIdx threadIdx : Dim3)
    (dst : buffer) (dst_base : Z)
    (src : buffer) (src_base : Z) (srcSize srcPos srcExtent : Dim3)
    (elemSize : Z) : buffer :=
  fold_left
    (fun dst i =>
       let zi := Dim3.z i + Dim3.z srcPos in
       let yi := Dim3.y i + Dim3.y srcPos in
       let xi := Dim3.x i + Dim3.x srcPos in
       let ii := zi * Dim3.y srcSize * Dim3.x srcSize + yi * Dim3.x srcSize + xi in
       let oi := Dim3.z i * Dim3.y srcExtent * Dim3.x srcExtent
                 + Dim3.y i * Dim3.x srcExtent + Dim3.x i in
       copy_elem elemSize dst dst_base oi src src_base ii)
    (thread_iters l blockIdx threadIdx srcExtent) dst.

(** [translate_grid], as one thread runs it: always a byte copy. *)
Definition translate_grid (l : Launch) (blockIdx threadIdx : Dim3)
    (dst : buffer) (dst_base : Z) (dstPos dstSize : Dim3)
    (src : buffer) (src_base : Z) (srcPos srcSize : Dim3)
    (extent : Dim3) (elemSize : Z) : buffer :=
  fold_left
    (fun dst i =>
       let zi := Dim3.z i + Dim3.z srcPos in
       let yi := Dim3.y i + Dim3.y srcPos in
       let xi := Dim3.x i + Dim3.x srcPos in
       let zo := Dim3.z i + Dim3.z dstPos in
       let yo := Dim3.y i + Dim3.y dstPos in
       let xo := Dim3.x i + Dim3.x dstPos in
       let lo := zo * Dim3.y dstSize * Dim3.x dstSize + yo * Dim3.x dstSize + xo in
       let li := zi * Dim3.y srcSize * Dim3.x srcSize + yi * Dim3.x srcSize + xi in
       memcpy dst (dst_base + lo * elemSize) src (src_base + li * elemSize)
              elemSize)
    (thread_iters l blockIdx threadIdx extent) dst.

(** A kernel launch: every thread of the grid runs the kernel; the threads
    are taken one after the other. *)
Definition launch (l : Launch) (kernel : Dim3 -> Dim3 -> buffer -> buffer)
    (dst : buffer) : buffer :=
  fold_left (fun dst bt => kernel (fst bt) (snd bt) dst) (threads l) dst.

(** [unpack<<<grid, block>>>(dst, dstSize, dstPitch, dstPos, dstExtent, src, elemSize)] *)
Definition unpack (l : Launch) (dst : buffer) (dst_base : Z)
    (dstSize dstPos dstExtent : Dim3) (src : buffer) (src_base : Z)
    (elemSize : Z) : buffer :=
  launch l (fun b t dst' =>
              grid_unpack l b t dst' dst_base dstSize dstPos dstExtent
                          src src_base elemSize) dst.

(** The single-field pack kernel, the counterpart of [unpack]. *)
Definition pack (l : Launch) (dst : buffer) (dst_base : Z)
    (src : buffer) (src_base : Z) (srcSize srcPos srcExtent : Dim3)
    (elemSize : Z) : buffer :=
  launch l (fun b t dst' =>
              grid_pack l b t dst' dst_base src src_base srcSize srcPos
                        srcExtent elemSize) dst.

(** [translate<<<grid, block>>>(dst, dstPos, dstSize, src, srcPos, srcSize, extent, elemSize)] *)
Definition translate (l : Launch) (dst : buffer) (dst_base : Z)
    (dstPos dstSize : Dim3) (src : buffer) (src_base : Z)
    (srcPos srcSize : Dim3) (extent : Dim3) (elemSize : Z) : buffer :=
  launch l (fun b t dst' =>
              translate_grid l b t dst' dst_base dstPos dstSize src src_base
                             srcPos srcSize extent elemSize) dst.

(** A launch with at least one block and one thread per block on every
    axis. *)
Definition launch_ok (l : Launch) : Prop :=
  1 <= Dim3.x (gridDim l) /\ 1 <= Dim3.y (gridDim l) /\ 1 <= Dim3.z (gridDim l) /\
  1 <= Dim3.x (blockDim l) /\ 1 <= Dim3.y (blockDim l) /\ 1 <= Dim3.z (blockDim l).

(** A point of the box [0, extent). *)
Definition in_extent (extent i : Dim3) : Prop :=
  0 <= Dim3.x i < Dim3.x extent /\
  0 <= Dim3.y i < Dim3.y extent /\
  0 <= Dim3.z i < Dim3.z extent.

(** Every iteration of every thread of a launch, in the order of the model. *)
Definition launch_iters (l : Launch) (extent : Dim3) : list Dim3 :=
  flat_map (fun bt => thread_iters l (fst bt) (snd bt) extent) (threads l).

(** Byte [p] lies in the destination element of iteration [i], for elements
    of [e] bytes laid out from byte [db] at the element offsets [o]. *)
Definition covers {I : Type} (e db : Z) (o : I -> Z) (i : I) (p : Z) : bool :=
  (db + o i * e <=? p) && (p <? db + o i * e + e).

(* ================================================================== *)
(** * CUDA runtime and process-group collaborators *)
(* ================================================================== *)


(** What one process observes of its environment at construction: the
    answers of the process group and of the CUDA runtime. *)
Record Env : Type := mkEnv {
  env_rank : Z;                     (* MPI_Comm_rank(MPI_COMM_WORLD) *)
  env_worldSize : Z;                (* MPI_Comm_size(MPI_COMM_WORLD) *)
  env_deviceCount : Z;              (* cudaGetDeviceCount *)
  env_shmrank : Z;                  (* rank in the shared-memory communicator *)
  env_shmsize : Z;                  (* its size *)
  env_colocated : list Z;           (* MPI_Allgather of the ranks on this node *)
  env_setDevice : Z -> Cuda.cudaError_t;
  env_enablePeer : Z -> Z -> Cuda.cudaError_t
    (* cudaDeviceEnablePeerAccess(dst) with device src current *)
}.

(* ================================================================== *)
(** * Direction map *)
(* ================================================================== *)

Module DirectionMap.

(** Modelled from the spec: the container of [direction_map.hpp], which is
    not part of the sources at hand: "a fixed-size array indexed by
    (d.z+1)*9+(d.y+1)*3+(d.x+1)", 27 cells. *)
Definition t (A : Type) : Type := list A.

Definition fill {A : Type} (a : A) : t A := repeat a 27.

Definition index (x y z : Z) : nat := Z.to_nat (z * 9 + y * 3 + x).

(** [at(x, y, z)], indices in 0..2 *)
Definition at_ {A : Type} (m : t A) (x y z : Z) (default : A) : A :=
  nth (index x y z) m default.

Definition set_at {A : Type} (m : t A) (x y z : Z) (a : A) : t A :=
  set_nth (index x y z) a m.

(** [at_dir(x, y, z)], components in -1..1 *)
Definition at_dir {A : Type} (m : t A) (x y z : Z) (default : A) : A :=
  at_ m (x + 1) (y + 1) (z + 1) default.

Definition set_at_dir {A : Type} (m : t A) (x y z : Z) (a : A) : t A :=
  set_at m (x + 1) (y + 1) (z + 1) a.

End DirectionMap.

(* ================================================================== *)
(** * Neighbor transports *)
(* ================================================================== *)

(** The sender and receiver objects the planner instantiates, with the
    constructor arguments of the source.  A reference to a local domain is
    its position in [domains_]. *)
Inductive HaloSender : Set :=
| RegionCopier (dstDomain srcDomain : nat) (dir : Dim3)
| PackMemcpyCopier (dstDomain srcDomain : nat) (dir : Dim3)
| RegionSender (myDomain : nat) (srcRank srcGPU dstRank dstGPU : Z) (dir : Dim3).

Inductive HaloRecver : Set :=
| RegionRecver (myDomain : nat) (srcRank srcGPU dstRank dstGPU : Z) (dir : Dim3).

(* ================================================================== *)
(** * [DistributedDomain]: construction and plan *)
(* ================================================================== *)

Module DistributedDomain.

Record t : Type := mk {
  size_ : Dim3;
  rank_ : Z;
  worldSize_ : Z;
  gpus_ : list Z;
  radius_ : Z;
  domains_ : list LocalDomain.t;
  domainIdx_ : list Dim3;
  partition_ : PFP.t;
  domainDirSender_ : list (DirectionMap.t (option HaloSender));
  domainDirRecver_ : list (DirectionMap.t (option HaloRecver));
  dataElemSize_ : list Z;
  colocated_ : list Z;
  peerAccess_ : list (list bool)
}.

(** [colocated_.count(r)] as a truth value *)
Definition colocated_count (colocated : list Z) (r : Z) : bool :=
  existsb (Z.eqb r) colocated.

(** The round-robin of gpus to the ranks of a node; [None] is the
    division by zero of [shmrank % deviceCount] on a node without gpu. *)
Definition assign_gpus (deviceCount shmrank shmsize : Z) : option (list Z) :=
  if shmsize <=? deviceCount
  then Some (filter (fun gpu => Z.rem gpu shmsize =? shmrank)
                    (map Z.of_nat (seq 0 (Z.to_nat deviceCount))))
  else if deviceCount =? 0 then None
  else Some [Z.rem shmrank deviceCount].

(** [peerAccess_[src][dst] = v] *)
Definition set_peer (m : list (list bool)) (src dst : nat) (v : bool)
  : list (list bool) :=
  set_nth src (set_nth dst v (nth src m [])) m.

Definition get_peer (m : list (list bool)) (src dst : Z) : bool :=
  nth (Z.to_nat dst) (nth (Z.to_nat src) m []) false.

(** The body of the double loop that tries to enable peer access.
    [CUDA_RUNTIME] is fatal on a status other than success, and so is
    [assert(0)]. *)
Definition probe_pair (env : Env) (src dst : nat) (m : list (list bool))
  : option (list (list bool)) :=
  if (src =? dst)%nat then Some (set_peer m src dst true)
  else if negb (env_setDevice env (Z.of_nat src) =? Cuda.cudaSuccess) then None
  else
    let err := env_enablePeer env (Z.of_nat src) (Z.of_nat dst) in
    if (Cuda.cudaSuccess =? err) || (Cuda.cudaErrorPeerAccessAlreadyEnabled =? err)
    then Some (set_peer m src dst true)
    else if negb (Cuda.cudaErrorInvalidDevice =? 0)
    then Some (set_peer m src dst false)
    else None.

Definition probe_peer_access (env : Env) : option (list (list bool)) :=
  let n := Z.to_nat (env_deviceCount env) in
  for_range 0 n
    (fun src m => for_range 0 n (fun dst m' => probe_pair env src dst m') m)
    (repeat (repeat false n) n).

(** [DistributedDomain(size_t x, size_t y, size_t z)]; [None] when the
    constructor terminates the program. *)
Definition new (env : Env) (x y z : Z) : option t :=
  if negb (colocated_count (env_colocated env) (env_rank env)) then None
  else
    match assign_gpus (env_deviceCount env) (env_shmrank env)
                      (env_shmsize env) with
    | None => None
    | Some gpus =>
        match probe_peer_access env with
        | None => None
        | Some peerAccess =>
            match PFP.new (Dim3.mk x y z) (env_worldSize env)
                          (Z.of_nat (length gpus)) with
            | None => None
            | Some partition =>
                Some (mk (Dim3.mk x y z) (env_rank env) (env_worldSize env)
                         gpus 0 [] [] partition [] [] [] (env_colocated env)
                         peerAccess)
            end
        end
    end.

Definition set_radius (dd : t) (r : Z) : t :=
  mk (size_ dd) (rank_ dd) (worldSize_ dd) (gpus_ dd) r (domains_ dd)
     (domainIdx_ dd) (partition_ dd) (domainDirSender_ dd)
     (domainDirRecver_ dd) (dataElemSize_ dd) (colocated_ dd) (peerAccess_ dd).

(** [add_data<T>()] with [n = sizeof(T)] *)
Definition add_data (dd : t) (n : Z) : t :=
  mk (size_ dd) (rank_ dd) (worldSize_ dd) (gpus_ dd) (radius_ dd) (domains_ dd)
     (domainIdx_ dd) (partition_ dd) (domainDirSender_ dd)
     (domainDirRecver_ dd) (dataElemSize_ dd ++ [n]) (colocated_ dd)
     (peerAccess_ dd).

(** The first loop of [realize]: the local domain of gpu [i] and its
    index in the subdomain grid. *)
Definition create_domain (dd : t) (i : nat) : LocalDomain.t * Dim3 :=
  let idx := PFP.dom_idx (partition_ dd) (rank_ dd) (Z.of_nat i) in
  let ldSize := PFP.local_domain_size (partition_ dd) idx in
  let ld := LocalDomain.set_radius (LocalDomain.new ldSize (nth i (gpus_ dd) 0))
                                   (radius_ dd) in
  (fold_left LocalDomain.add_data (dataElemSize_ dd) ld, idx).

(** The second loop: [d.realize()] for every local domain, in order. *)
Definition realize_domains (ds : list LocalDomain.t) (brk : Z)
  : list LocalDomain.t * Z :=
  fold_left (fun (acc : list LocalDomain.t * Z) d =>
               let (d', brk') := LocalDomain.realize d (snd acc) in
               (fst acc ++ [d'], brk'))
            ds ([], brk).

(** "who i am sending to" and "who is sending to me" for [dirVec]. *)
Definition dst_idx (p : PFP.t) (myIdx dirVec : Dim3) : Dim3 :=
  Dim3.wrap (Dim3.add myIdx dirVec) (Dim3.mul (PFP.rank_dim p) (PFP.gpu_dim p)).
Definition src_idx (p : PFP.t) (myIdx dirVec : Dim3) : Dim3 :=
  Dim3.wrap (Dim3.sub myIdx dirVec) (Dim3.mul (PFP.rank_dim p) (PFP.gpu_dim p)).

(** "determine how to send face in that direction" *)
Definition plan_sender (dd : t) (di : nat) (dirVec : Dim3) : HaloSender :=
  let myDomain := nth di (domains_ dd) (LocalDomain.new Dim3.zero 0) in
  let myIdx := nth di (domainIdx_ dd) Dim3.zero in
  let myGPU := Z.of_nat di in
  let dstIdx := dst_idx (partition_ dd) myIdx dirVec in
  let dstGPU := PFP.get_gpu (partition_ dd) dstIdx in
  let dstRank := PFP.get_rank (partition_ dd) dstIdx in
  if rank_ dd =? dstRank then
    let myCudaId := LocalDomain.gpu myDomain in
    let dstCudaId :=
      LocalDomain.gpu (nth (Z.to_nat dstGPU) (domains_ dd)
                           (LocalDomain.new Dim3.zero 0)) in
    if get_peer (peerAccess_ dd) myCudaId dstCudaId
    then RegionCopier (Z.to_nat dstGPU) di dirVec
    else PackMemcpyCopier (Z.to_nat dstGPU) di dirVec
  else if colocated_count (colocated_ dd) dstRank
  then RegionSender di (rank_ dd) myGPU dstRank dstGPU dirVec
  else RegionSender di (rank_ dd) myGPU dstRank dstGPU dirVec.

(** "determine how to receive a face from that direction" *)
Definition plan_recver (dd : t) (di : nat) (dirVec : Dim3) : option HaloRecver :=
  let myDomain := nth di (domains_ dd) (LocalDomain.new Dim3.zero 0) in
  let myIdx := nth di (domainIdx_ dd) Dim3.zero in
  let myGPU := Z.of_nat di in
  let srcIdx := src_idx (partition_ dd) myIdx dirVec in
  let srcGPU := PFP.get_gpu (partition_ dd) srcIdx in
  let srcRank := PFP.get_rank (partition_ dd) srcIdx in
  if rank_ dd =? srcRank then
    let srcCudaId :=
      LocalDomain.gpu (nth (Z.to_nat srcGPU) (domains_ dd)
                           (LocalDomain.new Dim3.zero 0)) in
    let myCudaId := LocalDomain.gpu myDomain in
    if get_peer (peerAccess_ dd) srcCudaId myCudaId
    then None
    else None
  else if colocated_count (colocated_ dd) srcRank
  then Some (RegionRecver di srcRank srcGPU (rank_ dd) myGPU dirVec)
  else Some (RegionRecver di srcRank srcGPU (rank_ dd) myGPU dirVec).

(** The body of the three direction loops of the planner. *)
Definition plan_dir (dd : t) (di : nat)
    (maps : DirectionMap.t (option HaloSender) * DirectionMap.t (option HaloRecver))
    (dirVec : Dim3)
  : DirectionMap.t (option HaloSender) * DirectionMap.t (option HaloRecver) :=
  if Dim3.eqb dirVec (Dim3.mk 0 0 0) then maps
  else
    let sender := plan_sender dd di dirVec in
    let recver := plan_recver dd di dirVec in
    (DirectionMap.set_at_dir (fst maps) (Dim3.x dirVec) (Dim3.y dirVec)
       (Dim3.z dirVec) (Some sender),
     DirectionMap.set_at_dir (snd maps) (Dim3.x dirVec) (Dim3.y dirVec)
       (Dim3.z dirVec) recver).

(** The plan of local domain [di]: both maps start all null. *)
Definition plan_domain (dd : t) (di : nat)
  : DirectionMap.t (option HaloSender) * DirectionMap.t (option HaloRecver) :=
  fold_left (plan_dir dd di) all_dirs
            (DirectionMap.fill None, DirectionMap.fill None).

(** [void realize(bool useUnified = false)], with the allocator state of
    the process. *)
Definition realize (dd : t) (brk : Z) : t * Z :=
  let created := map (create_domain dd) (seq 0 (length (gpus_ dd))) in
  let (domains, brk') := realize_domains (domains_ dd ++ map fst created) brk in
  let dd1 :=
    mk (size_ dd) (rank_ dd) (worldSize_ dd) (gpus_ dd) (radius_ dd) domains
       (domainIdx_ dd ++ map snd created) (partition_ dd) [] []
       (dataElemSize_ dd) (colocated_ dd) (peerAccess_ dd) in
  let plans := map (plan_domain dd1) (seq 0 (length domains)) in
  (mk (size_ dd1) (rank_ dd1) (worldSize_ dd1) (gpus_ dd1) (radius_ dd1)
      (domains_ dd1) (domainIdx_ dd1) (partition_ dd1)
      (map fst plans) (map snd plans)
      (dataElemSize_ dd1) (colocated_ dd1) (peerAccess_ dd1), brk').

(** Modelled from the spec: [DistributedDomain::swap], which the tests call
    and the sources at hand do not define: "swap invokes per-subdomain
    pointer swap of curr and next for every field". *)
Definition swap (dd : t) : t :=
  mk (size_ dd) (rank_ dd) (worldSize_ dd) (gpus_ dd) (radius_ dd)
     (map LocalDomain.swap (domains_ dd)) (domainIdx_ dd) (partition_ dd)
     (domainDirSender_ dd) (domainDirRecver_ dd) (dataElemSize_ dd)
     (colocated_ dd) (peerAccess_ dd).

End DistributedDomain.

(** The environments in which the constructor is meant to run: the rank
    is in its own colocated set, the process group is not empty, the
    shared-memory rank is within its communicator, the node has a gpu, and
    selecting a device succeeds. *)
Definition env_ok (env : Env) : Prop :=
  DistributedDomain.colocated_count (env_colocated env) (env_rank env) = true /\
  1 <= env_worldSize env /\
  0 <= env_shmrank env < env_shmsize env /\
  1 <= env_deviceCount env /\
  (forall d, env_setDevice env d = Cuda.cudaSuccess).

(** A status that lets the pair use peer access. *)
Definition peer_enabled (err : Cuda.cudaError_t) : bool :=
  (Cuda.cudaSuccess =? err) || (Cuda.cudaErrorPeerAccessAlreadyEnabled =? err).

(** The matrix a finished probe must hold. *)
Definition peer_matrix_of (env : Env) (m : list (list bool)) : Prop :=
  forall src dst,
    0 <= src < env_deviceCount env -> 0 <= dst < env_deviceCount env ->
    DistributedDomain.get_peer m src dst =
    if src =? dst then true else peer_enabled (env_enablePeer env src dst).

(** ** A small engine used in examples: one rank with two gpus on a
       10^3 volume, radius 1, one 4-byte field. *)
Definition demo_env : Env :=
  mkEnv 0 1 2 0 1 [0] (fun _ => Cuda.cudaSuccess)
        (fun src dst => if src =? 0 then 217 else Cuda.cudaSuccess).

Definition demo_engine : DistributedDomain.t :=
  DistributedDomain.mk (Dim3.mk 10 10 10) 0 1 [0; 1] 1 [] []
    (PFP.mk 2 1 (Dim3.mk 10 10 10) (Dim3.mk 2 1 1) (Dim3.mk 1 1 1)
            (Dim3.mk 5 10 10))
    [] [] [4] [0] [[true; false]; [true; true]].

(** What [realize] leaves in a freshly configured engine: local domain
    [j] of the [G] gpus, with [F] registered fields. *)
Definition realized_domain (dd : DistributedDomain.t) (brk : Z) (j : nat)
    (d : LocalDomain.t) : Prop :=
  let F := length (DistributedDomain.dataElemSize_ dd) in
  let idx := PFP.dom_idx (DistributedDomain.partition_ dd)
               (DistributedDomain.rank_ dd) (Z.of_nat j) in
  LocalDomain.sz_ d
  = PFP.local_domain_size (DistributedDomain.partition_ dd) idx /\
  LocalDomain.radius_ d = DistributedDomain.radius_ dd /\
  LocalDomain.dataElemSize_ d = DistributedDomain.dataElemSize_ dd /\
  LocalDomain.dev_ d = nth j (DistributedDomain.gpus_ dd) 0 /\
  length (LocalDomain.currDataPtrs_ d) = F /\
  length (LocalDomain.nextDataPtrs_ d) = F /\
  (forall i, (i < F)%nat ->
             LocalDomain.curr_data d i
             = brk + 2 * Z.of_nat F * Z.of_nat j + 2 * Z.of_nat i + 1 /\
             LocalDomain.next_data d i
             = brk + 2 * Z.of_nat F * Z.of_nat j + 2 * Z.of_nat i + 2).

(* ================================================================== *)
(** * The exchange round *)
(* ================================================================== *)

(** The device memory of one process: the bytes of every block. *)
Definition Memory : Type := Z -> buffer.

Definition zero_buffer : buffer := fun _ => Byte.x00.

(** Modelled from the spec: the tag of a message of the transports of
    [tx.hpp]: "each send carries a tag derived from (srcSubdomain,
    dstSubdomain, direction)"; a subdomain is named by its rank and its
    position among the local domains of that rank. *)
Definition Key : Set := (Z * Z * Z * Z * Dim3)%type.

Definition key_eqb (a b : Key) : bool :=
  let '(a1, a2, a3, a4, ad) := a in
  let '(b1, b2, b3, b4, bd) := b in
  (a1 =? b1) && (a2 =? b2) && (a3 =? b3) && (a4 =? b4) && Dim3.eqb ad bd.

(** The state an exchange works on: the device memory of every rank and
    the messages in flight. *)
Record World : Type := mkWorld {
  dev : Z -> Memory;
  mail : Key -> option buffer
}.

Definition set_block (w : World) (rank : Z) (blk : ptr) (buf : buffer) : World :=
  mkWorld
    (fun r => if r =? rank
              then (fun b => if b =? blk then buf else dev w r b)
              else dev w r)
    (mail w).

Definition post (w : World) (key : Key) (buf : buffer) : World :=
  mkWorld (dev w) (fun k => if key_eqb k key then Some buf else mail w k).

Definition message (w : World) (key : Key) : buffer :=
  match mail w key with Some buf => buf | None => zero_buffer end.

(** The device operations of the transports, one kernel launch on one
    field each. *)
Inductive Op : Set :=
| KTranslate (rank : Z) (dst : ptr) (dstPos dstSize : Dim3)
             (src : ptr) (srcPos srcSize extent : Dim3) (elemSize : Z)
| KPackUnpack (rank : Z) (dst : ptr) (dstPos dstSize : Dim3)
              (src : ptr) (srcPos srcSize extent : Dim3) (elemSize : Z)
| KPack (rank : Z) (key : Key) (offset : Z)
        (src : ptr) (srcPos srcSize extent : Dim3) (elemSize : Z)
| KUnpack (rank : Z) (dst : ptr) (dstPos dstSize extent : Dim3)
          (key : Key) (offset : Z) (elemSize : Z).

(** Modelled from the spec: what the transports of [tx.hpp] do, which is
    not part of the sources at hand (section 4.4): a same-rank peer copy
    is a direct translate across the two allocations; without peer access
    the region is packed, the buffer copied, and unpacked into the peer's
    halo; a sender to another rank packs into its buffer, which is the
    message; the receiver unpacks the message into its halo, and waits
    for it ([None]) while it has not been sent. *)
Definition exec (l : Launch) (w : World) (op : Op) : option World :=
  match op with
  | KTranslate rank dst dstPos dstSize src srcPos srcSize extent e =>
      Some (set_block w rank dst
              (translate l (dev w rank dst) 0 dstPos dstSize
                         (dev w rank src) 0 srcPos srcSize extent e))
  | KPackUnpack rank dst dstPos dstSize src srcPos srcSize extent e =>
      let buf := pack l zero_buffer 0 (dev w rank src) 0 srcSize srcPos extent e in
      Some (set_block w rank dst
              (unpack l (dev w rank dst) 0 dstSize dstPos extent buf 0 e))
  | KPack rank key offset src srcPos srcSize extent e =>
      Some (post w key
              (pack l (message w key) offset (dev w rank src) 0 srcSize srcPos
                    extent e))
  | KUnpack rank dst dstPos dstSize extent key offset e =>
      match mail w key with
      | None => None
      | Some buf =>
          Some (set_block w rank dst
                  (unpack l (dev w rank dst) 0 dstSize dstPos extent buf
                          offset e))
      end
  end.

(** A sequence of device operations, stopping where one waits for ever. *)
Fixpoint run (l : Launch) (ops : list Op) (w : World) : option World :=
  match ops with
  | [] => Some w
  | op :: ops' =>
      match exec l w op with
      | Some w' => run l ops' w'
      | None => None
      end
  end.

(** Byte offset of field [q] in a message of [n] points per field:
    "fields within the blob are concatenated in registration order". *)
Definition field_offset (elems : list Z) (n : Z) (q : nat) : Z :=
  fold_right Z.add 0 (map (fun e => e * n) (firstn q elems)).

Definition no_domain : LocalDomain.t := LocalDomain.new Dim3.zero 0.

(** Modelled from the spec: the device operation of a same-rank transport
    on field [q]: the region sent in direction [dir] is the interior
    region of that direction of the source, and it lands in the halo
    region of direction [-dir] of the destination; with peer access
    ([direct]) in one kernel, without it packed and unpacked. *)
Definition copy_op (direct : bool) (rank : Z) (dstD srcD : LocalDomain.t)
    (dir : Dim3) (q : nat) : Op :=
  (if direct then KTranslate else KPackUnpack)
    rank (LocalDomain.curr_data dstD q)
    (LocalDomain.halo_pos dstD (Dim3.neg dir) true)
    (LocalDomain.raw_size dstD)
    (LocalDomain.curr_data srcD q)
    (LocalDomain.halo_pos srcD dir false)
    (LocalDomain.raw_size srcD)
    (LocalDomain.halo_extent srcD dir)
    (LocalDomain.elem_size srcD q).

(** Modelled from the spec: a sender to another rank packs the interior
    region of direction [dir] of field [q] into its message. *)
Definition pack_op (rank : Z) (key : Key) (srcD : LocalDomain.t) (dir : Dim3)
    (q : nat) : Op :=
  let extent := LocalDomain.halo_extent srcD dir in
  KPack rank key
    (field_offset (LocalDomain.dataElemSize_ srcD) (Dim3.flatten extent) q)
    (LocalDomain.curr_data srcD q)
    (LocalDomain.halo_pos srcD dir false)
    (LocalDomain.raw_size srcD) extent
    (LocalDomain.elem_size srcD q).

(** Modelled from the spec: the receiver of the message sent in direction
    [dir] unpacks field [q] into its halo region of direction [-dir]. *)
Definition unpack_op (rank : Z) (key : Key) (dstD : LocalDomain.t) (dir : Dim3)
    (q : nat) : Op :=
  let extent := LocalDomain.halo_extent dstD (Dim3.neg dir) in
  KUnpack rank (LocalDomain.curr_data dstD q)
    (LocalDomain.halo_pos dstD (Dim3.neg dir) true)
    (LocalDomain.raw_size dstD) extent key
    (field_offset (LocalDomain.dataElemSize_ dstD) (Dim3.flatten extent) q)
    (LocalDomain.elem_size dstD q).

(** The operation of one [send()] on field [q]. *)
Definition sender_op (dd : DistributedDomain.t) (s : HaloSender) (q : nat)
  : Op :=
  let ds := DistributedDomain.domains_ dd in
  let rank := DistributedDomain.rank_ dd in
  match s with
  | RegionCopier dstDomain srcDomain dir =>
      copy_op true rank (nth dstDomain ds no_domain) (nth srcDomain ds no_domain)
              dir q
  | PackMemcpyCopier dstDomain srcDomain dir =>
      copy_op false rank (nth dstDomain ds no_domain)
              (nth srcDomain ds no_domain) dir q
  | RegionSender myDomain srcRank srcGPU dstRank dstGPU dir =>
      pack_op rank (srcRank, srcGPU, dstRank, dstGPU, dir)
              (nth myDomain ds no_domain) dir q
  end.

(** The local domain whose fields a sender reads. *)
Definition sender_domain (s : HaloSender) : nat :=
  match s with
  | RegionCopier _ srcDomain _ => srcDomain
  | PackMemcpyCopier _ srcDomain _ => srcDomain
  | RegionSender myDomain _ _ _ _ _ => myDomain
  end.

(** One [send()]: every field of the source domain, in registration
    order. *)
Definition sender_ops (dd : DistributedDomain.t) (s : HaloSender) : list Op :=
  let srcD := nth (sender_domain s) (DistributedDomain.domains_ dd) no_domain in
  map (sender_op dd s) (seq 0 (Z.to_nat (LocalDomain.num_data srcD))).

(** The operation that completes one receiver at its [wait()] on field
    [q]. *)
Definition recver_op (dd : DistributedDomain.t) (r : HaloRecver) (q : nat)
  : Op :=
  match r with
  | RegionRecver myDomain srcRank srcGPU dstRank dstGPU dir =>
      unpack_op (DistributedDomain.rank_ dd)
                (srcRank, srcGPU, dstRank, dstGPU, dir)
                (nth myDomain (DistributedDomain.domains_ dd) no_domain) dir q
  end.

Definition recver_domain (r : HaloRecver) : nat :=
  match r with RegionRecver myDomain _ _ _ _ _ => myDomain end.

Definition recver_ops (dd : DistributedDomain.t) (r : HaloRecver) : list Op :=
  let myD := nth (recver_domain r) (DistributedDomain.domains_ dd) no_domain in
  map (recver_op dd r) (seq 0 (Z.to_nat (LocalDomain.num_data myD))).

(** The cells of a direction map in the order of the loops of [send],
    [recv] and [exchange]: [z] outermost, [x] innermost, each over 0..2. *)
Definition cells : list Dim3 := dim3_range (Dim3.mk 3 3 3).

Definition opt_list {A : Type} (o : option A) : list A :=
  match o with Some a => [a] | None => [] end.

(** [void send(const size_t domainIdx)]: the senders found in the map. *)
Definition domain_senders (dd : DistributedDomain.t) (di : nat)
  : list HaloSender :=
  let dirSenders :=
    nth di (DistributedDomain.domainDirSender_ dd) (DirectionMap.fill None) in
  flat_map (fun c => opt_list (DirectionMap.at_ dirSenders (Dim3.x c)
                                 (Dim3.y c) (Dim3.z c) None))
           cells.

(** The receivers found in the map, as the wait loop of [exchange]
    meets them. *)
Definition domain_recvers (dd : DistributedDomain.t) (di : nat)
  : list HaloRecver :=
  let dirRecvers :=
    nth di (DistributedDomain.domainDirRecver_ dd) (DirectionMap.fill None) in
  flat_map (fun c => opt_list (DirectionMap.at_ dirRecvers (Dim3.x c)
                                 (Dim3.y c) (Dim3.z c) None))
           cells.

(** "issue all sends": every local domain, every sender. *)
Definition send_ops (dd : DistributedDomain.t) : list Op :=
  flat_map (fun di => flat_map (sender_ops dd) (domain_senders dd di))
           (seq 0 (length (DistributedDomain.domainDirSender_ dd))).

(** "wait for all sends and recvs": every local domain, every receiver. *)
Definition wait_ops (dd : DistributedDomain.t) : list Op :=
  flat_map (fun di => flat_map (recver_ops dd) (domain_recvers dd di))
           (seq 0 (length (DistributedDomain.domains_ dd))).

(** [void exchange()], run by every rank between the two barriers; the
    ranks are taken one after the other, all sends before the waits.
    [engines] holds the engine of every rank, by rank. *)
Definition exchange (l : Launch) (engines : list DistributedDomain.t)
    (w : World) : option World :=
  run l (flat_map send_ops engines ++ flat_map wait_ops engines) w.

(** ** Locations of the world, and what an operation does to them *)

Inductive Loc : Set :=
| DevLoc (rank : Z) (blk : ptr) (off : Z)
| MailLoc (key : Key) (off : Z).

Definition read (w : World) (a : Loc) : byte :=
  match a with
  | DevLoc r b p => dev w r b p
  | MailLoc k p => message w k p
  end.

(** Byte [p] of an allocation of pitch [size] lies in an element of the
    region of extent [extent] at [pos]. *)
Definition region_covers (e : Z) (size pos extent : Dim3) (p : Z) : Prop :=
  exists i, in_extent extent i /\
            covers e 0 (fun j => linear size (Dim3.add j pos)) i p = true.

(** Byte [p] of a packed buffer lies in an element of the field packed at
    [offset]. *)
Definition packed_covers (e offset : Z) (extent : Dim3) (p : Z) : Prop :=
  exists i, in_extent extent i /\ covers e offset (linear extent) i p = true.

(** The operation may change location [a]. *)
Definition touches (op : Op) (a : Loc) : Prop :=
  match op, a with
  | KTranslate rank dst dstPos dstSize _ _ _ extent e, DevLoc r b p =>
      r = rank /\ b = dst /\ region_covers e dstSize dstPos extent p
  | KPackUnpack rank dst dstPos dstSize _ _ _ extent e, DevLoc r b p =>
      r = rank /\ b = dst /\ region_covers e dstSize dstPos extent p
  | KUnpack rank dst dstPos dstSize extent _ _ e, DevLoc r b p =>
      r = rank /\ b = dst /\ region_covers e dstSize dstPos extent p
  | KPack _ key offset _ _ _ extent e, MailLoc k p =>
      k = key /\ packed_covers e offset extent p
  | _, _ => False
  end.

(** The operation copies location [s] to location [a]. *)
Definition writes (op : Op) (a s : Loc) : Prop :=
  match op with
  | KTranslate rank dst dstPos dstSize src srcPos srcSize extent e
  | KPackUnpack rank dst dstPos dstSize src srcPos srcSize extent e =>
      exists i b,
        in_extent extent i /\ 0 <= b < e /\
        a = DevLoc rank dst (linear dstSize (Dim3.add i dstPos) * e + b) /\
        s = DevLoc rank src (linear srcSize (Dim3.add i srcPos) * e + b)
  | KPack rank key offset src srcPos srcSize extent e =>
      exists i b,
        in_extent extent i /\ 0 <= b < e /\
        a = MailLoc key (offset + linear extent i * e + b) /\
        s = DevLoc rank src (linear srcSize (Dim3.add i srcPos) * e + b)
  | KUnpack rank dst dstPos dstSize extent key offset e =>
      exists i b,
        in_extent extent i /\ 0 <= b < e /\
        a = DevLoc rank dst (linear dstSize (Dim3.add i dstPos) * e + b) /\
        s = MailLoc key (offset + linear extent i * e + b)
  end.

(** The destination region lies within the rows and columns of its
    allocation. *)
Definition region_in_pitch (size pos extent : Dim3) : Prop :=
  forall i, in_extent extent i ->
            0 <= Dim3.x i + Dim3.x pos < Dim3.x size /\
            0 <= Dim3.y i + Dim3.y pos < Dim3.y size.

Definition dst_in_pitch (op : Op) : Prop :=
  match op with
  | KTranslate _ _ dstPos dstSize _ _ _ extent _
  | KPackUnpack _ _ dstPos dstSize _ _ _ extent _
  | KUnpack _ _ dstPos dstSize extent _ _ _ =>
      region_in_pitch dstSize dstPos extent
  | KPack _ _ _ _ _ _ _ _ => True
  end.

(** ** The engines of a run *)

(** An engine as the application leaves it before [realize]: made by the
    constructor on rank [r] with [G] gpus, then given its radius and its
    fields. *)
Definition configured (G : nat) (R : Z) (elems : list Z) (p : PFP.t)
    (r : nat) (dd : DistributedDomain.t) : Prop :=
  DistributedDomain.rank_ dd = Z.of_nat r /\
  DistributedDomain.partition_ dd = p /\
  length (DistributedDomain.gpus_ dd) = G /\
  DistributedDomain.radius_ dd = R /\
  DistributedDomain.dataElemSize_ dd = elems /\
  DistributedDomain.domains_ dd = [] /\
  DistributedDomain.domainIdx_ dd = [].

(** Every rank realizes its engine; [brk r] is the allocator state of
    rank [r] at that point. *)
Definition realize_all (cfg : nat -> DistributedDomain.t) (brk : nat -> Z)
    (W : nat) : list DistributedDomain.t :=
  map (fun r => fst (DistributedDomain.realize (cfg r) (brk r))) (seq 0 W).

Definition no_engine : DistributedDomain.t :=
  DistributedDomain.mk Dim3.zero 0 0 [] 0 [] []
    (PFP.mk 0 0 Dim3.zero Dim3.zero Dim3.zero Dim3.zero) [] [] [] [] [].

(** The engines of a run in its cycle "exchange, kernel, swap": every
    rank has realized its engine and called [swap] [sw r] times since. *)
Definition cycled (sw : nat -> nat) (cfg : nat -> DistributedDomain.t)
    (brk : nat -> Z) (W : nat) : list DistributedDomain.t :=
  map (fun r => Nat.iter (sw r) DistributedDomain.swap
                  (fst (DistributedDomain.realize (cfg r) (brk r))))
      (seq 0 W).

(** The environment of rank [r] of a run of [W] ranks. *)
Definition on_rank (W r : nat) (env : Env) : Prop :=
  env_ok env /\ env_rank env = Z.of_nat r /\ env_worldSize env = Z.of_nat W.

(** The number of gpus the constructor gives a rank in its environment. *)
Definition gpu_count (env : Env) : nat :=
  match DistributedDomain.assign_gpus (env_deviceCount env) (env_shmrank env)
          (env_shmsize env) with
  | Some gpus => length gpus
  | None => 0
  end.

(** What the application does before [realize]: it constructs the engine
    in the environment of its rank, sets the radius and registers the
    fields. *)
Definition configure (env : Env) (size : Dim3) (R : Z) (elems : list Z)
  : DistributedDomain.t :=
  match DistributedDomain.new env (Dim3.x size) (Dim3.y size) (Dim3.z size) with
  | Some dd =>
      fold_left DistributedDomain.add_data elems
                (DistributedDomain.set_radius dd R)
  | None => no_engine
  end.

(** An engine with the rank of another process. *)
Definition rerank (dd : DistributedDomain.t) (r : nat) : DistributedDomain.t :=
  DistributedDomain.mk (DistributedDomain.size_ dd) (Z.of_nat r)
    (DistributedDomain.worldSize_ dd) (DistributedDomain.gpus_ dd)
    (DistributedDomain.radius_ dd) (DistributedDomain.domains_ dd)
    (DistributedDomain.domainIdx_ dd) (DistributedDomain.partition_ dd)
    (DistributedDomain.domainDirSender_ dd)
    (DistributedDomain.domainDirRecver_ dd)
    (DistributedDomain.dataElemSize_ dd) (DistributedDomain.colocated_ dd)
    (DistributedDomain.peerAccess_ dd).

(** The slab of one axis of an allocation a coordinate lies in: the halo
    of the low side, the compute region, or the halo of the high side. *)
Definition side_axis (sz radius c : Z) : Z :=
  if c <? radius then -1 else if c <? radius + sz then 0 else 1.

(** The direction of the region of local domain [d] a point of its
    allocation lies in; the zero direction is the compute region. *)
Definition side (d : LocalDomain.t) (pt : Dim3) : Dim3 :=
  Dim3.mk
    (side_axis (Dim3.x (LocalDomain.sz_ d)) (LocalDomain.radius_ d) (Dim3.x pt))
    (side_axis (Dim3.y (LocalDomain.sz_ d)) (LocalDomain.radius_ d) (Dim3.y pt))
    (side_axis (Dim3.z (LocalDomain.sz_ d)) (LocalDomain.radius_ d) (Dim3.z pt)).

(** The radius fits in every subdomain of the grid. *)
Definition radius_fits (p : PFP.t) (R : Z) : Prop :=
  forall idx, in_extent (PFP.grid p) idx ->
              R <= Dim3.x (PFP.local_domain_size p idx) /\
              R <= Dim3.y (PFP.local_domain_size p idx) /\
              R <= Dim3.z (PFP.local_domain_size p idx).

(** A local domain whose radius and compute size are not negative. *)
Definition shaped (d : LocalDomain.t) : Prop :=
  0 <= LocalDomain.radius_ d /\
  0 <= Dim3.x (LocalDomain.sz_ d) /\ 0 <= Dim3.y (LocalDomain.sz_ d) /\
  0 <= Dim3.z (LocalDomain.sz_ d).

(** The radius is within the compute size on every axis. *)
Definition roomy (d : LocalDomain.t) : Prop :=
  LocalDomain.radius_ d <= Dim3.x (LocalDomain.sz_ d) /\
  LocalDomain.radius_ d <= Dim3.y (LocalDomain.sz_ d) /\
  LocalDomain.radius_ d <= Dim3.z (LocalDomain.sz_ d).


(** Byte [b] of element [i] of a region of field [q] of local domain [d]
    on rank [rank]: the halo region of direction [dir], or its interior
    region; the zero direction is the compute region. *)
Definition region_loc (rank : Z) (d : LocalDomain.t) (q : nat) (dir : Dim3)
    (halo : bool) (i : Dim3) (b : Z) : Loc :=
  DevLoc rank (LocalDomain.curr_data d q)
         (linear (LocalDomain.raw_size d)
                 (Dim3.add i (LocalDomain.halo_pos d dir halo))
          * LocalDomain.elem_size d q + b).

(** ** What an exchange is to achieve *)

(** The compute region of every field of every local subdomain holds in
    [w'] the bytes it holds in [w], and so does the whole of every [next]
    allocation. *)
Definition interior_kept (engines : list DistributedDomain.t) (w w' : World)
  : Prop :=
  forall r j q,
    let E := nth r engines no_engine in
    let D := nth j (DistributedDomain.domains_ E) no_domain in
    (r < length engines)%nat ->
    (j < length (DistributedDomain.domains_ E))%nat ->
    (Z.of_nat q < LocalDomain.num_data D) ->
    (forall i b,
        in_extent (LocalDomain.size D) i ->
        0 <= b < LocalDomain.elem_size D q ->
        read w' (region_loc (DistributedDomain.rank_ E) D q Dim3.zero true i b)
        = read w (region_loc (DistributedDomain.rank_ E) D q Dim3.zero true i b))
    /\
    (forall off,
        dev w' (DistributedDomain.rank_ E) (LocalDomain.next_data D q) off
        = dev w (DistributedDomain.rank_ E) (LocalDomain.next_data D q) off).

(** In [w], the halo region of every non-zero direction [dir] of every
    field of every local subdomain holds the bytes of the interior region
    of direction [-dir] of the subdomain at [(idx + dir) mod gridSize]. *)
Definition halos_filled (engines : list DistributedDomain.t) (w : World)
  : Prop :=
  forall r j q dir i b,
    let E := nth r engines no_engine in
    let D := nth j (DistributedDomain.domains_ E) no_domain in
    let N := DistributedDomain.dst_idx (DistributedDomain.partition_ E)
               (nth j (DistributedDomain.domainIdx_ E) Dim3.zero) dir in
    let EN := nth (Z.to_nat (PFP.get_rank (DistributedDomain.partition_ E) N))
                  engines no_engine in
    let DN := nth (Z.to_nat (PFP.get_gpu (DistributedDomain.partition_ E) N))
                  (DistributedDomain.domains_ EN) no_domain in
    (r < length engines)%nat ->
    (j < length (DistributedDomain.domains_ E))%nat ->
    (Z.of_nat q < LocalDomain.num_data D) ->
    is_dir dir -> dir <> Dim3.zero ->
    in_extent (LocalDomain.halo_extent D dir) i ->
    0 <= b < LocalDomain.elem_size D q ->
    read w (region_loc (DistributedDomain.rank_ E) D q dir true i b)
    = read w (region_loc (DistributedDomain.rank_ EN) DN q (Dim3.neg dir)
                         false i b).

(** ** Two small runs used in examples *)

(** Two ranks with two gpus each on a 5 x 4 x 3 volume, radius 1, a
    4-byte and an 8-byte field. *)
Definition duo_partition : PFP.t :=
  PFP.mk 2 2 (Dim3.mk 5 4 3) (Dim3.mk 1 2 1) (Dim3.mk 2 1 1) (Dim3.mk 3 2 3).

Definition duo_cfg (r : nat) : DistributedDomain.t :=
  DistributedDomain.mk (Dim3.mk 5 4 3) (Z.of_nat r) 2 [0; 1] 1 [] []
    duo_partition [] [] [4; 8] [0; 1] [[true; false]; [true; true]].

Definition duo_brk (r : nat) : Z := 16 * Z.of_nat r.

Definition duo_launch : Launch := mkLaunch (Dim3.mk 2 1 1) (Dim3.mk 2 2 1).

(** The environments of two ranks, each alone on a node with two gpus. *)
Definition duo_env (r : nat) : Env :=
  mkEnv (Z.of_nat r) 2 2 0 1 [Z.of_nat r] (fun _ => Cuda.cudaSuccess)
        (fun src dst => if src =? 0 then 217 else Cuda.cudaSuccess).

(** The environments of two ranks that share a node with three gpus: the
    round robin of the constructor gives rank 0 the gpus 0 and 2 and
    rank 1 the gpu 1. *)
Definition trio_env (r : nat) : Env :=
  mkEnv (Z.of_nat r) 2 3 (Z.of_nat r) 2 [0; 1] (fun _ => Cuda.cudaSuccess)
        (fun _ _ => Cuda.cudaSuccess).

(** Device memory in which every byte tells its block and its offset. *)
Definition marked_world : World :=
  mkWorld (fun r b p => byte.of_Z (r * 97 + b * 64 + p)) (fun _ => None).

(* ================================================================== *)
(** * Further vocabulary for the properties of the library *)
(* ================================================================== *)

(** [n] has no divisor from 2 up to [k], [k] excluded. *)
Definition no_factor_below (k n : Z) : Prop :=
  forall d, 2 <= d < k -> ~ (d | n).

(** The order [std::sort] leaves with the comparison [b < a]. *)
Definition descending (l : list Z) : Prop := Sorted (fun a b => b <= a) l.

(** The partition of a 10^3 volume over four ranks with two gpus each,
    used in examples. *)
Definition duo4_partition : PFP.t :=
  PFP.mk 2 4 (Dim3.mk 10 10 10) (Dim3.mk 1 2 1) (Dim3.mk 2 2 1)
         (Dim3.mk 5 3 10).

(** Point [pt] of the allocation of local domain [d] lies in the halo
    region of direction [dir]; for the zero direction this is the compute
    region. *)
Definition in_region (d : LocalDomain.t) (dir pt : Dim3) : Prop :=
  exists i, in_extent (LocalDomain.halo_extent d dir) i /\
            pt = Dim3.add i (LocalDomain.halo_pos d dir true).

(** Point [pt] lies in the interior region of direction [dir]: the part of
    the compute region that is sent in that direction. *)
Definition in_interior (d : LocalDomain.t) (dir pt : Dim3) : Prop :=
  exists i, in_extent (LocalDomain.halo_extent d dir) i /\
            pt = Dim3.add i (LocalDomain.halo_pos d dir false).

(** Sum of a quantity over the 27 directions. *)
Definition sum_dirs (f : Dim3 -> Z) : Z :=
  fold_right Z.add 0 (map f all_dirs).

(** A local domain with the given compute size and radius, used where
    only the geometry matters. *)
Definition shape_of (sz : Dim3) (radius : Z) : LocalDomain.t :=
  LocalDomain.set_radius (LocalDomain.new sz 0) radius.

(** The products [blockDim * gridDim] of a launch fit an [unsigned int]
    on every axis: the thread index [blockDim * blockIdx + threadIdx] and
    the stride of the grid-stride loops, which the source computes on
    [unsigned int], are then the integers they stand for. *)
Definition launch_fits (l : Launch) : Prop :=
  Dim3.x (blockDim l) * Dim3.x (gridDim l) < 2 ^ 32 /\
  Dim3.y (blockDim l) * Dim3.y (gridDim l) < 2 ^ 32 /\
  Dim3.z (blockDim l) * Dim3.z (gridDim l) < 2 ^ 32.

(** Byte [p] of a buffer lies in no element of the region of extent
    [extent] at [pos] of an allocation of pitch [size] that starts at
    byte [db]. *)
Definition outside_region (e db : Z) (size pos extent : Dim3) (p : Z) : Prop :=
  forall i, in_extent extent i ->
            covers e db (fun j => linear size (Dim3.add j pos)) i p = false.

(** Device memory after the bytes of block [blk] have become [buf]. *)
Definition set_mem (m : Memory) (blk : ptr) (buf : buffer) : Memory :=
  fun b => if b =? blk then buf else m b.

(** A launch of a kernel that works on several blocks: the threads are
    taken one after the other, as in [launch]. *)
Definition launch_mem (l : Launch) (kernel : Dim3 -> Dim3 -> Memory -> Memory)
    (m : Memory) : Memory :=
  fold_left (fun m bt => kernel (fst bt) (snd bt) m) (threads l) m.

(** The body of [multi_translate], as one thread runs it:
    [for (i = 0; i < n; ++i) translate_grid(dsts[i], ..., srcs[i], ...,
    elemSizes[i])].  The three arrays hold at least [n] entries; a pointer
    is the block it points to the start of. *)
Definition multi_translate_body (l : Launch) (blockIdx threadIdx : Dim3)
    (m : Memory) (dsts : list ptr) (dstPos dstSize : Dim3) (srcs : list ptr)
    (srcPos srcSize extent : Dim3) (elemSizes : list Z) (n : nat) : Memory :=
  fold_left
    (fun m i =>
       set_mem m (nth i dsts 0)
         (translate_grid l blockIdx threadIdx (m (nth i dsts 0)) 0 dstPos
            dstSize (m (nth i srcs 0)) 0 srcPos srcSize extent
            (nth i elemSizes 0)))
    (seq 0 n) m.

(** [multi_translate<<<grid, block>>>(dsts, dstPos, dstSize, srcs, srcPos,
    srcSize, extent, elemSizes, n)] *)
Definition multi_translate (l : Launch) (m : Memory) (dsts : list ptr)
    (dstPos dstSize : Dim3) (srcs : list ptr) (srcPos srcSize extent : Dim3)
    (elemSizes : list Z) (n : nat) : Memory :=
  launch_mem l
    (fun b t m' =>
       multi_translate_body l b t m' dsts dstPos dstSize srcs srcPos srcSize
                            extent elemSizes n) m.

(** The body of [multi_unpack], as one thread runs it:
    [for (i = 0; i < n; ++i) grid_unpack(dsts[i], ..., &src[offsets[i]],
    elemSizes[i])]. *)
Definition multi_unpack_body (l : Launch) (blockIdx threadIdx : Dim3)
    (m : Memory) (dsts : list ptr) (dstSize dstPos dstExtent : Dim3)
    (src : ptr) (offsets elemSizes : list Z) (n : nat) : Memory :=
  fold_left
    (fun m i =>
       set_mem m (nth i dsts 0)
         (grid_unpack l blockIdx threadIdx (m (nth i dsts 0)) 0 dstSize dstPos
            dstExtent (m src) (nth i offsets 0) (nth i elemSizes 0)))
    (seq 0 n) m.

(** [multi_unpack<<<grid, block>>>(dsts, dstSize, dstPos, dstExtent, src,
    offsets, elemSizes, n)] *)
Definition multi_unpack (l : Launch) (m : Memory) (dsts : list ptr)
    (dstSize dstPos dstExtent : Dim3) (src : ptr) (offsets elemSizes : list Z)
    (n : nat) : Memory :=
  launch_mem l
    (fun b t m' =>
       multi_unpack_body l b t m' dsts dstSize dstPos dstExtent src offsets
                         elemSizes n) m.

(** [domainDirSender_[di].at_dir(dir.x, dir.y, dir.z)] and
    [domainDirRecver_[di].at_dir(dir.x, dir.y, dir.z)]: the entries
    [realize] stores the sender and the receiver of a direction in. *)
Definition sender_at (dd : DistributedDomain.t) (di : nat) (dir : Dim3)
  : option HaloSender :=
  DirectionMap.at_dir
    (nth di (DistributedDomain.domainDirSender_ dd) (DirectionMap.fill None))
    (Dim3.x dir) (Dim3.y dir) (Dim3.z dir) None.

Definition recver_at (dd : DistributedDomain.t) (di : nat) (dir : Dim3)
  : option HaloRecver :=
  DirectionMap.at_dir
    (nth di (DistributedDomain.domainDirRecver_ dd) (DirectionMap.fill None))
    (Dim3.x dir) (Dim3.y dir) (Dim3.z dir) None.

(** The value of an [int] expression: a 32-bit two's complement integer. *)
Definition int32 (v : Z) : Z := (v + 2 ^ 31) mod 2 ^ 32 - 2 ^ 31.

(** [pack_xyz], [unpack_x], [unpack_y] and [unpack_z] of the exchange
    test: three 10-bit coordinates in one [int].  [>>] on a negative
    [int] is the arithmetic shift. *)
Definition pack_xyz (x y z : Z) : Z :=
  let ret := 0 in
  let ret := Z.lor ret (Z.land x 1023) in
  let ret := Z.lor ret (int32 (Z.shiftl (Z.land y 1023) 10)) in
  let ret := Z.lor ret (int32 (Z.shiftl (Z.land z 1023) 20)) in
  ret.

Definition unpack_x (a : Z) : Z := Z.land a 1023.
Definition unpack_y (a : Z) : Z := Z.land (Z.shiftr a 10) 1023.
Definition unpack_z (a : Z) : Z := Z.land (Z.shiftr a 20) 1023.

(** The blocks of a heap are among those handed out. *)
Definition heap_ok (h : Array.Heap) : Prop :=
  0 <= Array.brk h /\ Forall (fun b => 1 <= b <= Array.brk h) (Array.live h).

(** An array holds no block exactly when it has no element, and the block
    it holds is live. *)
Definition owns (a : Array.t) (h : Array.Heap) : Prop :=
  (Array.data_ a = nullptr <-> Dim3.flatten (Array.size_ a) = 0) /\
  (Array.data_ a <> nullptr -> In (Array.data_ a) (Array.live h)).

(** A size an array can have: no negative extent, and a number of
    elements that fits a [size_t]. *)
Definition array_size (d : Dim3) : Prop :=
  0 <= Dim3.x d /\ 0 <= Dim3.y d /\ 0 <= Dim3.z d /\ Dim3.flatten d < 2 ^ 64.

(** What [resize(d)] leaves when it returns: the array has size [d] and
    owns its block; the block it held is freed when the size differs, no
    other block is allocated or freed; nothing changes when the size is
    the one the array has. *)
Definition resized (a : Array.t) (h : Array.Heap) (d : Dim3)
    (a' : Array.t) (h' : Array.Heap) : Prop :=
  Array.size_ a' = d /\
  owns a' h' /\
  heap_ok h' /\
  (forall b, b <> Array.data_ a -> b <> Array.data_ a' ->
             (In b (Array.live h') <-> In b (Array.live h))) /\
  (d <> Array.size_ a -> ~ In (Array.data_ a) (Array.live h')) /\
  (d = Array.size_ a -> a' = a /\ h' = h).

(** What [resize(d)] leaves when [new T[n]] throws: the request could
    not be served; the array still reports the size it had, but holds no
    block any more: the block it held is freed, and no other block is
    allocated or freed. *)
Definition resize_failed (sizeofT : Z) (a : Array.t) (h : Array.Heap)
    (d : Dim3) (a' : Array.t) (h' : Array.Heap) : Prop :=
  d <> Array.size_ a /\
  0 < Dim3.flatten d /\
  Array.new_array h' (Dim3.flatten d) sizeofT = None /\
  Array.size_ a' = Array.size_ a /\
  Array.data_ a' = nullptr /\
  heap_ok h' /\
  (forall b, b <> Array.data_ a ->
             (In b (Array.live h') <-> In b (Array.live h))) /\
  ~ In (Array.data_ a) (Array.live h').
(* ================================================================== *)
(** * Partitioner: arithmetic lemmas *)
(* ================================================================== *)

Section PartitionArith.

Lemma div_ceil_div (n d : Z) :
  0 <= n -> 0 < d -> PFP.div_ceil n d = (n + d - 1) / d.
Proof.
  intros Hn Hd. unfold PFP.div_ceil. apply Z.quot_div_nonneg; lia.
Qed.

Lemma div_ceil_pos (n d : Z) : 1 <= n -> 0 < d -> 1 <= PFP.div_ceil n d.
Proof.
  intros Hn Hd. rewrite div_ceil_div by lia.
  apply Z.div_le_lower_bound; lia.
Qed.

(** Splitting by [a] and then by [f] is splitting by [a * f]. *)
Lemma div_ceil_twice (n a f : Z) :
  0 <= n -> 0 < a -> 0 < f ->
  PFP.div_ceil (PFP.div_ceil n a) f = PFP.div_ceil n (a * f).
Proof.
  intros Hn Ha Hf.
  assert (H0 : 0 <= (n + a - 1) / a) by (apply Z.div_pos; lia).
  rewrite (div_ceil_div n a), (div_ceil_div n (a * f)) by nia.
  rewrite div_ceil_div by lia.
  replace ((n + a - 1) / a + f - 1) with ((n + a - 1 + (f - 1) * a) / a)
    by (rewrite Z.div_add by lia; lia).
  rewrite Z.div_div by lia.
  f_equal. lia.
Qed.

Lemma div_ceil_one (n : Z) : 0 <= n -> PFP.div_ceil n 1 = n.
Proof.
  intros Hn. rewrite div_ceil_div by lia.
  replace (n + 1 - 1) with n by lia. apply Z.div_1_r.
Qed.

End PartitionArith.

(* ================================================================== *)
(** * Partitioner: [prime_factors] returns *)
(* ================================================================== *)

Section PrimeFactorsTotal.

Lemma strip_returns (fuel : nat) :
  forall i n result,
    1 <= n -> 2 <= i -> (Z.to_nat n < fuel)%nat ->
    exists result' n',
      PFP.strip fuel i n result = Some (result', n') /\ 1 <= n' <= n.
Proof.
  induction fuel as [|k IH]; intros i n result Hn Hi Hfuel; [lia|].
  cbn [PFP.strip].
  rewrite Z.rem_mod_nonneg, Z.quot_div_nonneg by lia.
  destruct (Z.eqb_spec (n mod i) 0) as [Hdiv|Hndiv].
  - assert (Hq : 1 <= n / i < n).
    { pose proof (Z.div_mod n i ltac:(lia)) as Hdm.
      pose proof (Z.div_pos n i ltac:(lia) ltac:(lia)) as Hpos.
      rewrite Hdiv in Hdm. split; [nia|].
      apply Z.div_lt; lia. }
    destruct (IH i (n / i) (result ++ [i])) as (r' & n' & Heq & Hb);
      try lia.
    exists r', n'. split; [exact Heq | lia].
  - exists result, n. split; [reflexivity | lia].
Qed.

Lemma odd_factors_returns (fuel : nat) :
  forall i n result,
    1 <= n -> 3 <= i -> (Z.to_nat (n + 1 - i) < fuel)%nat ->
    exists result' n', PFP.odd_factors fuel i n result = Some (result', n').
Proof.
  induction fuel as [|k IH]; intros i n result Hn Hi Hfuel; [lia|].
  cbn [PFP.odd_factors].
  destruct (Z.leb_spec (i * i) n) as [Hle|Hgt].
  - destruct (strip_returns (S (Z.to_nat n)) i n result)
      as (r1 & n1 & Heq & Hb); try lia.
    rewrite Heq.
    apply IH; try lia. nia.
  - eauto.
Qed.

Lemma prime_factors_returns (n : Z) :
  1 <= n -> exists factors, PFP.prime_factors n = Some factors.
Proof.
  intros Hn. unfold PFP.prime_factors.
  destruct (strip_returns (S (Z.to_nat n)) 2 n []) as (r1 & n1 & Heq & Hb);
    try lia.
  rewrite Heq.
  destruct (odd_factors_returns (S (Z.to_nat n1)) 3 n1 r1)
    as (r2 & n2 & Heq2); try lia.
  rewrite Heq2. eauto.
Qed.

End PrimeFactorsTotal.

(* ================================================================== *)
(** * Partitioner: invariant of the splitting loops *)
(* ================================================================== *)

Section SplitInvariant.

(** Global extent being partitioned. *)
Variable size : Dim3.
Hypothesis size_x : 1 <= Dim3.x size.
Hypothesis size_y : 1 <= Dim3.y size.
Hypothesis size_z : 1 <= Dim3.z size.

Variable base : Dim3.
Hypothesis base_x : 1 <= Dim3.x base.
Hypothesis base_y : 1 <= Dim3.y base.
Hypothesis base_z : 1 <= Dim3.z base.

Lemma split_step_inv (st : Dim3 * Dim3) (amt : Z) :
  split_inv size base st -> split_inv size base (PFP.split_step st amt).
Proof.
  destruct st as [domSize dim]. intros Hinv.
  unfold PFP.split_step.
  destruct (Z.ltb_spec amt 2) as [Hlt|Hge]; [exact Hinv|].
  destruct Hinv as ((Hx & Hy & Hz) & Ex & Ey & Ez).
  destruct (PFP.split_axis domSize amt); cbn [split_inv Dim3.x Dim3.y Dim3.z];
    repeat split; try nia; try assumption.
  - rewrite Ex, div_ceil_twice by nia. f_equal. ring.
  - rewrite Ey, div_ceil_twice by nia. f_equal. ring.
  - rewrite Ez, div_ceil_twice by nia. f_equal. ring.
Qed.

Lemma fold_split_inv (factors : list Z) :
  forall st, split_inv size base st ->
             split_inv size base (fold_left PFP.split_step factors st).
Proof.
  induction factors as [|amt factors IH]; intros st Hinv; cbn [fold_left].
  - exact Hinv.
  - apply IH, split_step_inv, Hinv.
Qed.

End SplitInvariant.

(* ================================================================== *)
(** * Partitioner: the constructed partition *)
(* ================================================================== *)

Section Constructed.

Lemma new_shape (size : Dim3) (ranks gpus : Z) :
  1 <= Dim3.x size -> 1 <= Dim3.y size -> 1 <= Dim3.z size ->
  1 <= ranks -> 1 <= gpus ->
  exists p,
    PFP.new size ranks gpus = Some p /\
    PFP.size_ p = size /\
    (1 <= Dim3.x (PFP.grid p) /\ 1 <= Dim3.y (PFP.grid p)
     /\ 1 <= Dim3.z (PFP.grid p)) /\
    Dim3.x (PFP.domSize_ p) = PFP.div_ceil (Dim3.x size) (Dim3.x (PFP.grid p)) /\
    Dim3.y (PFP.domSize_ p) = PFP.div_ceil (Dim3.y size) (Dim3.y (PFP.grid p)) /\
    Dim3.z (PFP.domSize_ p) = PFP.div_ceil (Dim3.z size) (Dim3.z (PFP.grid p)).
Proof.
  intros Hx Hy Hz Hr Hg. unfold PFP.new.
  destruct (prime_factors_returns ranks Hr) as (rankFactors & ->).
  destruct (prime_factors_returns gpus Hg) as (gpuFactors & ->).
  unfold PFP.split_all.
  pose proof (fold_split_inv size Hx Hy Hz (Dim3.mk 1 1 1)
                ltac:(cbn; lia) ltac:(cbn; lia) ltac:(cbn; lia)
                rankFactors (size, Dim3.mk 1 1 1)) as H1.
  destruct (fold_left PFP.split_step rankFactors (size, Dim3.mk 1 1 1))
    as [domSize1 rankDim].
  assert (Hinv1 : split_inv size (Dim3.mk 1 1 1) (domSize1, rankDim)).
  { apply H1. cbn. rewrite !div_ceil_one by lia. lia. }
  clear H1. destruct Hinv1 as ((Rx & Ry & Rz) & Ex & Ey & Ez).
  cbn [Dim3.x Dim3.y Dim3.z] in Ex, Ey, Ez.
  pose proof (fold_split_inv size Hx Hy Hz rankDim Rx Ry Rz
                gpuFactors (domSize1, Dim3.mk 1 1 1)) as H2.
  destruct (fold_left PFP.split_step gpuFactors (domSize1, Dim3.mk 1 1 1))
    as [domSize2 gpuDim].
  assert (Hinv2 : split_inv size rankDim (domSize2, gpuDim)).
  { apply H2. cbn. rewrite Ex, Ey, Ez.
    rewrite !Z.mul_1_l, !Z.mul_1_r. lia. }
  clear H2. destruct Hinv2 as ((Gx & Gy & Gz) & Fx & Fy & Fz).
  eexists. split; [reflexivity|].
  unfold PFP.grid. cbn.
  repeat split; try nia; assumption.
Qed.

(** Both grids have at least one cell on every axis. *)
Lemma new_dims (size : Dim3) (ranks gpus : Z) :
  1 <= Dim3.x size -> 1 <= Dim3.y size -> 1 <= Dim3.z size ->
  1 <= ranks -> 1 <= gpus ->
  exists p,
    PFP.new size ranks gpus = Some p /\
    (1 <= Dim3.x (PFP.rankDim_ p) /\ 1 <= Dim3.y (PFP.rankDim_ p)
     /\ 1 <= Dim3.z (PFP.rankDim_ p)) /\
    (1 <= Dim3.x (PFP.gpuDim_ p) /\ 1 <= Dim3.y (PFP.gpuDim_ p)
     /\ 1 <= Dim3.z (PFP.gpuDim_ p)).
Proof.
  intros Hx Hy Hz Hr Hg. unfold PFP.new.
  destruct (prime_factors_returns ranks Hr) as (rankFactors & ->).
  destruct (prime_factors_returns gpus Hg) as (gpuFactors & ->).
  unfold PFP.split_all.
  pose proof (fold_split_inv size Hx Hy Hz (Dim3.mk 1 1 1)
                ltac:(cbn; lia) ltac:(cbn; lia) ltac:(cbn; lia)
                rankFactors (size, Dim3.mk 1 1 1)) as H1.
  destruct (fold_left PFP.split_step rankFactors (size, Dim3.mk 1 1 1))
    as [domSize1 rankDim].
  assert (Hinv1 : split_inv size (Dim3.mk 1 1 1) (domSize1, rankDim)).
  { apply H1. cbn. rewrite !div_ceil_one by lia. lia. }
  clear H1. destruct Hinv1 as ((Rx & Ry & Rz) & Ex & Ey & Ez).
  cbn [Dim3.x Dim3.y Dim3.z] in Ex, Ey, Ez.
  pose proof (fold_split_inv size Hx Hy Hz rankDim Rx Ry Rz
                gpuFactors (domSize1, Dim3.mk 1 1 1)) as H2.
  destruct (fold_left PFP.split_step gpuFactors (domSize1, Dim3.mk 1 1 1))
    as [domSize2 gpuDim].
  assert (Hinv2 : split_inv size rankDim (domSize2, gpuDim)).
  { apply H2. cbn. rewrite Ex, Ey, Ez.
    rewrite !Z.mul_1_l, !Z.mul_1_r. lia. }
  clear H2. destruct Hinv2 as ((Gx & Gy & Gz) & Fx & Fy & Fz).
  eexists. split; [reflexivity|].
  cbn. repeat split; assumption.
Qed.

End Constructed.

(* ================================================================== *)
(** * Partitioner: distribution of the remainder *)
(* ================================================================== *)

Section Remainder.

Lemma Zsum_succ (n : nat) (f : Z -> Z) :
  Zsum (Z.of_nat (S n)) f = Zsum (Z.of_nat n) f + f (Z.of_nat n).
Proof.
  unfold Zsum. rewrite !Nat2Z.id, seq_S, map_app. cbn [map Nat.add].
  generalize (map (fun i : nat => f (Z.of_nat i)) (seq 0 n)) as l.
  induction l as [|a l IH]; cbn [fold_right app]; [lia|].
  rewrite IH. lia.
Qed.

(** Sum of [g] local sizes of which those from index [r] on are one
    smaller, when [r] is not zero. *)
Lemma Zsum_step_down (base r : Z) (n : nat) :
  0 <= r ->
  Zsum (Z.of_nat n)
    (fun i => base - (if negb (r =? 0) && (r <=? i) then 1 else 0))
  = Z.of_nat n * base
    - (if r =? 0 then 0 else Z.max 0 (Z.of_nat n - r)).
Proof.
  intros Hr. induction n as [|n IH].
  - cbn. destruct (r =? 0); lia.
  - rewrite Zsum_succ, IH.
    destruct (Z.eqb_spec r 0) as [->|Hne]; cbn [negb andb]; [lia|].
    destruct (Z.leb_spec r (Z.of_nat n)); lia.
Qed.

Lemma axis_distributes_intro (extent g base : Z) (local : Z -> Z) :
  1 <= extent -> 1 <= g ->
  base = PFP.div_ceil extent g ->
  (forall i, local i =
             base - (if negb (Z.rem extent g =? 0) && (Z.rem extent g <=? i)
                     then 1 else 0)) ->
  axis_distributes extent g base local.
Proof.
  intros He Hg Hbase Hlocal.
  rewrite div_ceil_div in Hbase by lia.
  rewrite Z.rem_mod_nonneg in Hlocal by lia.
  pose proof (Z.mod_pos_bound extent g ltac:(lia)) as Hrem.
  pose proof (Z.div_mod extent g ltac:(lia)) as Hdm.
  repeat split; try assumption.
  unfold Zsum.
  erewrite map_ext by (intros; apply Hlocal).
  fold (Zsum g (fun i => base - (if negb (extent mod g =? 0)
                                    && (extent mod g <=? i)
                                 then 1 else 0))).
  rewrite <- (Z2Nat.id g) at 1 by lia.
  rewrite Zsum_step_down by lia.
  rewrite Z2Nat.id by lia.
  assert (Hq : base = extent / g + (if extent mod g =? 0 then 0 else 1)).
  { rewrite Hbase.
    destruct (Z.eqb_spec (extent mod g) 0) as [H0|Hn0].
    - symmetry. apply Z.div_unique with (r := g - 1); lia.
    - symmetry. apply Z.div_unique with (r := extent mod g - 1); lia. }
  rewrite Hq.
  destruct (Z.eqb_spec (extent mod g) 0); nia.
Qed.

End Remainder.

(* ================================================================== *)
(** * Partitioner: local sizes and the choice of axis *)
(* ================================================================== *)

Section PartitionSizes.

Lemma local_domain_size_x (p : PFP.t) (idx : Dim3) :
  Dim3.x (PFP.local_domain_size p idx) =
  Dim3.x (PFP.domSize_ p)
  - (if negb (Z.rem (Dim3.x (PFP.size_ p)) (Dim3.x (PFP.grid p)) =? 0)
        && (Z.rem (Dim3.x (PFP.size_ p)) (Dim3.x (PFP.grid p)) <=? Dim3.x idx)
     then 1 else 0).
Proof.
  unfold PFP.local_domain_size, PFP.grid. cbn [Dim3.x Dim3.rem Dim3.mul].
  destruct (negb _ && _); lia.
Qed.

Lemma local_domain_size_y (p : PFP.t) (idx : Dim3) :
  Dim3.y (PFP.local_domain_size p idx) =
  Dim3.y (PFP.domSize_ p)
  - (if negb (Z.rem (Dim3.y (PFP.size_ p)) (Dim3.y (PFP.grid p)) =? 0)
        && (Z.rem (Dim3.y (PFP.size_ p)) (Dim3.y (PFP.grid p)) <=? Dim3.y idx)
     then 1 else 0).
Proof.
  unfold PFP.local_domain_size, PFP.grid. cbn [Dim3.y Dim3.rem Dim3.mul].
  destruct (negb _ && _); lia.
Qed.

Lemma local_domain_size_z (p : PFP.t) (idx : Dim3) :
  Dim3.z (PFP.local_domain_size p idx) =
  Dim3.z (PFP.domSize_ p)
  - (if negb (Z.rem (Dim3.z (PFP.size_ p)) (Dim3.z (PFP.grid p)) =? 0)
        && (Z.rem (Dim3.z (PFP.size_ p)) (Dim3.z (PFP.grid p)) <=? Dim3.z idx)
     then 1 else 0).
Proof.
  unfold PFP.local_domain_size, PFP.grid. cbn [Dim3.z Dim3.rem Dim3.mul].
  destruct (negb _ && _); lia.
Qed.

(** C3.  For every global extent (X,Y,Z) >= 1, rank count W >= 1 and
    gpus-per-rank count G >= 1 the constructor returns a partition, and
    along each axis the local sizes of the subdomains of the
    (rankDim * gpuDim) grid add up to the global extent on that axis: the
    split size is ceil(extent / grid), and when extent mod grid is not
    zero exactly the subdomains whose axis index is at least that
    remainder are one smaller. *)
Theorem local_sizes_sum_to_global (X Y Z W G : Z) :
  1 <= X -> 1 <= Y -> 1 <= Z -> 1 <= W -> 1 <= G ->
  partition_sums (Dim3.mk X Y Z) W G.
Proof.
  intros HX HY HZ HW HG.
  destruct (new_shape (Dim3.mk X Y Z) W G HX HY HZ HW HG)
    as (p & Hnew & Hsize & (Gx & Gy & Gz) & Ex & Ey & Ez).
  exists p. split; [exact Hnew|]. split; [exact Hsize|].
  cbn [Dim3.x Dim3.y Dim3.z] in *.
  refine (conj _ (conj _ _)); intros; apply axis_distributes_intro;
    try assumption; intros i.
  - rewrite local_domain_size_x, Hsize. reflexivity.
  - rewrite local_domain_size_y, Hsize. reflexivity.
  - rewrite local_domain_size_z, Hsize. reflexivity.
Qed.

Lemma local_sizes_sum_to_global_witness : partition_sums (Dim3.mk 7 5 3) 4 1.
Proof.
  apply (local_sizes_sum_to_global 7 5 3 4 1); lia.
Defined.

(** C10.  Each component of the size returned by [local_domain_size] is
    the base split size [domSize_] or [domSize_ - 1] and is never
    negative, so any two local sizes differ by at most 1 on each axis. *)
Theorem local_size_near_base (X Y Z W G : Z) :
  1 <= X -> 1 <= Y -> 1 <= Z -> 1 <= W -> 1 <= G ->
  partition_balanced (Dim3.mk X Y Z) W G.
Proof.
  intros HX HY HZ HW HG.
  destruct (new_shape (Dim3.mk X Y Z) W G HX HY HZ HW HG)
    as (p & Hnew & Hsize & (Gx & Gy & Gz) & Ex & Ey & Ez).
  cbn [Dim3.x Dim3.y Dim3.z] in *.
  pose proof (div_ceil_pos X (Dim3.x (PFP.grid p)) HX ltac:(lia)) as Px.
  pose proof (div_ceil_pos Y (Dim3.y (PFP.grid p)) HY ltac:(lia)) as Py.
  pose proof (div_ceil_pos Z (Dim3.z (PFP.grid p)) HZ ltac:(lia)) as Pz.
  rewrite <- Ex in Px. rewrite <- Ey in Py. rewrite <- Ez in Pz.
  exists p. split; [exact Hnew|].
  split.
  - intros idx. cbn zeta. unfold near_base.
    rewrite local_domain_size_x, local_domain_size_y, local_domain_size_z.
    repeat match goal with |- context [if ?b then _ else _] => destruct b end;
      lia.
  - intros idx1 idx2. cbn zeta.
    rewrite !local_domain_size_x, !local_domain_size_y, !local_domain_size_z.
    repeat match goal with |- context [if ?b then _ else _] => destruct b end;
      lia.
Qed.

Lemma local_size_near_base_witness : partition_balanced (Dim3.mk 7 5 3) 4 2.
Proof.
  apply (local_size_near_base 7 5 3 4 2); lia.
Defined.

(** S3 of the spec, evaluated: 7 x 5 x 3 over 4 ranks. *)
Example odd_partition_sizes :
  match PFP.new (Dim3.mk 7 5 3) 4 1 with
  | Some p =>
      PFP.rank_dim p = Dim3.mk 2 2 1 /\
      map (fun ix => PFP.local_domain_size p (Dim3.mk ix 0 0)) [0; 1]
      = [Dim3.mk 4 3 3; Dim3.mk 3 3 3]
  | None => False
  end.
Proof. vm_compute. split; reflexivity. Qed.

(** C2, evaluated on the code.  16^3 over one rank with 8 gpus (S6 of
    the spec): after two splits the running extent is (8,8,16); the
    z split has the largest cubeness (1 against 1/4 and 1/4), the spec's
    rule picks z, and the constructor's test picks y, giving a 2 x 4 x 1
    gpu grid instead of 2 x 2 x 2. *)
Theorem split_axis_misses_largest :
  PFP.spec_split_axis (Dim3.mk 8 8 16) 2 = PFP.AxisZ /\
  PFP.split_axis (Dim3.mk 8 8 16) 2 = PFP.AxisY /\
  (exists p, PFP.new (Dim3.mk 16 16 16) 1 8 = Some p /\
             PFP.gpu_dim p = Dim3.mk 2 4 1 /\
             PFP.domSize_ p = Dim3.mk 8 4 16) /\
  PFP.spec_split_axis (Dim3.mk 4 6 8) 2 = PFP.AxisZ /\
  PFP.split_axis (Dim3.mk 4 6 8) 2 = PFP.AxisY.
Proof.
  repeat split; try (vm_compute; reflexivity).
  eexists. split; [vm_compute; reflexivity|]. split; reflexivity.
Qed.

End PartitionSizes.

(* ================================================================== *)
(** * Local subdomain geometry: halo extents *)
(* ================================================================== *)

Section HaloExtent.

Lemma halo_extent_of_neg (dir sz : Dim3) (radius : Z) :
  LocalDomain.halo_extent_of (Dim3.neg dir) sz radius
  = LocalDomain.halo_extent_of dir sz radius.
Proof.
  unfold LocalDomain.halo_extent_of, Dim3.neg. cbn [Dim3.x Dim3.y Dim3.z].
  f_equal;
    match goal with
    | |- (if negb (- ?a =? 0) then _ else _) = _ =>
        destruct (Z.eqb_spec (- a) 0), (Z.eqb_spec a 0); cbn; lia
    end.
Qed.

Lemma halo_extent_sym_neg (dir sz : Dim3) (radius : Radius.t) :
  Radius.symmetric radius ->
  LocalDomainR.halo_extent (Dim3.neg dir) sz radius
  = LocalDomainR.halo_extent dir sz radius.
Proof.
  intros (Hx & Hy & Hz).
  unfold LocalDomainR.halo_extent, Dim3.neg, Radius.x, Radius.y, Radius.z.
  cbn [Dim3.x Dim3.y Dim3.z]. rewrite Hx, Hy, Hz.
  f_equal;
    match goal with
    | |- (if 0 =? - ?a then _ else _) = _ =>
        destruct (Z.eqb_spec 0 (- a)), (Z.eqb_spec 0 a); try lia;
        try reflexivity;
        destruct (- a <? 0), (a <? 0); reflexivity
    end.
Qed.

(** C4, as amended.  With a scalar radius the halo extent of [d] and of
    [-d] hold the same number of points, for every [d] and size; with a
    per-axis per-side radius they do whenever the radius is the same on
    the two sides of each axis. *)
Theorem halo_extent_flatten_opposite :
  (forall (dir sz : Dim3) (radius : Z),
      Dim3.flatten (LocalDomain.halo_extent_of dir sz radius)
      = Dim3.flatten (LocalDomain.halo_extent_of (Dim3.neg dir) sz radius)) /\
  (forall (dir sz : Dim3) (radius : Radius.t),
      Radius.symmetric radius ->
      Dim3.flatten (LocalDomainR.halo_extent dir sz radius)
      = Dim3.flatten (LocalDomainR.halo_extent (Dim3.neg dir) sz radius)).
Proof.
  split.
  - intros. now rewrite halo_extent_of_neg.
  - intros dir sz radius Hsym. now rewrite halo_extent_sym_neg.
Qed.

(** C4 as stated fails for an asymmetric radius: with thickness 1 on the
    -x side and 2 on the +x side of a 4^3 compute region, the +x halo has
    32 points and the -x halo 16. *)
Lemma halo_extent_flatten_asymmetric :
  let radius := Radius.mk 1 2 1 1 1 1 in
  let sz := Dim3.mk 4 4 4 in
  let dir := Dim3.mk 1 0 0 in
  is_dir dir /\
  Dim3.flatten (LocalDomainR.halo_extent dir sz radius) = 32 /\
  Dim3.flatten (LocalDomainR.halo_extent (Dim3.neg dir) sz radius) = 16 /\
  Dim3.flatten (LocalDomainR.halo_extent dir sz radius)
  <> Dim3.flatten (LocalDomainR.halo_extent (Dim3.neg dir) sz radius).
Proof.
  cbn. unfold is_dir. cbn. repeat split; lia.
Qed.

Lemma halo_extent_flatten_opposite_witness :
  Radius.symmetric (Radius.constant 3) /\
  Dim3.flatten (LocalDomainR.halo_extent (Dim3.mk 1 (-1) 0) (Dim3.mk 16 16 16)
                  (Radius.constant 3))
  = Dim3.flatten (LocalDomainR.halo_extent (Dim3.neg (Dim3.mk 1 (-1) 0))
                    (Dim3.mk 16 16 16) (Radius.constant 3)).
Proof.
  split.
  - cbn. repeat split.
  - apply (proj2 halo_extent_flatten_opposite). cbn. repeat split.
Defined.

End HaloExtent.

(* ================================================================== *)
(** * Topology probe *)
(* ================================================================== *)

Section Loops.

Context {S : Type}.

(** Invariant rule for [for_range]: the loop returns, and the invariant
    holds at the end, when every iteration returns and carries it on. *)
Lemma for_range_inv (P : nat -> S -> Prop) (body : nat -> S -> option S) :
  forall n i s,
    P i s ->
    (forall j t, (i <= j < i + n)%nat -> P j t ->
                 exists t', body j t = Some t' /\ P (Datatypes.S j) t') ->
    exists s', for_range i n body s = Some s' /\ P (i + n)%nat s'.
Proof.
  induction n as [|n IH]; intros i s Hi Hstep; cbn [for_range].
  - exists s. rewrite Nat.add_0_r. auto.
  - destruct (Hstep i s ltac:(lia) Hi) as (t' & -> & Ht').
    destruct (IH (Datatypes.S i) t' Ht') as (s' & Hs' & HP).
    + intros j t Hj. apply Hstep. lia.
    + exists s'. split; [exact Hs'|].
      replace (i + Datatypes.S n)%nat with (Datatypes.S i + n)%nat by lia.
      exact HP.
Qed.

End Loops.

Section SetNth.

Context {A : Type}.

Lemma length_set_nth (i : nat) (a : A) (l : list A) :
  length (set_nth i a l) = length l.
Proof.
  revert i. induction l as [|b l IH]; intros [|i]; cbn; auto.
Qed.

Lemma nth_set_nth_eq (i : nat) (a d : A) (l : list A) :
  (i < length l)%nat -> nth i (set_nth i a l) d = a.
Proof.
  revert i. induction l as [|b l IH]; intros [|i] Hi; cbn in *; try lia; auto.
  apply IH. lia.
Qed.

Lemma nth_set_nth_ne (i j : nat) (a d : A) (l : list A) :
  i <> j -> nth j (set_nth i a l) d = nth j l d.
Proof.
  revert i j. induction l as [|b l IH]; intros [|i] [|j] Hij; cbn; auto; try lia.
Qed.

End SetNth.

Section Probe.

Variable env : Env.

Let n : nat := Z.to_nat (env_deviceCount env).

(** The matrix keeps [n] rows of [n] cells. *)
Definition square (m : list (list bool)) : Prop :=
  length m = n /\ forall r, (r < n)%nat -> length (nth r m []) = n.

Definition cell (m : list (list bool)) (src dst : nat) : bool :=
  nth dst (nth src m []) false.

Definition expected (src dst : nat) : bool :=
  if (src =? dst)%nat then true
  else peer_enabled (env_enablePeer env (Z.of_nat src) (Z.of_nat dst)).

Lemma set_peer_square m src dst v :
  square m -> (src < n)%nat -> square (DistributedDomain.set_peer m src dst v).
Proof.
  intros (Hlen & Hrows) Hsrc. unfold DistributedDomain.set_peer. split.
  - now rewrite length_set_nth.
  - intros r Hr. destruct (Nat.eq_dec src r) as [->|Hne].
    + rewrite nth_set_nth_eq by lia. rewrite length_set_nth. auto.
    + rewrite nth_set_nth_ne by exact Hne. auto.
Qed.

Lemma cell_set_peer m src dst v src' dst' :
  square m -> (src < n)%nat -> (dst < n)%nat ->
  cell (DistributedDomain.set_peer m src dst v) src' dst'
  = if (src =? src')%nat && (dst =? dst')%nat then v else cell m src' dst'.
Proof.
  intros (Hlen & Hrows) Hsrc Hdst. unfold cell, DistributedDomain.set_peer.
  destruct (Nat.eqb_spec src src') as [<-|Hne]; cbn [andb].
  - rewrite nth_set_nth_eq by lia.
    destruct (Nat.eqb_spec dst dst') as [<-|Hne'].
    + apply nth_set_nth_eq. rewrite Hrows; lia.
    + now apply nth_set_nth_ne.
  - now rewrite nth_set_nth_ne.
Qed.

Hypothesis setDevice_ok : forall d, env_setDevice env d = Cuda.cudaSuccess.

(** One pair never terminates the program, and records [expected]. *)
Lemma probe_pair_returns (src dst : nat) (m : list (list bool)) :
  DistributedDomain.probe_pair env src dst m
  = Some (DistributedDomain.set_peer m src dst (expected src dst)).
Proof.
  unfold DistributedDomain.probe_pair, expected, peer_enabled.
  destruct (src =? dst)%nat; [reflexivity|].
  rewrite setDevice_ok. cbn [Z.eqb Cuda.cudaSuccess negb].
  destruct (_ || _); reflexivity.
Qed.

(** Invariant of the inner loop in row [src], before column [dst]. *)
Definition row_inv (src dst : nat) (m : list (list bool)) : Prop :=
  square m /\
  (forall r c, (r < src)%nat -> (c < n)%nat -> cell m r c = expected r c) /\
  (forall c, (c < dst)%nat -> cell m src c = expected src c).

Lemma probe_row (src : nat) (m : list (list bool)) :
  (src < n)%nat -> row_inv src 0 m ->
  exists m',
    for_range 0 n (fun dst m' => DistributedDomain.probe_pair env src dst m') m
    = Some m' /\ row_inv (Datatypes.S src) 0 m'.
Proof.
  intros Hsrc Hinv.
  destruct (for_range_inv (row_inv src)
              (fun dst m' => DistributedDomain.probe_pair env src dst m')
              n 0%nat m Hinv) as (m' & Hm' & (Hsq & Hrows & Hrow)).
  - intros dst t Hdst (Hsq & Hrows & Hrow).
    rewrite probe_pair_returns. eexists. split; [reflexivity|].
    split; [now apply set_peer_square|]. split.
    + intros r c Hr Hc. rewrite cell_set_peer by (auto; lia).
      destruct (Nat.eqb_spec src r); [lia|]. cbn. auto.
    + intros c Hc. rewrite cell_set_peer by (auto; lia).
      rewrite Nat.eqb_refl. cbn [andb].
      destruct (Nat.eqb_spec dst c) as [<-|Hne]; [reflexivity|].
      apply Hrow. lia.
  - exists m'. split; [exact Hm'|]. split; [exact Hsq|]. split.
    + intros r c Hr Hc. destruct (Nat.eq_dec r src) as [->|Hne].
      * apply Hrow. cbn. lia.
      * apply Hrows; lia.
    + intros c Hc. lia.
Qed.

Lemma probe_returns :
  exists m,
    DistributedDomain.probe_peer_access env = Some m /\
    forall src dst, (src < n)%nat -> (dst < n)%nat ->
                    cell m src dst = expected src dst.
Proof.
  unfold DistributedDomain.probe_peer_access. fold n.
  destruct (for_range_inv (fun src m => row_inv src 0 m)
              (fun src m =>
                 for_range 0 n
                   (fun dst m' => DistributedDomain.probe_pair env src dst m') m)
              n 0%nat (repeat (repeat false n) n)) as (m & Hm & Hinv).
  - split; [|split; intros; lia]. split.
    + apply repeat_length.
    + intros r Hr. rewrite nth_repeat_lt by exact Hr. apply repeat_length.
  - intros src t Hsrc Hinv. apply probe_row; [lia | exact Hinv].
  - exists m. split; [exact Hm|]. intros src dst Hsrc Hdst.
    destruct Hinv as (_ & Hrows & _). apply Hrows; lia.
Qed.

End Probe.

Section Construction.

Lemma assign_gpus_nonempty (deviceCount shmrank shmsize : Z) :
  0 <= shmrank < shmsize -> 1 <= deviceCount ->
  exists gpus,
    DistributedDomain.assign_gpus deviceCount shmrank shmsize = Some gpus /\
    (1 <= length gpus)%nat.
Proof.
  intros Hshm Hdev. unfold DistributedDomain.assign_gpus.
  destruct (Z.leb_spec shmsize deviceCount) as [Hle|Hgt].
  - eexists. split; [reflexivity|].
    assert (Hin : In shmrank
                    (filter (fun gpu => Z.rem gpu shmsize =? shmrank)
                       (map Z.of_nat (seq 0 (Z.to_nat deviceCount))))).
    { apply filter_In. split.
      - apply in_map_iff. exists (Z.to_nat shmrank). split; [lia|].
        apply in_seq. lia.
      - rewrite Z.rem_small by lia. apply Z.eqb_refl. }
    destruct (filter _ _); [destruct Hin | cbn; lia].
  - destruct (Z.eqb_spec deviceCount 0); [lia|].
    eexists. split; [reflexivity | cbn; lia].
Qed.

Lemma PFP_new_returns (size : Dim3) (ranks gpus : Z) :
  1 <= ranks -> 1 <= gpus -> exists p, PFP.new size ranks gpus = Some p.
Proof.
  intros Hr Hg. unfold PFP.new.
  destruct (prime_factors_returns ranks Hr) as (rf & ->).
  destruct (prime_factors_returns gpus Hg) as (gf & ->).
  destruct (PFP.split_all size rf) as [d1 rd].
  destruct (PFP.split_all d1 gf) as [d2 gd].
  eexists. reflexivity.
Qed.

Lemma new_returns (env : Env) (x y z : Z) :
  env_ok env ->
  exists dd,
    DistributedDomain.new env x y z = Some dd /\
    DistributedDomain.probe_peer_access env
    = Some (DistributedDomain.peerAccess_ dd) /\
    DistributedDomain.rank_ dd = env_rank env /\
    DistributedDomain.colocated_ dd = env_colocated env /\
    PFP.new (Dim3.mk x y z) (env_worldSize env)
      (Z.of_nat (length (DistributedDomain.gpus_ dd)))
    = Some (DistributedDomain.partition_ dd) /\
    DistributedDomain.assign_gpus (env_deviceCount env) (env_shmrank env)
      (env_shmsize env) = Some (DistributedDomain.gpus_ dd) /\
    DistributedDomain.size_ dd = Dim3.mk x y z.
Proof.
  intros (Hcol & Hworld & Hshm & Hdev & Hset).
  unfold DistributedDomain.new. rewrite Hcol. cbn [negb].
  destruct (assign_gpus_nonempty _ _ _ Hshm Hdev) as (gpus & -> & Hgpus).
  destruct (probe_returns env Hset) as (m & -> & _).
  destruct (PFP_new_returns (Dim3.mk x y z) (env_worldSize env)
              (Z.of_nat (length gpus)) Hworld ltac:(lia)) as (p & Hp).
  rewrite Hp.
  eexists. split; [reflexivity|]. cbn.
  repeat split; try reflexivity. exact Hp.
Qed.

(** C9.  During construction, for every ordered pair of distinct devices,
    a status of [cudaDeviceEnablePeerAccess] other than success or
    already-enabled records the pair as having no peer access, success or
    already-enabled records it as having peer access, and in either case
    the constructor goes on and returns the engine. *)
Theorem peer_enable_failure_not_fatal (env : Env) (x y z : Z) :
  env_ok env ->
  exists dd,
    DistributedDomain.new env x y z = Some dd /\
    peer_matrix_of env (DistributedDomain.peerAccess_ dd) /\
    (forall src dst,
        0 <= src < env_deviceCount env -> 0 <= dst < env_deviceCount env ->
        src <> dst ->
        (env_enablePeer env src dst <> Cuda.cudaSuccess ->
         env_enablePeer env src dst <> Cuda.cudaErrorPeerAccessAlreadyEnabled ->
         DistributedDomain.get_peer (DistributedDomain.peerAccess_ dd) src dst
         = false) /\
        (env_enablePeer env src dst = Cuda.cudaSuccess \/
         env_enablePeer env src dst = Cuda.cudaErrorPeerAccessAlreadyEnabled ->
         DistributedDomain.get_peer (DistributedDomain.peerAccess_ dd) src dst
         = true)).
Proof.
  intros Hok.
  destruct (new_returns env x y z Hok) as (dd & Hnew & Hprobe & _).
  destruct Hok as (_ & _ & _ & _ & Hset).
  destruct (probe_returns env Hset) as (m & Hm & Hcells).
  rewrite Hprobe in Hm. injection Hm as <-.
  assert (Hmat : peer_matrix_of env (DistributedDomain.peerAccess_ dd)).
  { intros src dst Hsrc Hdst. unfold DistributedDomain.get_peer.
    fold (cell (DistributedDomain.peerAccess_ dd) (Z.to_nat src) (Z.to_nat dst)).
    rewrite Hcells by lia. unfold expected.
    rewrite !Z2Nat.id by lia.
    destruct (Nat.eqb_spec (Z.to_nat src) (Z.to_nat dst)) as [Heq|Hne],
             (Z.eqb_spec src dst) as [Heq'|Hne']; try reflexivity; lia. }
  exists dd. split; [exact Hnew|]. split; [exact Hmat|].
  intros src dst Hsrc Hdst Hne.
  rewrite (Hmat src dst Hsrc Hdst).
  destruct (Z.eqb_spec src dst) as [|_]; [contradiction|].
  unfold peer_enabled. split.
  - intros H1 H2.
    destruct (Z.eqb_spec Cuda.cudaSuccess (env_enablePeer env src dst));
      [congruence|].
    destruct (Z.eqb_spec Cuda.cudaErrorPeerAccessAlreadyEnabled
                (env_enablePeer env src dst)); [congruence|].
    reflexivity.
  - intros [H|H]; rewrite H; reflexivity.
Qed.

(** [demo_env] is a node with two devices: enabling 0 -> 1 is refused
    with status 217 (peer access unsupported), enabling 1 -> 0 succeeds. *)
Lemma peer_enable_failure_not_fatal_witness :
  env_ok demo_env /\
  exists dd,
    DistributedDomain.new demo_env 10 10 10 = Some dd /\
    DistributedDomain.get_peer (DistributedDomain.peerAccess_ dd) 0 1 = false /\
    DistributedDomain.get_peer (DistributedDomain.peerAccess_ dd) 1 0 = true.
Proof.
  assert (Hok : env_ok demo_env).
  { unfold env_ok. cbn. repeat split; lia. }
  split; [exact Hok|].
  destruct (peer_enable_failure_not_fatal demo_env 10 10 10 Hok)
    as (dd & Hnew & _ & Hpairs).
  exists dd. split; [exact Hnew|]. split.
  - apply (Hpairs 0 1); cbn; try lia; discriminate.
  - apply (Hpairs 1 0); cbn; try lia; left; reflexivity.
Defined.

(** [demo_engine] is what the constructor, [set_radius(1)] and
    [add_data<float>()] build in [demo_env]. *)
Example demo_engine_built :
  option_map (fun dd => DistributedDomain.add_data
                          (DistributedDomain.set_radius dd 1) 4)
             (DistributedDomain.new demo_env 10 10 10)
  = Some demo_engine.
Proof. vm_compute. reflexivity. Qed.

End Construction.

(* ================================================================== *)
(** * Kernels: element copies *)
(* ================================================================== *)

Section Bytes.

Lemma nth_load_bytes (m : buffer) (a : Z) (n k : nat) (d : byte) :
  (k < n)%nat -> nth k (load_bytes m a n) d = m (a + Z.of_nat k).
Proof.
  intros Hk. unfold load_bytes.
  rewrite (nth_indep _ d (m (a + Z.of_nat 0)))
    by (rewrite length_map, length_seq; exact Hk).
  rewrite (map_nth (fun k => m (a + Z.of_nat k))), seq_nth by exact Hk.
  reflexivity.
Qed.

Lemma length_load_bytes (m : buffer) (a : Z) (n : nat) :
  length (load_bytes m a n) = n.
Proof. unfold load_bytes. now rewrite length_map, length_seq. Qed.

(** Storing the word just loaded stores the bytes that were read. *)
Lemma store_load_word (n : nat) (dst : buffer) (db oi : Z) (src : buffer)
    (sb ii : Z) :
  store_word n dst db oi (load_word n src sb ii)
  = store_bytes dst (db + Z.of_nat n * oi)
      (load_bytes src (sb + Z.of_nat n * ii) n).
Proof.
  unfold store_word, load_word. f_equal.
  rewrite <- (length_load_bytes src (sb + Z.of_nat n * ii) n) at 1.
  apply split_le_combine.
Qed.

Lemma store_load_spec (dst : buffer) (da : Z) (src : buffer) (sa : Z)
    (n : nat) (p : Z) :
  store_bytes dst da (load_bytes src sa n) p
  = if (da <=? p) && (p <? da + Z.of_nat n) then src (sa + (p - da))
    else dst p.
Proof.
  unfold store_bytes. rewrite length_load_bytes.
  destruct (Z.leb_spec da p) as [Hle|Hgt]; cbn [andb]; [|reflexivity].
  destruct (Z.ltb_spec p (da + Z.of_nat n)) as [Hlt|Hge]; [|reflexivity].
  rewrite nth_load_bytes by lia. f_equal. lia.
Qed.

Lemma memcpy_spec (dst : buffer) (da : Z) (src : buffer) (sa n p : Z) :
  memcpy dst da src sa n p
  = if (da <=? p) && (p <? da + n) then src (sa + (p - da)) else dst p.
Proof.
  unfold memcpy. rewrite store_load_spec.
  destruct (Z.leb_spec da p) as [Hle|Hgt]; cbn [andb]; [|reflexivity].
  destruct (Z.ltb_spec p (da + Z.of_nat (Z.to_nat n))) as [Hlt|Hge],
           (Z.ltb_spec p (da + n)) as [Hlt'|Hge']; try lia; reflexivity.
Qed.

(** Whatever the element size, the element copy moves the [elemSize]
    bytes of element [ii] of the source to element [oi] of the
    destination and leaves every other byte. *)
Lemma copy_elem_spec (elemSize : Z) (dst : buffer) (db oi : Z) (src : buffer)
    (sb ii p : Z) :
  copy_elem elemSize dst db oi src sb ii p
  = if (db + oi * elemSize <=? p) && (p <? db + oi * elemSize + elemSize)
    then src (sb + ii * elemSize + (p - (db + oi * elemSize)))
    else dst p.
Proof.
  unfold copy_elem.
  destruct (Z.eqb_spec 4 elemSize) as [<-|H4].
  - rewrite store_load_word, store_load_spec. change (Z.of_nat 4) with 4.
    now rewrite !(Z.mul_comm 4).
  - destruct (Z.eqb_spec 8 elemSize) as [<-|H8].
    + rewrite store_load_word, store_load_spec. change (Z.of_nat 8) with 8.
      now rewrite !(Z.mul_comm 8).
    + apply memcpy_spec.
Qed.

End Bytes.

(* ================================================================== *)
(** * Kernels: a sequence of element copies from a read-only source *)
(* ================================================================== *)

Section CopySequence.

Context {I : Type}.
Variables (e db sb : Z) (src : buffer) (o s : I -> Z).

Variable f : buffer -> I -> buffer.
Hypothesis f_spec :
  forall dst i p,
    f dst i p = if covers e db o i p then src (sb + s i * e + (p - (db + o i * e)))
                else dst p.

Lemma copies_frame (L : list I) (p : Z) :
  forall dst, (forall i, In i L -> covers e db o i p = false) ->
              fold_left f L dst p = dst p.
Proof.
  induction L as [|i L IH]; intros dst Hnone; cbn [fold_left]; [reflexivity|].
  rewrite IH by (intros j Hj; apply Hnone; now right).
  rewrite f_spec, (Hnone i) by now left. reflexivity.
Qed.

(** When every iteration that covers [p] writes the value [v] there, and
    one does, [p] holds [v] at the end. *)
Lemma copies_agree (L : list I) (p : Z) (v : byte) :
  forall dst,
    (exists i, In i L /\ covers e db o i p = true) ->
    (forall i, In i L -> covers e db o i p = true ->
               src (sb + s i * e + (p - (db + o i * e))) = v) ->
    fold_left f L dst p = v.
Proof.
  induction L as [|i L IH]; intros dst Hex Hall; cbn [fold_left].
  - destruct Hex as (j & [] & _).
  - destruct (existsb (fun j => covers e db o j p) L) eqn:Hlater.
    + apply IH.
      * apply existsb_exists in Hlater. exact Hlater.
      * intros j Hj. apply Hall. now right.
    + rewrite copies_frame.
      * rewrite f_spec.
        destruct Hex as (j & [<-|Hj] & Hc).
        -- rewrite Hc. apply Hall; [now left | exact Hc].
        -- assert (existsb (fun j => covers e db o j p) L = true)
             by (apply existsb_exists; eauto).
           congruence.
      * intros j Hj. destruct (covers e db o j p) eqn:Hc; [|reflexivity].
        assert (existsb (fun j => covers e db o j p) L = true)
          by (apply existsb_exists; eauto).
        congruence.
Qed.

End CopySequence.

(* ================================================================== *)
(** * Kernels: the iterations of a launch *)
(* ================================================================== *)

Section Iterations.

Lemma strided_sound (fuel : nat) :
  forall i stride n x,
    In x (strided fuel i stride n) ->
    0 <= stride -> i <= x < n.
Proof.
  induction fuel as [|k IH]; intros i stride n x Hin Hs; cbn in Hin;
    [destruct Hin|].
  destruct (Z.ltb_spec i n) as [Hlt|Hge]; [|destruct Hin].
  destruct Hin as [<-|Hin]; [lia|].
  specialize (IH _ _ _ _ Hin Hs). lia.
Qed.

Lemma strided_complete (fuel : nat) :
  forall i stride n x,
    1 <= stride -> i <= x < n -> (x - i) mod stride = 0 ->
    (Z.to_nat (n - i) <= fuel)%nat ->
    In x (strided fuel i stride n).
Proof.
  induction fuel as [|k IH]; intros i stride n x Hs Hx Hmod Hfuel; [lia|].
  cbn [strided]. destruct (Z.ltb_spec i n) as [Hlt|Hge]; [|lia].
  destruct (Z.eq_dec x i) as [->|Hne]; [now left|right].
  apply IH; try lia.
  - apply Z.mod_divide in Hmod; [|lia]. destruct Hmod as (q & Hq).
    assert (1 <= q) by nia. nia.
  - replace (x - (i + stride)) with (x - i + (-1) * stride) by lia.
    rewrite Z.mod_add by lia. exact Hmod.
Qed.

Lemma loop_range_sound (t stride n x : Z) :
  In x (loop_range t stride n) -> 0 <= stride -> t <= x < n.
Proof. apply strided_sound. Qed.

Lemma loop_range_complete (t stride n x : Z) :
  1 <= stride -> 0 <= t -> t <= x < n -> (x - t) mod stride = 0 ->
  In x (loop_range t stride n).
Proof.
  intros Hs Ht Hx Hmod. apply strided_complete; try assumption. lia.
Qed.

Lemma zrange_In (n x : Z) : In x (zrange n) <-> 0 <= x < n.
Proof.
  unfold zrange. rewrite in_map_iff. split.
  - intros (k & <- & Hk). apply in_seq in Hk. lia.
  - intros Hx. exists (Z.to_nat x). split; [lia|]. apply in_seq. lia.
Qed.

Lemma dim3_range_In (d i : Dim3) :
  In i (dim3_range d) <-> in_extent d i.
Proof.
  unfold dim3_range, in_extent. rewrite in_flat_map. split.
  - intros (z & Hz & Hin). apply in_flat_map in Hin.
    destruct Hin as (y & Hy & Hin). apply in_map_iff in Hin.
    destruct Hin as (x & <- & Hx).
    apply zrange_In in Hx, Hy, Hz. cbn. lia.
  - intros (Hx & Hy & Hz). exists (Dim3.z i). split; [now apply zrange_In|].
    apply in_flat_map. exists (Dim3.y i). split; [now apply zrange_In|].
    apply in_map_iff. exists (Dim3.x i). split; [now destruct i|].
    now apply zrange_In.
Qed.

Lemma threads_In (l : Launch) (b t : Dim3) :
  In (b, t) (threads l) <-> in_extent (gridDim l) b /\ in_extent (blockDim l) t.
Proof.
  unfold threads. rewrite in_flat_map. split.
  - intros (b' & Hb & Hin). apply in_map_iff in Hin.
    destruct Hin as (t' & Heq & Ht). injection Heq as -> ->.
    split; now apply dim3_range_In.
  - intros (Hb & Ht). exists b. split; [now apply dim3_range_In|].
    apply in_map_iff. exists t. split; [reflexivity | now apply dim3_range_In].
Qed.

(** One axis: index [x] is visited by exactly the thread whose global
    index is [x] modulo the number of threads. *)
Lemma axis_thread (bd gd n x : Z) :
  1 <= bd -> 1 <= gd -> 0 <= x < n ->
  let g := x mod (bd * gd) in
  0 <= g / bd < gd /\ 0 <= g mod bd < bd /\
  In x (loop_range (bd * (g / bd) + g mod bd) (bd * gd) n).
Proof.
  intros Hbd Hgd Hx g.
  assert (Hg : 0 <= g < bd * gd) by (apply Z.mod_pos_bound; nia).
  assert (Hdm : g = bd * (g / bd) + g mod bd) by (apply Z.div_mod; lia).
  pose proof (Z.mod_pos_bound g bd ltac:(lia)) as Hm.
  assert (Hq : 0 <= g / bd < gd).
  { split; [apply Z.div_pos; lia|]. apply Z.div_lt_upper_bound; lia. }
  repeat split; try lia.
  rewrite <- Hdm. apply loop_range_complete; try nia.
  - pose proof (Z.mod_le x (bd * gd) ltac:(lia) ltac:(nia)). unfold g. lia.
  - unfold g. rewrite Zminus_mod, Z.mod_mod, Z.sub_diag by nia.
    apply Z.mod_0_l. nia.
Qed.

Lemma thread_iters_In (l : Launch) (b t extent i : Dim3) :
  In i (thread_iters l b t extent) <->
  In (Dim3.x i)
     (loop_range (Dim3.x (blockDim l) * Dim3.x b + Dim3.x t)
        (Dim3.x (blockDim l) * Dim3.x (gridDim l)) (Dim3.x extent)) /\
  In (Dim3.y i)
     (loop_range (Dim3.y (blockDim l) * Dim3.y b + Dim3.y t)
        (Dim3.y (blockDim l) * Dim3.y (gridDim l)) (Dim3.y extent)) /\
  In (Dim3.z i)
     (loop_range (Dim3.z (blockDim l) * Dim3.z b + Dim3.z t)
        (Dim3.z (blockDim l) * Dim3.z (gridDim l)) (Dim3.z extent)).
Proof.
  unfold thread_iters. rewrite in_flat_map. split.
  - intros (z & Hz & Hin). apply in_flat_map in Hin.
    destruct Hin as (y & Hy & Hin). apply in_map_iff in Hin.
    destruct Hin as (x & <- & Hx). cbn. auto.
  - intros (Hx & Hy & Hz). exists (Dim3.z i). split; [exact Hz|].
    apply in_flat_map. exists (Dim3.y i). split; [exact Hy|].
    apply in_map_iff. exists (Dim3.x i). split; [now destruct i | exact Hx].
Qed.

(** The threads of a launch visit exactly the points of the extent. *)
Lemma launch_iters_In (l : Launch) (extent i : Dim3) :
  launch_ok l ->
  In i (launch_iters l extent) <-> in_extent extent i.
Proof.
  intros (Gx & Gy & Gz & Bx & By & Bz).
  unfold launch_iters. rewrite in_flat_map. split.
  - intros ([b t] & Hbt & Hin). cbn [fst snd] in Hin.
    apply threads_In in Hbt. destruct Hbt as (Hb & Ht).
    apply thread_iters_In in Hin. destruct Hin as (Hx & Hy & Hz).
    apply loop_range_sound in Hx, Hy, Hz; try nia.
    destruct Hb as (? & ? & ?), Ht as (? & ? & ?).
    unfold in_extent. nia.
  - intros (Hx & Hy & Hz).
    destruct (axis_thread _ _ _ _ Bx Gx Hx) as (Hbx & Htx & Hix).
    destruct (axis_thread _ _ _ _ By Gy Hy) as (Hby & Hty & Hiy).
    destruct (axis_thread _ _ _ _ Bz Gz Hz) as (Hbz & Htz & Hiz).
    set (gx := Dim3.x i mod (Dim3.x (blockDim l) * Dim3.x (gridDim l))) in *.
    set (gy := Dim3.y i mod (Dim3.y (blockDim l) * Dim3.y (gridDim l))) in *.
    set (gz := Dim3.z i mod (Dim3.z (blockDim l) * Dim3.z (gridDim l))) in *.
    exists (Dim3.mk (gx / Dim3.x (blockDim l)) (gy / Dim3.y (blockDim l))
                    (gz / Dim3.z (blockDim l)),
            Dim3.mk (gx mod Dim3.x (blockDim l)) (gy mod Dim3.y (blockDim l))
                    (gz mod Dim3.z (blockDim l))).
    split.
    + apply threads_In. unfold in_extent. cbn. tauto.
    + apply thread_iters_In. cbn. tauto.
Qed.

Lemma fold_left_flat_map {A B C : Type} (f : A -> C -> A) (g : B -> list C)
    (l : list B) :
  forall a,
    fold_left f (flat_map g l) a
    = fold_left (fun a b => fold_left f (g b) a) l a.
Proof.
  induction l as [|b l IH]; intros a; cbn [flat_map fold_left]; [reflexivity|].
  now rewrite fold_left_app, IH.
Qed.

(** A launch of a grid-stride kernel is the sequence of its iterations. *)
Lemma launch_fold (l : Launch) (extent : Dim3)
    (body : buffer -> Dim3 -> buffer) (dst : buffer) :
  launch l (fun b t dst' => fold_left body (thread_iters l b t extent) dst') dst
  = fold_left body (launch_iters l extent) dst.
Proof.
  unfold launch, launch_iters. now rewrite fold_left_flat_map.
Qed.

End Iterations.

(* ================================================================== *)
(** * Kernels: what a launch leaves in the destination *)
(* ================================================================== *)

Section LaunchCopies.

Variables (e db sb : Z) (src : buffer) (o s : Dim3 -> Z).
Variable body : buffer -> Dim3 -> buffer.
Hypothesis body_spec :
  forall dst i p,
    body dst i p = if covers e db o i p
                   then src (sb + s i * e + (p - (db + o i * e)))
                   else dst p.

Variables (l : Launch) (extent : Dim3).
Hypothesis l_ok : launch_ok l.

Lemma launch_copies_frame (dst : buffer) (p : Z) :
  (forall i, in_extent extent i -> covers e db o i p = false) ->
  fold_left body (launch_iters l extent) dst p = dst p.
Proof.
  intros Hnone. apply (copies_frame e db sb src o s body body_spec).
  intros i Hi. apply Hnone. now apply (launch_iters_In l extent i l_ok).
Qed.

Lemma launch_copies_agree (dst : buffer) (p : Z) (v : byte) :
  (exists i, in_extent extent i /\ covers e db o i p = true) ->
  (forall i, in_extent extent i -> covers e db o i p = true ->
             src (sb + s i * e + (p - (db + o i * e))) = v) ->
  fold_left body (launch_iters l extent) dst p = v.
Proof.
  intros (i & Hi & Hc) Hall.
  apply (copies_agree e db sb src o s body body_spec).
  - exists i. split; [|exact Hc]. now apply (launch_iters_In l extent i l_ok).
  - intros j Hj. apply Hall. now apply (launch_iters_In l extent j l_ok).
Qed.

End LaunchCopies.

Section KernelSpecs.

(** Two bytes of element slots of the same width that coincide lie in the
    same slot. *)
Lemma covers_same_slot (e db : Z) (oi oj b : Z) :
  0 <= b < e ->
  (db + oj * e <=? db + oi * e + b) && (db + oi * e + b <? db + oj * e + e)
  = true ->
  oj = oi.
Proof.
  intros Hb Hc. apply andb_true_iff in Hc. destruct Hc as (H1 & H2).
  apply Z.leb_le in H1. apply Z.ltb_lt in H2. nia.
Qed.

Lemma covers_own_slot (e db : Z) (oi b : Z) :
  0 <= b < e ->
  (db + oi * e <=? db + oi * e + b) && (db + oi * e + b <? db + oi * e + e)
  = true.
Proof.
  intros Hb. apply andb_true_iff. split; [apply Z.leb_le | apply Z.ltb_lt]; lia.
Qed.

Lemma mixed_radix_inj (m a b a' b' : Z) :
  0 <= b < m -> 0 <= b' < m -> a * m + b = a' * m + b' -> a = a' /\ b = b'.
Proof.
  intros Hb Hb' Heq.
  apply (Z.div_mod_unique m a a' b b'); try lia.
Qed.

(** The row-major index of a point of a box within the box is injective. *)
Lemma linear_inj (extent i j : Dim3) :
  in_extent extent i -> in_extent extent j ->
  linear extent i = linear extent j -> i = j.
Proof.
  destruct i as [xi yi zi], j as [xj yj zj], extent as [ex ey ez].
  unfold in_extent, linear. cbn [Dim3.x Dim3.y Dim3.z].
  intros (Hxi & Hyi & Hzi) (Hxj & Hyj & Hzj) Heq.
  destruct (mixed_radix_inj (ey * ex) zi (yi * ex + xi) zj (yj * ex + xj))
    as (-> & Heq'); try nia.
  destruct (mixed_radix_inj ex yi xi yj xj) as (-> & ->); try lia.
  reflexivity.
Qed.

Variable l : Launch.
Hypothesis l_ok : launch_ok l.

(** [pack] leaves element [i] of the region at index [linear extent i] of
    the contiguous buffer. *)
Lemma pack_spec (dst : buffer) (db : Z) (src : buffer) (sb : Z)
    (srcSize srcPos extent : Dim3) (e : Z) (i : Dim3) (b : Z) :
  in_extent extent i -> 0 <= b < e ->
  pack l dst db src sb srcSize srcPos extent e
       (db + linear extent i * e + b)
  = src (sb + linear srcSize (Dim3.add i srcPos) * e + b).
Proof.
  intros Hi Hb. unfold pack, grid_pack. rewrite launch_fold.
  apply (launch_copies_agree e db sb src (linear extent)
           (fun j => linear srcSize (Dim3.add j srcPos))); try exact l_ok.
  - intros dst' j p. cbv zeta. rewrite copy_elem_spec. reflexivity.
  - exists i. split; [exact Hi|]. now apply covers_own_slot.
  - intros j Hj Hc. apply covers_same_slot in Hc; [|exact Hb].
    apply linear_inj in Hc; try assumption. subst j. f_equal. lia.
Qed.

(** [unpack] writes, at every byte of a destination element it covers,
    the byte of the buffer element of an iteration that covers it. *)
Lemma unpack_agree (dst : buffer) (db : Z) (dstSize dstPos extent : Dim3)
    (src : buffer) (sb : Z) (e : Z) (p : Z) (v : byte) :
  (exists i, in_extent extent i /\
             covers e db (fun j => linear dstSize (Dim3.add j dstPos)) i p
             = true) ->
  (forall i, in_extent extent i ->
             covers e db (fun j => linear dstSize (Dim3.add j dstPos)) i p
             = true ->
             src (sb + linear extent i * e
                  + (p - (db + linear dstSize (Dim3.add i dstPos) * e))) = v) ->
  unpack l dst db dstSize dstPos extent src sb e p = v.
Proof.
  intros Hex Hall. unfold unpack, grid_unpack. rewrite launch_fold.
  apply (launch_copies_agree e db sb src
           (fun j => linear dstSize (Dim3.add j dstPos)) (linear extent));
    try assumption.
  intros dst' j q. cbv zeta. rewrite copy_elem_spec. reflexivity.
Qed.

Lemma unpack_frame (dst : buffer) (db : Z) (dstSize dstPos extent : Dim3)
    (src : buffer) (sb : Z) (e : Z) (p : Z) :
  (forall i, in_extent extent i ->
             covers e db (fun j => linear dstSize (Dim3.add j dstPos)) i p
             = false) ->
  unpack l dst db dstSize dstPos extent src sb e p = dst p.
Proof.
  intros Hnone. unfold unpack, grid_unpack. rewrite launch_fold.
  apply (launch_copies_frame e db sb src
           (fun j => linear dstSize (Dim3.add j dstPos)) (linear extent));
    try assumption.
  intros dst' j q. cbv zeta. rewrite copy_elem_spec. reflexivity.
Qed.

Lemma translate_agree (dst : buffer) (db : Z) (dstPos dstSize : Dim3)
    (src : buffer) (sb : Z) (srcPos srcSize extent : Dim3) (e : Z)
    (p : Z) (v : byte) :
  (exists i, in_extent extent i /\
             covers e db (fun j => linear dstSize (Dim3.add j dstPos)) i p
             = true) ->
  (forall i, in_extent extent i ->
             covers e db (fun j => linear dstSize (Dim3.add j dstPos)) i p
             = true ->
             src (sb + linear srcSize (Dim3.add i srcPos) * e
                  + (p - (db + linear dstSize (Dim3.add i dstPos) * e))) = v) ->
  translate l dst db dstPos dstSize src sb srcPos srcSize extent e p = v.
Proof.
  intros Hex Hall. unfold translate, translate_grid. rewrite launch_fold.
  apply (launch_copies_agree e db sb src
           (fun j => linear dstSize (Dim3.add j dstPos))
           (fun j => linear srcSize (Dim3.add j srcPos)));
    try assumption.
  intros dst' j q. cbv zeta. rewrite memcpy_spec. unfold covers.
  replace (db + linear dstSize (Dim3.add j dstPos) * e + e)
    with (db + linear dstSize (Dim3.add j dstPos) * e + e) by reflexivity.
  reflexivity.
Qed.

Lemma translate_frame (dst : buffer) (db : Z) (dstPos dstSize : Dim3)
    (src : buffer) (sb : Z) (srcPos srcSize extent : Dim3) (e : Z) (p : Z) :
  (forall i, in_extent extent i ->
             covers e db (fun j => linear dstSize (Dim3.add j dstPos)) i p
             = false) ->
  translate l dst db dstPos dstSize src sb srcPos srcSize extent e p = dst p.
Proof.
  intros Hnone. unfold translate, translate_grid. rewrite launch_fold.
  apply (launch_copies_frame e db sb src
           (fun j => linear dstSize (Dim3.add j dstPos))
           (fun j => linear srcSize (Dim3.add j srcPos)));
    try assumption.
  intros dst' j q. cbv zeta. rewrite memcpy_spec. reflexivity.
Qed.

End KernelSpecs.

(* ================================================================== *)
(** * Kernels: pack then unpack *)
(* ================================================================== *)

Section PackUnpack.

(** C8.  Packing the region of extent [ext] at position [pos] of an
    allocation of pitch [size] into a contiguous buffer, then unpacking
    that buffer into the same position and extent of a second allocation
    of the same pitch, makes every byte of the destination region equal
    to the byte of the source region, for every element size: the 4- and
    8-byte word stores and the byte copy alike, and whatever the two
    launch configurations. *)
Theorem pack_unpack_roundtrip
    (l1 l2 : Launch) (size pos ext : Dim3) (elemSize : Z)
    (src dst0 buf0 : buffer) (i : Dim3) (b : Z) :
  launch_ok l1 -> launch_ok l2 ->
  in_extent ext i -> 0 <= b < elemSize ->
  let buf := pack l1 buf0 0 src 0 size pos ext elemSize in
  let dst := unpack l2 dst0 0 size pos ext buf 0 elemSize in
  dst (linear size (Dim3.add i pos) * elemSize + b)
  = src (linear size (Dim3.add i pos) * elemSize + b).
Proof.
  intros Hl1 Hl2 Hi Hb buf dst. subst dst.
  apply (unpack_agree l2 Hl2).
  - exists i. split; [exact Hi|]. unfold covers.
    now apply (covers_own_slot elemSize 0).
  - intros j Hj Hc. subst buf.
    set (q := linear size (Dim3.add i pos) * elemSize + b
              - (0 + linear size (Dim3.add j pos) * elemSize)).
    assert (Hq : 0 <= q < elemSize).
    { unfold covers in Hc. apply andb_true_iff in Hc.
      destruct Hc as (H1 & H2). apply Z.leb_le in H1. apply Z.ltb_lt in H2.
      subst q. lia. }
    rewrite (pack_spec l1 Hl1 buf0 0 src 0 size pos ext elemSize j q Hj Hq).
    f_equal. subst q. lia.
Qed.

(** A 2 x 2 x 2 region of 4-byte elements inside a 4 x 4 x 4 allocation,
    packed by 2 x 1 x 1 blocks of 1 x 2 x 1 threads and unpacked by one
    thread. *)
Lemma pack_unpack_roundtrip_witness :
  let l1 := mkLaunch (Dim3.mk 2 1 1) (Dim3.mk 1 2 1) in
  let l2 := mkLaunch (Dim3.mk 1 1 1) (Dim3.mk 1 1 1) in
  let size := Dim3.mk 4 4 4 in
  let pos := Dim3.mk 1 1 1 in
  let ext := Dim3.mk 2 2 2 in
  let src : buffer := fun p => byte.of_Z p in
  let zero : buffer := fun _ => byte.of_Z 0 in
  let buf := pack l1 zero 0 src 0 size pos ext 4 in
  let dst := unpack l2 zero 0 size pos ext buf 0 4 in
  dst (linear size (Dim3.add (Dim3.mk 1 0 1) pos) * 4 + 2)
  = src (linear size (Dim3.add (Dim3.mk 1 0 1) pos) * 4 + 2).
Proof.
  intros l1 l2 size pos ext src zero.
  apply (pack_unpack_roundtrip l1 l2 size pos ext 4 src zero zero
           (Dim3.mk 1 0 1) 2);
    unfold launch_ok, in_extent; cbn; lia.
Defined.

(** The same region evaluated: the packed buffer holds the eight elements
    in row-major order, and the unpacked byte is the source byte. *)
Example pack_unpack_evaluated :
  let l1 := mkLaunch (Dim3.mk 2 1 1) (Dim3.mk 1 2 1) in
  let l2 := mkLaunch (Dim3.mk 1 1 1) (Dim3.mk 1 1 1) in
  let size := Dim3.mk 4 4 4 in
  let pos := Dim3.mk 1 1 1 in
  let ext := Dim3.mk 2 2 2 in
  let src : buffer := fun p => byte.of_Z p in
  let zero : buffer := fun _ => byte.of_Z 0 in
  let buf := pack l1 zero 0 src 0 size pos ext 4 in
  let dst := unpack l2 zero 0 size pos ext buf 0 4 in
  map (fun k => byte.unsigned (buf (4 * k))) [0; 1; 2; 3; 4; 5; 6; 7]
  = [84; 88; 100; 104; 148; 152; 164; 168] /\
  byte.unsigned (dst (linear size (Dim3.mk 2 1 2) * 4 + 2)) = 154 /\
  byte.unsigned (dst 0) = 0.
Proof. vm_compute. repeat split; reflexivity. Qed.

End PackUnpack.

(* ================================================================== *)
(** * Communication plan *)
(* ================================================================== *)

Section Plan.

Lemma is_dir_cases (dir : Dim3) :
  is_dir dir -> In dir all_dirs.
Proof.
  destruct dir as [x y z]. unfold is_dir. cbn [Dim3.x Dim3.y Dim3.z].
  intros (Hx & Hy & Hz).
  assert (Cx : x = -1 \/ x = 0 \/ x = 1) by lia.
  assert (Cy : y = -1 \/ y = 0 \/ y = 1) by lia.
  assert (Cz : z = -1 \/ z = 0 \/ z = 1) by lia.
  destruct Cx as [-> | [-> | ->]], Cy as [-> | [-> | ->]], Cz as [-> | [-> | ->]];
    cbn; tauto.
Qed.

(** After the direction loops, each cell holds what its own iteration
    assigned, and the centre holds the initial null. *)
Lemma plan_maps_lookup {A B : Type} (f : Dim3 -> A) (g : Dim3 -> option B)
    (dir : Dim3) :
  In dir all_dirs ->
  let maps :=
    fold_left
      (fun (maps : DirectionMap.t (option A) * DirectionMap.t (option B)) d =>
         if Dim3.eqb d (Dim3.mk 0 0 0) then maps
         else (DirectionMap.set_at_dir (fst maps) (Dim3.x d) (Dim3.y d)
                 (Dim3.z d) (Some (f d)),
               DirectionMap.set_at_dir (snd maps) (Dim3.x d) (Dim3.y d)
                 (Dim3.z d) (g d)))
      all_dirs (DirectionMap.fill None, DirectionMap.fill None) in
  DirectionMap.at_dir (fst maps) (Dim3.x dir) (Dim3.y dir) (Dim3.z dir) None
  = (if Dim3.eqb dir (Dim3.mk 0 0 0) then None else Some (f dir)) /\
  DirectionMap.at_dir (snd maps) (Dim3.x dir) (Dim3.y dir) (Dim3.z dir) None
  = (if Dim3.eqb dir (Dim3.mk 0 0 0) then None else g dir).
Proof.
  intros Hin. unfold all_dirs in Hin. cbn [flat_map map app In] in Hin.
  repeat (destruct Hin as [<- | Hin]; [split; vm_compute; reflexivity|]).
  destruct Hin.
Qed.

Lemma plan_domain_lookup (dd : DistributedDomain.t) (di : nat) (dir : Dim3) :
  is_dir dir ->
  DirectionMap.at_dir (fst (DistributedDomain.plan_domain dd di))
    (Dim3.x dir) (Dim3.y dir) (Dim3.z dir) None
  = (if Dim3.eqb dir (Dim3.mk 0 0 0) then None
     else Some (DistributedDomain.plan_sender dd di dir)) /\
  DirectionMap.at_dir (snd (DistributedDomain.plan_domain dd di))
    (Dim3.x dir) (Dim3.y dir) (Dim3.z dir) None
  = (if Dim3.eqb dir (Dim3.mk 0 0 0) then None
     else DistributedDomain.plan_recver dd di dir).
Proof.
  intros Hdir.
  apply (plan_maps_lookup (DistributedDomain.plan_sender dd di)
           (DistributedDomain.plan_recver dd di) dir (is_dir_cases dir Hdir)).
Qed.

Lemma plan_recver_none (dd : DistributedDomain.t) (di : nat) (dir : Dim3) :
  DistributedDomain.plan_recver dd di dir = None <->
  PFP.get_rank (DistributedDomain.partition_ dd)
    (DistributedDomain.src_idx (DistributedDomain.partition_ dd)
       (nth di (DistributedDomain.domainIdx_ dd) Dim3.zero) dir)
  = DistributedDomain.rank_ dd.
Proof.
  unfold DistributedDomain.plan_recver.
  destruct (Z.eqb_spec (DistributedDomain.rank_ dd)
              (PFP.get_rank (DistributedDomain.partition_ dd)
                 (DistributedDomain.src_idx (DistributedDomain.partition_ dd)
                    (nth di (DistributedDomain.domainIdx_ dd) Dim3.zero) dir)))
    as [Heq|Hne].
  - split; [congruence|]. intros _.
    destruct (DistributedDomain.get_peer _ _ _); reflexivity.
  - split; [|congruence].
    destruct (DistributedDomain.colocated_count _ _); discriminate.
Qed.

Lemma nth_map_seq {A : Type} (f : nat -> A) (n i : nat) (d : A) :
  (i < n)%nat -> nth i (map f (seq 0 n)) d = f i.
Proof.
  intros Hi.
  rewrite (nth_indep _ d (f 0%nat)) by (rewrite length_map, length_seq; exact Hi).
  rewrite map_nth, seq_nth by exact Hi. reflexivity.
Qed.

(** The plan only depends on the engine through the two choices. *)
Lemma plan_domain_ext (dd1 dd2 : DistributedDomain.t) (di : nat) :
  (forall d, DistributedDomain.plan_sender dd1 di d
             = DistributedDomain.plan_sender dd2 di d) ->
  (forall d, DistributedDomain.plan_recver dd1 di d
             = DistributedDomain.plan_recver dd2 di d) ->
  DistributedDomain.plan_domain dd1 di = DistributedDomain.plan_domain dd2 di.
Proof.
  intros Hs Hr. unfold DistributedDomain.plan_domain.
  generalize (@DirectionMap.fill (option HaloSender) None,
              @DirectionMap.fill (option HaloRecver) None) as acc.
  induction all_dirs as [|d l IH]; intros acc; cbn [fold_left]; [reflexivity|].
  rewrite <- IH. f_equal. unfold DistributedDomain.plan_dir.
  now rewrite Hs, Hr.
Qed.

(** The maps [realize] stores are the plans of the realized engine. *)
Lemma realize_plan (dd : DistributedDomain.t) (brk : Z) (di : nat) :
  let dd' := fst (DistributedDomain.realize dd brk) in
  (di < length (DistributedDomain.domains_ dd'))%nat ->
  nth di (DistributedDomain.domainDirSender_ dd') (DirectionMap.fill None)
  = fst (DistributedDomain.plan_domain dd' di) /\
  nth di (DistributedDomain.domainDirRecver_ dd') (DirectionMap.fill None)
  = snd (DistributedDomain.plan_domain dd' di).
Proof.
  unfold DistributedDomain.realize.
  destruct (DistributedDomain.realize_domains _ brk) as [domains brk'].
  cbn [fst DistributedDomain.domains_ DistributedDomain.domainDirSender_
       DistributedDomain.domainDirRecver_ DistributedDomain.size_
       DistributedDomain.rank_ DistributedDomain.worldSize_
       DistributedDomain.gpus_ DistributedDomain.radius_
       DistributedDomain.domainIdx_ DistributedDomain.partition_
       DistributedDomain.dataElemSize_ DistributedDomain.colocated_
       DistributedDomain.peerAccess_].
  intros Hdi. rewrite !map_map, !nth_map_seq by exact Hdi.
  match goal with
  | |- fst (DistributedDomain.plan_domain ?a di)
       = fst (DistributedDomain.plan_domain ?b di) /\ _ =>
      rewrite (plan_domain_ext a b di)
        by (intros d; unfold DistributedDomain.plan_sender,
                      DistributedDomain.plan_recver; reflexivity)
  end.
  split; reflexivity.
Qed.

(** C5.  After [realize], for every local subdomain the plan holds a
    sender for each of the 26 non-zero directions and nothing for
    (0,0,0); the receiver of a direction is null exactly when the
    subdomain that sends to this one for that direction is owned by the
    same rank, so colocated and remote sources get a receiver. *)
Theorem plan_senders_and_recvers
    (dd : DistributedDomain.t) (brk : Z) (di : nat) (dir : Dim3) :
  let dd' := fst (DistributedDomain.realize dd brk) in
  let senders :=
    nth di (DistributedDomain.domainDirSender_ dd') (DirectionMap.fill None) in
  let recvers :=
    nth di (DistributedDomain.domainDirRecver_ dd') (DirectionMap.fill None) in
  let srcIdx :=
    DistributedDomain.src_idx (DistributedDomain.partition_ dd')
      (nth di (DistributedDomain.domainIdx_ dd') Dim3.zero) dir in
  (di < length (DistributedDomain.domains_ dd'))%nat ->
  is_dir dir ->
  if Dim3.eqb dir (Dim3.mk 0 0 0)
  then
    DirectionMap.at_dir senders (Dim3.x dir) (Dim3.y dir) (Dim3.z dir) None
    = None /\
    DirectionMap.at_dir recvers (Dim3.x dir) (Dim3.y dir) (Dim3.z dir) None
    = None
  else
    DirectionMap.at_dir senders (Dim3.x dir) (Dim3.y dir) (Dim3.z dir) None
    <> None /\
    (DirectionMap.at_dir recvers (Dim3.x dir) (Dim3.y dir) (Dim3.z dir) None
     = None <->
     PFP.get_rank (DistributedDomain.partition_ dd') srcIdx
     = DistributedDomain.rank_ dd').
Proof.
  intros dd' senders recvers srcIdx Hdi Hdir.
  destruct (realize_plan dd brk di Hdi) as (Hs & Hr).
  fold dd' in Hs, Hr. subst senders recvers. rewrite Hs, Hr.
  destruct (plan_domain_lookup dd' di dir Hdir) as (Ls & Lr).
  rewrite Ls, Lr.
  destruct (Dim3.eqb dir (Dim3.mk 0 0 0)).
  - split; reflexivity.
  - split; [discriminate|]. apply plan_recver_none.
Qed.

Lemma plan_senders_and_recvers_witness :
  let dd' := fst (DistributedDomain.realize demo_engine 0) in
  let senders :=
    nth 1 (DistributedDomain.domainDirSender_ dd') (DirectionMap.fill None) in
  let recvers :=
    nth 1 (DistributedDomain.domainDirRecver_ dd') (DirectionMap.fill None) in
  let srcIdx :=
    DistributedDomain.src_idx (DistributedDomain.partition_ dd')
      (nth 1 (DistributedDomain.domainIdx_ dd') Dim3.zero) (Dim3.mk 1 0 0) in
  (1 < length (DistributedDomain.domains_ dd'))%nat /\
  is_dir (Dim3.mk 1 0 0) /\
  DirectionMap.at_dir senders 1 0 0 None <> None /\
  (DirectionMap.at_dir recvers 1 0 0 None = None <->
   PFP.get_rank (DistributedDomain.partition_ dd') srcIdx
   = DistributedDomain.rank_ dd').
Proof.
  intros dd' senders recvers srcIdx.
  assert (Hlen : (1 < length (DistributedDomain.domains_ dd'))%nat)
    by (vm_compute; lia).
  assert (Hdir : is_dir (Dim3.mk 1 0 0)) by (unfold is_dir; cbn; lia).
  split; [exact Hlen|]. split; [exact Hdir|].
  exact (plan_senders_and_recvers demo_engine 0 1%nat (Dim3.mk 1 0 0) Hlen Hdir).
Defined.

End Plan.

(* ================================================================== *)
(** * Realization: allocations of the local domains *)
(* ================================================================== *)

Section Realize.

(** State of the allocation loop of [LocalDomain::realize] after [k]
    fields: the first [k] fields hold fresh blocks, two per field. *)
Lemma realize_fields (d : LocalDomain.t) (brk : Z) (k : nat) :
  let n := length (LocalDomain.currDataPtrs_ d) in
  length (LocalDomain.nextDataPtrs_ d) = n ->
  (k <= n)%nat ->
  let st := fold_left LocalDomain.realize_field (seq 0 k) (d, brk) in
  snd st = brk + 2 * Z.of_nat k /\
  length (LocalDomain.currDataPtrs_ (fst st)) = n /\
  length (LocalDomain.nextDataPtrs_ (fst st)) = n /\
  LocalDomain.sz_ (fst st) = LocalDomain.sz_ d /\
  LocalDomain.radius_ (fst st) = LocalDomain.radius_ d /\
  LocalDomain.dataElemSize_ (fst st) = LocalDomain.dataElemSize_ d /\
  LocalDomain.dev_ (fst st) = LocalDomain.dev_ d /\
  (forall i, (i < k)%nat ->
             nth i (LocalDomain.currDataPtrs_ (fst st)) nullptr
             = brk + 2 * Z.of_nat i + 1 /\
             nth i (LocalDomain.nextDataPtrs_ (fst st)) nullptr
             = brk + 2 * Z.of_nat i + 2).
Proof.
  intros n Hnext. induction k as [|k IH]; intros Hk st.
  - subst st. cbn. repeat split; try lia. all: intros; lia.
  - subst st. rewrite seq_S, fold_left_app. cbn [fold_left Nat.add].
    specialize (IH ltac:(lia)). cbv zeta in IH.
    destruct (fold_left LocalDomain.realize_field (seq 0 k) (d, brk))
      as [d1 b1].
    cbn [fst snd] in IH.
    destruct IH as (Hb & Hc & Hn & Hsz & Hr & He & Hd & Hptr).
    unfold LocalDomain.realize_field, Cuda.cudaMalloc.
    cbn [fst snd LocalDomain.currDataPtrs_ LocalDomain.nextDataPtrs_
         LocalDomain.sz_ LocalDomain.radius_ LocalDomain.dataElemSize_
         LocalDomain.dev_].
    rewrite !length_set_nth.
    repeat split; try assumption; try lia.
    + destruct (Nat.eq_dec i k) as [->|Hne].
      * rewrite nth_set_nth_eq by lia. lia.
      * rewrite nth_set_nth_ne by lia. apply Hptr. lia.
    + destruct (Nat.eq_dec i k) as [->|Hne].
      * rewrite nth_set_nth_eq by lia. lia.
      * rewrite nth_set_nth_ne by lia. apply Hptr. lia.
Qed.

(** A local domain whose two pointer vectors have one entry per field. *)
Definition fields_ok (F : nat) (d : LocalDomain.t) : Prop :=
  length (LocalDomain.currDataPtrs_ d) = F /\
  length (LocalDomain.nextDataPtrs_ d) = F.

Lemma LocalDomain_realize_spec (F : nat) (d : LocalDomain.t) (brk : Z) :
  fields_ok F d ->
  let d' := fst (LocalDomain.realize d brk) in
  snd (LocalDomain.realize d brk) = brk + 2 * Z.of_nat F /\
  fields_ok F d' /\
  LocalDomain.sz_ d' = LocalDomain.sz_ d /\
  LocalDomain.radius_ d' = LocalDomain.radius_ d /\
  LocalDomain.dataElemSize_ d' = LocalDomain.dataElemSize_ d /\
  LocalDomain.dev_ d' = LocalDomain.dev_ d /\
  (forall i, (i < F)%nat ->
             LocalDomain.curr_data d' i = brk + 2 * Z.of_nat i + 1 /\
             LocalDomain.next_data d' i = brk + 2 * Z.of_nat i + 2).
Proof.
  intros (Hc & Hn). unfold LocalDomain.realize. rewrite Hc.
  pose proof (realize_fields d brk F ltac:(lia) ltac:(lia)) as H.
  cbv zeta in H. rewrite Hc in H.
  destruct H as (Hb & Hc' & Hn' & Hsz & Hr & He & Hd & Hptr).
  unfold fields_ok. repeat split; try assumption; apply Hptr; assumption.
Qed.

(** The local domains after the realization loop, one by one: domain [j]
    is realized with the allocator state left by the [j] before it. *)
Lemma realize_domains_acc (F : nat) (ds : list LocalDomain.t) :
  Forall (fields_ok F) ds ->
  forall acc brk,
    let r := fold_left
               (fun (a : list LocalDomain.t * Z) d =>
                  let (d', brk') := LocalDomain.realize d (snd a) in
                  (fst a ++ [d'], brk'))
               ds (acc, brk) in
    snd r = brk + 2 * Z.of_nat F * Z.of_nat (length ds) /\
    length (fst r) = (length acc + length ds)%nat /\
    (forall j d0, (j < length acc)%nat -> nth j (fst r) d0 = nth j acc d0) /\
    (forall j d0, (j < length ds)%nat ->
                  nth (length acc + j) (fst r) d0
                  = fst (LocalDomain.realize (nth j ds d0)
                           (brk + 2 * Z.of_nat F * Z.of_nat j))).
Proof.
  induction 1 as [|d ds Hd Hds IH]; intros acc brk r.
  - subst r. cbn. repeat split; try lia; auto.
  - subst r. cbn [fold_left snd fst].
    pose proof (LocalDomain_realize_spec F d brk Hd) as Hspec.
    cbv zeta in Hspec. destruct Hspec as (Hbrk & _).
    destruct (LocalDomain.realize d brk) as [d' brk'] eqn:Hreal.
    cbn [snd] in Hbrk. subst brk'.
    specialize (IH (acc ++ [d']) (brk + 2 * Z.of_nat F)). cbv zeta in IH.
    destruct IH as (Hb & Hl & Hacc & Hnew).
    rewrite length_app in Hl, Hacc, Hnew. cbn [length] in *.
    repeat split.
    + rewrite Hb. lia.
    + lia.
    + intros j d0 Hj. rewrite Hacc by lia. apply app_nth1. exact Hj.
    + intros [|j] d0 Hj.
      * rewrite Nat.add_0_r, Hacc by lia.
        rewrite app_nth2, Nat.sub_diag by lia. cbn [nth].
        rewrite Z.mul_0_r, Z.add_0_r, Hreal. reflexivity.
      * replace (length acc + S j)%nat with (length acc + 1 + j)%nat by lia.
        rewrite Hnew by lia. cbn [nth]. do 2 f_equal. lia.
Qed.

Lemma realize_domains_spec (F : nat) (ds : list LocalDomain.t) (brk : Z) :
  Forall (fields_ok F) ds ->
  let r := DistributedDomain.realize_domains ds brk in
  length (fst r) = length ds /\
  (forall j d0, (j < length ds)%nat ->
                nth j (fst r) d0
                = fst (LocalDomain.realize (nth j ds d0)
                         (brk + 2 * Z.of_nat F * Z.of_nat j))).
Proof.
  intros Hds r. subst r. unfold DistributedDomain.realize_domains.
  pose proof (realize_domains_acc F ds Hds [] brk) as H. cbv zeta in H.
  destruct H as (_ & Hl & _ & Hnew). cbn [length Nat.add] in *.
  split; [exact Hl|]. exact Hnew.
Qed.

(** [add_data] once per registered element size. *)
Lemma add_data_fold (elems : list Z) :
  forall d,
    let d' := fold_left LocalDomain.add_data elems d in
    LocalDomain.sz_ d' = LocalDomain.sz_ d /\
    LocalDomain.radius_ d' = LocalDomain.radius_ d /\
    LocalDomain.dev_ d' = LocalDomain.dev_ d /\
    LocalDomain.dataElemSize_ d' = LocalDomain.dataElemSize_ d ++ elems /\
    length (LocalDomain.currDataPtrs_ d')
    = (length (LocalDomain.currDataPtrs_ d) + length elems)%nat /\
    length (LocalDomain.nextDataPtrs_ d')
    = (length (LocalDomain.nextDataPtrs_ d) + length elems)%nat.
Proof.
  induction elems as [|e elems IH]; intros d d'.
  - subst d'. cbn. rewrite app_nil_r. repeat split; lia.
  - subst d'. cbn [fold_left].
    specialize (IH (LocalDomain.add_data d e)). cbv zeta in IH.
    destruct IH as (Hsz & Hr & Hd & He & Hc & Hn).
    unfold LocalDomain.add_data in *.
    cbn [LocalDomain.sz_ LocalDomain.radius_ LocalDomain.dev_
         LocalDomain.dataElemSize_ LocalDomain.currDataPtrs_
         LocalDomain.nextDataPtrs_] in *.
    rewrite length_app in Hc, Hn. cbn [length] in *.
    rewrite <- app_assoc in He. cbn [app] in He.
    repeat split; try assumption; lia.
Qed.

Lemma create_domain_spec (dd : DistributedDomain.t) (i : nat) :
  let d := fst (DistributedDomain.create_domain dd i) in
  let idx := PFP.dom_idx (DistributedDomain.partition_ dd)
               (DistributedDomain.rank_ dd) (Z.of_nat i) in
  snd (DistributedDomain.create_domain dd i) = idx /\
  LocalDomain.sz_ d
  = PFP.local_domain_size (DistributedDomain.partition_ dd) idx /\
  LocalDomain.radius_ d = DistributedDomain.radius_ dd /\
  LocalDomain.dataElemSize_ d = DistributedDomain.dataElemSize_ dd /\
  LocalDomain.dev_ d = nth i (DistributedDomain.gpus_ dd) 0 /\
  fields_ok (length (DistributedDomain.dataElemSize_ dd)) d.
Proof.
  unfold DistributedDomain.create_domain. cbn [fst snd].
  match goal with
  | |- context [fold_left LocalDomain.add_data ?e ?d0] =>
      pose proof (add_data_fold e d0) as H
  end.
  cbv zeta in H. destruct H as (Hsz & Hr & Hd & He & Hc & Hn).
  unfold fields_ok. rewrite Hsz, Hr, Hd, He, Hc, Hn. cbn.
  repeat split; reflexivity.
Qed.

Lemma realize_spec (dd : DistributedDomain.t) (brk : Z) :
  DistributedDomain.domains_ dd = [] ->
  DistributedDomain.domainIdx_ dd = [] ->
  let dd' := fst (DistributedDomain.realize dd brk) in
  let G := length (DistributedDomain.gpus_ dd) in
  DistributedDomain.rank_ dd' = DistributedDomain.rank_ dd /\
  DistributedDomain.partition_ dd' = DistributedDomain.partition_ dd /\
  DistributedDomain.radius_ dd' = DistributedDomain.radius_ dd /\
  DistributedDomain.dataElemSize_ dd' = DistributedDomain.dataElemSize_ dd /\
  DistributedDomain.colocated_ dd' = DistributedDomain.colocated_ dd /\
  DistributedDomain.peerAccess_ dd' = DistributedDomain.peerAccess_ dd /\
  length (DistributedDomain.domains_ dd') = G /\
  DistributedDomain.domainIdx_ dd'
  = map (fun j => PFP.dom_idx (DistributedDomain.partition_ dd)
                    (DistributedDomain.rank_ dd) (Z.of_nat j)) (seq 0 G) /\
  (forall j d0, (j < G)%nat ->
                realized_domain dd brk j
                  (nth j (DistributedDomain.domains_ dd') d0)).
Proof.
  intros Hdom Hidx. cbv zeta.
  unfold DistributedDomain.realize. rewrite Hdom, Hidx. cbn [app].
  set (G := length (DistributedDomain.gpus_ dd)).
  set (created := map (DistributedDomain.create_domain dd) (seq 0 G)).
  set (F := length (DistributedDomain.dataElemSize_ dd)).
  assert (Hok : Forall (fields_ok F) (map fst created)).
  { apply Forall_forall. intros d Hin.
    apply in_map_iff in Hin. destruct Hin as ([d1 i1] & <- & Hin).
    apply in_map_iff in Hin. destruct Hin as (i & Heq & _).
    pose proof (create_domain_spec dd i) as H. cbv zeta in H.
    rewrite Heq in H. cbn [fst] in *. apply H. }
  pose proof (realize_domains_spec F (map fst created) brk Hok) as Hspec.
  cbv zeta in Hspec.
  destruct (DistributedDomain.realize_domains (map fst created) brk)
    as [domains brk'].
  cbn [fst DistributedDomain.domains_ DistributedDomain.domainDirSender_
       DistributedDomain.domainDirRecver_ DistributedDomain.size_
       DistributedDomain.rank_ DistributedDomain.worldSize_
       DistributedDomain.gpus_ DistributedDomain.radius_
       DistributedDomain.domainIdx_ DistributedDomain.partition_
       DistributedDomain.dataElemSize_ DistributedDomain.colocated_
       DistributedDomain.peerAccess_] in *.
  destruct Hspec as (Hlen & Hnth).
  assert (Hcl : length (map fst created) = G).
  { subst created. now rewrite !length_map, length_seq. }
  rewrite Hcl in Hlen, Hnth.
  repeat split; try reflexivity.
  1: exact Hlen.
  1: { subst created. rewrite map_map. apply map_ext. intros j.
       pose proof (create_domain_spec dd j) as H. cbv zeta in H. apply H. }
  all: intros; rewrite (Hnth j d0) by assumption;
      rewrite (nth_indep _ d0 (fst (DistributedDomain.create_domain dd 0%nat)))
        by (rewrite Hcl; assumption);
      subst created; rewrite map_map;
      rewrite (map_nth (fun x => fst (DistributedDomain.create_domain dd x)));
      rewrite seq_nth by assumption; cbn [Nat.add];
      pose proof (create_domain_spec dd j) as Hc; cbv zeta in Hc;
      destruct Hc as (_ & Hsz & Hr & He & Hd & Hf);
      pose proof (LocalDomain_realize_spec F _
                    (brk + 2 * Z.of_nat F * Z.of_nat j) Hf) as Hs;
      cbv zeta in Hs;
      destruct Hs as (_ & (Hc1 & Hn1) & Hsz' & Hr' & He' & Hd' & Hp).
  all: try congruence.
  all: try assumption.
  all: fold F; specialize (Hp i ltac:(assumption)); lia.
Qed.

End Realize.

(* ================================================================== *)
(** * Swap of the current and next buffers *)
(* ================================================================== *)

Section Swap.

Lemma LocalDomain_swap_twice (d : LocalDomain.t) :
  LocalDomain.swap (LocalDomain.swap d) = d.
Proof. destruct d. reflexivity. Qed.

Lemma swap_twice (dd : DistributedDomain.t) :
  DistributedDomain.swap (DistributedDomain.swap dd) = dd.
Proof.
  destruct dd. unfold DistributedDomain.swap. cbn. f_equal.
  rewrite map_map. rewrite <- (map_id domains_) at 2.
  apply map_ext, LocalDomain_swap_twice.
Qed.

Lemma Array_swap_twice (a b : Array.t) :
  Array.swap (Array.swap (a, b)) = (a, b).
Proof. destruct a, b. reflexivity. Qed.

(** The local domain [di] of an engine. *)
Definition domain_at (dd : DistributedDomain.t) (di : nat) : LocalDomain.t :=
  nth di (DistributedDomain.domains_ dd) (LocalDomain.new Dim3.zero 0).

Lemma domain_at_swap (dd : DistributedDomain.t) (di : nat) :
  domain_at (DistributedDomain.swap dd) di = LocalDomain.swap (domain_at dd di).
Proof.
  unfold domain_at, DistributedDomain.swap.
  cbn [DistributedDomain.domains_].
  change (LocalDomain.new Dim3.zero 0)
    with (LocalDomain.swap (LocalDomain.new Dim3.zero 0)) at 1.
  apply map_nth.
Qed.

(** C7.  On an engine that has just been realized, [swap] exchanges the
    [curr] and [next] pointers of every field of every subdomain: after
    one call the [curr] pointer is the old [next] pointer and differs
    from its value before the call, and after two calls both pointers
    have their original values.  The swap of two [Array] objects
    likewise exchanges size and data pointer, and twice is the identity. *)
Theorem swap_exchanges_curr_next
    (dd : DistributedDomain.t) (brk : Z) (di qi : nat) :
  let dd0 := fst (DistributedDomain.realize dd brk) in
  let dd1 := DistributedDomain.swap dd0 in
  let dd2 := DistributedDomain.swap dd1 in
  DistributedDomain.domains_ dd = [] ->
  DistributedDomain.domainIdx_ dd = [] ->
  (di < length (DistributedDomain.gpus_ dd))%nat ->
  (qi < length (DistributedDomain.dataElemSize_ dd))%nat ->
  LocalDomain.curr_data (domain_at dd1 di) qi
  = LocalDomain.next_data (domain_at dd0 di) qi /\
  LocalDomain.next_data (domain_at dd1 di) qi
  = LocalDomain.curr_data (domain_at dd0 di) qi /\
  LocalDomain.curr_data (domain_at dd1 di) qi
  <> LocalDomain.curr_data (domain_at dd0 di) qi /\
  LocalDomain.curr_data (domain_at dd2 di) qi
  = LocalDomain.curr_data (domain_at dd0 di) qi /\
  LocalDomain.next_data (domain_at dd2 di) qi
  = LocalDomain.next_data (domain_at dd0 di) qi /\
  (forall a b : Array.t,
      Array.data_ (fst (Array.swap (a, b))) = Array.data_ b /\
      Array.data_ (snd (Array.swap (a, b))) = Array.data_ a /\
      Array.swap (Array.swap (a, b)) = (a, b)).
Proof.
  intros dd0 dd1 dd2 Hdom Hidx Hdi Hqi.
  pose proof (realize_spec dd brk Hdom Hidx) as Hspec. cbv zeta in Hspec.
  destruct Hspec as (_ & _ & _ & _ & _ & _ & _ & _ & Hdoms).
  specialize (Hdoms di (LocalDomain.new Dim3.zero 0) Hdi).
  destruct Hdoms as (_ & _ & _ & _ & _ & _ & Hptr).
  specialize (Hptr qi Hqi). fold dd0 in Hptr. fold (domain_at dd0 di) in Hptr.
  destruct Hptr as (Hc & Hn).
  subst dd2 dd1. rewrite swap_twice, domain_at_swap.
  unfold LocalDomain.swap at 1 2 3.
  unfold LocalDomain.curr_data at 1 3, LocalDomain.next_data at 2.
  cbn [LocalDomain.currDataPtrs_ LocalDomain.nextDataPtrs_].
  fold (LocalDomain.next_data (domain_at dd0 di) qi).
  fold (LocalDomain.curr_data (domain_at dd0 di) qi).
  repeat split; try reflexivity.
  - rewrite Hc, Hn. lia.
  - destruct a, b. reflexivity.
Qed.

Lemma swap_exchanges_curr_next_witness :
  let dd0 := fst (DistributedDomain.realize demo_engine 0) in
  let dd1 := DistributedDomain.swap dd0 in
  let dd2 := DistributedDomain.swap dd1 in
  LocalDomain.curr_data (domain_at dd0 1) 0 = 3 /\
  LocalDomain.curr_data (domain_at dd1 1) 0 = 4 /\
  LocalDomain.curr_data (domain_at dd1 1) 0
  <> LocalDomain.curr_data (domain_at dd0 1) 0 /\
  LocalDomain.curr_data (domain_at dd2 1) 0 = 3.
Proof.
  intros dd0 dd1 dd2.
  pose proof (swap_exchanges_curr_next demo_engine 0 1%nat 0%nat
                eq_refl eq_refl) as H.
  cbv zeta in H. fold dd0 dd1 dd2 in H.
  destruct H as (_ & _ & Hne & _); [cbn; lia | cbn; lia |].
  repeat split; try (vm_compute; reflexivity). exact Hne.
Defined.

End Swap.

(* ================================================================== *)
(** * Partitioner: the grids multiply out to the rank and gpu counts *)
(* ================================================================== *)

Section FactorProduct.

Definition prod (l : list Z) : Z := fold_right Z.mul 1 l.

Lemma prod_app (a b : list Z) : prod (a ++ b) = prod a * prod b.
Proof.
  unfold prod. induction a as [|x a IH]; cbn [app fold_right].
  - symmetry. apply Z.mul_1_l.
  - rewrite IH. ring.
Qed.

Lemma strip_spec (fuel : nat) :
  forall i n result result' n',
    PFP.strip fuel i n result = Some (result', n') ->
    1 <= n -> 2 <= i ->
    prod result' * n' = prod result * n /\
    (Forall (fun f => 2 <= f) result -> Forall (fun f => 2 <= f) result') /\
    1 <= n' /\ n' mod i <> 0 /\ (exists m, n = m * n').
Proof.
  induction fuel as [|k IH]; intros i n result result' n' Hs Hn Hi;
    cbn [PFP.strip] in Hs; [discriminate|].
  rewrite Z.rem_mod_nonneg, Z.quot_div_nonneg in Hs by lia.
  destruct (Z.eqb_spec (n mod i) 0) as [Hdiv|Hndiv].
  - pose proof (Z.div_mod n i ltac:(lia)) as Hdm. rewrite Hdiv in Hdm.
    assert (Hq : 1 <= n / i).
    { pose proof (Z.div_pos n i ltac:(lia) ltac:(lia)). nia. }
    destruct (IH _ _ _ _ _ Hs Hq Hi) as (Hp & Hf & Hn' & Hm & (m & Hdv)).
    rewrite prod_app in Hp. cbn [prod fold_right] in Hp.
    repeat split; try assumption.
    + rewrite Hp. nia.
    + intros Hall. apply Hf. apply Forall_app. split; [exact Hall|].
      constructor; [lia | constructor].
    + exists (i * m). rewrite Hdm at 1. rewrite Hdv at 1. ring.
  - injection Hs as <- <-. repeat split; auto. exists 1. lia.
Qed.

Lemma odd_factors_spec (fuel : nat) :
  forall i n result result' n',
    PFP.odd_factors fuel i n result = Some (result', n') ->
    1 <= n -> 3 <= i ->
    prod result' * n' = prod result * n /\
    (Forall (fun f => 2 <= f) result -> Forall (fun f => 2 <= f) result') /\
    1 <= n' /\ (exists m, n = m * n').
Proof.
  induction fuel as [|k IH]; intros i n result result' n' Hs Hn Hi;
    cbn [PFP.odd_factors] in Hs; [discriminate|].
  destruct (Z.leb_spec (i * i) n) as [Hle|Hgt].
  - destruct (PFP.strip (S (Z.to_nat n)) i n result) as [[r1 n1]|] eqn:Hst;
      [|discriminate].
    destruct (strip_spec _ _ _ _ _ _ Hst Hn ltac:(lia))
      as (Hp1 & Hf1 & Hn1 & _ & (m1 & Hd1)).
    destruct (IH _ _ _ _ _ Hs Hn1 ltac:(lia)) as (Hp & Hf & Hn' & (m & Hd)).
    repeat split; auto; [congruence|].
    exists (m1 * m). rewrite Hd1, Hd. ring.
  - injection Hs as <- <-. repeat split; auto. exists 1. lia.
Qed.

Lemma insert_desc_spec (a : Z) (l : list Z) :
  prod (PFP.insert_desc a l) = a * prod l /\
  (2 <= a -> Forall (fun f => 2 <= f) l ->
   Forall (fun f => 2 <= f) (PFP.insert_desc a l)).
Proof.
  induction l as [|b l (IHp & IHf)]; cbn [PFP.insert_desc].
  - split; [reflexivity|]. intros; constructor; auto.
  - destruct (b <? a).
    + split; [reflexivity|]. intros; constructor; auto.
    + split.
      * cbn [prod fold_right]. fold (prod (PFP.insert_desc a l)). fold (prod l).
        rewrite IHp. ring.
      * intros Ha Hall. inversion Hall; subst. constructor; auto.
Qed.

Lemma sort_desc_spec (l : list Z) :
  prod (PFP.sort_desc l) = prod l /\
  (Forall (fun f => 2 <= f) l -> Forall (fun f => 2 <= f) (PFP.sort_desc l)).
Proof.
  induction l as [|a l (IHp & IHf)]; cbn [PFP.sort_desc fold_right].
  - split; [reflexivity | auto].
  - fold (PFP.sort_desc l).
    destruct (insert_desc_spec a (PFP.sort_desc l)) as (Hp & Hf).
    split.
    + rewrite Hp, IHp. reflexivity.
    + intros Hall. inversion Hall; subst. auto.
Qed.

(** The factors returned multiply out to [n], and none is below 2. *)
Lemma prime_factors_spec (n : Z) (factors : list Z) :
  1 <= n -> PFP.prime_factors n = Some factors ->
  prod factors = n /\ Forall (fun f => 2 <= f) factors.
Proof.
  intros Hn. unfold PFP.prime_factors.
  destruct (PFP.strip (S (Z.to_nat n)) 2 n []) as [[r1 n1]|] eqn:H1;
    [|discriminate].
  destruct (strip_spec _ _ _ _ _ _ H1 Hn ltac:(lia))
    as (Hp1 & Hf1 & Hn1 & Hodd & _).
  destruct (PFP.odd_factors (S (Z.to_nat n1)) 3 n1 r1) as [[r2 n2]|] eqn:H2;
    [|discriminate].
  destruct (odd_factors_spec _ _ _ _ _ _ H2 Hn1 ltac:(lia))
    as (Hp2 & Hf2 & Hn2 & (m & Hdv)).
  intros Heq. injection Heq as <-.
  cbn [prod fold_right] in Hp1. rewrite Z.mul_1_l in Hp1.
  destruct (Z.ltb_spec 2 n2) as [Hgt|Hle].
  - destruct (sort_desc_spec (r2 ++ [n2])) as (Hp & Hf).
    split.
    + rewrite Hp, prod_app. cbn [prod fold_right]. lia.
    + apply Hf, Forall_app. split; [apply Hf2, Hf1; constructor|].
      constructor; [lia | constructor].
  - destruct (sort_desc_spec r2) as (Hp & Hf).
    assert (n2 = 1).
    { destruct (Z.eq_dec n2 2) as [->|]; [|lia].
      exfalso. apply Hodd. rewrite Hdv. apply Z.mod_mul. lia. }
    subst n2. split.
    + rewrite Hp. lia.
    + apply Hf, Hf2, Hf1. constructor.
Qed.

Definition volume (d : Dim3) : Z := Dim3.x d * Dim3.y d * Dim3.z d.

Lemma split_step_volume (st : Dim3 * Dim3) (amt : Z) :
  2 <= amt ->
  volume (snd (PFP.split_step st amt)) = volume (snd st) * amt.
Proof.
  intros Hamt. destruct st as [domSize dim]. unfold PFP.split_step.
  destruct (Z.ltb_spec amt 2); [lia|].
  destruct (PFP.split_axis domSize amt); unfold volume; cbn; ring.
Qed.

Lemma split_all_volume (factors : list Z) :
  Forall (fun f => 2 <= f) factors ->
  forall st,
    volume (snd (fold_left PFP.split_step factors st))
    = volume (snd st) * prod factors.
Proof.
  induction 1 as [|amt factors Hamt Hall IH]; intros st; cbn [fold_left].
  - cbn. lia.
  - rewrite IH, split_step_volume by exact Hamt.
    cbn [prod fold_right]. fold (prod factors). ring.
Qed.

(** The rank grid holds [ranks] cells and the gpu grid [gpus] cells. *)
Lemma new_volumes (size : Dim3) (ranks gpus : Z) (p : PFP.t) :
  1 <= ranks -> 1 <= gpus -> PFP.new size ranks gpus = Some p ->
  volume (PFP.rankDim_ p) = ranks /\ volume (PFP.gpuDim_ p) = gpus.
Proof.
  intros Hr Hg. unfold PFP.new.
  destruct (PFP.prime_factors ranks) as [rf|] eqn:Hrf; [|discriminate].
  destruct (PFP.prime_factors gpus) as [gf|] eqn:Hgf;
    [|destruct (PFP.split_all size rf); discriminate].
  destruct (prime_factors_spec _ _ Hr Hrf) as (Prf & Frf).
  destruct (prime_factors_spec _ _ Hg Hgf) as (Pgf & Fgf).
  pose proof (split_all_volume rf Frf (size, Dim3.mk 1 1 1)) as V1.
  unfold PFP.split_all.
  destruct (fold_left PFP.split_step rf (size, Dim3.mk 1 1 1)) as [d1 rd].
  pose proof (split_all_volume gf Fgf (d1, Dim3.mk 1 1 1)) as V2.
  destruct (fold_left PFP.split_step gf (d1, Dim3.mk 1 1 1)) as [d2 gd].
  intros Heq. injection Heq as <-. cbn [PFP.rankDim_ PFP.gpuDim_ snd] in *.
  change (volume (Dim3.mk 1 1 1)) with 1 in V1, V2. lia.
Qed.

End FactorProduct.

(* ================================================================== *)
(** * Partitioner: subdomain indices, ranks and gpus *)
(* ================================================================== *)

Section MixedRadix.

Variables A B C : Z.
Hypothesis A_pos : 1 <= A.
Hypothesis B_pos : 1 <= B.

Lemma mr_decode (r : Z) :
  0 <= r < A * B * C ->
  0 <= Z.rem r A < A /\
  0 <= Z.rem (Z.quot r A) B < B /\
  0 <= Z.quot (Z.quot r A) B < C /\
  Z.rem r A + Z.rem (Z.quot r A) B * A + Z.quot (Z.quot r A) B * B * A = r.
Proof.
  intros Hr.
  rewrite (Z.rem_mod_nonneg r A), (Z.quot_div_nonneg r A) by lia.
  assert (H1 : 0 <= r / A < B * C).
  { split; [apply Z.div_pos; lia|]. apply Z.div_lt_upper_bound; nia. }
  rewrite (Z.rem_mod_nonneg (r / A) B), (Z.quot_div_nonneg (r / A) B) by lia.
  pose proof (Z.mod_pos_bound r A ltac:(lia)).
  pose proof (Z.mod_pos_bound (r / A) B ltac:(lia)).
  pose proof (Z.div_mod r A ltac:(lia)).
  pose proof (Z.div_mod (r / A) B ltac:(lia)).
  assert (0 <= r / A / B < C).
  { split; [apply Z.div_pos; lia|]. apply Z.div_lt_upper_bound; nia. }
  repeat split; try lia; nia.
Qed.

Lemma mr_encode (x y z : Z) :
  0 <= x < A -> 0 <= y < B -> 0 <= z < C ->
  0 <= x + y * A + z * B * A < A * B * C /\
  Z.rem (x + y * A + z * B * A) A = x /\
  Z.rem (Z.quot (x + y * A + z * B * A) A) B = y /\
  Z.quot (Z.quot (x + y * A + z * B * A) A) B = z.
Proof.
  intros Hx Hy Hz.
  assert (Hr : 0 <= x + y * A + z * B * A < A * B * C).
  { assert (0 <= y * A <= (B - 1) * A) by nia.
    assert (0 <= B * A) by nia.
    assert (0 <= z * (B * A) <= (C - 1) * (B * A)) by nia.
    nia. }
  destruct (mr_decode _ Hr) as (Dx & Dy & Dz & Heq).
  split; [exact Hr|].
  set (r := x + y * A + z * B * A) in *.
  assert (E1 : (Z.rem (Z.quot r A) B + Z.quot (Z.quot r A) B * B) * A
               + Z.rem r A = (y + z * B) * A + x) by (subst r; nia).
  destruct (mixed_radix_inj A _ _ _ _ Dx Hx E1) as (H1 & H2).
  assert (E2 : Z.quot (Z.quot r A) B * B + Z.rem (Z.quot r A) B = z * B + y)
    by lia.
  destruct (mixed_radix_inj B _ _ _ _ Dy Hy E2) as (H3 & H4).
  auto.
Qed.

End MixedRadix.

Section Indices.

Variable p : PFP.t.
Hypothesis rank_dims :
  1 <= Dim3.x (PFP.rankDim_ p) /\ 1 <= Dim3.y (PFP.rankDim_ p)
  /\ 1 <= Dim3.z (PFP.rankDim_ p).
Hypothesis gpu_dims :
  1 <= Dim3.x (PFP.gpuDim_ p) /\ 1 <= Dim3.y (PFP.gpuDim_ p)
  /\ 1 <= Dim3.z (PFP.gpuDim_ p).

Lemma rank_idx_range (r : Z) :
  0 <= r < volume (PFP.rankDim_ p) ->
  in_extent (PFP.rankDim_ p) (PFP.rank_idx p r).
Proof.
  destruct rank_dims as (Rx & Ry & Rz). intros Hr.
  destruct (mr_decode _ _ _ Rx Ry r Hr) as (H1 & H2 & H3 & _).
  unfold in_extent, PFP.rank_idx. cbn. auto.
Qed.

Lemma gpu_idx_range (g : Z) :
  0 <= g < volume (PFP.gpuDim_ p) ->
  in_extent (PFP.gpuDim_ p) (PFP.gpu_idx p g).
Proof.
  destruct gpu_dims as (Gx & Gy & Gz). intros Hg.
  destruct (mr_decode _ _ _ Gx Gy g Hg) as (H1 & H2 & H3 & _).
  unfold in_extent, PFP.gpu_idx. cbn. auto.
Qed.

(** One axis of a subdomain index: rank part and gpu part. *)
Lemma axis_split (G r g : Z) :
  1 <= G -> 0 <= r -> 0 <= g < G ->
  Z.quot (r * G + g) G = r /\ Z.rem (r * G + g) G = g.
Proof.
  intros HG Hr Hg.
  rewrite Z.quot_div_nonneg, Z.rem_mod_nonneg by nia.
  split.
  - symmetry. apply (Z.div_unique _ _ _ g); lia.
  - symmetry. apply (Z.mod_unique _ _ r); lia.
Qed.

Lemma axis_join (G i : Z) :
  1 <= G -> 0 <= i ->
  0 <= Z.quot i G /\ 0 <= Z.rem i G < G /\ Z.quot i G * G + Z.rem i G = i.
Proof.
  intros HG Hi.
  rewrite Z.quot_div_nonneg, Z.rem_mod_nonneg by lia.
  pose proof (Z.div_pos i G ltac:(lia) ltac:(lia)).
  pose proof (Z.mod_pos_bound i G ltac:(lia)).
  pose proof (Z.div_mod i G ltac:(lia)). lia.
Qed.

Lemma dom_idx_in_grid (r g : Z) :
  0 <= r < volume (PFP.rankDim_ p) -> 0 <= g < volume (PFP.gpuDim_ p) ->
  in_extent (PFP.grid p) (PFP.dom_idx p r g).
Proof.
  intros Hr Hg.
  destruct (rank_idx_range r Hr) as (Rx & Ry & Rz).
  destruct (gpu_idx_range g Hg) as (Gx & Gy & Gz).
  unfold in_extent, PFP.dom_idx, PFP.grid, PFP.gpu_dim.
  cbn [Dim3.x Dim3.y Dim3.z Dim3.add Dim3.mul]. nia.
Qed.

Lemma get_rank_dom_idx (r g : Z) :
  0 <= r < volume (PFP.rankDim_ p) -> 0 <= g < volume (PFP.gpuDim_ p) ->
  PFP.get_rank p (PFP.dom_idx p r g) = r.
Proof.
  intros Hr Hg.
  destruct (rank_idx_range r Hr) as (Rx & Ry & Rz).
  destruct (gpu_idx_range g Hg) as (Gx & Gy & Gz).
  destruct rank_dims as (Dx & Dy & Dz).
  destruct (mr_decode _ _ _ Dx Dy r Hr) as (_ & _ & _ & Heq).
  unfold PFP.get_rank, PFP.dom_idx, PFP.gpu_dim.
  cbn [Dim3.x Dim3.y Dim3.z Dim3.add Dim3.mul Dim3.div].
  destruct (axis_split (Dim3.x (PFP.gpuDim_ p)) (Dim3.x (PFP.rank_idx p r))
              (Dim3.x (PFP.gpu_idx p g))) as (-> & _); try lia.
  destruct (axis_split (Dim3.y (PFP.gpuDim_ p)) (Dim3.y (PFP.rank_idx p r))
              (Dim3.y (PFP.gpu_idx p g))) as (-> & _); try lia.
  destruct (axis_split (Dim3.z (PFP.gpuDim_ p)) (Dim3.z (PFP.rank_idx p r))
              (Dim3.z (PFP.gpu_idx p g))) as (-> & _); try lia.
  unfold PFP.rank_idx. cbn [Dim3.x Dim3.y Dim3.z]. exact Heq.
Qed.

Lemma get_gpu_dom_idx (r g : Z) :
  0 <= r < volume (PFP.rankDim_ p) -> 0 <= g < volume (PFP.gpuDim_ p) ->
  PFP.get_gpu p (PFP.dom_idx p r g) = g.
Proof.
  intros Hr Hg.
  destruct (rank_idx_range r Hr) as (Rx & Ry & Rz).
  destruct (gpu_idx_range g Hg) as (Gx & Gy & Gz).
  destruct gpu_dims as (Dx & Dy & Dz).
  destruct (mr_decode _ _ _ Dx Dy g Hg) as (_ & _ & _ & Heq).
  unfold PFP.get_gpu, PFP.dom_idx, PFP.gpu_dim.
  cbn [Dim3.x Dim3.y Dim3.z Dim3.add Dim3.mul Dim3.rem].
  destruct (axis_split (Dim3.x (PFP.gpuDim_ p)) (Dim3.x (PFP.rank_idx p r))
              (Dim3.x (PFP.gpu_idx p g))) as (_ & ->); try lia.
  destruct (axis_split (Dim3.y (PFP.gpuDim_ p)) (Dim3.y (PFP.rank_idx p r))
              (Dim3.y (PFP.gpu_idx p g))) as (_ & ->); try lia.
  destruct (axis_split (Dim3.z (PFP.gpuDim_ p)) (Dim3.z (PFP.rank_idx p r))
              (Dim3.z (PFP.gpu_idx p g))) as (_ & ->); try lia.
  unfold PFP.gpu_idx. cbn [Dim3.x Dim3.y Dim3.z]. exact Heq.
Qed.

(** Every subdomain of the grid is owned by one rank and one of its gpus. *)
Lemma owner_of_idx (idx : Dim3) :
  in_extent (PFP.grid p) idx ->
  0 <= PFP.get_rank p idx < volume (PFP.rankDim_ p) /\
  0 <= PFP.get_gpu p idx < volume (PFP.gpuDim_ p) /\
  PFP.dom_idx p (PFP.get_rank p idx) (PFP.get_gpu p idx) = idx.
Proof.
  destruct rank_dims as (Rx & Ry & Rz), gpu_dims as (Gx & Gy & Gz).
  unfold in_extent, PFP.grid. cbn [Dim3.x Dim3.y Dim3.z Dim3.mul].
  intros (Hx & Hy & Hz).
  destruct (axis_join (Dim3.x (PFP.gpuDim_ p)) (Dim3.x idx)) as (Qx & Mx & Ex);
    try lia.
  destruct (axis_join (Dim3.y (PFP.gpuDim_ p)) (Dim3.y idx)) as (Qy & My & Ey);
    try lia.
  destruct (axis_join (Dim3.z (PFP.gpuDim_ p)) (Dim3.z idx)) as (Qz & Mz & Ez);
    try lia.
  assert (Bx : Z.quot (Dim3.x idx) (Dim3.x (PFP.gpuDim_ p))
               < Dim3.x (PFP.rankDim_ p)) by nia.
  assert (By : Z.quot (Dim3.y idx) (Dim3.y (PFP.gpuDim_ p))
               < Dim3.y (PFP.rankDim_ p)) by nia.
  assert (Bz : Z.quot (Dim3.z idx) (Dim3.z (PFP.gpuDim_ p))
               < Dim3.z (PFP.rankDim_ p)) by nia.
  destruct (mr_encode _ _ _ Rx Ry _ _ _ (conj Qx Bx) (conj Qy By) (conj Qz Bz))
    as (Hr & R1 & R2 & R3).
  destruct (mr_encode _ _ _ Gx Gy _ _ _ Mx My Mz) as (Hg & G1 & G2 & G3).
  unfold PFP.get_rank, PFP.get_gpu, volume.
  cbn [Dim3.x Dim3.y Dim3.z Dim3.div Dim3.rem].
  split; [exact Hr|]. split; [exact Hg|].
  unfold PFP.dom_idx, PFP.rank_idx, PFP.gpu_idx, PFP.gpu_dim, Dim3.add, Dim3.mul.
  cbn [Dim3.x Dim3.y Dim3.z].
  rewrite R1, R2, R3, G1, G2, G3, Ex, Ey, Ez. now destruct idx.
Qed.

End Indices.

(* ================================================================== *)
(** * Device operations: frame and copy *)
(* ================================================================== *)

Section OpSpecs.

Lemma dim3_eqb_eq (a b : Dim3) : Dim3.eqb a b = true <-> a = b.
Proof.
  destruct a as [ax ay az], b as [bx by_ bz]. unfold Dim3.eqb. cbn.
  rewrite !andb_true_iff, !Z.eqb_eq. split.
  - intros ((-> & ->) & ->). reflexivity.
  - intros H. injection H as -> -> ->. auto.
Qed.

Lemma key_eqb_eq (a b : Key) : key_eqb a b = true <-> a = b.
Proof.
  destruct a as [[[[a1 a2] a3] a4] ad], b as [[[[b1 b2] b3] b4] bd].
  unfold key_eqb. rewrite !andb_true_iff, !Z.eqb_eq, dim3_eqb_eq. split.
  - intros ((((-> & ->) & ->) & ->) & ->). reflexivity.
  - intros H. injection H as -> -> -> -> ->. auto.
Qed.

Lemma key_eq_dec (a b : Key) : a = b \/ a <> b.
Proof.
  destruct (key_eqb a b) eqn:H.
  - left. now apply key_eqb_eq.
  - right. intros Heq. apply key_eqb_eq in Heq. congruence.
Qed.

(** A bounded search over the points of an extent. *)
Lemma extent_search (f : Dim3 -> bool) (extent : Dim3) :
  (exists i, in_extent extent i /\ f i = true) \/
  (forall i, in_extent extent i -> f i = false).
Proof.
  destruct (existsb f (dim3_range extent)) eqn:H.
  - left. apply existsb_exists in H. destruct H as (i & Hi & Hf).
    exists i. split; [now apply dim3_range_In | exact Hf].
  - right. intros i Hi. destruct (f i) eqn:Hf; [|reflexivity].
    assert (existsb f (dim3_range extent) = true)
      by (apply existsb_exists; exists i; split;
          [now apply dim3_range_In | exact Hf]).
    congruence.
Qed.

Lemma touches_dec (op : Op) (a : Loc) : touches op a \/ ~ touches op a.
Proof.
  destruct op, a; cbn [touches]; try (right; tauto).
  all: try (destruct (Z.eq_dec rank0 rank) as [->|Hr]; [|right; tauto];
            destruct (Z.eq_dec blk dst) as [->|Hb]; [|right; tauto];
            unfold region_covers;
            match goal with
            | |- context [covers ?e ?db ?o _ ?p] =>
                destruct (extent_search (fun i => covers e db o i p) extent)
                  as [Hex|Hno]
            end;
            [left; auto | right; intros (_ & _ & (i & Hi & Hc));
                          rewrite (Hno i Hi) in Hc; discriminate]).
  destruct (key_eq_dec key0 key) as [->|Hk]; [|right; tauto].
  unfold packed_covers.
  destruct (extent_search (fun i => covers elemSize offset (linear extent) i off)
              extent) as [Hex|Hno].
  - left. auto.
  - right. intros (_ & (i & Hi & Hc)). rewrite (Hno i Hi) in Hc. discriminate.
Qed.

Lemma read_set_block (w : World) (rank : Z) (blk : ptr) (buf : buffer) (a : Loc) :
  read (set_block w rank blk buf) a
  = match a with
    | DevLoc r b p => if (r =? rank) && (b =? blk) then buf p else read w a
    | MailLoc _ _ => read w a
    end.
Proof.
  destruct a as [r b p|k p]; cbn; [|reflexivity].
  destruct (r =? rank), (b =? blk); reflexivity.
Qed.

Lemma message_post (w : World) (key k : Key) (buf : buffer) :
  message (post w key buf) k = if key_eqb k key then buf else message w k.
Proof.
  unfold message, post. cbn. destruct (key_eqb k key); reflexivity.
Qed.

Variable l : Launch.
Hypothesis l_ok : launch_ok l.

Lemma pack_frame (dst : buffer) (db : Z) (src : buffer) (sb : Z)
    (srcSize srcPos extent : Dim3) (e : Z) (p : Z) :
  (forall i, in_extent extent i -> covers e db (linear extent) i p = false) ->
  pack l dst db src sb srcSize srcPos extent e p = dst p.
Proof.
  intros Hnone. unfold pack, grid_pack. rewrite launch_fold.
  apply (launch_copies_frame e db sb src (linear extent)
           (fun j => linear srcSize (Dim3.add j srcPos))); try assumption.
  intros dst' j q. cbv zeta. rewrite copy_elem_spec. reflexivity.
Qed.

Lemma not_covered (e db : Z) (o : Dim3 -> Z) (extent : Dim3) (p : Z) :
  ~ (exists i, in_extent extent i /\ covers e db o i p = true) ->
  forall i, in_extent extent i -> covers e db o i p = false.
Proof.
  intros Hno i Hi. destruct (covers e db o i p) eqn:Hc; [|reflexivity].
  exfalso. apply Hno. eauto.
Qed.

(** An operation leaves every location it does not touch. *)
Lemma exec_frame (w w' : World) (op : Op) (a : Loc) :
  exec l w op = Some w' -> ~ touches op a -> read w' a = read w a.
Proof.
  destruct op; cbn [exec touches]; intros Hex Hnt.
  - injection Hex as <-. rewrite read_set_block.
    destruct a as [r b p|k p]; [|reflexivity].
    destruct (Z.eqb_spec r rank) as [->|]; [|reflexivity].
    destruct (Z.eqb_spec b dst) as [->|]; [|reflexivity]. cbn [andb read].
    apply translate_frame; [exact l_ok|].
    apply not_covered. intros Hc. apply Hnt. auto.
  - injection Hex as <-. rewrite read_set_block.
    destruct a as [r b p|k p]; [|reflexivity].
    destruct (Z.eqb_spec r rank) as [->|]; [|reflexivity].
    destruct (Z.eqb_spec b dst) as [->|]; [|reflexivity]. cbn [andb read].
    apply unpack_frame; [exact l_ok|].
    apply not_covered. intros Hc. apply Hnt. auto.
  - injection Hex as <-.
    destruct a as [r b p|k p]; [reflexivity|]. cbn [read].
    rewrite message_post.
    destruct (key_eqb k key) eqn:Hk; [|reflexivity].
    apply key_eqb_eq in Hk. subst k.
    apply pack_frame. apply not_covered. intros Hc. apply Hnt. auto.
  - destruct (mail w key) as [buf|]; [|discriminate].
    injection Hex as <-. rewrite read_set_block.
    destruct a as [r b p|k p]; [|reflexivity].
    destruct (Z.eqb_spec r rank) as [->|]; [|reflexivity].
    destruct (Z.eqb_spec b dst) as [->|]; [|reflexivity]. cbn [andb read].
    apply unpack_frame; [exact l_ok|].
    apply not_covered. intros Hc. apply Hnt. auto.
Qed.

(** The linear index within an allocation is injective on the points that
    lie within its rows and columns. *)
Lemma linear_inj_pitch (size a b : Dim3) :
  0 <= Dim3.x a < Dim3.x size -> 0 <= Dim3.y a < Dim3.y size ->
  0 <= Dim3.x b < Dim3.x size -> 0 <= Dim3.y b < Dim3.y size ->
  linear size a = linear size b -> a = b.
Proof.
  destruct a as [xa ya za], b as [xb yb zb], size as [sx sy sz].
  unfold linear. cbn [Dim3.x Dim3.y Dim3.z].
  intros Hxa Hya Hxb Hyb Heq.
  assert (E1 : (za * sy + ya) * sx + xa = (zb * sy + yb) * sx + xb) by lia.
  destruct (mixed_radix_inj sx _ _ _ _ Hxa Hxb E1) as (E2 & ->).
  destruct (mixed_radix_inj sy _ _ _ _ Hya Hyb E2) as (-> & ->).
  reflexivity.
Qed.

Lemma region_point_inj (size pos extent i j : Dim3) :
  region_in_pitch size pos extent ->
  in_extent extent i -> in_extent extent j ->
  linear size (Dim3.add j pos) = linear size (Dim3.add i pos) -> j = i.
Proof.
  intros Hpitch Hi Hj Heq.
  destruct (Hpitch i Hi) as (Hxi & Hyi), (Hpitch j Hj) as (Hxj & Hyj).
  apply linear_inj_pitch in Heq; cbn [Dim3.add Dim3.x Dim3.y]; try assumption.
  destruct i, j, pos. unfold Dim3.add in Heq. cbn in Heq.
  injection Heq as Hx Hy Hz. f_equal; lia.
Qed.

(** An operation copies the source of every location it writes. *)
Lemma exec_write (w w' : World) (op : Op) (a s : Loc) :
  exec l w op = Some w' -> dst_in_pitch op -> writes op a s ->
  read w' a = read w s.
Proof.
  destruct op; cbn [exec writes dst_in_pitch]; intros Hex Hpitch Hw.
  - injection Hex as <-. destruct Hw as (i & b & Hi & Hb & -> & ->).
    rewrite read_set_block, !Z.eqb_refl. cbn [andb read].
    apply translate_agree; [exact l_ok| |].
    + exists i. split; [exact Hi|]. now apply (covers_own_slot elemSize 0).
    + intros j Hj Hc.
      apply (covers_same_slot elemSize 0) in Hc; [|exact Hb].
      apply (region_point_inj dstSize dstPos extent i j Hpitch Hi Hj) in Hc.
      subst j. f_equal. lia.
  - injection Hex as <-. destruct Hw as (i & b & Hi & Hb & -> & ->).
    rewrite read_set_block, !Z.eqb_refl. cbn [andb read].
    apply unpack_agree; [exact l_ok| |].
    + exists i. split; [exact Hi|]. now apply (covers_own_slot elemSize 0).
    + intros j Hj Hc.
      apply (covers_same_slot elemSize 0) in Hc; [|exact Hb].
      apply (region_point_inj dstSize dstPos extent i j Hpitch Hi Hj) in Hc.
      subst j.
      replace (linear dstSize (Dim3.add i dstPos) * elemSize + b
               - (0 + linear dstSize (Dim3.add i dstPos) * elemSize))
        with b by lia.
      rewrite (pack_spec l l_ok zero_buffer 0 (dev w rank src) 0 srcSize srcPos
                 extent elemSize i b Hi Hb).
      reflexivity.
  - injection Hex as <-. destruct Hw as (i & b & Hi & Hb & -> & ->).
    cbn [read]. rewrite message_post.
    replace (key_eqb key key) with true by (symmetry; now apply key_eqb_eq).
    rewrite (pack_spec l l_ok (message w key) offset (dev w rank src) 0 srcSize
               srcPos extent elemSize i b Hi Hb).
    reflexivity.
  - destruct (mail w key) as [buf|] eqn:Hmail; [|discriminate].
    injection Hex as <-. destruct Hw as (i & b & Hi & Hb & -> & ->).
    rewrite read_set_block, !Z.eqb_refl. cbn [andb read].
    unfold message. rewrite Hmail.
    apply unpack_agree; [exact l_ok| |].
    + exists i. split; [exact Hi|]. now apply (covers_own_slot elemSize 0).
    + intros j Hj Hc.
      apply (covers_same_slot elemSize 0) in Hc; [|exact Hb].
      apply (region_point_inj dstSize dstPos extent i j Hpitch Hi Hj) in Hc.
      subst j. f_equal. lia.
Qed.

End OpSpecs.

(* ================================================================== *)
(** * Sequences of device operations *)
(* ================================================================== *)

Section RunSpecs.

Variable l : Launch.
Hypothesis l_ok : launch_ok l.

Lemma run_app (L1 L2 : list Op) (w : World) :
  run l (L1 ++ L2) w
  = match run l L1 w with Some w1 => run l L2 w1 | None => None end.
Proof.
  revert w. induction L1 as [|op L1 IH]; intros w; cbn [app run]; [reflexivity|].
  destruct (exec l w op) as [w1|]; [apply IH | reflexivity].
Qed.

Lemma run_frame (L : list Op) (a : Loc) :
  forall w w', run l L w = Some w' ->
               (forall op, In op L -> ~ touches op a) ->
               read w' a = read w a.
Proof.
  induction L as [|op L IH]; intros w w' Hrun Hnone; cbn [run] in Hrun.
  - now injection Hrun as <-.
  - destruct (exec l w op) as [w1|] eqn:Hex; [|discriminate].
    rewrite (IH w1 w' Hrun) by (intros op' Hin; apply Hnone; now right).
    apply (exec_frame l l_ok w w1 op a Hex). apply Hnone. now left.
Qed.

Lemma touched_dec (L : list Op) (a : Loc) :
  (exists op, In op L /\ touches op a) \/
  (forall op, In op L -> ~ touches op a).
Proof.
  induction L as [|op L [(op' & Hin & Ht)|IH]].
  - right. intros op [].
  - left. exists op'. split; [now right | exact Ht].
  - destruct (touches_dec op a) as [Ht|Hnt].
    + left. exists op. split; [now left | exact Ht].
    + right. intros op' [<-|Hin]; [exact Hnt | now apply IH].
Qed.

(** When every operation of the sequence that touches [a] copies there a
    location that holds [v] and that the sequence leaves alone, and one
    operation does, [a] holds [v] at the end. *)
Lemma run_agree (L : list Op) (a : Loc) (v : byte) :
  forall w w',
    run l L w = Some w' ->
    (forall op, In op L -> dst_in_pitch op) ->
    (exists op, In op L /\ touches op a) ->
    (forall op, In op L -> touches op a ->
                exists s, writes op a s /\ read w s = v /\
                          forall op', In op' L -> ~ touches op' s) ->
    read w' a = v.
Proof.
  induction L as [|op L IH]; intros w w' Hrun Hpitch Hex Hall; cbn [run] in Hrun.
  - destruct Hex as (op & [] & _).
  - destruct (exec l w op) as [w1|] eqn:Hexec; [|discriminate].
    destruct (touched_dec L a) as [Hlater|Hnone].
    + apply (IH w1 w' Hrun).
      * intros op' Hin. apply Hpitch. now right.
      * exact Hlater.
      * intros op' Hin Ht.
        destruct (Hall op' (or_intror Hin) Ht) as (s & Hw & Hv & Hs).
        exists s. split; [exact Hw|]. split.
        -- rewrite (exec_frame l l_ok w w1 op s Hexec); [exact Hv|].
           apply Hs. now left.
        -- intros op'' Hin'. apply Hs. now right.
    + rewrite (run_frame L a w1 w' Hrun Hnone).
      destruct Hex as (op' & [<-|Hin] & Ht); [|now destruct (Hnone op' Hin)].
      destruct (Hall op (or_introl eq_refl) Ht) as (s & Hw & Hv & _).
      rewrite (exec_write l l_ok w w1 op a s Hexec); [exact Hv | | exact Hw].
      apply Hpitch. now left.
Qed.

Lemma exec_keeps_mail (w w' : World) (op : Op) (k : Key) :
  exec l w op = Some w' -> mail w k <> None -> mail w' k <> None.
Proof.
  destruct op; cbn [exec]; intros Hex Hk.
  - now injection Hex as <-.
  - now injection Hex as <-.
  - injection Hex as <-. cbn [post mail].
    destruct (key_eqb k key); [discriminate | exact Hk].
  - destruct (mail w key); [|discriminate]. now injection Hex as <-.
Qed.

Lemma run_keeps_mail (L : list Op) (k : Key) :
  forall w w', run l L w = Some w' -> mail w k <> None -> mail w' k <> None.
Proof.
  induction L as [|op L IH]; intros w w' Hrun Hk; cbn [run] in Hrun.
  - now injection Hrun as <-.
  - destruct (exec l w op) as [w1|] eqn:Hex; [|discriminate].
    apply (IH w1 w' Hrun). exact (exec_keeps_mail w w1 op k Hex Hk).
Qed.

(** A sequence returns when the message of each of its receivers is
    there. *)
Lemma run_returns (L : list Op) :
  forall w,
    (forall rank dst dstPos dstSize extent key offset e,
        In (KUnpack rank dst dstPos dstSize extent key offset e) L ->
        mail w key <> None) ->
    exists w', run l L w = Some w'.
Proof.
  induction L as [|op L IH]; intros w Hmail; cbn [run]; [eauto|].
  assert (Hex : exists w1, exec l w op = Some w1).
  { destruct op; cbn [exec]; eauto.
    destruct (mail w key) eqn:Hk; [eauto|].
    exfalso. eapply Hmail; [left; reflexivity | exact Hk]. }
  destruct Hex as (w1 & Hex). rewrite Hex. apply IH.
  intros rank dst dstPos dstSize extent key offset e Hin.
  apply (exec_keeps_mail w w1 op key Hex). eapply Hmail. right. exact Hin.
Qed.

(** Every sender of the sequence has posted its message at the end. *)
Lemma run_posts (L : list Op) :
  forall w w' rank key offset src srcPos srcSize extent e,
    run l L w = Some w' ->
    In (KPack rank key offset src srcPos srcSize extent e) L ->
    mail w' key <> None.
Proof.
  induction L as [|op L IH];
    intros w w' rank key offset src srcPos srcSize extent e Hrun Hin;
    cbn [run] in Hrun; [destruct Hin|].
  destruct (exec l w op) as [w1|] eqn:Hex; [|discriminate].
  destruct Hin as [->|Hin].
  - apply (run_keeps_mail L key w1 w' Hrun).
    cbn [exec] in Hex. injection Hex as <-. cbn [post mail].
    replace (key_eqb key key) with true by (symmetry; now apply key_eqb_eq).
    discriminate.
  - exact (IH w1 w' rank key offset src srcPos srcSize extent e Hrun Hin).
Qed.

End RunSpecs.

(* ================================================================== *)
(** * Geometry of the regions of a local domain *)
(* ================================================================== *)

Section Geometry.

Ltac axis_cases :=
  repeat match goal with
         | |- context [?a =? ?b] => destruct (Z.eqb_spec a b)
         | |- context [?a <? ?b] => destruct (Z.ltb_spec a b)
         end; cbn [negb] in *; try lia.

Lemma side_axis_halo (sz R d i : Z) :
  0 <= R -> 0 <= sz -> -1 <= d <= 1 ->
  0 <= i < (if negb (d =? 0) then R else sz) ->
  side_axis sz R (i + LocalDomain.halo_pos_axis sz R d true) = d.
Proof.
  intros HR Hsz Hd. unfold side_axis, LocalDomain.halo_pos_axis.
  destruct (Z.eqb_spec d 0); cbn [negb]; intros Hi; axis_cases.
Qed.

Lemma side_axis_interior (sz R d i : Z) :
  0 <= R <= sz -> -1 <= d <= 1 ->
  0 <= i < (if negb (d =? 0) then R else sz) ->
  side_axis sz R (i + LocalDomain.halo_pos_axis sz R d false) = 0.
Proof.
  intros HR Hd. unfold side_axis, LocalDomain.halo_pos_axis.
  destruct (Z.eqb_spec d 0); cbn [negb]; intros Hi; axis_cases.
Qed.

Lemma axis_halo_in_raw (sz R d i : Z) :
  0 <= R -> 0 <= sz -> -1 <= d <= 1 ->
  0 <= i < (if negb (d =? 0) then R else sz) ->
  0 <= i + LocalDomain.halo_pos_axis sz R d true < sz + 2 * R.
Proof.
  intros HR Hsz Hd. unfold LocalDomain.halo_pos_axis.
  destruct (Z.eqb_spec d 0); cbn [negb]; intros Hi; axis_cases.
Qed.

Lemma axis_interior_in_raw (sz R d i : Z) :
  0 <= R <= sz -> -1 <= d <= 1 ->
  0 <= i < (if negb (d =? 0) then R else sz) ->
  0 <= i + LocalDomain.halo_pos_axis sz R d false < sz + 2 * R.
Proof.
  intros HR Hd. unfold LocalDomain.halo_pos_axis.
  destruct (Z.eqb_spec d 0); cbn [negb]; intros Hi; axis_cases.
Qed.

(** A point of the halo region of direction [dir] lies on the side [dir]. *)
Lemma side_halo (d : LocalDomain.t) (dir i : Dim3) :
  shaped d -> is_dir dir ->
  in_extent (LocalDomain.halo_extent d dir) i ->
  side d (Dim3.add i (LocalDomain.halo_pos d dir true)) = dir.
Proof.
  intros (HR & Hx & Hy & Hz) (Dx & Dy & Dz) (Ix & Iy & Iz).
  destruct dir as [dx dy dz]. unfold side, LocalDomain.halo_pos.
  cbn [Dim3.x Dim3.y Dim3.z Dim3.add LocalDomain.halo_extent
       LocalDomain.halo_extent_of] in *.
  rewrite !side_axis_halo by assumption. reflexivity.
Qed.

(** With room for the radius, a point of the interior region of any
    direction lies in the compute region. *)
Lemma side_interior (d : LocalDomain.t) (dir i : Dim3) :
  shaped d -> roomy d -> is_dir dir ->
  in_extent (LocalDomain.halo_extent d dir) i ->
  side d (Dim3.add i (LocalDomain.halo_pos d dir false)) = Dim3.zero.
Proof.
  intros (HR & Hx & Hy & Hz) (Rx & Ry & Rz) (Dx & Dy & Dz) (Ix & Iy & Iz).
  destruct dir as [dx dy dz]. unfold side, LocalDomain.halo_pos.
  cbn [Dim3.x Dim3.y Dim3.z Dim3.add LocalDomain.halo_extent
       LocalDomain.halo_extent_of] in *.
  rewrite !side_axis_interior by (try assumption; lia). reflexivity.
Qed.

Lemma halo_in_raw (d : LocalDomain.t) (dir i : Dim3) :
  shaped d -> is_dir dir ->
  in_extent (LocalDomain.halo_extent d dir) i ->
  in_extent (LocalDomain.raw_size d)
            (Dim3.add i (LocalDomain.halo_pos d dir true)).
Proof.
  intros (HR & Hx & Hy & Hz) (Dx & Dy & Dz) (Ix & Iy & Iz).
  destruct dir as [dx dy dz].
  unfold in_extent, LocalDomain.halo_pos, LocalDomain.raw_size.
  cbn [Dim3.x Dim3.y Dim3.z Dim3.add LocalDomain.halo_extent
       LocalDomain.halo_extent_of] in *.
  repeat split; apply axis_halo_in_raw; assumption.
Qed.

Lemma interior_in_raw (d : LocalDomain.t) (dir i : Dim3) :
  shaped d -> roomy d -> is_dir dir ->
  in_extent (LocalDomain.halo_extent d dir) i ->
  in_extent (LocalDomain.raw_size d)
            (Dim3.add i (LocalDomain.halo_pos d dir false)).
Proof.
  intros (HR & Hx & Hy & Hz) (Rx & Ry & Rz) (Dx & Dy & Dz) (Ix & Iy & Iz).
  destruct dir as [dx dy dz].
  unfold in_extent, LocalDomain.halo_pos, LocalDomain.raw_size.
  cbn [Dim3.x Dim3.y Dim3.z Dim3.add LocalDomain.halo_extent
       LocalDomain.halo_extent_of] in *.
  repeat split; apply axis_interior_in_raw; try assumption; lia.
Qed.

(** Two local domains with the same radius, and the same compute size on
    the axes along which [dir] does not move, have the same extent for
    [dir] and its opposite. *)
Lemma halo_extent_neighbor (a b : LocalDomain.t) (dir : Dim3) :
  LocalDomain.radius_ a = LocalDomain.radius_ b ->
  (Dim3.x dir = 0 -> Dim3.x (LocalDomain.sz_ a) = Dim3.x (LocalDomain.sz_ b)) ->
  (Dim3.y dir = 0 -> Dim3.y (LocalDomain.sz_ a) = Dim3.y (LocalDomain.sz_ b)) ->
  (Dim3.z dir = 0 -> Dim3.z (LocalDomain.sz_ a) = Dim3.z (LocalDomain.sz_ b)) ->
  LocalDomain.halo_extent a dir = LocalDomain.halo_extent b (Dim3.neg dir).
Proof.
  intros HR Hx Hy Hz. destruct dir as [dx dy dz].
  unfold LocalDomain.halo_extent, LocalDomain.halo_extent_of.
  cbn [Dim3.x Dim3.y Dim3.z Dim3.neg] in *. rewrite HR.
  f_equal.
  - destruct (Z.eqb_spec dx 0), (Z.eqb_spec (- dx) 0); cbn [negb]; auto; lia.
  - destruct (Z.eqb_spec dy 0), (Z.eqb_spec (- dy) 0); cbn [negb]; auto; lia.
  - destruct (Z.eqb_spec dz 0), (Z.eqb_spec (- dz) 0); cbn [negb]; auto; lia.
Qed.

Lemma is_dir_neg (dir : Dim3) : is_dir dir -> is_dir (Dim3.neg dir).
Proof.
  destruct dir as [dx dy dz]. unfold is_dir. cbn. lia.
Qed.

Lemma neg_neg (dir : Dim3) : Dim3.neg (Dim3.neg dir) = dir.
Proof.
  destruct dir as [dx dy dz]. unfold Dim3.neg. cbn. f_equal; lia.
Qed.

Lemma neg_zero (dir : Dim3) : Dim3.neg dir = Dim3.zero -> dir = Dim3.zero.
Proof.
  destruct dir as [dx dy dz]. unfold Dim3.neg, Dim3.zero. cbn.
  intros H. injection H as Hx Hy Hz. f_equal; lia.
Qed.

(** The position of an element in a packed buffer is within its field. *)
Lemma linear_bound (extent i : Dim3) :
  in_extent extent i -> 0 <= linear extent i < Dim3.flatten extent.
Proof.
  destruct extent as [ex ey ez], i as [ix iy iz].
  unfold in_extent, linear, Dim3.flatten. cbn [Dim3.x Dim3.y Dim3.z].
  intros (Hx & Hy & Hz).
  assert (H1 : 0 <= iz * ey) by (apply Z.mul_nonneg_nonneg; lia).
  assert (H2 : 0 <= (iz * ey + iy) * ex) by (apply Z.mul_nonneg_nonneg; lia).
  assert (H3 : (iz + 1) * ey <= ez * ey)
    by (apply Z.mul_le_mono_nonneg_r; lia).
  assert (H4 : (iz * ey + iy + 1) * ex <= ez * ey * ex)
    by (apply Z.mul_le_mono_nonneg_r; lia).
  lia.
Qed.

End Geometry.

(* ================================================================== *)
(** * Fields of a message *)
(* ================================================================== *)

Section Fields.

Variables (elems : list Z) (n : Z).
Hypothesis elems_pos : Forall (fun e => 1 <= e) elems.
Hypothesis n_nonneg : 0 <= n.

Lemma elem_pos (q : nat) : (q < length elems)%nat -> 1 <= nth q elems 0.
Proof.
  intros Hq. rewrite Forall_forall in elems_pos.
  apply elems_pos. now apply nth_In.
Qed.

Lemma field_offset_succ (q : nat) :
  (q < length elems)%nat ->
  field_offset elems n (S q) = field_offset elems n q + nth q elems 0 * n.
Proof.
  unfold field_offset. clear elems_pos. revert q.
  induction elems as [|e es IH]; intros q Hq; cbn [length] in Hq; [lia|].
  destruct q as [|q].
  - cbn [firstn map fold_right nth]. lia.
  - change (firstn (S (S q)) (e :: es)) with (e :: firstn (S q) es).
    change (firstn (S q) (e :: es)) with (e :: firstn q es).
    cbn [map fold_right nth]. rewrite (IH q) by lia. lia.
Qed.

Lemma field_offset_mono (q q' : nat) :
  (q <= q')%nat -> (q' <= length elems)%nat ->
  field_offset elems n q <= field_offset elems n q'.
Proof.
  induction 1 as [|q' Hle IH]; intros Hq'; [lia|].
  rewrite field_offset_succ by lia.
  pose proof (elem_pos q' ltac:(lia)). specialize (IH ltac:(lia)). nia.
Qed.

(** Two fields of a message do not overlap. *)
Lemma field_unique (q q' : nat) (o o' : Z) :
  (q < length elems)%nat -> (q' < length elems)%nat ->
  0 <= o < nth q elems 0 * n -> 0 <= o' < nth q' elems 0 * n ->
  field_offset elems n q + o = field_offset elems n q' + o' ->
  q = q'.
Proof.
  intros Hq Hq' Ho Ho' Heq.
  destruct (Nat.lt_trichotomy q q') as [Hlt|[Heq'|Hgt]]; [|exact Heq'|].
  - pose proof (field_offset_mono (S q) q' ltac:(lia) ltac:(lia)) as Hm.
    rewrite field_offset_succ in Hm by lia. lia.
  - pose proof (field_offset_mono (S q') q ltac:(lia) ltac:(lia)) as Hm.
    rewrite field_offset_succ in Hm by lia. lia.
Qed.

End Fields.

(** A byte of field [q] of a message lies in no other field. *)
Lemma packed_field (elems : list Z) (extent i : Dim3) (q q' : nat) (b : Z) :
  Forall (fun e => 1 <= e) elems ->
  (q < length elems)%nat -> (q' < length elems)%nat ->
  in_extent extent i -> 0 <= b < nth q elems 0 ->
  packed_covers (nth q' elems 0)
    (field_offset elems (Dim3.flatten extent) q') extent
    (field_offset elems (Dim3.flatten extent) q
     + linear extent i * nth q elems 0 + b) ->
  q' = q.
Proof.
  intros Hpos Hq Hq' Hi Hb (i' & Hi' & Hc).
  unfold covers in Hc. apply andb_true_iff in Hc. destruct Hc as (H1 & H2).
  apply Z.leb_le in H1. apply Z.ltb_lt in H2.
  pose proof (linear_bound extent i Hi) as Li.
  pose proof (linear_bound extent i' Hi') as Li'.
  pose proof (elem_pos elems Hpos q Hq) as Eq.
  pose proof (elem_pos elems Hpos q' Hq') as Eq'.
  set (n := Dim3.flatten extent) in *.
  set (e := nth q elems 0) in *. set (e' := nth q' elems 0) in *.
  set (o := linear extent i) in *. set (o' := linear extent i') in *.
  assert (B1 : o * e + e <= e * n) by nia.
  assert (B2 : o' * e' + e' <= e' * n) by nia.
  assert (B3 : 0 <= o * e) by nia.
  assert (B4 : 0 <= o' * e') by nia.
  apply (field_unique elems n Hpos ltac:(lia) q' q
           (field_offset elems n q + o * e + b - field_offset elems n q')
           (o * e + b)); try assumption; lia.
Qed.

(* ================================================================== *)
(** * Neighbors in the periodic grid of subdomains *)
(* ================================================================== *)

Section Neighbors.

Variable p : PFP.t.
Hypothesis grid_pos :
  1 <= Dim3.x (PFP.grid p) /\ 1 <= Dim3.y (PFP.grid p)
  /\ 1 <= Dim3.z (PFP.grid p).

Lemma wrap_there_back (g a d : Z) :
  1 <= g -> 0 <= a < g -> ((a + d) mod g - d) mod g = a.
Proof.
  intros Hg Ha. rewrite Zminus_mod_idemp_l.
  replace (a + d - d) with a by lia. now apply Z.mod_small.
Qed.

Lemma wrap_back_there (g a d : Z) :
  1 <= g -> 0 <= a < g -> ((a - d) mod g + d) mod g = a.
Proof.
  intros Hg Ha. rewrite Zplus_mod_idemp_l.
  replace (a - d + d) with a by lia. now apply Z.mod_small.
Qed.

Lemma dst_idx_in_grid (idx d : Dim3) :
  in_extent (PFP.grid p) (DistributedDomain.dst_idx p idx d).
Proof.
  destruct grid_pos as (Gx & Gy & Gz).
  unfold in_extent, DistributedDomain.dst_idx, Dim3.wrap.
  change (Dim3.mul (PFP.rank_dim p) (PFP.gpu_dim p)) with (PFP.grid p).
  cbn [Dim3.x Dim3.y Dim3.z].
  repeat split; apply Z.mod_pos_bound; lia.
Qed.

Lemma src_idx_in_grid (idx d : Dim3) :
  in_extent (PFP.grid p) (DistributedDomain.src_idx p idx d).
Proof.
  destruct grid_pos as (Gx & Gy & Gz).
  unfold in_extent, DistributedDomain.src_idx, Dim3.wrap.
  change (Dim3.mul (PFP.rank_dim p) (PFP.gpu_dim p)) with (PFP.grid p).
  cbn [Dim3.x Dim3.y Dim3.z].
  repeat split; apply Z.mod_pos_bound; lia.
Qed.

Lemma src_of_dst (idx d : Dim3) :
  in_extent (PFP.grid p) idx ->
  DistributedDomain.src_idx p (DistributedDomain.dst_idx p idx d) d = idx.
Proof.
  destruct grid_pos as (Gx & Gy & Gz). intros (Hx & Hy & Hz).
  unfold DistributedDomain.src_idx, DistributedDomain.dst_idx, Dim3.wrap.
  change (Dim3.mul (PFP.rank_dim p) (PFP.gpu_dim p)) with (PFP.grid p).
  destruct idx as [ix iy iz]. cbn [Dim3.x Dim3.y Dim3.z Dim3.add Dim3.sub] in *.
  rewrite !wrap_there_back by assumption. reflexivity.
Qed.

Lemma dst_of_src (idx d : Dim3) :
  in_extent (PFP.grid p) idx ->
  DistributedDomain.dst_idx p (DistributedDomain.src_idx p idx d) d = idx.
Proof.
  destruct grid_pos as (Gx & Gy & Gz). intros (Hx & Hy & Hz).
  unfold DistributedDomain.src_idx, DistributedDomain.dst_idx, Dim3.wrap.
  change (Dim3.mul (PFP.rank_dim p) (PFP.gpu_dim p)) with (PFP.grid p).
  destruct idx as [ix iy iz]. cbn [Dim3.x Dim3.y Dim3.z Dim3.add Dim3.sub] in *.
  rewrite !wrap_back_there by assumption. reflexivity.
Qed.

Lemma dst_idx_neg (idx d : Dim3) :
  DistributedDomain.dst_idx p idx (Dim3.neg d)
  = DistributedDomain.src_idx p idx d.
Proof.
  unfold DistributedDomain.src_idx, DistributedDomain.dst_idx.
  reflexivity.
Qed.

(** A neighbor keeps the index on the axes along which the direction
    does not move, and with it the local size on these axes. *)
Lemma neighbor_size (idx d : Dim3) :
  in_extent (PFP.grid p) idx ->
  let n := DistributedDomain.dst_idx p idx d in
  (Dim3.x d = 0 -> Dim3.x (PFP.local_domain_size p n)
                   = Dim3.x (PFP.local_domain_size p idx)) /\
  (Dim3.y d = 0 -> Dim3.y (PFP.local_domain_size p n)
                   = Dim3.y (PFP.local_domain_size p idx)) /\
  (Dim3.z d = 0 -> Dim3.z (PFP.local_domain_size p n)
                   = Dim3.z (PFP.local_domain_size p idx)).
Proof.
  destruct grid_pos as (Gx & Gy & Gz). intros (Hx & Hy & Hz). cbv zeta.
  rewrite !local_domain_size_x, !local_domain_size_y, !local_domain_size_z.
  unfold DistributedDomain.dst_idx, Dim3.wrap.
  change (Dim3.mul (PFP.rank_dim p) (PFP.gpu_dim p)) with (PFP.grid p).
  cbn [Dim3.x Dim3.y Dim3.z Dim3.add].
  repeat split; intros ->; rewrite Z.add_0_r, Z.mod_small by assumption;
    reflexivity.
Qed.

End Neighbors.

(* ================================================================== *)
(** * What the operations of the transports touch *)
(* ================================================================== *)

Section Regions.

Lemma copy_op_touches (direct : bool) (rank : Z) (dstD srcD : LocalDomain.t)
    (dir : Dim3) (q : nat) (r : Z) (blk : ptr) (off : Z) :
  touches (copy_op direct rank dstD srcD dir q) (DevLoc r blk off) <->
  r = rank /\ blk = LocalDomain.curr_data dstD q /\
  region_covers (LocalDomain.elem_size srcD q) (LocalDomain.raw_size dstD)
    (LocalDomain.halo_pos dstD (Dim3.neg dir) true)
    (LocalDomain.halo_extent srcD dir) off.
Proof. destruct direct; reflexivity. Qed.

Lemma copy_op_leaves_mail (direct : bool) (rank : Z)
    (dstD srcD : LocalDomain.t) (dir : Dim3) (q : nat) (k : Key) (off : Z) :
  ~ touches (copy_op direct rank dstD srcD dir q) (MailLoc k off).
Proof. destruct direct; cbn; tauto. Qed.

Lemma copy_op_pitch (direct : bool) (rank : Z) (dstD srcD : LocalDomain.t)
    (dir : Dim3) (q : nat) :
  region_in_pitch (LocalDomain.raw_size dstD)
    (LocalDomain.halo_pos dstD (Dim3.neg dir) true)
    (LocalDomain.halo_extent srcD dir) ->
  dst_in_pitch (copy_op direct rank dstD srcD dir q).
Proof. destruct direct; intros H; exact H. Qed.

Lemma copy_op_writes (direct : bool) (rank : Z) (dstD srcD : LocalDomain.t)
    (dir : Dim3) (q : nat) (i : Dim3) (b : Z) :
  LocalDomain.elem_size dstD q = LocalDomain.elem_size srcD q ->
  in_extent (LocalDomain.halo_extent srcD dir) i ->
  0 <= b < LocalDomain.elem_size srcD q ->
  writes (copy_op direct rank dstD srcD dir q)
         (region_loc rank dstD q (Dim3.neg dir) true i b)
         (region_loc rank srcD q dir false i b).
Proof.
  intros He Hi Hb. unfold region_loc. rewrite He.
  destruct direct; exists i, b; auto.
Qed.

Lemma pack_op_writes (rank : Z) (key : Key) (srcD : LocalDomain.t)
    (dir : Dim3) (q : nat) (i : Dim3) (b : Z) :
  in_extent (LocalDomain.halo_extent srcD dir) i ->
  0 <= b < LocalDomain.elem_size srcD q ->
  writes (pack_op rank key srcD dir q)
         (MailLoc key
            (field_offset (LocalDomain.dataElemSize_ srcD)
               (Dim3.flatten (LocalDomain.halo_extent srcD dir)) q
             + linear (LocalDomain.halo_extent srcD dir) i
               * LocalDomain.elem_size srcD q + b))
         (region_loc rank srcD q dir false i b).
Proof.
  intros Hi Hb. exists i, b. auto.
Qed.

Lemma unpack_op_writes (rank : Z) (key : Key) (dstD : LocalDomain.t)
    (dir : Dim3) (q : nat) (i : Dim3) (b : Z) :
  in_extent (LocalDomain.halo_extent dstD (Dim3.neg dir)) i ->
  0 <= b < LocalDomain.elem_size dstD q ->
  writes (unpack_op rank key dstD dir q)
         (region_loc rank dstD q (Dim3.neg dir) true i b)
         (MailLoc key
            (field_offset (LocalDomain.dataElemSize_ dstD)
               (Dim3.flatten (LocalDomain.halo_extent dstD (Dim3.neg dir))) q
             + linear (LocalDomain.halo_extent dstD (Dim3.neg dir)) i
               * LocalDomain.elem_size dstD q + b)).
Proof.
  intros Hi Hb. exists i, b. auto.
Qed.

(** A byte of an element of a region is covered by the region. *)
Lemma region_covers_intro (e : Z) (size pos extent i : Dim3) (b : Z) :
  in_extent extent i -> 0 <= b < e ->
  region_covers e size pos extent (linear size (Dim3.add i pos) * e + b).
Proof.
  intros Hi Hb. exists i. split; [exact Hi|].
  now apply (covers_own_slot e 0).
Qed.

(** A byte of the allocation that a region covers belongs to a point of
    the region. *)
Lemma region_point (e : Z) (size pos extent pt : Dim3) (b : Z) :
  region_in_pitch size pos extent -> 0 <= b < e ->
  0 <= Dim3.x pt < Dim3.x size -> 0 <= Dim3.y pt < Dim3.y size ->
  region_covers e size pos extent (linear size pt * e + b) ->
  exists i, in_extent extent i /\ pt = Dim3.add i pos.
Proof.
  intros Hpitch Hb Hx Hy (i & Hi & Hc). exists i. split; [exact Hi|].
  unfold covers in Hc. rewrite <- (Z.add_0_l (linear size pt * e + b)) in Hc.
  rewrite <- Z.add_assoc in Hc.
  apply (covers_same_slot e 0) in Hc; [|exact Hb].
  destruct (Hpitch i Hi) as (Px & Py). symmetry.
  apply (linear_inj_pitch size); cbn [Dim3.add Dim3.x Dim3.y]; assumption.
Qed.

Lemma halo_pitch (d : LocalDomain.t) (dir : Dim3) :
  shaped d -> is_dir dir ->
  region_in_pitch (LocalDomain.raw_size d) (LocalDomain.halo_pos d dir true)
                  (LocalDomain.halo_extent d dir).
Proof.
  intros Hd Hdir i Hi.
  destruct (halo_in_raw d dir i Hd Hdir Hi) as (Hx & Hy & _).
  split; assumption.
Qed.

(** A byte that the halo region of direction [dir] covers lies on the
    side [dir] of the allocation. *)
Lemma halo_touch_side (d : LocalDomain.t) (dir pt : Dim3) (e b : Z) :
  shaped d -> is_dir dir -> 0 <= b < e ->
  in_extent (LocalDomain.raw_size d) pt ->
  region_covers e (LocalDomain.raw_size d) (LocalDomain.halo_pos d dir true)
    (LocalDomain.halo_extent d dir)
    (linear (LocalDomain.raw_size d) pt * e + b) ->
  side d pt = dir.
Proof.
  intros Hd Hdir Hb (Hx & Hy & _) Hc.
  destruct (region_point e _ _ _ pt b (halo_pitch d dir Hd Hdir) Hb Hx Hy Hc)
    as (i & Hi & ->).
  now apply side_halo.
Qed.

End Regions.

(* ================================================================== *)
(** * The plan of a realized engine, as operations *)
(* ================================================================== *)

Section PlanOps.

Lemma eqb_zero_false (dir : Dim3) :
  Dim3.eqb dir (Dim3.mk 0 0 0) = false <-> dir <> Dim3.zero.
Proof.
  split.
  - intros H Heq. apply dim3_eqb_eq in Heq. unfold Dim3.zero in *. congruence.
  - intros H. destruct (Dim3.eqb dir (Dim3.mk 0 0 0)) eqn:E; [|reflexivity].
    apply dim3_eqb_eq in E. contradiction.
Qed.

Lemma realize_plan_length (dd : DistributedDomain.t) (brk : Z) :
  let dd' := fst (DistributedDomain.realize dd brk) in
  length (DistributedDomain.domainDirSender_ dd')
  = length (DistributedDomain.domains_ dd') /\
  length (DistributedDomain.domainDirRecver_ dd')
  = length (DistributedDomain.domains_ dd').
Proof.
  unfold DistributedDomain.realize.
  destruct (DistributedDomain.realize_domains _ brk) as [domains brk'].
  cbn [fst DistributedDomain.domains_ DistributedDomain.domainDirSender_
       DistributedDomain.domainDirRecver_].
  rewrite !length_map, length_seq. split; reflexivity.
Qed.

(** A cell of a direction map and the direction it stands for. *)
Lemma cell_dir (c : Dim3) :
  In c cells <-> is_dir (Dim3.sub c (Dim3.mk 1 1 1)).
Proof.
  unfold cells. rewrite dim3_range_In. unfold in_extent, is_dir.
  cbn [Dim3.x Dim3.y Dim3.z Dim3.sub]. lia.
Qed.

Lemma at_cell {A : Type} (m : DirectionMap.t A) (c : Dim3) (d : A) :
  DirectionMap.at_ m (Dim3.x c) (Dim3.y c) (Dim3.z c) d
  = DirectionMap.at_dir m (Dim3.x (Dim3.sub c (Dim3.mk 1 1 1)))
      (Dim3.y (Dim3.sub c (Dim3.mk 1 1 1)))
      (Dim3.z (Dim3.sub c (Dim3.mk 1 1 1))) d.
Proof.
  unfold DirectionMap.at_dir. cbn [Dim3.x Dim3.y Dim3.z Dim3.sub].
  f_equal; lia.
Qed.

Variables (dd : DistributedDomain.t) (di : nat).
Hypothesis senders_planned :
  nth di (DistributedDomain.domainDirSender_ dd) (DirectionMap.fill None)
  = fst (DistributedDomain.plan_domain dd di).
Hypothesis recvers_planned :
  nth di (DistributedDomain.domainDirRecver_ dd) (DirectionMap.fill None)
  = snd (DistributedDomain.plan_domain dd di).

Lemma domain_senders_In (s : HaloSender) :
  In s (domain_senders dd di) <->
  exists dir, is_dir dir /\ dir <> Dim3.zero /\
              s = DistributedDomain.plan_sender dd di dir.
Proof.
  unfold domain_senders. rewrite senders_planned, in_flat_map. split.
  - intros (c & Hc & Hin). apply cell_dir in Hc.
    rewrite at_cell in Hin.
    destruct (plan_domain_lookup dd di _ Hc) as (Hs & _).
    rewrite Hs in Hin.
    destruct (Dim3.eqb _ _) eqn:E; cbn [opt_list] in Hin; [destruct Hin|].
    destruct Hin as [<-|[]].
    exists (Dim3.sub c (Dim3.mk 1 1 1)).
    split; [exact Hc|]. split; [now apply eqb_zero_false | reflexivity].
  - intros (dir & Hdir & Hnz & ->).
    exists (Dim3.add dir (Dim3.mk 1 1 1)).
    assert (Hsub : Dim3.sub (Dim3.add dir (Dim3.mk 1 1 1)) (Dim3.mk 1 1 1) = dir).
    { destruct dir as [dx dy dz]. unfold Dim3.sub, Dim3.add. cbn. f_equal; lia. }
    split; [apply cell_dir; now rewrite Hsub|].
    rewrite at_cell, Hsub.
    destruct (plan_domain_lookup dd di dir Hdir) as (Hs & _).
    rewrite Hs. apply eqb_zero_false in Hnz. rewrite Hnz. now left.
Qed.

Lemma domain_recvers_In (r : HaloRecver) :
  In r (domain_recvers dd di) <->
  exists dir, is_dir dir /\ dir <> Dim3.zero /\
              DistributedDomain.plan_recver dd di dir = Some r.
Proof.
  unfold domain_recvers. rewrite recvers_planned, in_flat_map. split.
  - intros (c & Hc & Hin). apply cell_dir in Hc.
    rewrite at_cell in Hin.
    destruct (plan_domain_lookup dd di _ Hc) as (_ & Hr).
    rewrite Hr in Hin.
    destruct (Dim3.eqb _ _) eqn:E; cbn [opt_list] in Hin; [destruct Hin|].
    destruct (DistributedDomain.plan_recver _ _ _) as [r'|] eqn:Hplan;
      cbn [opt_list] in Hin; [|destruct Hin].
    destruct Hin as [<-|[]].
    exists (Dim3.sub c (Dim3.mk 1 1 1)).
    split; [exact Hc|]. split; [now apply eqb_zero_false | exact Hplan].
  - intros (dir & Hdir & Hnz & Hplan).
    exists (Dim3.add dir (Dim3.mk 1 1 1)).
    assert (Hsub : Dim3.sub (Dim3.add dir (Dim3.mk 1 1 1)) (Dim3.mk 1 1 1) = dir).
    { destruct dir as [dx dy dz]. unfold Dim3.sub, Dim3.add. cbn. f_equal; lia. }
    split; [apply cell_dir; now rewrite Hsub|].
    rewrite at_cell, Hsub.
    destruct (plan_domain_lookup dd di dir Hdir) as (_ & Hr).
    rewrite Hr. apply eqb_zero_false in Hnz. rewrite Hnz, Hplan. now left.
Qed.

End PlanOps.

(* ================================================================== *)
(** * The engines of a run after [realize] and any number of swaps *)
(* ================================================================== *)

Section Swapped.

(** Only the parity of the number of swaps matters. *)
Lemma iter_swap (k : nat) (dd : DistributedDomain.t) :
  Nat.iter k DistributedDomain.swap dd
  = if Nat.even k then dd else DistributedDomain.swap dd.
Proof.
  induction k as [|k IH]; [reflexivity|].
  cbn [Nat.iter nat_rect]. change (nat_rect _ dd _ k)
    with (Nat.iter k DistributedDomain.swap dd).
  rewrite IH, Nat.even_succ, <- Nat.negb_even.
  destruct (Nat.even k); cbn [negb]; [reflexivity | apply swap_twice].
Qed.

Lemma swapped_domain (dd : DistributedDomain.t) (j : nat) :
  nth j (DistributedDomain.domains_ (DistributedDomain.swap dd)) no_domain
  = LocalDomain.swap (nth j (DistributedDomain.domains_ dd) no_domain).
Proof.
  unfold DistributedDomain.swap. cbn [DistributedDomain.domains_].
  change no_domain with (LocalDomain.swap no_domain) at 1.
  apply map_nth.
Qed.

Lemma swapped_gpu (dd : DistributedDomain.t) (k : nat) :
  LocalDomain.gpu (nth k (DistributedDomain.domains_ (DistributedDomain.swap dd))
                       (LocalDomain.new Dim3.zero 0))
  = LocalDomain.gpu (nth k (DistributedDomain.domains_ dd)
                         (LocalDomain.new Dim3.zero 0)).
Proof.
  change (LocalDomain.new Dim3.zero 0) with no_domain.
  rewrite swapped_domain. reflexivity.
Qed.

(** The plan does not look at the pointers. *)
Lemma swapped_plan (dd : DistributedDomain.t) (di : nat) :
  DistributedDomain.plan_domain (DistributedDomain.swap dd) di
  = DistributedDomain.plan_domain dd di.
Proof.
  apply plan_domain_ext; intros d.
  - unfold DistributedDomain.plan_sender. rewrite !swapped_gpu. reflexivity.
  - unfold DistributedDomain.plan_recver. rewrite !swapped_gpu. reflexivity.
Qed.

End Swapped.

Section Engines.

Variables (size : Dim3) (W G : nat) (R : Z) (elems : list Z) (p : PFP.t).
Variables (cfg : nat -> DistributedDomain.t) (brk : nat -> Z).
Variable sw : nat -> nat.
Hypothesis size_pos :
  1 <= Dim3.x size /\ 1 <= Dim3.y size /\ 1 <= Dim3.z size.
Hypothesis W_pos : (1 <= W)%nat.
Hypothesis G_pos : (1 <= G)%nat.
Hypothesis R_nonneg : 0 <= R.
Hypothesis partitioned : PFP.new size (Z.of_nat W) (Z.of_nat G) = Some p.
Hypothesis engines_configured :
  forall r, (r < W)%nat -> configured G R elems p r (cfg r).

Local Abbreviation engine r := (nth r (cycled sw cfg brk W) no_engine).
Local Abbreviation domain r j :=
  (nth j (DistributedDomain.domains_ (engine r)) no_domain).
Local Abbreviation F := (length elems).

Lemma partition_dims :
  (1 <= Dim3.x (PFP.rankDim_ p) /\ 1 <= Dim3.y (PFP.rankDim_ p)
   /\ 1 <= Dim3.z (PFP.rankDim_ p)) /\
  (1 <= Dim3.x (PFP.gpuDim_ p) /\ 1 <= Dim3.y (PFP.gpuDim_ p)
   /\ 1 <= Dim3.z (PFP.gpuDim_ p)) /\
  volume (PFP.rankDim_ p) = Z.of_nat W /\
  volume (PFP.gpuDim_ p) = Z.of_nat G.
Proof.
  destruct size_pos as (Sx & Sy & Sz).
  destruct (new_dims size (Z.of_nat W) (Z.of_nat G) Sx Sy Sz)
    as (p' & Hp' & Hr & Hg); try lia.
  rewrite partitioned in Hp'. injection Hp' as <-.
  destruct (new_volumes size (Z.of_nat W) (Z.of_nat G) p ltac:(lia) ltac:(lia)
              partitioned) as (Vr & Vg).
  auto.
Qed.

Lemma grid_dims :
  1 <= Dim3.x (PFP.grid p) /\ 1 <= Dim3.y (PFP.grid p)
  /\ 1 <= Dim3.z (PFP.grid p).
Proof.
  destruct partition_dims as ((Rx & Ry & Rz) & (Gx & Gy & Gz) & _).
  unfold PFP.grid. cbn [Dim3.x Dim3.y Dim3.z Dim3.mul]. nia.
Qed.

Lemma local_size_nonneg (idx : Dim3) :
  0 <= Dim3.x (PFP.local_domain_size p idx) /\
  0 <= Dim3.y (PFP.local_domain_size p idx) /\
  0 <= Dim3.z (PFP.local_domain_size p idx).
Proof.
  destruct size_pos as (Sx & Sy & Sz).
  destruct (new_shape size (Z.of_nat W) (Z.of_nat G) Sx Sy Sz)
    as (p' & Hp' & _ & (Gx & Gy & Gz) & Ex & Ey & Ez); try lia.
  rewrite partitioned in Hp'. injection Hp' as <-.
  pose proof (div_ceil_pos (Dim3.x size) (Dim3.x (PFP.grid p)) Sx ltac:(lia)).
  pose proof (div_ceil_pos (Dim3.y size) (Dim3.y (PFP.grid p)) Sy ltac:(lia)).
  pose proof (div_ceil_pos (Dim3.z size) (Dim3.z (PFP.grid p)) Sz ltac:(lia)).
  rewrite local_domain_size_x, local_domain_size_y, local_domain_size_z.
  repeat match goal with |- context [if ?b then _ else _] => destruct b end;
    lia.
Qed.

Lemma engine_eq (r : nat) :
  (r < W)%nat ->
  engine r = if Nat.even (sw r)
             then fst (DistributedDomain.realize (cfg r) (brk r))
             else DistributedDomain.swap
                    (fst (DistributedDomain.realize (cfg r) (brk r))).
Proof.
  intros Hr. unfold cycled. rewrite nth_map_seq by exact Hr. apply iter_swap.
Qed.

(** The first block of rank [r] as its [curr] pointers see it, and as its
    [next] pointers do. *)
Local Abbreviation base r := (if Nat.even (sw r) then brk r else brk r + 1).
Local Abbreviation base' r := (if Nat.even (sw r) then brk r else brk r - 1).

Lemma engine_spec (r : nat) :
  (r < W)%nat ->
  DistributedDomain.rank_ (engine r) = Z.of_nat r /\
  DistributedDomain.partition_ (engine r) = p /\
  length (DistributedDomain.domains_ (engine r)) = G /\
  length (DistributedDomain.domainDirSender_ (engine r)) = G /\
  length (DistributedDomain.domainDirRecver_ (engine r)) = G /\
  (forall j, (j < G)%nat ->
             nth j (DistributedDomain.domainIdx_ (engine r)) Dim3.zero
             = PFP.dom_idx p (Z.of_nat r) (Z.of_nat j)).
Proof.
  intros Hr. rewrite engine_eq by exact Hr.
  destruct (engines_configured r Hr) as (Hrank & Hpart & Hg & _ & _ & Hd & Hi).
  destruct (realize_spec (cfg r) (brk r) Hd Hi)
    as (Erank & Epart & _ & _ & _ & _ & Elen & Eidx & _).
  destruct (realize_plan_length (cfg r) (brk r)) as (Ls & Lr).
  cbv zeta in *. rewrite Hg in *.
  assert (Hgoal :
    let E := fst (DistributedDomain.realize (cfg r) (brk r)) in
    DistributedDomain.rank_ E = Z.of_nat r /\
    DistributedDomain.partition_ E = p /\
    length (DistributedDomain.domains_ E) = G /\
    length (DistributedDomain.domainDirSender_ E) = G /\
    length (DistributedDomain.domainDirRecver_ E) = G /\
    (forall j, (j < G)%nat ->
               nth j (DistributedDomain.domainIdx_ E) Dim3.zero
               = PFP.dom_idx p (Z.of_nat r) (Z.of_nat j))).
  { cbv zeta. rewrite Erank, Epart, Hrank, Hpart, Ls, Lr, Elen, Eidx.
    repeat split; try reflexivity.
    intros j Hj. rewrite nth_map_seq by exact Hj. now rewrite Hrank, Hpart. }
  cbv zeta in Hgoal.
  destruct (Nat.even (sw r)); [exact Hgoal|].
  unfold DistributedDomain.swap.
  cbn [DistributedDomain.rank_ DistributedDomain.partition_
       DistributedDomain.domains_ DistributedDomain.domainDirSender_
       DistributedDomain.domainDirRecver_ DistributedDomain.domainIdx_].
  now rewrite length_map.
Qed.

Lemma domain_spec (r j : nat) :
  (r < W)%nat -> (j < G)%nat ->
  LocalDomain.sz_ (domain r j)
  = PFP.local_domain_size p (PFP.dom_idx p (Z.of_nat r) (Z.of_nat j)) /\
  LocalDomain.radius_ (domain r j) = R /\
  LocalDomain.dataElemSize_ (domain r j) = elems /\
  LocalDomain.num_data (domain r j) = Z.of_nat F /\
  (forall q, (q < F)%nat ->
             LocalDomain.curr_data (domain r j) q
             = base r + 2 * Z.of_nat F * Z.of_nat j + 2 * Z.of_nat q + 1) /\
  shaped (domain r j).
Proof.
  intros Hr Hj. rewrite engine_eq by exact Hr.
  destruct (engines_configured r Hr)
    as (Hrank & Hpart & Hg & Hrad & Hel & Hd & Hi).
  destruct (realize_spec (cfg r) (brk r) Hd Hi)
    as (_ & _ & _ & _ & _ & _ & _ & _ & Hdom).
  cbv zeta in Hdom. rewrite Hg in Hdom.
  destruct (Hdom j no_domain Hj) as (Hsz & Hra & Hde & _ & Hlc & Hln & Hptr).
  rewrite Hrank, Hpart in Hsz. rewrite Hrad in Hra. rewrite Hel in *.
  assert (Hshape : shaped (nth j (DistributedDomain.domains_
                                    (fst (DistributedDomain.realize (cfg r) (brk r))))
                               no_domain)).
  { unfold shaped. rewrite Hra, Hsz. split; [exact R_nonneg|].
    apply local_size_nonneg. }
  destruct (Nat.even (sw r)).
  - split; [exact Hsz|]. split; [exact Hra|]. split; [exact Hde|].
    split; [unfold LocalDomain.num_data; now rewrite Hlc|].
    split; [intros q Hq; exact (proj1 (Hptr q Hq))|].
    exact Hshape.
  - rewrite swapped_domain.
    unfold LocalDomain.num_data, LocalDomain.curr_data, LocalDomain.next_data,
      shaped, LocalDomain.swap in *.
    cbn [LocalDomain.sz_ LocalDomain.radius_ LocalDomain.dataElemSize_
         LocalDomain.currDataPtrs_ LocalDomain.nextDataPtrs_] in *.
    split; [exact Hsz|]. split; [exact Hra|]. split; [exact Hde|].
    split; [now rewrite Hln|].
    split; [intros q Hq; rewrite (proj2 (Hptr q Hq)); lia|].
    exact Hshape.
Qed.

Lemma domain_owner (r j : nat) :
  (r < W)%nat -> (j < G)%nat ->
  in_extent (PFP.grid p) (PFP.dom_idx p (Z.of_nat r) (Z.of_nat j)) /\
  PFP.get_rank p (PFP.dom_idx p (Z.of_nat r) (Z.of_nat j)) = Z.of_nat r /\
  PFP.get_gpu p (PFP.dom_idx p (Z.of_nat r) (Z.of_nat j)) = Z.of_nat j.
Proof.
  intros Hr Hj. destruct partition_dims as (Hrd & Hgd & Vr & Vg).
  split; [|split].
  - apply dom_idx_in_grid; try assumption; lia.
  - apply get_rank_dom_idx; try assumption; lia.
  - apply get_gpu_dom_idx; try assumption; lia.
Qed.

Lemma idx_owner (idx : Dim3) :
  in_extent (PFP.grid p) idx ->
  exists r j, (r < W)%nat /\ (j < G)%nat /\
              PFP.get_rank p idx = Z.of_nat r /\
              PFP.get_gpu p idx = Z.of_nat j /\
              PFP.dom_idx p (Z.of_nat r) (Z.of_nat j) = idx.
Proof.
  intros Hidx. destruct partition_dims as (Hrd & Hgd & Vr & Vg).
  destruct (owner_of_idx p Hrd Hgd idx Hidx) as (Hr & Hg & Heq).
  exists (Z.to_nat (PFP.get_rank p idx)), (Z.to_nat (PFP.get_gpu p idx)).
  rewrite !Z2Nat.id by lia. repeat split; try lia. exact Heq.
Qed.

(** Two fields of the domains of one rank do not share a block. *)
Lemma block_inj (b : Z) (j j' q q' : nat) :
  (q < F)%nat -> (q' < F)%nat ->
  b + 2 * Z.of_nat F * Z.of_nat j + 2 * Z.of_nat q + 1
  = b + 2 * Z.of_nat F * Z.of_nat j' + 2 * Z.of_nat q' + 1 ->
  j = j' /\ q = q'.
Proof.
  intros Hq Hq' Heq.
  destruct (mixed_radix_inj (Z.of_nat F) (Z.of_nat j) (Z.of_nat q)
              (Z.of_nat j') (Z.of_nat q')) as (E1 & E2); lia.
Qed.

(** ** The operations the plan of an engine stands for *)

Lemma plan_sender_form (r j : nat) (dir : Dim3) :
  (r < W)%nat -> (j < G)%nat ->
  exists rN jN,
    (rN < W)%nat /\ (jN < G)%nat /\
    PFP.dom_idx p (Z.of_nat rN) (Z.of_nat jN)
    = DistributedDomain.dst_idx p (PFP.dom_idx p (Z.of_nat r) (Z.of_nat j)) dir /\
    sender_domain (DistributedDomain.plan_sender (engine r) j dir) = j /\
    ((rN = r /\
      exists direct, forall q,
        sender_op (engine r) (DistributedDomain.plan_sender (engine r) j dir) q
        = copy_op direct (Z.of_nat r) (domain r jN) (domain r j) dir q) \/
     (rN <> r /\
      forall q,
        sender_op (engine r) (DistributedDomain.plan_sender (engine r) j dir) q
        = pack_op (Z.of_nat r)
            (Z.of_nat r, Z.of_nat j, Z.of_nat rN, Z.of_nat jN, dir)
            (domain r j) dir q)).
Proof.
  intros Hr Hj.
  destruct (engine_spec r Hr) as (Hrank & Hpart & _ & _ & _ & Hidx).
  destruct (idx_owner (DistributedDomain.dst_idx p
                         (PFP.dom_idx p (Z.of_nat r) (Z.of_nat j)) dir))
    as (rN & jN & HrN & HjN & Erank & Egpu & Eidx);
    [apply dst_idx_in_grid, grid_dims|].
  exists rN, jN. split; [exact HrN|]. split; [exact HjN|].
  split; [exact Eidx|].
  set (E := engine r) in *.
  unfold DistributedDomain.plan_sender.
  rewrite Hrank, Hpart, (Hidx j Hj), Erank, Egpu, Nat2Z.id.
  destruct (Z.eqb_spec (Z.of_nat r) (Z.of_nat rN)) as [Heq|Hne].
  - apply Nat2Z.inj in Heq. subst rN.
    destruct (DistributedDomain.get_peer _ _ _).
    + split; [reflexivity|]. left. split; [reflexivity|].
      exists true. intros q. unfold sender_op. now rewrite Hrank.
    + split; [reflexivity|]. left. split; [reflexivity|].
      exists false. intros q. unfold sender_op. now rewrite Hrank.
  - assert (rN <> r) by (intros ->; now apply Hne).
    destruct (DistributedDomain.colocated_count _ _).
    + split; [reflexivity|]. right. split; [assumption|].
      intros q. unfold sender_op. now rewrite Hrank.
    + split; [reflexivity|]. right. split; [assumption|].
      intros q. unfold sender_op. now rewrite Hrank.
Qed.

Lemma plan_recver_form (r j : nat) (dir : Dim3) :
  (r < W)%nat -> (j < G)%nat ->
  exists rS jS,
    (rS < W)%nat /\ (jS < G)%nat /\
    PFP.dom_idx p (Z.of_nat rS) (Z.of_nat jS)
    = DistributedDomain.src_idx p (PFP.dom_idx p (Z.of_nat r) (Z.of_nat j)) dir /\
    ((rS = r /\ DistributedDomain.plan_recver (engine r) j dir = None) \/
     (rS <> r /\
      DistributedDomain.plan_recver (engine r) j dir
      = Some (RegionRecver j (Z.of_nat rS) (Z.of_nat jS) (Z.of_nat r)
                           (Z.of_nat j) dir))).
Proof.
  intros Hr Hj.
  destruct (engine_spec r Hr) as (Hrank & Hpart & _ & _ & _ & Hidx).
  destruct (idx_owner (DistributedDomain.src_idx p
                         (PFP.dom_idx p (Z.of_nat r) (Z.of_nat j)) dir))
    as (rS & jS & HrS & HjS & Erank & Egpu & Eidx);
    [apply src_idx_in_grid, grid_dims|].
  exists rS, jS. split; [exact HrS|]. split; [exact HjS|].
  split; [exact Eidx|].
  set (E := engine r) in *.
  unfold DistributedDomain.plan_recver.
  rewrite Hrank, Hpart, (Hidx j Hj), Erank, Egpu.
  destruct (Z.eqb_spec (Z.of_nat r) (Z.of_nat rS)) as [Heq|Hne].
  - apply Nat2Z.inj in Heq. subst rS. left. split; [reflexivity|].
    destruct (DistributedDomain.get_peer _ _ _); reflexivity.
  - right. split; [intros ->; now apply Hne|].
    destruct (DistributedDomain.colocated_count _ _); reflexivity.
Qed.

Lemma engines_In (dd : DistributedDomain.t) :
  In dd (cycled sw cfg brk W) <-> exists r, (r < W)%nat /\ dd = engine r.
Proof.
  assert (Hlen : length (cycled sw cfg brk W) = W)
    by (unfold cycled; now rewrite length_map, length_seq).
  split.
  - intros Hin. apply (In_nth _ _ no_engine) in Hin.
    destruct Hin as (r & Hr & <-). exists r. split; [lia | reflexivity].
  - intros (r & Hr & ->). apply nth_In. lia.
Qed.

Lemma engine_planned (r j : nat) :
  (r < W)%nat -> (j < G)%nat ->
  nth j (DistributedDomain.domainDirSender_ (engine r)) (DirectionMap.fill None)
  = fst (DistributedDomain.plan_domain (engine r) j) /\
  nth j (DistributedDomain.domainDirRecver_ (engine r)) (DirectionMap.fill None)
  = snd (DistributedDomain.plan_domain (engine r) j).
Proof.
  intros Hr Hj. destruct (engine_spec r Hr) as (_ & _ & Hlen & _).
  revert Hlen. rewrite engine_eq by exact Hr.
  destruct (Nat.even (sw r)); intros Hlen.
  - apply realize_plan. rewrite Hlen. exact Hj.
  - rewrite swapped_plan.
    unfold DistributedDomain.swap in Hlen |- *.
    cbn [DistributedDomain.domains_ DistributedDomain.domainDirSender_
         DistributedDomain.domainDirRecver_] in Hlen |- *.
    rewrite length_map in Hlen.
    apply realize_plan. rewrite Hlen. exact Hj.
Qed.

Lemma sends_In (op : Op) :
  In op (flat_map send_ops (cycled sw cfg brk W)) <->
  exists r j dir q,
    (r < W)%nat /\ (j < G)%nat /\ is_dir dir /\ dir <> Dim3.zero /\
    (q < F)%nat /\
    op = sender_op (engine r) (DistributedDomain.plan_sender (engine r) j dir) q.
Proof.
  rewrite in_flat_map. split.
  - intros (dd & Hdd & Hin). apply engines_In in Hdd.
    destruct Hdd as (r & Hr & ->).
    destruct (engine_spec r Hr) as (_ & _ & _ & Hls & _).
    unfold send_ops in Hin. rewrite Hls in Hin.
    apply in_flat_map in Hin. destruct Hin as (j & Hj & Hin).
    apply in_seq in Hj. assert (Hj' : (j < G)%nat) by lia.
    apply in_flat_map in Hin. destruct Hin as (s & Hs & Hin).
    destruct (engine_planned r j Hr Hj') as (Ps & Pr).
    apply (domain_senders_In (engine r) j Ps) in Hs.
    destruct Hs as (dir & Hdir & Hnz & ->).
    destruct (plan_sender_form r j dir Hr Hj')
      as (rN & jN & _ & _ & _ & Hsd & _).
    unfold sender_ops in Hin. rewrite Hsd in Hin.
    destruct (domain_spec r j Hr Hj') as (_ & _ & _ & Hnum & _).
    rewrite Hnum, Nat2Z.id in Hin.
    apply in_map_iff in Hin. destruct Hin as (q & <- & Hq).
    apply in_seq in Hq. exists r, j, dir, q.
    repeat split; try assumption; try lia; apply Hdir.
  - intros (r & j & dir & q & Hr & Hj & Hdir & Hnz & Hq & ->).
    exists (engine r). split; [apply engines_In; eauto|].
    destruct (engine_spec r Hr) as (_ & _ & _ & Hls & _).
    unfold send_ops. rewrite Hls.
    apply in_flat_map. exists j. split; [apply in_seq; lia|].
    apply in_flat_map.
    exists (DistributedDomain.plan_sender (engine r) j dir).
    destruct (engine_planned r j Hr Hj) as (Ps & Pr).
    split; [apply (domain_senders_In (engine r) j Ps); eauto|].
    destruct (plan_sender_form r j dir Hr Hj)
      as (rN & jN & _ & _ & _ & Hsd & _).
    unfold sender_ops. rewrite Hsd.
    destruct (domain_spec r j Hr Hj) as (_ & _ & _ & Hnum & _).
    rewrite Hnum, Nat2Z.id.
    apply in_map_iff. exists q. split; [reflexivity|]. apply in_seq. lia.
Qed.

Lemma waits_In (op : Op) :
  In op (flat_map wait_ops (cycled sw cfg brk W)) <->
  exists r j dir q rS jS,
    (r < W)%nat /\ (j < G)%nat /\ is_dir dir /\ dir <> Dim3.zero /\
    (q < F)%nat /\ (rS < W)%nat /\ (jS < G)%nat /\ rS <> r /\
    PFP.dom_idx p (Z.of_nat rS) (Z.of_nat jS)
    = DistributedDomain.src_idx p (PFP.dom_idx p (Z.of_nat r) (Z.of_nat j)) dir /\
    op = unpack_op (Z.of_nat r)
           (Z.of_nat rS, Z.of_nat jS, Z.of_nat r, Z.of_nat j, dir)
           (domain r j) dir q.
Proof.
  rewrite in_flat_map. split.
  - intros (dd & Hdd & Hin). apply engines_In in Hdd.
    destruct Hdd as (r & Hr & ->).
    destruct (engine_spec r Hr) as (Hrank & _ & Hld & _).
    unfold wait_ops in Hin. rewrite Hld in Hin.
    apply in_flat_map in Hin. destruct Hin as (j & Hj & Hin).
    apply in_seq in Hj. assert (Hj' : (j < G)%nat) by lia.
    apply in_flat_map in Hin. destruct Hin as (rc & Hrc & Hin).
    destruct (engine_planned r j Hr Hj') as (Ps & Pr).
    apply (domain_recvers_In (engine r) j Pr) in Hrc.
    destruct Hrc as (dir & Hdir & Hnz & Hplan).
    destruct (plan_recver_form r j dir Hr Hj')
      as (rS & jS & HrS & HjS & Eidx & [(_ & Hnone)|(Hne & Hsome)]);
      [congruence|].
    rewrite Hsome in Hplan. injection Hplan as <-.
    unfold recver_ops, recver_domain in Hin.
    destruct (domain_spec r j Hr Hj') as (_ & _ & _ & Hnum & _).
    rewrite Hnum, Nat2Z.id in Hin.
    apply in_map_iff in Hin. destruct Hin as (q & <- & Hq).
    apply in_seq in Hq. exists r, j, dir, q, rS, jS.
    unfold recver_op. rewrite Hrank.
    repeat split; try assumption; try lia; apply Hdir.
  - intros (r & j & dir & q & rS & jS & Hr & Hj & Hdir & Hnz & Hq & HrS & HjS
            & Hne & Eidx & ->).
    exists (engine r). split; [apply engines_In; eauto|].
    destruct (engine_spec r Hr) as (Hrank & _ & Hld & _).
    unfold wait_ops. rewrite Hld.
    apply in_flat_map. exists j. split; [apply in_seq; lia|].
    apply in_flat_map.
    exists (RegionRecver j (Z.of_nat rS) (Z.of_nat jS) (Z.of_nat r)
              (Z.of_nat j) dir).
    destruct (engine_planned r j Hr Hj) as (Ps & Pr).
    destruct (plan_recver_form r j dir Hr Hj)
      as (rS' & jS' & HrS' & HjS' & Eidx' & Hcases).
    assert (Hsame : rS' = rS /\ jS' = jS).
    { rewrite <- Eidx in Eidx'.
      destruct (domain_owner rS jS HrS HjS) as (_ & R1 & G1).
      destruct (domain_owner rS' jS' HrS' HjS') as (_ & R2 & G2).
      rewrite Eidx' in R2, G2. split; lia. }
    destruct Hsame as (-> & ->).
    destruct Hcases as [(Heq & _)|(_ & Hsome)]; [contradiction|].
    split; [apply (domain_recvers_In (engine r) j Pr); eauto|].
    unfold recver_ops, recver_domain.
    destruct (domain_spec r j Hr Hj) as (_ & _ & _ & Hnum & _).
    rewrite Hnum, Nat2Z.id.
    apply in_map_iff. exists q. split; [|apply in_seq; lia].
    unfold recver_op. now rewrite Hrank.
Qed.

(** ** Which operations of an exchange touch a byte of a field *)

Hypothesis elems_pos : Forall (fun e => 1 <= e) elems.

Lemma dom_idx_inj (r j r' j' : nat) :
  (r < W)%nat -> (j < G)%nat -> (r' < W)%nat -> (j' < G)%nat ->
  PFP.dom_idx p (Z.of_nat r) (Z.of_nat j)
  = PFP.dom_idx p (Z.of_nat r') (Z.of_nat j') ->
  r = r' /\ j = j'.
Proof.
  intros Hr Hj Hr' Hj' Heq.
  destruct (domain_owner r j Hr Hj) as (_ & R1 & G1).
  destruct (domain_owner r' j' Hr' Hj') as (_ & R2 & G2).
  rewrite Heq in R1, G1. split; lia.
Qed.

Lemma elem_size_spec (r j q : nat) :
  (r < W)%nat -> (j < G)%nat ->
  LocalDomain.elem_size (domain r j) q = nth q elems 0.
Proof.
  intros Hr Hj. destruct (domain_spec r j Hr Hj) as (_ & _ & He & _).
  unfold LocalDomain.elem_size. now rewrite He.
Qed.

(** The extent a subdomain sends in a direction is the extent of the halo
    of the opposite direction of the neighbor it sends to. *)
Lemma extent_neighbor (r j rN jN : nat) (dir : Dim3) :
  (r < W)%nat -> (j < G)%nat -> (rN < W)%nat -> (jN < G)%nat ->
  PFP.dom_idx p (Z.of_nat rN) (Z.of_nat jN)
  = DistributedDomain.dst_idx p (PFP.dom_idx p (Z.of_nat r) (Z.of_nat j)) dir ->
  LocalDomain.halo_extent (domain r j) dir
  = LocalDomain.halo_extent (domain rN jN) (Dim3.neg dir).
Proof.
  intros Hr Hj HrN HjN Eidx.
  destruct (domain_spec r j Hr Hj) as (Hsz & Hrad & _).
  destruct (domain_spec rN jN HrN HjN) as (HszN & HradN & _).
  destruct (domain_owner r j Hr Hj) as (Hin & _).
  destruct (neighbor_size p grid_dims _ dir Hin) as (Nx & Ny & Nz).
  cbv zeta in Nx, Ny, Nz. rewrite <- Eidx in Nx, Ny, Nz.
  apply halo_extent_neighbor; rewrite ?Hsz, ?HszN, ?Hrad, ?HradN;
    try reflexivity; intros H0; symmetry; auto.
Qed.

Section Touch.

Variables (r j q : nat) (pt : Dim3) (b : Z).
Hypothesis r_lt : (r < W)%nat.
Hypothesis j_lt : (j < G)%nat.
Hypothesis q_lt : (q < F)%nat.
Hypothesis pt_in : in_extent (LocalDomain.raw_size (domain r j)) pt.
Hypothesis b_in : 0 <= b < LocalDomain.elem_size (domain r j) q.

Local Abbreviation here :=
  (DevLoc (Z.of_nat r) (LocalDomain.curr_data (domain r j) q)
          (linear (LocalDomain.raw_size (domain r j)) pt
           * LocalDomain.elem_size (domain r j) q + b)).

(** A sender that touches the byte sends from the neighbor on the side
    of the byte, on the same rank, in the direction opposite to that
    side. *)
Lemma send_touch (r' j' q' : nat) (dir' : Dim3) :
  (r' < W)%nat -> (j' < G)%nat -> (q' < F)%nat -> is_dir dir' ->
  touches (sender_op (engine r')
             (DistributedDomain.plan_sender (engine r') j' dir') q') here ->
  r' = r /\ q' = q /\ dir' = Dim3.neg (side (domain r j) pt) /\
  PFP.dom_idx p (Z.of_nat r) (Z.of_nat j)
  = DistributedDomain.dst_idx p (PFP.dom_idx p (Z.of_nat r') (Z.of_nat j')) dir'.
Proof.
  intros Hr' Hj' Hq' Hdir' Ht.
  destruct (plan_sender_form r' j' dir' Hr' Hj')
    as (rN & jN & HrN & HjN & Eidx & _ & [(-> & direct & Hop)|(_ & Hop)]);
    rewrite Hop in Ht; [|destruct Ht].
  apply copy_op_touches in Ht. destruct Ht as (Erank & Eblk & Hcov).
  apply Nat2Z.inj in Erank. subst r'.
  destruct (domain_spec r j r_lt j_lt) as (_ & _ & _ & _ & Hcurr & Hshape).
  destruct (domain_spec r jN r_lt HjN) as (_ & _ & _ & _ & HcurrN & _).
  rewrite (Hcurr q q_lt), (HcurrN q' Hq') in Eblk.
  apply block_inj in Eblk; [|assumption..]. destruct Eblk as (<- & <-).
  split; [reflexivity|]. split; [reflexivity|]. split; [|now symmetry].
  rewrite (extent_neighbor r j' r j dir' r_lt Hj' r_lt j_lt Eidx) in Hcov.
  rewrite (elem_size_spec r j' q r_lt Hj'),
    <- (elem_size_spec r j q r_lt j_lt) in Hcov.
  apply halo_touch_side in Hcov; try assumption; [|now apply is_dir_neg].
  rewrite Hcov. symmetry. apply neg_neg.
Qed.

(** A receiver that touches the byte is a receiver of its subdomain, for
    the direction opposite to the side of the byte. *)
Lemma recv_touch (r' j' q' : nat) (dir' : Dim3) (key : Key) :
  (r' < W)%nat -> (j' < G)%nat -> (q' < F)%nat -> is_dir dir' ->
  touches (unpack_op (Z.of_nat r') key (domain r' j') dir' q') here ->
  r' = r /\ j' = j /\ q' = q /\ dir' = Dim3.neg (side (domain r j) pt).
Proof.
  intros Hr' Hj' Hq' Hdir' (Erank & Eblk & Hcov).
  apply Nat2Z.inj in Erank. subst r'.
  destruct (domain_spec r j r_lt j_lt) as (_ & _ & _ & _ & Hcurr & Hshape).
  destruct (domain_spec r j' r_lt Hj') as (_ & _ & _ & _ & Hcurr' & _).
  rewrite (Hcurr q q_lt), (Hcurr' q' Hq') in Eblk.
  apply block_inj in Eblk; [|assumption..]. destruct Eblk as (<- & <-).
  repeat split; try reflexivity.
  apply halo_touch_side in Hcov; try assumption; [|now apply is_dir_neg].
  rewrite Hcov. symmetry. apply neg_neg.
Qed.

(** No operation of an exchange touches a byte of the compute region. *)
Lemma compute_untouched (op : Op) :
  side (domain r j) pt = Dim3.zero ->
  In op (flat_map send_ops (cycled sw cfg brk W)
         ++ flat_map wait_ops (cycled sw cfg brk W)) ->
  ~ touches op here.
Proof.
  intros Hside Hin Ht. apply in_app_or in Hin. destruct Hin as [Hin|Hin].
  - apply sends_In in Hin.
    destruct Hin as (r' & j' & dir' & q' & Hr' & Hj' & Hdir' & Hnz & Hq' & ->).
    destruct (send_touch r' j' q' dir' Hr' Hj' Hq' Hdir' Ht)
      as (_ & _ & Hd & _).
    rewrite Hside in Hd. apply Hnz. exact Hd.
  - apply waits_In in Hin.
    destruct Hin as (r' & j' & dir' & q' & rS & jS & Hr' & Hj' & Hdir' & Hnz
                     & Hq' & _ & _ & _ & _ & ->).
    destruct (recv_touch r' j' q' dir' _ Hr' Hj' Hq' Hdir' Ht)
      as (_ & _ & _ & Hd).
    rewrite Hside in Hd. apply Hnz. exact Hd.
Qed.

End Touch.

(** ** The exchange *)

Variable l : Launch.
Hypothesis l_ok : launch_ok l.

Local Abbreviation sends := (flat_map send_ops (cycled sw cfg brk W)).
Local Abbreviation waits := (flat_map wait_ops (cycled sw cfg brk W)).

Lemma domain_next (r j q : nat) :
  (r < W)%nat -> (j < G)%nat -> (q < F)%nat ->
  LocalDomain.next_data (domain r j) q
  = base' r + 2 * Z.of_nat F * Z.of_nat j + 2 * Z.of_nat q + 2.
Proof.
  intros Hr Hj Hq. rewrite engine_eq by exact Hr.
  destruct (engines_configured r Hr) as (_ & _ & Hg & _ & Hel & Hd & Hi).
  destruct (realize_spec (cfg r) (brk r) Hd Hi)
    as (_ & _ & _ & _ & _ & _ & _ & _ & Hdom).
  cbv zeta in Hdom. rewrite Hg in Hdom.
  destruct (Hdom j no_domain Hj) as (_ & _ & _ & _ & _ & _ & Hptr).
  rewrite Hel in Hptr.
  destruct (Nat.even (sw r)); [exact (proj2 (Hptr q Hq))|].
  rewrite swapped_domain. unfold LocalDomain.next_data, LocalDomain.swap.
  cbn [LocalDomain.nextDataPtrs_].
  pose proof (proj1 (Hptr q Hq)) as Hc. unfold LocalDomain.curr_data in Hc.
  rewrite Hc. lia.
Qed.

(** Every operation writes within the rows and columns of its
    destination. *)
Lemma ops_in_pitch (op : Op) : In op (sends ++ waits) -> dst_in_pitch op.
Proof.
  intros Hin. apply in_app_or in Hin. destruct Hin as [Hin|Hin].
  - apply sends_In in Hin.
    destruct Hin as (r & j & dir & q & Hr & Hj & Hdir & Hnz & Hq & ->).
    destruct (plan_sender_form r j dir Hr Hj)
      as (rN & jN & HrN & HjN & Eidx & _ & [(-> & direct & Hop)|(_ & Hop)]);
      rewrite Hop; [|exact I].
    apply copy_op_pitch.
    rewrite (extent_neighbor r j r jN dir Hr Hj Hr HjN Eidx).
    destruct (domain_spec r jN Hr HjN) as (_ & _ & _ & _ & _ & Hshape).
    apply halo_pitch; [exact Hshape | now apply is_dir_neg].
  - apply waits_In in Hin.
    destruct Hin as (r & j & dir & q & rS & jS & Hr & Hj & Hdir & Hnz & Hq
                     & _ & _ & _ & _ & ->).
    destruct (domain_spec r j Hr Hj) as (_ & _ & _ & _ & _ & Hshape).
    apply (halo_pitch (domain r j) (Dim3.neg dir));
      [exact Hshape | now apply is_dir_neg].
Qed.

(** The sends do not wait. *)
Lemma sends_return (w : World) : exists w1, run l sends w = Some w1.
Proof.
  apply run_returns.
  intros rank dst dstPos dstSize extent key offset e Hin. exfalso.
  apply sends_In in Hin.
  destruct Hin as (r & j & dir & q & Hr & Hj & Hdir & Hnz & Hq & Hop).
  destruct (plan_sender_form r j dir Hr Hj)
    as (rN & jN & _ & _ & _ & _ & [(_ & direct & Hf)|(_ & Hf)]);
    rewrite Hf in Hop; [destruct direct|]; discriminate.
Qed.

(** After the sends, the message of every receiver is there. *)
Lemma waits_return (w w1 : World) :
  run l sends w = Some w1 -> exists w', run l waits w1 = Some w'.
Proof.
  intros Hrun. apply run_returns.
  intros rank dst dstPos dstSize extent key offset e Hin.
  apply waits_In in Hin.
  destruct Hin as (r & j & dir & q & rS & jS & Hr & Hj & Hdir & Hnz & Hq
                   & HrS & HjS & Hne & Eidx & Hop).
  injection Hop as _ _ _ _ _ -> _ _.
  destruct (plan_sender_form rS jS dir HrS HjS)
    as (rN & jN & HrN & HjN & Eidx' & _ & Hcases).
  assert (Hsame : rN = r /\ jN = j).
  { apply dom_idx_inj; try assumption.
    rewrite Eidx', Eidx. apply dst_of_src; [apply grid_dims|].
    now destruct (domain_owner r j Hr Hj). }
  destruct Hsame as (-> & ->).
  destruct Hcases as [(Heq & _)|(_ & Hop)]; [now symmetry in Heq|].
  eapply (run_posts l sends w w1); [exact Hrun|].
  apply sends_In. exists rS, jS, dir, q.
  repeat split; try assumption; try apply Hdir.
  rewrite Hop. unfold pack_op. reflexivity.
Qed.

Lemma exchange_returns (w : World) :
  exists w1 w',
    run l sends w = Some w1 /\ run l waits w1 = Some w' /\
    exchange l (cycled sw cfg brk W) w = Some w'.
Proof.
  destruct (sends_return w) as (w1 & H1).
  destruct (waits_return w w1 H1) as (w' & H2).
  exists w1, w'. split; [exact H1|]. split; [exact H2|].
  unfold exchange. now rewrite run_app, H1.
Qed.

(** An operation that touches device memory touches the current
    allocation of a field. *)
Lemma touch_block (op : Op) (rank : Z) (blk : ptr) (off : Z) :
  In op (sends ++ waits) -> touches op (DevLoc rank blk off) ->
  exists r j q,
    (r < W)%nat /\ (j < G)%nat /\ (q < F)%nat /\ rank = Z.of_nat r /\
    blk = LocalDomain.curr_data (domain r j) q.
Proof.
  intros Hin Ht. apply in_app_or in Hin. destruct Hin as [Hin|Hin].
  - apply sends_In in Hin.
    destruct Hin as (r & j & dir & q & Hr & Hj & Hdir & Hnz & Hq & ->).
    destruct (plan_sender_form r j dir Hr Hj)
      as (rN & jN & HrN & HjN & _ & _ & [(-> & direct & Hop)|(_ & Hop)]);
      rewrite Hop in Ht; [|destruct Ht].
    apply copy_op_touches in Ht. destruct Ht as (-> & -> & _).
    exists r, jN, q. auto.
  - apply waits_In in Hin.
    destruct Hin as (r & j & dir & q & rS & jS & Hr & Hj & Hdir & Hnz & Hq
                     & _ & _ & _ & _ & ->).
    destruct Ht as (-> & -> & _). exists r, j, q. auto.
Qed.

Lemma engines_length : length (cycled sw cfg brk W) = W.
Proof. unfold cycled. now rewrite length_map, length_seq. Qed.

Lemma is_dir_zero : is_dir Dim3.zero.
Proof. unfold is_dir, Dim3.zero. cbn. lia. Qed.

Lemma engine_ops (r : nat) (op : Op) :
  (r < W)%nat ->
  In op (send_ops (engine r) ++ wait_ops (engine r)) -> In op (sends ++ waits).
Proof.
  intros Hr Hin.
  assert (HE : In (engine r) (cycled sw cfg brk W))
    by (apply engines_In; eauto).
  apply in_or_app. apply in_app_or in Hin.
  destruct Hin as [Hin|Hin]; [left|right]; apply in_flat_map; eauto.
Qed.

(** What the operations of a rank leave alone on that rank: the compute
    region of every field of its subdomains, and the [next] allocations. *)
Lemma rank_frame (r j q : nat) :
  (r < W)%nat ->
  (j < length (DistributedDomain.domains_ (engine r)))%nat ->
  Z.of_nat q < LocalDomain.num_data (domain r j) ->
  DistributedDomain.rank_ (engine r) = Z.of_nat r /\
  forall op,
    In op (send_ops (engine r) ++ wait_ops (engine r)) ->
    (forall i b,
        in_extent (LocalDomain.size (domain r j)) i ->
        0 <= b < LocalDomain.elem_size (domain r j) q ->
        ~ touches op (region_loc (Z.of_nat r) (domain r j) q Dim3.zero true
                                 i b)) /\
    (forall off,
        ~ touches op (DevLoc (Z.of_nat r)
                             (LocalDomain.next_data (domain r j) q) off)).
Proof.
  intros Hr Hj Hq.
  destruct (engine_spec r Hr) as (Hrank & _ & Hlen & _).
  rewrite Hlen in Hj.
  destruct (domain_spec r j Hr Hj) as (_ & _ & _ & Hnum & Hcurr & Hshape).
  rewrite Hnum in Hq. apply Nat2Z.inj_lt in Hq.
  split; [exact Hrank|].
  intros op Hin. apply (engine_ops r op Hr) in Hin. split.
  - intros i b Hi Hb.
    apply (compute_untouched r j q _ b Hr Hj Hq); try assumption.
    + apply halo_in_raw; [exact Hshape | exact is_dir_zero | exact Hi].
    + apply side_halo; [exact Hshape | exact is_dir_zero | exact Hi].
  - intros off Ht.
    destruct (touch_block op _ _ _ Hin Ht)
      as (r' & j' & q' & Hr' & Hj' & Hq' & Erank & Eblk).
    apply Nat2Z.inj in Erank. subst r'.
    destruct (domain_spec r j' Hr Hj') as (_ & _ & _ & _ & Hcurr' & _).
    rewrite (domain_next r j q Hr Hj Hq), (Hcurr' q' Hq') in Eblk.
    destruct (Nat.even (sw r)); lia.
Qed.
(** ** One halo region and the neighbor that fills it *)

Section Halo.

Variables (r j q : nat) (dir i : Dim3) (b : Z) (rN jN : nat).
Hypothesis fits : radius_fits p R.
Hypothesis r_lt : (r < W)%nat.
Hypothesis j_lt : (j < G)%nat.
Hypothesis q_lt : (q < F)%nat.
Hypothesis rN_lt : (rN < W)%nat.
Hypothesis jN_lt : (jN < G)%nat.
Hypothesis dir_ok : is_dir dir.
Hypothesis dir_nz : dir <> Dim3.zero.
Hypothesis neighbor :
  PFP.dom_idx p (Z.of_nat rN) (Z.of_nat jN)
  = DistributedDomain.dst_idx p (PFP.dom_idx p (Z.of_nat r) (Z.of_nat j)) dir.
Hypothesis i_in : in_extent (LocalDomain.halo_extent (domain r j) dir) i.
Hypothesis b_in : 0 <= b < LocalDomain.elem_size (domain r j) q.

Local Abbreviation halo :=
  (region_loc (Z.of_nat r) (domain r j) q dir true i b).
Local Abbreviation interior :=
  (region_loc (Z.of_nat rN) (domain rN jN) q (Dim3.neg dir) false i b).

Lemma neg_ok : is_dir (Dim3.neg dir).
Proof. now apply is_dir_neg. Qed.

Lemma neg_nz : Dim3.neg dir <> Dim3.zero.
Proof. intros H. apply dir_nz. now apply neg_zero. Qed.

Lemma src_back :
  DistributedDomain.src_idx p (PFP.dom_idx p (Z.of_nat r) (Z.of_nat j))
    (Dim3.neg dir)
  = PFP.dom_idx p (Z.of_nat rN) (Z.of_nat jN).
Proof.
  rewrite <- dst_idx_neg, neg_neg. now symmetry.
Qed.

Lemma back :
  PFP.dom_idx p (Z.of_nat r) (Z.of_nat j)
  = DistributedDomain.dst_idx p (PFP.dom_idx p (Z.of_nat rN) (Z.of_nat jN))
      (Dim3.neg dir).
Proof.
  rewrite dst_idx_neg, neighbor. symmetry.
  apply src_of_dst; [apply grid_dims|].
  now destruct (domain_owner r j r_lt j_lt).
Qed.

Lemma extent_eq :
  LocalDomain.halo_extent (domain rN jN) (Dim3.neg dir)
  = LocalDomain.halo_extent (domain r j) dir.
Proof.
  symmetry. now apply extent_neighbor.
Qed.

Lemma elem_eq :
  LocalDomain.elem_size (domain rN jN) q = LocalDomain.elem_size (domain r j) q.
Proof.
  now rewrite !elem_size_spec.
Qed.

Lemma neighbor_roomy : roomy (domain rN jN).
Proof.
  destruct (domain_spec rN jN rN_lt jN_lt) as (Hsz & Hrad & _).
  destruct (domain_owner rN jN rN_lt jN_lt) as (Hin & _).
  unfold roomy. rewrite Hsz, Hrad. exact (fits _ Hin).
Qed.

(** The interior region the halo is filled from is left alone. *)
Lemma interior_untouched (op : Op) :
  In op (sends ++ waits) -> ~ touches op interior.
Proof.
  destruct (domain_spec rN jN rN_lt jN_lt) as (_ & _ & _ & _ & _ & Hshape).
  assert (Hi : in_extent (LocalDomain.halo_extent (domain rN jN) (Dim3.neg dir)) i)
    by (rewrite extent_eq; exact i_in).
  assert (Hb : 0 <= b < LocalDomain.elem_size (domain rN jN) q)
    by (rewrite elem_eq; exact b_in).
  intros Hin.
  apply (compute_untouched rN jN q _ b rN_lt jN_lt q_lt); try assumption.
  - apply interior_in_raw; try assumption; [apply neighbor_roomy | apply neg_ok].
  - apply side_interior; try assumption; [apply neighbor_roomy | apply neg_ok].
Qed.

Lemma halo_point :
  in_extent (LocalDomain.raw_size (domain r j))
            (Dim3.add i (LocalDomain.halo_pos (domain r j) dir true)) /\
  side (domain r j) (Dim3.add i (LocalDomain.halo_pos (domain r j) dir true))
  = dir.
Proof.
  destruct (domain_spec r j r_lt j_lt) as (_ & _ & _ & _ & _ & Hshape).
  split; [now apply halo_in_raw | now apply side_halo].
Qed.

(** The sender of the neighbor towards this subdomain. *)
Lemma neighbor_sender :
  In (sender_op (engine rN)
        (DistributedDomain.plan_sender (engine rN) jN (Dim3.neg dir)) q) sends /\
  ((rN = r /\
    exists direct,
      sender_op (engine rN)
        (DistributedDomain.plan_sender (engine rN) jN (Dim3.neg dir)) q
      = copy_op direct (Z.of_nat r) (domain r j) (domain r jN) (Dim3.neg dir) q)
   \/
   (rN <> r /\
    sender_op (engine rN)
      (DistributedDomain.plan_sender (engine rN) jN (Dim3.neg dir)) q
    = pack_op (Z.of_nat rN)
        (Z.of_nat rN, Z.of_nat jN, Z.of_nat r, Z.of_nat j, Dim3.neg dir)
        (domain rN jN) (Dim3.neg dir) q)).
Proof.
  split.
  - apply sends_In. exists rN, jN, (Dim3.neg dir), q.
    repeat split; try assumption; try apply neg_ok. apply neg_nz.
  - destruct (plan_sender_form rN jN (Dim3.neg dir) rN_lt jN_lt)
      as (r' & j' & Hr' & Hj' & Eidx & _ & Hcases).
    rewrite <- back in Eidx.
    destruct (dom_idx_inj r' j' r j Hr' Hj' r_lt j_lt Eidx) as (-> & ->).
    destruct Hcases as [(<- & direct & Hop)|(Hne & Hop)].
    + left. split; [reflexivity|]. exists direct. apply Hop.
    + right. split; [intros ->; now apply Hne | apply Hop].
Qed.

(** Every sender that touches the halo is that sender. *)
Lemma halo_sender (op : Op) :
  In op sends -> touches op halo ->
  rN = r /\
  op = sender_op (engine rN)
         (DistributedDomain.plan_sender (engine rN) jN (Dim3.neg dir)) q.
Proof.
  intros Hin Ht. apply sends_In in Hin.
  destruct Hin as (r' & j' & dir' & q' & Hr' & Hj' & Hdir' & Hnz' & Hq' & ->).
  destruct halo_point as (Hraw & Hside).
  destruct (send_touch r j q _ b r_lt j_lt q_lt Hraw b_in r' j' q' dir'
              Hr' Hj' Hq' Hdir' Ht) as (-> & -> & -> & Eidx).
  rewrite Hside in *.
  assert (Heq : PFP.dom_idx p (Z.of_nat r) (Z.of_nat j')
                = PFP.dom_idx p (Z.of_nat rN) (Z.of_nat jN)).
  { rewrite <- src_back, Eidx. symmetry.
    apply src_of_dst; [apply grid_dims|].
    now destruct (domain_owner r j' r_lt Hj'). }
  destruct (dom_idx_inj r j' rN jN r_lt Hj' rN_lt jN_lt Heq) as (-> & ->).
  split; reflexivity.
Qed.

Local Abbreviation key :=
  (Z.of_nat rN, Z.of_nat jN, Z.of_nat r, Z.of_nat j, Dim3.neg dir).

(** The byte of the message that travels to the halo byte. *)
Local Abbreviation in_flight :=
  (MailLoc key
     (field_offset elems (Dim3.flatten (LocalDomain.halo_extent (domain r j) dir)) q
      + linear (LocalDomain.halo_extent (domain r j) dir) i
        * LocalDomain.elem_size (domain r j) q + b)).

(** Every receiver that touches the halo is the receiver of the message
    of the neighbor, which sits on another rank. *)
Lemma halo_recver (op : Op) :
  In op waits -> touches op halo ->
  rN <> r /\ op = unpack_op (Z.of_nat r) key (domain r j) (Dim3.neg dir) q.
Proof.
  intros Hin Ht. apply waits_In in Hin.
  destruct Hin as (r' & j' & dir' & q' & rS & jS & Hr' & Hj' & Hdir' & Hnz'
                   & Hq' & HrS & HjS & Hne & Eidx & ->).
  destruct halo_point as (Hraw & Hside).
  destruct (recv_touch r j q _ b r_lt j_lt q_lt Hraw b_in r' j' q' dir' _
              Hr' Hj' Hq' Hdir' Ht) as (-> & -> & -> & ->).
  rewrite Hside in *. rewrite src_back in Eidx.
  destruct (dom_idx_inj rS jS rN jN HrS HjS rN_lt jN_lt Eidx) as (-> & ->).
  split; [exact Hne | reflexivity].
Qed.

Lemma neighbor_recver :
  rN <> r ->
  In (unpack_op (Z.of_nat r) key (domain r j) (Dim3.neg dir) q) waits.
Proof.
  intros Hne. apply waits_In. exists r, j, (Dim3.neg dir), q, rN, jN.
  repeat split; try assumption; try apply neg_ok;
    [apply neg_nz | now rewrite src_back].
Qed.

Lemma copy_touches_halo (direct : bool) :
  rN = r ->
  touches (copy_op direct (Z.of_nat r) (domain r j) (domain r jN)
                   (Dim3.neg dir) q) halo.
Proof.
  intros Heq. pose proof extent_eq as Ee. pose proof elem_eq as Es.
  rewrite Heq in Ee, Es.
  unfold region_loc. apply copy_op_touches.
  split; [reflexivity|]. split; [reflexivity|].
  rewrite neg_neg, Es. apply region_covers_intro; [|exact b_in].
  rewrite Ee. exact i_in.
Qed.

Lemma copy_writes_halo (direct : bool) :
  rN = r ->
  writes (copy_op direct (Z.of_nat r) (domain r j) (domain r jN)
                  (Dim3.neg dir) q) halo interior.
Proof.
  intros Heq. pose proof extent_eq as Ee. pose proof elem_eq as Es.
  rewrite Heq in Ee, Es. rewrite Heq.
  pose proof (copy_op_writes direct (Z.of_nat r) (domain r j) (domain r jN)
                (Dim3.neg dir) q i b) as Hw.
  rewrite neg_neg in Hw.
  apply Hw; [now symmetry | now rewrite Ee | now rewrite Es].
Qed.

Lemma unpack_touches_halo :
  touches (unpack_op (Z.of_nat r) key (domain r j) (Dim3.neg dir) q) halo.
Proof.
  unfold region_loc, unpack_op. cbn [touches].
  split; [reflexivity|]. split; [reflexivity|].
  rewrite neg_neg. apply region_covers_intro; [exact i_in | exact b_in].
Qed.

Lemma unpack_writes_halo :
  writes (unpack_op (Z.of_nat r) key (domain r j) (Dim3.neg dir) q)
         halo in_flight.
Proof.
  destruct (domain_spec r j r_lt j_lt) as (_ & _ & He & _).
  pose proof (unpack_op_writes (Z.of_nat r) key (domain r j) (Dim3.neg dir) q
                i b) as Hw.
  rewrite neg_neg, He in Hw. exact (Hw i_in b_in).
Qed.

Lemma pack_writes_message :
  writes (pack_op (Z.of_nat rN) key (domain rN jN) (Dim3.neg dir) q)
         in_flight interior.
Proof.
  destruct (domain_spec rN jN rN_lt jN_lt) as (_ & _ & He & _).
  pose proof (pack_op_writes (Z.of_nat rN) key (domain rN jN) (Dim3.neg dir) q
                i b) as Hw.
  rewrite extent_eq, elem_eq, He in Hw. exact (Hw i_in b_in).
Qed.

Lemma pack_touches_message :
  touches (pack_op (Z.of_nat rN) key (domain rN jN) (Dim3.neg dir) q) in_flight.
Proof.
  destruct (domain_spec rN jN rN_lt jN_lt) as (_ & _ & He & _).
  unfold pack_op. cbn [touches]. split; [reflexivity|].
  rewrite extent_eq, elem_eq, He. exists i. split; [exact i_in|].
  unfold covers. now apply covers_own_slot.
Qed.

(** Every sender that touches the byte in flight is the sender of the
    neighbor. *)
Lemma message_packer (op : Op) :
  In op sends -> touches op in_flight ->
  op = pack_op (Z.of_nat rN) key (domain rN jN) (Dim3.neg dir) q.
Proof.
  intros Hin Ht. apply sends_In in Hin.
  destruct Hin as (r' & j' & dir' & q' & Hr' & Hj' & Hdir' & Hnz' & Hq' & ->).
  destruct (plan_sender_form r' j' dir' Hr' Hj')
    as (r2 & j2 & Hr2 & Hj2 & Eidx & _ & [(_ & direct & Hop)|(_ & Hop)]);
    rewrite Hop in Ht |- *; [now apply copy_op_leaves_mail in Ht|].
  destruct Ht as (Hk & Hc).
  injection Hk as E1 E2 E3 E4 E5.
  apply Nat2Z.inj in E1, E2, E3, E4. subst r' j' r2 j2 dir'.
  destruct (domain_spec rN jN rN_lt jN_lt) as (_ & _ & He & _).
  rewrite extent_eq, He, (elem_size_spec rN jN q') in Hc by assumption.
  rewrite (elem_size_spec r j q) in Hc by assumption.
  apply packed_field in Hc; try assumption;
    [|now rewrite <- (elem_size_spec r j q)].
  now subst q'.
Qed.

(** The exchange brings the byte of the interior region of the neighbor,
    as it was before the exchange, to the halo. *)
Lemma halo_from_interior (w w1 w' : World) :
  run l sends w = Some w1 -> run l waits w1 = Some w' ->
  read w' halo = read w interior.
Proof.
  intros H1 H2.
  destruct neighbor_sender as (Hsin & [(Heq & direct & Hop)|(Hne & Hop)]).
  - transitivity (read w1 halo).
    + apply (run_frame l l_ok waits halo w1 w' H2). intros op Hin Ht.
      destruct (halo_recver op Hin Ht) as (Hne & _). now apply Hne.
    + apply (run_agree l l_ok sends halo (read w interior) w w1 H1).
      * intros op Hin. apply ops_in_pitch. apply in_or_app. now left.
      * eexists. split; [exact Hsin|]. rewrite Hop.
        now apply copy_touches_halo.
      * intros op Hin Ht. destruct (halo_sender op Hin Ht) as (_ & ->).
        exists interior. rewrite Hop. split; [now apply copy_writes_halo|].
        split; [reflexivity|]. intros op' Hin'.
        apply interior_untouched. apply in_or_app. now left.
  - transitivity (read w1 in_flight).
    + apply (run_agree l l_ok waits halo (read w1 in_flight) w1 w' H2).
      * intros op Hin. apply ops_in_pitch. apply in_or_app. now right.
      * eexists. split; [apply neighbor_recver; exact Hne|].
        apply unpack_touches_halo.
      * intros op Hin Ht. destruct (halo_recver op Hin Ht) as (_ & ->).
        exists in_flight. split; [apply unpack_writes_halo|].
        split; [reflexivity|]. intros op' Hin' Ht'.
        apply waits_In in Hin'.
        destruct Hin' as (r' & j' & dir' & q' & rS & jS & _ & _ & _ & _ & _
                          & _ & _ & _ & _ & ->).
        exact Ht'.
    + apply (run_agree l l_ok sends in_flight (read w interior) w w1 H1).
      * intros op Hin. apply ops_in_pitch. apply in_or_app. now left.
      * eexists. split; [exact Hsin|]. rewrite Hop.
        apply pack_touches_message.
      * intros op Hin Ht. rewrite (message_packer op Hin Ht).
        exists interior. split; [apply pack_writes_message|].
        split; [reflexivity|]. intros op' Hin'.
        apply interior_untouched. apply in_or_app. now left.
Qed.

Lemma halo_filled_at (w w1 w' : World) :
  run l sends w = Some w1 -> run l waits w1 = Some w' ->
  read w' halo = read w' interior.
Proof.
  intros H1 H2. rewrite (halo_from_interior w w1 w' H1 H2). symmetry.
  apply (run_frame l l_ok (sends ++ waits) interior w w').
  - now rewrite run_app, H1.
  - apply interior_untouched.
Qed.

End Halo.

(** With one partition for all ranks and the radius within every local
    extent, an exchange returns and fills every halo. *)
Lemma halos_filled_uniform (w : World) :
  radius_fits p R ->
  exists w',
    exchange l (cycled sw cfg brk W) w = Some w' /\
    halos_filled (cycled sw cfg brk W) w'.
Proof.
  intros Hfits. destruct (exchange_returns w) as (w1 & w' & H1 & H2 & Hex).
  exists w'. split; [exact Hex|].
  intros r j q dir i b E D N EN DN Hr Hj Hq Hdir Hnz Hi Hb.
  subst DN EN N D E. rewrite engines_length in Hr.
  destruct (engine_spec r Hr) as (Hrank & Hpart & Hlen & _ & _ & Hidx).
  rewrite Hlen in Hj.
  destruct (domain_spec r j Hr Hj) as (_ & _ & _ & Hnum & _).
  rewrite Hnum in Hq. apply Nat2Z.inj_lt in Hq.
  rewrite Hpart, (Hidx j Hj), Hrank.
  destruct (idx_owner (DistributedDomain.dst_idx p
                         (PFP.dom_idx p (Z.of_nat r) (Z.of_nat j)) dir))
    as (rN & jN & HrN & HjN & Erank & Egpu & Eidx);
    [apply dst_idx_in_grid, grid_dims|].
  rewrite Erank, Egpu, !Nat2Z.id.
  destruct (engine_spec rN HrN) as (HrankN & _). rewrite HrankN.
  exact (halo_filled_at r j q dir i b rN jN Hfits Hr Hj Hq HrN HjN Hdir Hnz
           Eidx Hi Hb w w1 w' H1 H2).
Qed.

End Engines.

(* ================================================================== *)
(** * Runs: every rank constructs, configures, realizes and swaps *)
(* ================================================================== *)

Section Configured.

Lemma add_data_fields (elems : list Z) (dd : DistributedDomain.t) :
  let dd' := fold_left DistributedDomain.add_data elems dd in
  DistributedDomain.rank_ dd' = DistributedDomain.rank_ dd /\
  DistributedDomain.partition_ dd' = DistributedDomain.partition_ dd /\
  DistributedDomain.gpus_ dd' = DistributedDomain.gpus_ dd /\
  DistributedDomain.radius_ dd' = DistributedDomain.radius_ dd /\
  DistributedDomain.dataElemSize_ dd'
  = DistributedDomain.dataElemSize_ dd ++ elems /\
  DistributedDomain.domains_ dd' = DistributedDomain.domains_ dd /\
  DistributedDomain.domainIdx_ dd' = DistributedDomain.domainIdx_ dd.
Proof.
  revert dd. induction elems as [|e es IH]; intros dd; cbn [fold_left].
  - rewrite app_nil_r. repeat split.
  - destruct (IH (DistributedDomain.add_data dd e))
      as (H1 & H2 & H3 & H4 & H5 & H6 & H7).
    cbv zeta. rewrite H1, H2, H3, H4, H5, H6, H7.
    unfold DistributedDomain.add_data.
    cbn [DistributedDomain.rank_ DistributedDomain.partition_
         DistributedDomain.gpus_ DistributedDomain.radius_
         DistributedDomain.dataElemSize_ DistributedDomain.domains_
         DistributedDomain.domainIdx_].
    rewrite <- app_assoc. repeat split.
Qed.

(** The constructor returns in the environment of a rank, and what the
    application hands to [realize] has the rank of the process, the
    partition for the gpus the rank was given, the radius and the fields,
    and no local domain yet. *)
Lemma configure_spec (env : Env) (size : Dim3) (W r : nat) (R : Z)
    (elems : list Z) :
  on_rank W r env ->
  exists p,
    PFP.new size (Z.of_nat W) (Z.of_nat (gpu_count env)) = Some p /\
    (1 <= gpu_count env)%nat /\
    configured (gpu_count env) R elems p r (configure env size R elems).
Proof.
  intros ((Hcol & Hworld & Hshm & Hdev & Hset) & Hrank & Hws).
  unfold configure, gpu_count, DistributedDomain.new.
  rewrite Hcol. cbn [negb].
  destruct (assign_gpus_nonempty _ _ _ Hshm Hdev) as (gpus & -> & Hgpus).
  destruct (probe_returns env Hset) as (m & -> & _).
  destruct size as [sx sy sz]. cbn [Dim3.x Dim3.y Dim3.z].
  destruct (PFP_new_returns (Dim3.mk sx sy sz) (env_worldSize env)
              (Z.of_nat (length gpus)) Hworld ltac:(lia)) as (p & Hp).
  rewrite Hp. exists p. rewrite <- Hws. split; [exact Hp|].
  split; [exact Hgpus|].
  destruct (add_data_fields elems
              (DistributedDomain.set_radius
                 (DistributedDomain.mk (Dim3.mk sx sy sz) (env_rank env)
                    (env_worldSize env) gpus 0 [] [] p [] [] []
                    (env_colocated env) m) R))
    as (H1 & H2 & H3 & H4 & H5 & H6 & H7).
  cbv zeta in *. unfold configured.
  rewrite H1, H2, H3, H4, H5, H6, H7. cbn. repeat split. exact Hrank.
Qed.

Lemma rerank_same (dd : DistributedDomain.t) (r : nat) :
  DistributedDomain.rank_ dd = Z.of_nat r -> rerank dd r = dd.
Proof. destruct dd. cbn. intros ->. reflexivity. Qed.

Lemma rerank_configured (G : nat) (R : Z) (elems : list Z) (p : PFP.t)
    (r r' : nat) (dd : DistributedDomain.t) :
  configured G R elems p r dd -> configured G R elems p r' (rerank dd r').
Proof.
  intros (_ & H2 & H3 & H4 & H5 & H6 & H7). unfold configured, rerank. cbn.
  repeat split; assumption.
Qed.

(** The operations of an engine work on the memory of its rank. *)
Lemma ops_rank (dd : DistributedDomain.t) (op : Op) (rk : Z) (blk : ptr)
    (off : Z) :
  In op (send_ops dd ++ wait_ops dd) -> touches op (DevLoc rk blk off) ->
  rk = DistributedDomain.rank_ dd.
Proof.
  intros Hin Ht. apply in_app_or in Hin. destruct Hin as [Hin|Hin].
  - unfold send_ops in Hin. apply in_flat_map in Hin.
    destruct Hin as (di & _ & Hin). apply in_flat_map in Hin.
    destruct Hin as (s & _ & Hin). unfold sender_ops in Hin.
    apply in_map_iff in Hin. destruct Hin as (q & <- & _).
    destruct s as [dD sD dir|dD sD dir|mD sR sG dR dG dir];
      cbn [sender_op] in Ht.
    + apply copy_op_touches in Ht. now destruct Ht.
    + apply copy_op_touches in Ht. now destruct Ht.
    + destruct Ht.
  - unfold wait_ops in Hin. apply in_flat_map in Hin.
    destruct Hin as (di & _ & Hin). apply in_flat_map in Hin.
    destruct Hin as ([mD sR sG dR dG dir] & _ & Hin). unfold recver_ops in Hin.
    apply in_map_iff in Hin. destruct Hin as (q & <- & _).
    cbn [recver_op] in Ht. now destruct Ht.
Qed.

End Configured.

Section Runs.

Variables (size : Dim3) (W : nat) (R : Z) (elems : list Z).
Variables (env : nat -> Env) (brk : nat -> Z) (sw : nat -> nat).
Hypothesis size_pos :
  1 <= Dim3.x size /\ 1 <= Dim3.y size /\ 1 <= Dim3.z size.
Hypothesis R_nonneg : 0 <= R.
Hypothesis ranks : forall r, (r < W)%nat -> on_rank W r (env r).

Local Abbreviation cfg := (fun r => configure (env r) size R elems).
Local Abbreviation engines := (cycled sw cfg brk W).
Local Abbreviation engine r := (nth r engines no_engine).

Lemma run_length : length engines = W.
Proof. unfold cycled. now rewrite length_map, length_seq. Qed.

(** The engine of a rank is the engine it would be in a run in which
    every rank holds as many gpus as it does. *)
Lemma own_engine (r : nat) :
  (r < W)%nat ->
  nth r (cycled (fun _ => sw r) (fun r' => rerank (cfg r) r')
                (fun _ => brk r) W) no_engine
  = engine r.
Proof.
  intros Hr. unfold cycled. rewrite !nth_map_seq by exact Hr.
  rewrite rerank_same; [reflexivity|].
  destruct (configure_spec (env r) size W r R elems (ranks r Hr))
    as (p & _ & _ & Hc & _).
  exact Hc.
Qed.

Lemma own_frame (r j q : nat) :
  (r < W)%nat ->
  (j < length (DistributedDomain.domains_ (engine r)))%nat ->
  Z.of_nat q
  < LocalDomain.num_data (nth j (DistributedDomain.domains_ (engine r))
                              no_domain) ->
  DistributedDomain.rank_ (engine r) = Z.of_nat r /\
  forall op,
    In op (send_ops (engine r) ++ wait_ops (engine r)) ->
    (forall i b,
        in_extent (LocalDomain.size
                     (nth j (DistributedDomain.domains_ (engine r)) no_domain))
                  i ->
        0 <= b < LocalDomain.elem_size
                   (nth j (DistributedDomain.domains_ (engine r)) no_domain) q ->
        ~ touches op
            (region_loc (Z.of_nat r)
               (nth j (DistributedDomain.domains_ (engine r)) no_domain)
               q Dim3.zero true i b)) /\
    (forall off,
        ~ touches op
            (DevLoc (Z.of_nat r)
               (LocalDomain.next_data
                  (nth j (DistributedDomain.domains_ (engine r)) no_domain) q)
               off)).
Proof.
  intros Hr.
  destruct (configure_spec (env r) size W r R elems (ranks r Hr))
    as (p & Hp & HG & Hc).
  rewrite <- (own_engine r Hr).
  apply (rank_frame size W (gpu_count (env r)) R elems p
           (fun r' => rerank (cfg r) r') (fun _ => brk r) (fun _ => sw r)
           size_pos ltac:(lia) HG R_nonneg Hp).
  - intros r' _. now apply rerank_configured with (r := r).
  - exact Hr.
Qed.

Lemma engine_rank (r : nat) :
  (r < W)%nat -> DistributedDomain.rank_ (engine r) = Z.of_nat r.
Proof.
  intros Hr.
  destruct (configure_spec (env r) size W r R elems (ranks r Hr))
    as (p & Hp & HG & Hc).
  rewrite <- (own_engine r Hr).
  apply (engine_spec W (gpu_count (env r)) R elems p
           (fun r' => rerank (cfg r) r') (fun _ => brk r) (fun _ => sw r)).
  - intros r' _. now apply rerank_configured with (r := r).
  - exact Hr.
Qed.

(** An operation of the exchange that touches the memory of a rank is an
    operation of the engine of that rank. *)
Lemma touching_op (r : nat) (op : Op) (blk : ptr) (off : Z) :
  (r < W)%nat ->
  In op (flat_map send_ops engines ++ flat_map wait_ops engines) ->
  touches op (DevLoc (Z.of_nat r) blk off) ->
  In op (send_ops (engine r) ++ wait_ops (engine r)).
Proof.
  intros Hr Hin Ht.
  assert (Hdd : exists dd, In dd engines /\ In op (send_ops dd ++ wait_ops dd)).
  { apply in_app_or in Hin. destruct Hin as [Hin|Hin];
      apply in_flat_map in Hin; destruct Hin as (dd & Hdd & Hop);
      exists dd; (split; [exact Hdd|]); apply in_or_app; [now left | now right]. }
  destruct Hdd as (dd & Hdd & Hop).
  apply (In_nth _ _ no_engine) in Hdd. destruct Hdd as (r' & Hr' & <-).
  rewrite run_length in Hr'.
  pose proof (ops_rank _ _ _ _ _ Hop Ht) as Erank.
  rewrite (engine_rank r' Hr') in Erank. apply Nat2Z.inj in Erank.
  now subst r'.
Qed.

(** When every rank holds the same number of gpus, all ranks build the
    same partition. *)
Lemma same_partition (G : nat) :
  (1 <= W)%nat ->
  (forall r, (r < W)%nat -> gpu_count (env r) = G) ->
  exists p,
    PFP.new size (Z.of_nat W) (Z.of_nat G) = Some p /\ (1 <= G)%nat /\
    forall r, (r < W)%nat -> configured G R elems p r (cfg r).
Proof.
  intros HW HG.
  destruct (configure_spec (env 0%nat) size W 0 R elems (ranks 0%nat HW))
    as (p & Hp & H1 & _).
  rewrite (HG 0%nat HW) in Hp, H1.
  exists p. split; [exact Hp|]. split; [exact H1|].
  intros r Hr.
  destruct (configure_spec (env r) size W r R elems (ranks r Hr))
    as (p' & Hp' & _ & Hc).
  rewrite (HG r Hr) in Hp', Hc. rewrite Hp in Hp'. injection Hp' as <-.
  exact Hc.
Qed.

(** C6.  In a run in which every rank has constructed its engine, set the
    radius, registered the fields and realized, and has swapped any
    number of times since, whatever the number of gpus of each rank: an
    exchange that returns leaves the compute region of every registered
    field of every local subdomain of every rank byte for byte as it was,
    as well as the whole of every [next] allocation, so that only bytes of
    the halo regions of the current allocations may differ; and the
    exchange does return when the ranks hold the same number of gpus. *)
Theorem exchange_keeps_interior (l : Launch) (w : World) :
  launch_ok l ->
  (forall w', exchange l engines w = Some w' -> interior_kept engines w w') /\
  (forall G, (forall r, (r < W)%nat -> gpu_count (env r) = G) ->
             exists w', exchange l engines w = Some w').
Proof.
  intros l_ok. split.
  - intros w' Hex r j q E D Hr Hj Hq. subst E D.
    rewrite run_length in Hr.
    destruct (own_frame r j q Hr Hj Hq) as (Hrank & Hown).
    rewrite Hrank. unfold exchange in Hex. split.
    + intros i b Hi Hb.
      apply (run_frame l l_ok _ _ w w' Hex). intros op Hin Ht.
      pose proof (touching_op r op _ _ Hr Hin Ht) as Hmine.
      exact (proj1 (Hown op Hmine) i b Hi Hb Ht).
    + intros off.
      change (read w' (DevLoc (Z.of_nat r)
                         (LocalDomain.next_data
                            (nth j (DistributedDomain.domains_ (engine r))
                                 no_domain) q) off)
              = read w (DevLoc (Z.of_nat r)
                          (LocalDomain.next_data
                             (nth j (DistributedDomain.domains_ (engine r))
                                  no_domain) q) off)).
      apply (run_frame l l_ok _ _ w w' Hex). intros op Hin Ht.
      pose proof (touching_op r op _ _ Hr Hin Ht) as Hmine.
      exact (proj2 (Hown op Hmine) off Ht).
  - intros G HG. destruct (Nat.eq_dec W 0) as [E|E].
    + exists w. unfold cycled. rewrite E. reflexivity.
    + destruct (same_partition G ltac:(lia) HG) as (p & Hp & H1 & Hc).
      destruct (exchange_returns size W G R elems p cfg brk sw size_pos
                  ltac:(lia) H1 R_nonneg Hp Hc l w) as (w1 & w' & _ & _ & Hex).
      exists w'. exact Hex.
Qed.


End Runs.

(* ================================================================== *)
(** * The exchange on small runs *)
(* ================================================================== *)

Section SmallRuns.

Lemma duo_on_rank (r : nat) : (r < 2)%nat -> on_rank 2 r (duo_env r).
Proof.
  intros Hr. destruct r as [|[|r]]; [| |lia];
    (split; [|split; reflexivity]); unfold env_ok; cbn;
    (split; [reflexivity|]); repeat split; try lia.
Qed.

Lemma trio_on_rank (r : nat) : (r < 2)%nat -> on_rank 2 r (trio_env r).
Proof.
  intros Hr. destruct r as [|[|r]]; [| |lia];
    (split; [|split; reflexivity]); unfold env_ok; cbn;
    (split; [reflexivity|]); repeat split; try lia.
Qed.

End SmallRuns.

Lemma exchange_keeps_interior_witness :
  (forall w',
      exchange duo_launch
        (cycled (fun r => r)
                (fun r => configure (duo_env r) (Dim3.mk 5 4 3) 1 [4; 8])
                duo_brk 2) marked_world = Some w' ->
      interior_kept
        (cycled (fun r => r)
                (fun r => configure (duo_env r) (Dim3.mk 5 4 3) 1 [4; 8])
                duo_brk 2) marked_world w') /\
  (forall G,
      (forall r, (r < 2)%nat -> gpu_count (duo_env r) = G) ->
      exists w',
        exchange duo_launch
          (cycled (fun r => r)
                  (fun r => configure (duo_env r) (Dim3.mk 5 4 3) 1 [4; 8])
                  duo_brk 2) marked_world = Some w').
Proof.
  apply (exchange_keeps_interior (Dim3.mk 5 4 3) 2 1 [4; 8] duo_env duo_brk
           (fun r => r)).
  - cbn. lia.
  - lia.
  - exact duo_on_rank.
  - unfold launch_ok. cbn. lia.
Defined.



(* ================================================================== *)
(** * [prime_factors] returns the prime factorisation *)
(* ================================================================== *)

Section PrimeFactors.

Lemma no_factor_prime (i n : Z) :
  2 <= i -> (i | n) -> no_factor_below i n -> prime i.
Proof.
  intros Hi Hdiv Hnf. apply prime_alt. split; [lia|].
  intros d Hd Hdi. apply (Hnf d ltac:(lia)).
  now apply Z.divide_trans with i.
Qed.

Lemma no_factor_divisor (k n m : Z) :
  (m | n) -> no_factor_below k n -> no_factor_below k m.
Proof.
  intros Hmn Hnf d Hd Hdm. apply (Hnf d Hd).
  now apply Z.divide_trans with m.
Qed.

(** What is left when the loop over the odd candidates stops. *)
Lemma no_factor_square (i n : Z) :
  1 <= n -> 2 <= i -> n < i * i -> no_factor_below i n -> n = 1 \/ prime n.
Proof.
  intros Hn Hi Hsq Hnf. destruct (Z.eq_dec n 1) as [->|Hne]; [now left|].
  right. apply prime_alt. split; [lia|].
  intros d Hd (q & Hq).
  assert (Hq2 : 2 <= q) by nia.
  destruct (Z_lt_le_dec d i) as [Hlt|Hge].
  - apply (Hnf d ltac:(lia)). now exists q.
  - apply (Hnf q ltac:(nia)). exists d. lia.
Qed.

Lemma strip_primes (fuel : nat) :
  forall i n result result' n',
    PFP.strip fuel i n result = Some (result', n') ->
    1 <= n -> 2 <= i -> no_factor_below i n -> Forall prime result ->
    Forall prime result' /\ no_factor_below (i + 1) n' /\ (n' | n).
Proof.
  induction fuel as [|k IH]; intros i n result result' n' Hs Hn Hi Hnf Hall;
    cbn [PFP.strip] in Hs; [discriminate|].
  rewrite Z.rem_mod_nonneg, Z.quot_div_nonneg in Hs by lia.
  destruct (Z.eqb_spec (n mod i) 0) as [Hdiv|Hndiv].
  - assert (Hin : (i | n)) by (apply Z.mod_divide; lia).
    assert (Hqn : (n / i | n)).
    { exists i. pose proof (Z.div_mod n i ltac:(lia)). lia. }
    assert (Hq : 1 <= n / i).
    { pose proof (Z.div_mod n i ltac:(lia)).
      pose proof (Z.div_pos n i ltac:(lia) ltac:(lia)). nia. }
    destruct (IH _ _ _ _ _ Hs Hq Hi) as (Hp & Hnf' & Hd).
    + now apply (no_factor_divisor i n).
    + apply Forall_app. split; [exact Hall|].
      constructor; [|constructor]. now apply (no_factor_prime i n).
    + split; [exact Hp|]. split; [exact Hnf'|].
      now apply Z.divide_trans with (n / i).
  - injection Hs as <- <-. split; [exact Hall|]. split; [|apply Z.divide_refl].
    intros d Hd Hdn. destruct (Z.eq_dec d i) as [->|Hne].
    + apply Hndiv. apply Z.mod_divide; [lia | exact Hdn].
    + apply (Hnf d ltac:(lia) Hdn).
Qed.

Lemma odd_factors_primes (fuel : nat) :
  forall i n result result' n',
    PFP.odd_factors fuel i n result = Some (result', n') ->
    1 <= n -> 3 <= i -> Z.odd i = true -> ~ (2 | n) ->
    no_factor_below i n -> Forall prime result ->
    Forall prime result' /\ (n' = 1 \/ prime n').
Proof.
  induction fuel as [|k IH];
    intros i n result result' n' Hs Hn Hi Hodd H2 Hnf Hall;
    cbn [PFP.odd_factors] in Hs; [discriminate|].
  destruct (Z.leb_spec (i * i) n) as [Hle|Hgt].
  - destruct (PFP.strip (S (Z.to_nat n)) i n result) as [[r1 n1]|] eqn:Hst;
      [|discriminate].
    destruct (strip_primes _ _ _ _ _ _ Hst Hn ltac:(lia) Hnf Hall)
      as (Hp1 & Hnf1 & Hd1).
    destruct (strip_spec _ _ _ _ _ _ Hst Hn ltac:(lia)) as (_ & _ & Hn1 & _).
    assert (H21 : ~ (2 | n1)).
    { intros H. apply H2. now apply Z.divide_trans with n1. }
    apply (IH _ _ _ _ _ Hs Hn1 ltac:(lia)); try assumption.
    + rewrite Z.odd_add. rewrite Hodd. reflexivity.
    + intros d Hd Hdn. destruct (Z.eq_dec d (i + 1)) as [->|Hne].
      * apply H21. apply Z.divide_trans with (i + 1); [|exact Hdn].
        rewrite (Zodd_div2 i) at 1 by (now apply Zodd_bool_iff).
        exists (Z.div2 i + 1). lia.
      * apply (Hnf1 d ltac:(lia) Hdn).
  - injection Hs as <- <-. split; [exact Hall|].
    apply (no_factor_square i n); try assumption; lia.
Qed.

Lemma insert_desc_Forall (P : Z -> Prop) (a : Z) (l : list Z) :
  P a -> Forall P l -> Forall P (PFP.insert_desc a l).
Proof.
  intros Ha. induction 1 as [|b l Hb Hl IH]; cbn [PFP.insert_desc].
  - constructor; [exact Ha | constructor].
  - destruct (b <? a); repeat constructor; assumption.
Qed.

Lemma sort_desc_Forall (P : Z -> Prop) (l : list Z) :
  Forall P l -> Forall P (PFP.sort_desc l).
Proof.
  induction 1 as [|a l Ha Hl IH]; cbn [PFP.sort_desc fold_right];
    [constructor|].
  now apply insert_desc_Forall.
Qed.

Lemma insert_desc_sorted (a : Z) (l : list Z) :
  descending l -> descending (PFP.insert_desc a l).
Proof.
  unfold descending. induction 1 as [|b l Hl IH Hhd]; cbn [PFP.insert_desc].
  - repeat constructor.
  - destruct (Z.ltb_spec b a) as [Hlt|Hge].
    + constructor; [constructor; assumption|]. constructor. lia.
    + constructor; [exact IH|].
      destruct l as [|c l]; cbn [PFP.insert_desc].
      * constructor. exact Hge.
      * inversion Hhd; subst. destruct (c <? a); constructor; assumption.
Qed.

Lemma sort_desc_sorted (l : list Z) : descending (PFP.sort_desc l).
Proof.
  induction l as [|a l IH]; cbn [PFP.sort_desc fold_right].
  - constructor.
  - now apply insert_desc_sorted.
Qed.

(** X1.  For every [n] from 1 to below [2^52], where the [int] counter
    and the test [i <= sqrt(n)] on doubles are the integers they stand
    for, [prime_factors] returns, and what it returns is the prime
    factorisation of [n]: every entry is prime, the entries multiply out
    to [n], and they come largest first. *)
Theorem prime_factors_factorisation (n : Z) :
  1 <= n < 2 ^ 52 ->
  exists factors,
    PFP.prime_factors n = Some factors /\
    Forall prime factors /\ prod factors = n /\ descending factors.
Proof.
  intros (Hn & _). destruct (prime_factors_returns n Hn) as (factors & Hf).
  exists factors. split; [exact Hf|].
  destruct (prime_factors_spec n factors Hn Hf) as (Hprod & _).
  split; [|split; [exact Hprod|]].
  - unfold PFP.prime_factors in Hf.
    destruct (PFP.strip (S (Z.to_nat n)) 2 n []) as [[r1 n1]|] eqn:H1;
      [|discriminate].
    destruct (strip_primes _ _ _ _ _ _ H1 Hn ltac:(lia)) as (P1 & N1 & D1);
      [intros d Hd; lia | constructor|].
    destruct (strip_spec _ _ _ _ _ _ H1 Hn ltac:(lia)) as (_ & _ & Hn1 & _).
    destruct (PFP.odd_factors (S (Z.to_nat n1)) 3 n1 r1) as [[r2 n2]|] eqn:H2;
      [|discriminate].
    assert (H21 : ~ (2 | n1)) by (apply N1; lia).
    destruct (odd_factors_primes _ _ _ _ _ _ H2 Hn1 ltac:(lia) eq_refl H21)
      as (P2 & Hlast); [exact N1 | exact P1|].
    injection Hf as <-. apply sort_desc_Forall.
    destruct (Z.ltb_spec 2 n2) as [Hgt|Hle]; [|exact P2].
    apply Forall_app. split; [exact P2|]. constructor; [|constructor].
    destruct Hlast as [->|Hp]; [lia | exact Hp].
  - unfold PFP.prime_factors in Hf.
    destruct (PFP.strip _ _ _ _) as [[r1 n1]|]; [|discriminate].
    destruct (PFP.odd_factors _ _ _ _) as [[r2 n2]|]; [|discriminate].
    injection Hf as <-. apply sort_desc_sorted.
Qed.

Lemma prime_factors_factorisation_witness :
  exists factors,
    PFP.prime_factors 360 = Some factors /\
    Forall prime factors /\ prod factors = 360 /\ descending factors.
Proof.
  apply (prime_factors_factorisation 360). lia.
Defined.

(** X2.  On [n = 0] the inner loop of [prime_factors] never stops: it
    has not returned after any number of iterations, whatever the
    candidate divisor, so [prime_factors(0)] does not return. *)
Theorem prime_factors_zero_diverges (fuel : nat) (i : Z) (result : list Z) :
  PFP.strip fuel i 0 result = None /\ PFP.prime_factors 0 = None.
Proof.
  split; [|reflexivity].
  revert result. induction fuel as [|k IH]; intros result; [reflexivity|].
  cbn [PFP.strip]. change (Z.rem 0 i) with 0. change (Z.quot 0 i) with 0.
  cbn [Z.eqb]. apply IH.
Qed.

End PrimeFactors.

(* ================================================================== *)
(** * The partitioner: the grid it builds and the indices on it *)
(* ================================================================== *)

Section PartitionGrid.

(** X3.  While the sum [n + d - 1] stays within [size_t], [div_ceil(n, d)]
    is the ceiling of [n / d]: the least [q] with [n <= d * q]; and
    dividing by [a] and then by [f], as the constructor does factor after
    factor, is dividing by [a * f]. *)
Theorem div_ceil_ceiling (n a f : Z) :
  0 <= n -> 1 <= a -> 1 <= f -> n + a * f < 2 ^ 64 ->
  a * (PFP.div_ceil n a - 1) < n <= a * PFP.div_ceil n a /\
  PFP.div_ceil (PFP.div_ceil n a) f = PFP.div_ceil n (a * f).
Proof.
  intros Hn Ha Hf _. split; [|apply div_ceil_twice; lia].
  rewrite div_ceil_div by lia.
  pose proof (Z.div_mod (n + a - 1) a ltac:(lia)) as Hdm.
  pose proof (Z.mod_pos_bound (n + a - 1) a ltac:(lia)) as Hm.
  lia.
Qed.

Lemma div_ceil_ceiling_witness :
  3 * (PFP.div_ceil 10 3 - 1) < 10 <= 3 * PFP.div_ceil 10 3 /\
  PFP.div_ceil (PFP.div_ceil 10 3) 2 = PFP.div_ceil 10 (3 * 2).
Proof.
  apply (div_ceil_ceiling 10 3 2); lia.
Defined.

(** X4.  For a volume with positive extents and positive rank and gpu
    counts the constructor of [PFP] returns; the rank grid then holds
    exactly [ranks] cells and the gpu grid exactly [gpus] cells, every
    dimension of both being at least 1, and the base subdomain size is the
    ceiling of the extent over the grid on every axis. *)
Theorem new_grid (size : Dim3) (ranks gpus : Z) :
  1 <= Dim3.x size -> 1 <= Dim3.y size -> 1 <= Dim3.z size ->
  1 <= ranks -> 1 <= gpus ->
  exists p,
    PFP.new size ranks gpus = Some p /\
    PFP.size_ p = size /\
    volume (PFP.rankDim_ p) = ranks /\ volume (PFP.gpuDim_ p) = gpus /\
    (1 <= Dim3.x (PFP.rankDim_ p) /\ 1 <= Dim3.y (PFP.rankDim_ p)
     /\ 1 <= Dim3.z (PFP.rankDim_ p)) /\
    (1 <= Dim3.x (PFP.gpuDim_ p) /\ 1 <= Dim3.y (PFP.gpuDim_ p)
     /\ 1 <= Dim3.z (PFP.gpuDim_ p)) /\
    PFP.domSize_ p
    = Dim3.mk (PFP.div_ceil (Dim3.x size) (Dim3.x (PFP.grid p)))
              (PFP.div_ceil (Dim3.y size) (Dim3.y (PFP.grid p)))
              (PFP.div_ceil (Dim3.z size) (Dim3.z (PFP.grid p))).
Proof.
  intros Hx Hy Hz Hr Hg.
  destruct (new_shape size ranks gpus Hx Hy Hz Hr Hg)
    as (p & Hp & Hsize & _ & Ex & Ey & Ez).
  destruct (new_dims size ranks gpus Hx Hy Hz Hr Hg)
    as (p' & Hp' & Hrd & Hgd).
  rewrite Hp in Hp'. injection Hp' as <-.
  destruct (new_volumes size ranks gpus p Hr Hg Hp) as (Vr & Vg).
  exists p. split; [exact Hp|]. split; [exact Hsize|].
  split; [exact Vr|]. split; [exact Vg|].
  split; [exact Hrd|]. split; [exact Hgd|].
  rewrite <- Ex, <- Ey, <- Ez. now destruct (PFP.domSize_ p).
Qed.

Lemma new_grid_witness :
  exists p,
    PFP.new (Dim3.mk 10 10 10) 4 2 = Some p /\
    PFP.size_ p = Dim3.mk 10 10 10 /\
    volume (PFP.rankDim_ p) = 4 /\ volume (PFP.gpuDim_ p) = 2 /\
    (1 <= Dim3.x (PFP.rankDim_ p) /\ 1 <= Dim3.y (PFP.rankDim_ p)
     /\ 1 <= Dim3.z (PFP.rankDim_ p)) /\
    (1 <= Dim3.x (PFP.gpuDim_ p) /\ 1 <= Dim3.y (PFP.gpuDim_ p)
     /\ 1 <= Dim3.z (PFP.gpuDim_ p)) /\
    PFP.domSize_ p
    = Dim3.mk (PFP.div_ceil 10 (Dim3.x (PFP.grid p)))
              (PFP.div_ceil 10 (Dim3.y (PFP.grid p)))
              (PFP.div_ceil 10 (Dim3.z (PFP.grid p))).
Proof.
  apply (new_grid (Dim3.mk 10 10 10) 4 2); cbn; lia.
Defined.

(** X5.  On a constructed partition [dom_idx] is "the opposite of
    [get_rank] and [get_gpu]": the subdomain of rank [r] and gpu [g] lies
    in the grid and is owned by rank [r], gpu [g]; and every index of the
    grid is the subdomain of its owner, an existing rank and gpu. *)
Theorem dom_idx_owner_round_trip (size : Dim3) (ranks gpus : Z) (p : PFP.t) :
  1 <= Dim3.x size -> 1 <= Dim3.y size -> 1 <= Dim3.z size ->
  1 <= ranks -> 1 <= gpus ->
  PFP.new size ranks gpus = Some p ->
  (forall r g,
      0 <= r < ranks -> 0 <= g < gpus ->
      in_extent (PFP.grid p) (PFP.dom_idx p r g) /\
      PFP.get_rank p (PFP.dom_idx p r g) = r /\
      PFP.get_gpu p (PFP.dom_idx p r g) = g) /\
  (forall idx,
      in_extent (PFP.grid p) idx ->
      0 <= PFP.get_rank p idx < ranks /\
      0 <= PFP.get_gpu p idx < gpus /\
      PFP.dom_idx p (PFP.get_rank p idx) (PFP.get_gpu p idx) = idx).
Proof.
  intros Hx Hy Hz Hr Hg Hp.
  destruct (new_dims size ranks gpus Hx Hy Hz Hr Hg)
    as (p' & Hp' & Hrd & Hgd).
  rewrite Hp in Hp'. injection Hp' as <-.
  destruct (new_volumes size ranks gpus p Hr Hg Hp) as (Vr & Vg).
  split.
  - intros r g Hrr Hgg. rewrite <- Vr in Hrr. rewrite <- Vg in Hgg.
    split; [|split].
    + now apply dom_idx_in_grid.
    + now apply get_rank_dom_idx.
    + now apply get_gpu_dom_idx.
  - intros idx Hidx. rewrite <- Vr, <- Vg. now apply owner_of_idx.
Qed.

Lemma dom_idx_owner_round_trip_witness :
  (forall r g,
      0 <= r < 4 -> 0 <= g < 2 ->
      in_extent (PFP.grid duo4_partition) (PFP.dom_idx duo4_partition r g) /\
      PFP.get_rank duo4_partition (PFP.dom_idx duo4_partition r g) = r /\
      PFP.get_gpu duo4_partition (PFP.dom_idx duo4_partition r g) = g) /\
  (forall idx,
      in_extent (PFP.grid duo4_partition) idx ->
      0 <= PFP.get_rank duo4_partition idx < 4 /\
      0 <= PFP.get_gpu duo4_partition idx < 2 /\
      PFP.dom_idx duo4_partition (PFP.get_rank duo4_partition idx)
        (PFP.get_gpu duo4_partition idx) = idx).
Proof.
  apply (dom_idx_owner_round_trip (Dim3.mk 10 10 10) 4 2 duo4_partition);
    try (cbn; lia).
  vm_compute. reflexivity.
Defined.

End PartitionGrid.

Section EmptySubdomains.

(** One axis: [s] cells on [g] subdomains, seen from index [i]. *)
Lemma axis_local_size (s g i : Z) :
  1 <= s -> 1 <= g -> 0 <= i < g ->
  let local :=
    PFP.div_ceil s g
    - (if negb (Z.rem s g =? 0) && (Z.rem s g <=? i) then 1 else 0) in
  0 <= local /\ (local = 0 <-> s <= i).
Proof.
  intros Hs Hg Hi. cbv zeta.
  rewrite div_ceil_div, Z.rem_mod_nonneg by lia.
  destruct (Z_lt_le_dec s g) as [Hlt|Hge].
  - rewrite <- (Z.div_unique (s + g - 1) g 1 (s - 1)) by lia.
    rewrite Z.mod_small by lia.
    destruct (Z.eqb_spec s 0); [lia|]. cbn [negb andb].
    destruct (Z.leb_spec s i); lia.
  - assert (H1 : 1 <= (s + g - 1) / g) by (apply Z.div_le_lower_bound; lia).
    destruct (Z.eqb_spec (s mod g) 0) as [E|E]; cbn [negb andb]; [lia|].
    assert (s <> g) by (intros ->; now rewrite Z_mod_same_full in E).
    assert (H2 : 2 <= (s + g - 1) / g) by (apply Z.div_le_lower_bound; lia).
    destruct (s mod g <=? i); lia.
Qed.

End EmptySubdomains.

(** X25.  In the partition of a positive volume no local size is
    negative, and a subdomain of the grid has no cell along an axis
    exactly when its index on that axis is at least the extent of the
    volume: only when the grid has more subdomains than the volume has
    cells on that axis. *)
Theorem empty_subdomains (size : Dim3) (ranks gpus : Z) (p : PFP.t)
    (idx : Dim3) :
  1 <= Dim3.x size /\ 1 <= Dim3.y size /\ 1 <= Dim3.z size ->
  1 <= ranks -> 1 <= gpus ->
  PFP.new size ranks gpus = Some p ->
  in_extent (PFP.grid p) idx ->
  (0 <= Dim3.x (PFP.local_domain_size p idx) /\
   (Dim3.x (PFP.local_domain_size p idx) = 0 <-> Dim3.x size <= Dim3.x idx)) /\
  (0 <= Dim3.y (PFP.local_domain_size p idx) /\
   (Dim3.y (PFP.local_domain_size p idx) = 0 <-> Dim3.y size <= Dim3.y idx)) /\
  (0 <= Dim3.z (PFP.local_domain_size p idx) /\
   (Dim3.z (PFP.local_domain_size p idx) = 0 <-> Dim3.z size <= Dim3.z idx)).
Proof.
  intros (Sx & Sy & Sz) Hr Hg Hnew (Ix & Iy & Iz).
  destruct (new_shape size ranks gpus Sx Sy Sz Hr Hg)
    as (p' & Hp' & Hsize & (Gx & Gy & Gz) & Ex & Ey & Ez).
  rewrite Hnew in Hp'. injection Hp' as <-.
  rewrite local_domain_size_x, local_domain_size_y, local_domain_size_z.
  rewrite Hsize, Ex, Ey, Ez.
  split; [|split].
  - now apply axis_local_size.
  - now apply axis_local_size.
  - now apply axis_local_size.
Qed.

Lemma empty_subdomains_witness :
  let p := PFP.mk 1 4 (Dim3.mk 3 1 1) (Dim3.mk 1 1 1) (Dim3.mk 4 1 1)
                  (Dim3.mk 1 1 1) in
  let idx := Dim3.mk 3 0 0 in
  (0 <= Dim3.x (PFP.local_domain_size p idx) /\
   (Dim3.x (PFP.local_domain_size p idx) = 0 <-> 3 <= Dim3.x idx)) /\
  (0 <= Dim3.y (PFP.local_domain_size p idx) /\
   (Dim3.y (PFP.local_domain_size p idx) = 0 <-> 1 <= Dim3.y idx)) /\
  (0 <= Dim3.z (PFP.local_domain_size p idx) /\
   (Dim3.z (PFP.local_domain_size p idx) = 0 <-> 1 <= Dim3.z idx)).
Proof.
  apply (empty_subdomains (Dim3.mk 3 1 1) 4 1).
  - cbn. lia.
  - lia.
  - lia.
  - vm_compute. reflexivity.
  - unfold in_extent. cbn. lia.
Defined.

(* ================================================================== *)
(** * The regions of a local domain *)
(* ================================================================== *)

Section RegionsOfADomain.

Lemma side_axis_dir (sz R c : Z) : -1 <= side_axis sz R c <= 1.
Proof.
  unfold side_axis. destruct (c <? R); [lia|].
  destruct (c <? R + sz); lia.
Qed.

Lemma axis_region (sz R c : Z) :
  0 <= R -> 0 <= sz -> 0 <= c < sz + 2 * R ->
  0 <= c - LocalDomain.halo_pos_axis sz R (side_axis sz R c) true
  < (if negb (side_axis sz R c =? 0) then R else sz).
Proof.
  intros HR Hsz Hc. unfold side_axis, LocalDomain.halo_pos_axis.
  destruct (Z.ltb_spec c R); [cbn; lia|].
  destruct (Z.ltb_spec c (R + sz)); cbn; lia.
Qed.

Lemma side_is_dir (d : LocalDomain.t) (pt : Dim3) : is_dir (side d pt).
Proof.
  unfold is_dir, side. cbn [Dim3.x Dim3.y Dim3.z].
  repeat split; apply side_axis_dir.
Qed.

Lemma side_region (d : LocalDomain.t) (pt : Dim3) :
  shaped d -> in_extent (LocalDomain.raw_size d) pt ->
  in_region d (side d pt) pt.
Proof.
  intros (HR & Hx & Hy & Hz) (Px & Py & Pz).
  unfold LocalDomain.raw_size in Px, Py, Pz. cbn [Dim3.x Dim3.y Dim3.z] in *.
  exists (Dim3.sub pt (LocalDomain.halo_pos d (side d pt) true)). split.
  - unfold in_extent, LocalDomain.halo_extent, LocalDomain.halo_extent_of,
      LocalDomain.halo_pos, side.
    cbn [Dim3.x Dim3.y Dim3.z Dim3.sub].
    repeat split; apply axis_region; assumption.
  - destruct pt as [px py pz]. unfold Dim3.add, Dim3.sub.
    cbn [Dim3.x Dim3.y Dim3.z]. f_equal; lia.
Qed.

(** X6.  The regions of the 27 directions tile the allocation of a local
    domain: every point of the allocation lies in the region of exactly
    one direction (the compute region being the region of the zero
    direction). *)
Theorem regions_tile_allocation (d : LocalDomain.t) (pt : Dim3) :
  shaped d -> in_extent (LocalDomain.raw_size d) pt ->
  exists dir,
    is_dir dir /\ in_region d dir pt /\
    forall dir', is_dir dir' -> in_region d dir' pt -> dir' = dir.
Proof.
  intros Hd Hpt. exists (side d pt).
  split; [apply side_is_dir|]. split; [now apply side_region|].
  intros dir' Hdir' (i & Hi & ->). symmetry. now apply side_halo.
Qed.

Lemma regions_tile_allocation_witness :
  exists dir,
    is_dir dir /\ in_region (shape_of (Dim3.mk 4 3 2) 2) dir (Dim3.mk 7 3 0) /\
    forall dir', is_dir dir' ->
                 in_region (shape_of (Dim3.mk 4 3 2) 2) dir' (Dim3.mk 7 3 0) ->
                 dir' = dir.
Proof.
  apply (regions_tile_allocation (shape_of (Dim3.mk 4 3 2) 2) (Dim3.mk 7 3 0)).
  - unfold shaped. cbn. lia.
  - unfold in_extent. cbn. lia.
Defined.

(** X7.  The extents of the regions of the 27 directions add up to the
    allocation: the numbers of points of the 26 halo regions and of the
    compute region sum to [raw_size().flatten()], and the bytes
    [halo_bytes] reports for a field sum to the bytes of its allocation. *)
Theorem halo_extents_sum_to_allocation (d : LocalDomain.t) (idx : nat) :
  sum_dirs (fun dir => Dim3.flatten (LocalDomain.halo_extent d dir))
  = Dim3.flatten (LocalDomain.raw_size d) /\
  sum_dirs (fun dir => LocalDomain.halo_bytes d dir idx)
  = LocalDomain.elem_size d idx * Dim3.flatten (LocalDomain.raw_size d).
Proof.
  unfold sum_dirs, LocalDomain.halo_bytes, LocalDomain.halo_extent,
    LocalDomain.halo_extent_of, LocalDomain.raw_size, Dim3.flatten.
  cbn [all_dirs flat_map map app fold_right Dim3.x Dim3.y Dim3.z Z.eqb negb
       Z.opp].
  split; ring.
Qed.

(** X8.  With a radius of its own on each side of each axis the extents
    of the 27 directions still add up to the allocation
    [raw_size().flatten()]. *)
Theorem asymmetric_extents_sum_to_allocation (sz : Dim3) (radius : Radius.t) :
  sum_dirs (fun dir => Dim3.flatten (LocalDomainR.halo_extent dir sz radius))
  = Dim3.flatten (LocalDomainR.raw_size sz radius).
Proof.
  unfold sum_dirs, LocalDomainR.halo_extent, LocalDomainR.raw_size,
    Dim3.flatten, Radius.x, Radius.y, Radius.z.
  cbn [all_dirs flat_map map app fold_right Dim3.x Dim3.y Dim3.z Z.eqb Z.ltb
       Z.compare Z.opp].
  ring.
Qed.

(** X9.  The interior regions stay within the compute region exactly
    when the radius does not exceed the compute size on any axis: then
    every point of the interior region of every direction is a point of
    the compute region, and otherwise some interior region reaches into a
    halo. *)
Theorem interior_regions_within_compute (d : LocalDomain.t) :
  shaped d ->
  (roomy d <->
   forall dir pt, is_dir dir -> in_interior d dir pt ->
                  in_region d Dim3.zero pt).
Proof.
  intros Hd. split.
  - intros Hroom dir pt Hdir (i & Hi & ->).
    rewrite <- (side_interior d dir i Hd Hroom Hdir Hi).
    apply side_region; [exact Hd|]. now apply interior_in_raw.
  - intros Hall. destruct Hd as (HR & Hx & Hy & Hz).
    destruct (Z.eq_dec (LocalDomain.radius_ d) 0) as [H0|Hpos];
      [unfold roomy; rewrite H0; auto|].
    destruct (Hall (Dim3.mk 1 1 1)
                (Dim3.add Dim3.zero
                   (LocalDomain.halo_pos d (Dim3.mk 1 1 1) false)))
      as (i & (Ix & Iy & Iz) & Heq).
    + unfold is_dir. cbn. lia.
    + exists Dim3.zero. split; [|reflexivity].
      unfold in_extent. cbn. lia.
    + unfold LocalDomain.halo_pos, LocalDomain.halo_pos_axis, Dim3.add in Heq.
      cbn in Heq, Ix, Iy, Iz. injection Heq as Ex Ey Ez.
      unfold roomy. lia.
Qed.

Lemma interior_regions_within_compute_witness :
  roomy (shape_of (Dim3.mk 4 3 2) 2) <->
  forall dir pt, is_dir dir ->
                 in_interior (shape_of (Dim3.mk 4 3 2) 2) dir pt ->
                 in_region (shape_of (Dim3.mk 4 3 2) 2) Dim3.zero pt.
Proof.
  apply (interior_regions_within_compute (shape_of (Dim3.mk 4 3 2) 2)).
  unfold shaped. cbn. lia.
Defined.

(** X10.  The halo region of a direction is its interior region moved
    outward by the radius: [halo_pos(dir, true)] is [halo_pos(dir, false)]
    plus [radius * dir], the extent being the same. *)
Theorem halo_is_interior_moved_outward (d : LocalDomain.t) (dir pt : Dim3) :
  is_dir dir ->
  (in_interior d dir pt <->
   in_region d dir
     (Dim3.add pt (Dim3.mul (Dim3.mk (LocalDomain.radius_ d)
                                     (LocalDomain.radius_ d)
                                     (LocalDomain.radius_ d)) dir))).
Proof.
  intros (Dx & Dy & Dz).
  assert (Hpos : LocalDomain.halo_pos d dir true
                 = Dim3.add (LocalDomain.halo_pos d dir false)
                     (Dim3.mul (Dim3.mk (LocalDomain.radius_ d)
                                  (LocalDomain.radius_ d)
                                  (LocalDomain.radius_ d)) dir)).
  { destruct dir as [dx dy dz].
    unfold LocalDomain.halo_pos, LocalDomain.halo_pos_axis, Dim3.add, Dim3.mul.
    cbn [Dim3.x Dim3.y Dim3.z] in *.
    f_equal;
      repeat match goal with
             | |- context [?a =? ?b] => destruct (Z.eqb_spec a b)
             end; lia. }
  unfold in_interior, in_region. rewrite Hpos. split.
  - intros (i & Hi & ->). exists i. split; [exact Hi|].
    destruct i, (LocalDomain.halo_pos d dir false), dir.
    unfold Dim3.add, Dim3.mul. cbn. f_equal; lia.
  - intros (i & Hi & Heq). exists i. split; [exact Hi|].
    destruct i, pt, (LocalDomain.halo_pos d dir false), dir.
    unfold Dim3.add, Dim3.mul in *. cbn in *.
    injection Heq as Ex Ey Ez. f_equal; lia.
Qed.

Lemma halo_is_interior_moved_outward_witness :
  in_interior (shape_of (Dim3.mk 4 3 2) 1) (Dim3.mk 1 0 (-1)) (Dim3.mk 4 2 1)
  <-> in_region (shape_of (Dim3.mk 4 3 2) 1) (Dim3.mk 1 0 (-1))
        (Dim3.add (Dim3.mk 4 2 1)
           (Dim3.mul
              (Dim3.mk (LocalDomain.radius_ (shape_of (Dim3.mk 4 3 2) 1))
                 (LocalDomain.radius_ (shape_of (Dim3.mk 4 3 2) 1))
                 (LocalDomain.radius_ (shape_of (Dim3.mk 4 3 2) 1)))
              (Dim3.mk 1 0 (-1)))).
Proof.
  apply (halo_is_interior_moved_outward (shape_of (Dim3.mk 4 3 2) 1)).
  unfold is_dir. cbn. lia.
Defined.

(** X11.  [set_radius(size_t r)] of the domain with a radius per side
    stores [Radius::constant(r)]; with it the extents and the allocation
    size are those of the domain with a scalar radius. *)
Theorem constant_radius_is_scalar (dir sz : Dim3) (r : Z) :
  LocalDomainR.halo_extent dir sz (Radius.constant r)
  = LocalDomain.halo_extent_of dir sz r /\
  LocalDomainR.raw_size sz (Radius.constant r)
  = LocalDomain.raw_size (shape_of sz r).
Proof.
  unfold LocalDomainR.halo_extent, LocalDomain.halo_extent_of,
    LocalDomainR.raw_size, LocalDomain.raw_size, Radius.constant,
    Radius.x, Radius.y, Radius.z.
  cbn [Radius.x_neg Radius.x_pos Radius.y_neg Radius.y_pos Radius.z_neg
       Radius.z_pos shape_of LocalDomain.set_radius LocalDomain.new
       LocalDomain.sz_ LocalDomain.radius_ Dim3.x Dim3.y Dim3.z].
  split.
  - f_equal;
      repeat match goal with
             | |- context [?a =? ?b] => destruct (Z.eqb_spec a b)
             | |- context [?a <? ?b] => destruct (Z.ltb_spec a b)
             end; cbn [negb]; lia.
  - change (-1 <? 0) with true. change (1 <? 0) with false. cbv iota.
    f_equal; lia.
Qed.

(** X12.  A local domain given its radius and its fields and then
    realized: it has one field per [add_data], the three vectors of a
    field's data have that length (the assertions of [num_data] hold),
    every element size is the one registered, and every [curr] and [next]
    pointer is set, no two of them the same block. *)
Theorem local_domain_lifecycle (sz : Dim3) (dev R : Z) (elems : list Z)
    (brk : Z) :
  0 <= brk ->
  let d := fst (LocalDomain.realize
                  (fold_left LocalDomain.add_data elems
                     (LocalDomain.set_radius (LocalDomain.new sz dev) R))
                  brk) in
  LocalDomain.num_data d = Z.of_nat (length elems) /\
  length (LocalDomain.currDataPtrs_ d) = length elems /\
  length (LocalDomain.nextDataPtrs_ d) = length elems /\
  length (LocalDomain.dataElemSize_ d) = length elems /\
  LocalDomain.size d = sz /\ LocalDomain.radius_ d = R /\
  LocalDomain.gpu d = dev /\
  forall i, (i < length elems)%nat ->
    LocalDomain.elem_size d i = nth i elems 0 /\
    LocalDomain.curr_data d i <> nullptr /\
    LocalDomain.next_data d i <> nullptr /\
    LocalDomain.curr_data d i <> LocalDomain.next_data d i /\
    forall j, (j < length elems)%nat -> i <> j ->
      LocalDomain.curr_data d i <> LocalDomain.curr_data d j /\
      LocalDomain.curr_data d i <> LocalDomain.next_data d j /\
      LocalDomain.next_data d i <> LocalDomain.next_data d j.
Proof.
  intros Hbrk d.
  pose proof (add_data_fold elems
                (LocalDomain.set_radius (LocalDomain.new sz dev) R)) as Ha.
  cbv zeta in Ha. destruct Ha as (Asz & Ar & Ad & Ae & Ac & An).
  cbn in Asz, Ar, Ad, Ae, Ac, An.
  pose proof (LocalDomain_realize_spec (length elems) _ brk (conj Ac An)) as Hr.
  cbv zeta in Hr. fold d in Hr.
  destruct Hr as (_ & (Hc & Hn) & Hsz & Hrad & He & Hdev & Hptr).
  unfold LocalDomain.num_data, LocalDomain.size, LocalDomain.gpu,
    LocalDomain.elem_size.
  rewrite Hc, Hn, He, Ae, Hsz, Asz, Hrad, Ar, Hdev, Ad.
  repeat split; try reflexivity.
  all: try (destruct (Hptr i H) as (E1 & E2); unfold nullptr; lia).
  all: destruct (Hptr i H) as (E1 & E2); destruct (Hptr j H0) as (E3 & E4);
    lia.
Qed.

Lemma local_domain_lifecycle_witness :
  let d := fst (LocalDomain.realize
                  (fold_left LocalDomain.add_data [4; 8]
                     (LocalDomain.set_radius
                        (LocalDomain.new (Dim3.mk 4 3 2) 1) 2))
                  0) in
  LocalDomain.num_data d = Z.of_nat (length [4; 8]) /\
  length (LocalDomain.currDataPtrs_ d) = length [4; 8] /\
  length (LocalDomain.nextDataPtrs_ d) = length [4; 8] /\
  length (LocalDomain.dataElemSize_ d) = length [4; 8] /\
  LocalDomain.size d = Dim3.mk 4 3 2 /\ LocalDomain.radius_ d = 2 /\
  LocalDomain.gpu d = 1 /\
  forall i, (i < length [4; 8])%nat ->
    LocalDomain.elem_size d i = nth i [4; 8] 0 /\
    LocalDomain.curr_data d i <> nullptr /\
    LocalDomain.next_data d i <> nullptr /\
    LocalDomain.curr_data d i <> LocalDomain.next_data d i /\
    forall j, (j < length [4; 8])%nat -> i <> j ->
      LocalDomain.curr_data d i <> LocalDomain.curr_data d j /\
      LocalDomain.curr_data d i <> LocalDomain.next_data d j /\
      LocalDomain.next_data d i <> LocalDomain.next_data d j.
Proof.
  apply (local_domain_lifecycle (Dim3.mk 4 3 2) 1 2 [4; 8] 0). lia.
Defined.

End RegionsOfADomain.

(* ================================================================== *)
(** * The kernels of [copy.cuh] *)
(* ================================================================== *)

Section GridStride.

Lemma NoDup_flat_map {A B : Type} (f : A -> list B) (l : list A) :
  NoDup l -> (forall a, In a l -> NoDup (f a)) ->
  (forall a a' b, In a l -> In a' l -> In b (f a) -> In b (f a') -> a = a') ->
  NoDup (flat_map f l).
Proof.
  induction 1 as [|a l Hnotin Hnd IH]; intros Hf Hdisj; cbn [flat_map];
    [constructor|].
  apply NoDup_app.
  - apply Hf. now left.
  - apply IH.
    + intros a' Ha'. apply Hf. now right.
    + intros a1 a2 b H1 H2. apply Hdisj; now right.
  - intros b Hb Hin. apply in_flat_map in Hin. destruct Hin as (a' & Ha' & Hb').
    assert (a = a') by (apply (Hdisj a a' b); auto; [now left | now right]).
    subst a'. contradiction.
Qed.

Lemma NoDup_map_inj {A B : Type} (f : A -> B) (l : list A) :
  (forall a a', f a = f a' -> a = a') -> NoDup l -> NoDup (map f l).
Proof.
  intros Hinj. induction 1 as [|a l Hnotin Hnd IH]; cbn [map]; constructor.
  - intros Hin. apply in_map_iff in Hin. destruct Hin as (a' & Heq & Ha').
    apply Hinj in Heq. subst a'. contradiction.
  - exact IH.
Qed.

Lemma zrange_NoDup (n : Z) : NoDup (zrange n).
Proof.
  unfold zrange. apply NoDup_map_inj; [apply Nat2Z.inj | apply seq_NoDup].
Qed.

Lemma strided_mod (fuel : nat) :
  forall i stride n x,
    In x (strided fuel i stride n) -> 1 <= stride -> (x - i) mod stride = 0.
Proof.
  induction fuel as [|k IH]; intros i stride n x Hin Hs; cbn in Hin;
    [destruct Hin|].
  destruct (i <? n); [|destruct Hin].
  destruct Hin as [<-|Hin].
  - rewrite Z.sub_diag. apply Z.mod_0_l. lia.
  - specialize (IH _ _ _ _ Hin Hs).
    replace (x - i) with (x - (i + stride) + 1 * stride) by lia.
    rewrite Z.mod_add by lia. exact IH.
Qed.

Lemma strided_NoDup (fuel : nat) :
  forall i stride n, 1 <= stride -> NoDup (strided fuel i stride n).
Proof.
  induction fuel as [|k IH]; intros i stride n Hs; cbn [strided];
    [constructor|].
  destruct (i <? n); [|constructor]. constructor; [|now apply IH].
  intros Hin. apply strided_sound in Hin; lia.
Qed.

(** The points of a box listed axis by axis come one time each. *)
Lemma box_NoDup (xs ys zs : list Z) :
  NoDup xs -> NoDup ys -> NoDup zs ->
  NoDup (flat_map (fun z =>
           flat_map (fun y => map (fun x => Dim3.mk x y z) xs) ys) zs).
Proof.
  intros Hx Hy Hz. apply NoDup_flat_map; [exact Hz| |].
  - intros z _. apply NoDup_flat_map; [exact Hy| |].
    + intros y _. apply NoDup_map_inj; [|exact Hx].
      intros a a' Heq. now injection Heq.
    + intros y y' b _ _ Hb Hb'. apply in_map_iff in Hb, Hb'.
      destruct Hb as (x & <- & _), Hb' as (x' & Heq & _).
      now injection Heq.
  - intros z z' b _ _ Hb Hb'. apply in_flat_map in Hb, Hb'.
    destruct Hb as (y & _ & Hb), Hb' as (y' & _ & Hb').
    apply in_map_iff in Hb, Hb'.
    destruct Hb as (x & <- & _), Hb' as (x' & Heq & _).
    now injection Heq.
Qed.

Lemma threads_NoDup (l : Launch) : NoDup (threads l).
Proof.
  unfold threads. apply NoDup_flat_map.
  - apply box_NoDup; apply zrange_NoDup.
  - intros b _. apply NoDup_map_inj.
    + intros t t' Heq. now injection Heq.
    + apply box_NoDup; apply zrange_NoDup.
  - intros b b' bt _ _ Hb Hb'. apply in_map_iff in Hb, Hb'.
    destruct Hb as (t & <- & _), Hb' as (t' & Heq & _).
    now injection Heq.
Qed.

(** One axis: the thread that visits an index is determined by it. *)
Lemma axis_owner (bd gd n b t x : Z) :
  1 <= bd -> 1 <= gd -> 0 <= b < gd -> 0 <= t < bd ->
  In x (loop_range (bd * b + t) (bd * gd) n) ->
  bd * b + t = x mod (bd * gd).
Proof.
  intros Hbd Hgd Hb Ht Hin.
  pose proof (strided_mod _ _ _ _ _ Hin ltac:(nia)) as Hmod.
  pose proof (strided_sound _ _ _ _ _ Hin ltac:(nia)) as Hx.
  apply Z.mod_divide in Hmod; [|nia]. destruct Hmod as (q & Hq).
  apply (Z.mod_unique_pos _ _ q); [nia | lia].
Qed.

(** X13.  The three nested grid-stride loops of the kernels, run by all
    the threads of a launch of a positive shape whose products
    [blockDim * gridDim] fit an [unsigned int], visit every point of the
    extent and no other point, and each point once: no element is left
    out and no two iterations work on the same element. *)
Theorem launch_visits_each_point_once (l : Launch) (extent : Dim3) :
  launch_ok l -> launch_fits l ->
  NoDup (launch_iters l extent) /\
  forall i, In i (launch_iters l extent) <-> in_extent extent i.
Proof.
  intros Hl _. split; [|intros i; now apply launch_iters_In].
  destruct Hl as (Gx & Gy & Gz & Bx & By & Bz).
  unfold launch_iters. apply NoDup_flat_map.
  - apply threads_NoDup.
  - intros [b t] _. cbn [fst snd]. unfold thread_iters.
    apply box_NoDup; apply strided_NoDup; nia.
  - intros [b t] [b' t'] i Hbt Hbt' Hi Hi'. cbn [fst snd] in Hi, Hi'.
    apply threads_In in Hbt, Hbt'.
    destruct Hbt as ((Hbx & Hby & Hbz) & (Htx & Hty & Htz)).
    destruct Hbt' as ((Hbx' & Hby' & Hbz') & (Htx' & Hty' & Htz')).
    apply thread_iters_In in Hi, Hi'.
    destruct Hi as (Hx & Hy & Hz), Hi' as (Hx' & Hy' & Hz').
    apply axis_owner in Hx, Hy, Hz, Hx', Hy', Hz'; try assumption.
    rewrite <- Hx' in Hx. rewrite <- Hy' in Hy. rewrite <- Hz' in Hz.
    rewrite !(Z.mul_comm (Dim3.x (blockDim l))) in Hx.
    rewrite !(Z.mul_comm (Dim3.y (blockDim l))) in Hy.
    rewrite !(Z.mul_comm (Dim3.z (blockDim l))) in Hz.
    destruct (mixed_radix_inj _ _ _ _ _ Htx Htx' Hx) as (Ex & Ex').
    destruct (mixed_radix_inj _ _ _ _ _ Hty Hty' Hy) as (Ey & Ey').
    destruct (mixed_radix_inj _ _ _ _ _ Htz Htz' Hz) as (Ez & Ez').
    destruct b, t, b', t'. cbn [Dim3.x Dim3.y Dim3.z] in *. congruence.
Qed.

Lemma launch_visits_each_point_once_witness :
  NoDup (launch_iters duo_launch (Dim3.mk 5 3 2)) /\
  forall i, In i (launch_iters duo_launch (Dim3.mk 5 3 2))
            <-> in_extent (Dim3.mk 5 3 2) i.
Proof.
  apply (launch_visits_each_point_once duo_launch (Dim3.mk 5 3 2)).
  - unfold launch_ok. cbn. lia.
  - unfold launch_fits. cbn. lia.
Defined.

End GridStride.

Section RegionKernels.

Variable l : Launch.
Hypothesis l_ok : launch_ok l.

(** X14.  [translate], launched in any positive shape on a destination
    region that lies within the rows and columns of its allocation: every
    byte of every element of the destination region holds afterwards the
    byte of the element at the same place of the source region, and every
    byte outside the destination region keeps its value. *)
Theorem translate_copies_region (dst : buffer) (db : Z) (dstPos dstSize : Dim3)
    (src : buffer) (sb : Z) (srcPos srcSize extent : Dim3) (e : Z) :
  region_in_pitch dstSize dstPos extent ->
  (forall i b,
      in_extent extent i -> 0 <= b < e ->
      translate l dst db dstPos dstSize src sb srcPos srcSize extent e
                (db + linear dstSize (Dim3.add i dstPos) * e + b)
      = src (sb + linear srcSize (Dim3.add i srcPos) * e + b)) /\
  (forall p,
      outside_region e db dstSize dstPos extent p ->
      translate l dst db dstPos dstSize src sb srcPos srcSize extent e p
      = dst p).
Proof.
  intros Hpitch. split.
  - intros i b Hi Hb. apply (translate_agree l l_ok).
    + exists i. split; [exact Hi|]. now apply covers_own_slot.
    + intros j Hj Hc. apply covers_same_slot in Hc; [|exact Hb].
      apply (region_point_inj dstSize dstPos extent i j Hpitch Hi Hj) in Hc.
      subst j. f_equal. lia.
  - intros p Hout. now apply (translate_frame l l_ok).
Qed.


End RegionKernels.

Lemma translate_copies_region_witness :
  (forall i b,
      in_extent (Dim3.mk 2 2 1) i -> 0 <= b < 4 ->
      translate duo_launch zero_buffer 0 (Dim3.mk 1 1 0) (Dim3.mk 4 4 1)
                (fun p => byte.of_Z p) 0 (Dim3.mk 0 0 0) (Dim3.mk 3 3 1)
                (Dim3.mk 2 2 1) 4
                (0 + linear (Dim3.mk 4 4 1) (Dim3.add i (Dim3.mk 1 1 0)) * 4 + b)
      = byte.of_Z (0 + linear (Dim3.mk 3 3 1) (Dim3.add i (Dim3.mk 0 0 0)) * 4
                   + b)) /\
  (forall p,
      outside_region 4 0 (Dim3.mk 4 4 1) (Dim3.mk 1 1 0) (Dim3.mk 2 2 1) p ->
      translate duo_launch zero_buffer 0 (Dim3.mk 1 1 0) (Dim3.mk 4 4 1)
                (fun p => byte.of_Z p) 0 (Dim3.mk 0 0 0) (Dim3.mk 3 3 1)
                (Dim3.mk 2 2 1) 4 p
      = zero_buffer p).
Proof.
  apply (translate_copies_region duo_launch).
  - unfold launch_ok. cbn. lia.
  - intros i (Hx & Hy & Hz). cbn in *. lia.
Defined.


(* ================================================================== *)
(** * The kernels on several fields *)
(* ================================================================== *)

Section FieldLoop.

Variables (dsts : list ptr) (srcOf : nat -> ptr) (n : nat).
Hypothesis dsts_distinct : NoDup dsts.
Hypothesis n_fits : (n <= length dsts)%nat.
Hypothesis srcs_apart : forall i, (i < n)%nat -> ~ In (srcOf i) dsts.

Lemma set_mem_same (m : Memory) (blk : ptr) (buf : buffer) :
  set_mem m blk buf blk = buf.
Proof. unfold set_mem. now rewrite Z.eqb_refl. Qed.

Lemma set_mem_other (m : Memory) (blk b : ptr) (buf : buffer) :
  b <> blk -> set_mem m blk buf b = m b.
Proof.
  intros Hne. unfold set_mem.
  destruct (b =? blk) eqn:E; [apply Z.eqb_eq in E; contradiction | reflexivity].
Qed.

Lemma firstn_succ_nth (k : nat) :
  (k < length dsts)%nat ->
  firstn (S k) dsts = firstn k dsts ++ [nth k dsts 0].
Proof.
  clear dsts_distinct n_fits srcs_apart.
  revert k. induction dsts as [|a rest IH]; intros k Hk; cbn in Hk; [lia|].
  destruct k as [|k]; [reflexivity|].
  cbn [firstn nth app]. f_equal.
  apply IH. lia.
Qed.

Lemma nth_not_in_firstn (k : nat) :
  (k < length dsts)%nat -> ~ In (nth k dsts 0) (firstn k dsts).
Proof.
  intros Hk Hin. apply (In_nth _ _ 0) in Hin. destruct Hin as (j & Hj & Hn).
  rewrite length_firstn in Hj.
  rewrite nth_firstn in Hn.
  destruct (j <? k)%nat eqn:E; [|apply Nat.ltb_ge in E; lia].
  apply Nat.ltb_lt in E.
  apply (proj1 (NoDup_nth dsts 0) dsts_distinct) in Hn; lia.
Qed.

Lemma not_in_firstn (k : nat) (b : ptr) :
  ~ In b dsts -> ~ In b (firstn k dsts).
Proof.
  intros Hb Hin. apply Hb.
  rewrite <- (firstn_skipn k dsts). apply in_or_app. now left.
Qed.

(** One pass over the fields: every destination block gets the kernel's
    result on its own and its source's bytes as they were before the pass. *)
Lemma field_loop_spec (K : nat -> buffer -> buffer -> buffer) (m : Memory)
    (k : nat) :
  (k <= n)%nat ->
  (forall i, (i < k)%nat ->
     fold_left
       (fun m i => set_mem m (nth i dsts 0)
                     (K i (m (nth i dsts 0)) (m (srcOf i))))
       (seq 0 k) m (nth i dsts 0)
     = K i (m (nth i dsts 0)) (m (srcOf i))) /\
  (forall b, ~ In b (firstn k dsts) ->
     fold_left
       (fun m i => set_mem m (nth i dsts 0)
                     (K i (m (nth i dsts 0)) (m (srcOf i))))
       (seq 0 k) m b
     = m b).
Proof.
  induction k as [|k IH]; intros Hk.
  - split; [intros i Hi; lia | reflexivity].
  - destruct (IH ltac:(lia)) as [IHd IHo].
    rewrite seq_S, Nat.add_0_l, !fold_left_app. cbn [fold_left].
    set (mk := fold_left _ (seq 0 k) m) in *.
    assert (Hkk : mk (nth k dsts 0) = m (nth k dsts 0)).
    { apply IHo, nth_not_in_firstn. lia. }
    assert (Hks : mk (srcOf k) = m (srcOf k)).
    { apply IHo, not_in_firstn, srcs_apart. lia. }
    split.
    + intros i Hi. destruct (Nat.eq_dec i k) as [->|Hne].
      * rewrite set_mem_same. now rewrite Hkk, Hks.
      * rewrite set_mem_other; [apply IHd; lia|].
        intros Heq.
        apply (proj1 (NoDup_nth dsts 0) dsts_distinct) in Heq; lia.
    + intros b Hb. rewrite firstn_succ_nth in Hb by lia.
      rewrite set_mem_other.
      * apply IHo. intros Hin. apply Hb, in_or_app. now left.
      * intros ->. apply Hb, in_or_app. right. now left.
Qed.

(** All the threads, each passing over the fields: every destination block
    ends as if its field's kernel alone had been run by all the threads. *)
Lemma thread_loop_spec {T : Type} (K : T -> nat -> buffer -> buffer -> buffer)
    (ts : list T) (m : Memory) :
  (forall i, (i < n)%nat ->
     fold_left
       (fun m t =>
          fold_left
            (fun m i => set_mem m (nth i dsts 0)
                          (K t i (m (nth i dsts 0)) (m (srcOf i))))
            (seq 0 n) m)
       ts m (nth i dsts 0)
     = fold_left (fun d t => K t i d (m (srcOf i))) ts (m (nth i dsts 0))) /\
  (forall b, ~ In b (firstn n dsts) ->
     fold_left
       (fun m t =>
          fold_left
            (fun m i => set_mem m (nth i dsts 0)
                          (K t i (m (nth i dsts 0)) (m (srcOf i))))
            (seq 0 n) m)
       ts m b
     = m b).
Proof.
  revert m. induction ts as [|t ts' IH]; intros m.
  - split; reflexivity.
  - cbn [fold_left].
    destruct (field_loop_spec (K t) m n (Nat.le_refl n)) as [Hd Ho].
    set (m1 := fold_left _ (seq 0 n) m) in *.
    destruct (IH m1) as [IHd IHo].
    split.
    + intros i Hi. rewrite (IHd i Hi), (Hd i Hi).
      now rewrite (Ho (srcOf i)) by (apply not_in_firstn, srcs_apart; exact Hi).
    + intros b Hb. now rewrite (IHo b Hb), (Ho b Hb).
Qed.

End FieldLoop.

(** X16.  [multi_translate] on [n] fields whose destination blocks are
    distinct and none of which is a source: every destination block ends
    as [translate] alone would leave it, launched on that block, its
    source block and its element size, and every other block is
    unchanged. *)
Theorem multi_translate_is_translate_per_field (l : Launch) (m : Memory)
    (dsts : list ptr) (dstPos dstSize : Dim3) (srcs : list ptr)
    (srcPos srcSize extent : Dim3) (elemSizes : list Z) (n : nat) :
  NoDup dsts ->
  (n <= length dsts)%nat ->
  (forall i, (i < n)%nat -> ~ In (nth i srcs 0) dsts) ->
  (forall i, (i < n)%nat ->
     multi_translate l m dsts dstPos dstSize srcs srcPos srcSize extent
                     elemSizes n (nth i dsts 0)
     = translate l (m (nth i dsts 0)) 0 dstPos dstSize (m (nth i srcs 0)) 0
                 srcPos srcSize extent (nth i elemSizes 0)) /\
  (forall b, ~ In b (firstn n dsts) ->
     multi_translate l m dsts dstPos dstSize srcs srcPos srcSize extent
                     elemSizes n b
     = m b).
Proof.
  intros Hnd Hn Hs.
  exact (thread_loop_spec dsts (fun i => nth i srcs 0) n Hnd Hn Hs
           (fun bt i d s =>
              translate_grid l (fst bt) (snd bt) d 0 dstPos dstSize s 0 srcPos
                             srcSize extent (nth i elemSizes 0))
           (threads l) m).
Qed.

(** X17.  [multi_unpack] on [n] fields whose destination blocks are
    distinct and none of which is the packed buffer: every destination
    block ends as [unpack] alone would leave it, launched on that block,
    the packed buffer at that field's offset and its element size, and
    every other block is unchanged. *)
Theorem multi_unpack_is_unpack_per_field (l : Launch) (m : Memory)
    (dsts : list ptr) (dstSize dstPos dstExtent : Dim3) (src : ptr)
    (offsets elemSizes : list Z) (n : nat) :
  NoDup dsts ->
  (n <= length dsts)%nat ->
  ~ In src dsts ->
  (forall i, (i < n)%nat ->
     multi_unpack l m dsts dstSize dstPos dstExtent src offsets elemSizes n
                  (nth i dsts 0)
     = unpack l (m (nth i dsts 0)) 0 dstSize dstPos dstExtent (m src)
              (nth i offsets 0) (nth i elemSizes 0)) /\
  (forall b, ~ In b (firstn n dsts) ->
     multi_unpack l m dsts dstSize dstPos dstExtent src offsets elemSizes n b
     = m b).
Proof.
  intros Hnd Hn Hs.
  exact (thread_loop_spec dsts (fun _ => src) n Hnd Hn (fun _ _ => Hs)
           (fun bt i d s =>
              grid_unpack l (fst bt) (snd bt) d 0 dstSize dstPos dstExtent s
                          (nth i offsets 0) (nth i elemSizes 0))
           (threads l) m).
Qed.

Lemma multi_translate_is_translate_per_field_witness :
  (forall i, (i < 2)%nat ->
     multi_translate duo_launch (fun b p => byte.of_Z (b + p)) [1; 2]
                     (Dim3.mk 1 1 0) (Dim3.mk 4 4 1) [3; 4] (Dim3.mk 0 0 0)
                     (Dim3.mk 3 3 1) (Dim3.mk 2 2 1) [4; 8] 2 (nth i [1; 2] 0)
     = translate duo_launch (fun p => byte.of_Z (nth i [1; 2] 0 + p)) 0
                 (Dim3.mk 1 1 0) (Dim3.mk 4 4 1)
                 (fun p => byte.of_Z (nth i [3; 4] 0 + p)) 0 (Dim3.mk 0 0 0)
                 (Dim3.mk 3 3 1) (Dim3.mk 2 2 1) (nth i [4; 8] 0)) /\
  (forall b, ~ In b (firstn 2 [1; 2]) ->
     multi_translate duo_launch (fun b p => byte.of_Z (b + p)) [1; 2]
                     (Dim3.mk 1 1 0) (Dim3.mk 4 4 1) [3; 4] (Dim3.mk 0 0 0)
                     (Dim3.mk 3 3 1) (Dim3.mk 2 2 1) [4; 8] 2 b
     = fun p => byte.of_Z (b + p)).
Proof.
  apply (multi_translate_is_translate_per_field duo_launch
           (fun b p => byte.of_Z (b + p))).
  - repeat constructor; cbn; lia.
  - cbn. lia.
  - intros i Hi. destruct i as [|[|i]]; cbn; lia.
Defined.

Lemma multi_unpack_is_unpack_per_field_witness :
  (forall i, (i < 2)%nat ->
     multi_unpack duo_launch (fun b p => byte.of_Z (b + p)) [1; 2]
                  (Dim3.mk 4 4 1) (Dim3.mk 1 1 0) (Dim3.mk 2 2 1) 3 [0; 16]
                  [4; 8] 2 (nth i [1; 2] 0)
     = unpack duo_launch (fun p => byte.of_Z (nth i [1; 2] 0 + p)) 0
              (Dim3.mk 4 4 1) (Dim3.mk 1 1 0) (Dim3.mk 2 2 1)
              (fun p => byte.of_Z (3 + p)) (nth i [0; 16] 0)
              (nth i [4; 8] 0)) /\
  (forall b, ~ In b (firstn 2 [1; 2]) ->
     multi_unpack duo_launch (fun b p => byte.of_Z (b + p)) [1; 2]
                  (Dim3.mk 4 4 1) (Dim3.mk 1 1 0) (Dim3.mk 2 2 1) 3 [0; 16]
                  [4; 8] 2 b
     = fun p => byte.of_Z (b + p)).
Proof.
  apply (multi_unpack_is_unpack_per_field duo_launch
           (fun b p => byte.of_Z (b + p))).
  - repeat constructor; cbn; lia.
  - cbn. lia.
  - cbn. lia.
Defined.

(* ================================================================== *)
(** * Construction: the gpus of a rank *)
(* ================================================================== *)

Section GpuAssignment.

Lemma succ_div_mod (N s : Z) :
  0 <= N -> 1 <= s ->
  (N mod s = s - 1 /\ (N + 1) / s = N / s + 1 /\ (N + 1) mod s = 0) \/
  (N mod s < s - 1 /\ (N + 1) / s = N / s /\ (N + 1) mod s = N mod s + 1).
Proof.
  intros HN Hs.
  pose proof (Z.div_mod N s ltac:(lia)) as Hdm.
  pose proof (Z.mod_pos_bound N s ltac:(lia)) as Hm.
  destruct (Z.eq_dec (N mod s) (s - 1)) as [E|E].
  - left. split; [exact E|]. split.
    + symmetry. apply (Z.div_unique (N + 1) s (N / s + 1) 0); lia.
    + symmetry. apply (Z.mod_unique (N + 1) s (N / s + 1) 0); lia.
  - right. split; [lia|]. split.
    + symmetry. apply (Z.div_unique (N + 1) s (N / s) (N mod s + 1)); lia.
    + symmetry. apply (Z.mod_unique (N + 1) s (N / s) (N mod s + 1)); lia.
Qed.

(** The numbers below [n] with remainder [r] on division by [s]. *)
Lemma count_residue (s r : Z) (n : nat) :
  0 <= r < s ->
  Z.of_nat (length (filter (fun gpu => Z.rem gpu s =? r)
                           (map Z.of_nat (seq 0 n))))
  = Z.of_nat n / s + (if r <? Z.of_nat n mod s then 1 else 0).
Proof.
  intros Hr. induction n as [|n IH].
  - cbn [seq map filter length]. change (Z.of_nat 0) with 0.
    rewrite Z.div_0_l, Z.mod_0_l by lia.
    destruct (r <? 0) eqn:E; [apply Z.ltb_lt in E|]; lia.
  - rewrite seq_S, Nat.add_0_l, map_app, filter_app, length_app.
    rewrite Nat2Z.inj_add, IH. clear IH.
    cbn [map filter].
    rewrite Z.rem_mod_nonneg by lia.
    replace (Z.of_nat (S n)) with (Z.of_nat n + 1) by lia.
    pose proof (Z.mod_pos_bound (Z.of_nat n) s ltac:(lia)) as Hm.
    destruct (succ_div_mod (Z.of_nat n) s ltac:(lia) ltac:(lia))
      as [(E & -> & ->)|(E & -> & ->)];
      destruct (Z.eqb_spec (Z.of_nat n mod s) r);
      repeat match goal with
             | |- context [?a <? ?b] => destruct (Z.ltb_spec a b)
             end; cbn [length]; lia.
Qed.

Lemma assign_gpus_members (deviceCount shmrank shmsize gpu : Z) :
  0 <= shmrank < shmsize ->
  In gpu (filter (fun gpu => Z.rem gpu shmsize =? shmrank)
                 (map Z.of_nat (seq 0 (Z.to_nat deviceCount)))) <->
  0 <= gpu < deviceCount /\ gpu mod shmsize = shmrank.
Proof.
  intros Hr. rewrite filter_In, in_map_iff. split.
  - intros ((k & <- & Hk) & E). apply in_seq in Hk.
    apply Z.eqb_eq in E. rewrite Z.rem_mod_nonneg in E by lia. lia.
  - intros (Hg & E). split.
    + exists (Z.to_nat gpu). split; [lia|]. apply in_seq. lia.
    + apply Z.eqb_eq. rewrite Z.rem_mod_nonneg by lia. exact E.
Qed.

End GpuAssignment.

(** X18.  On a node with at least as many gpus as ranks, the constructor
    gives rank [shmrank] of the node exactly the devices whose number
    leaves the remainder [shmrank] on division by the number of ranks,
    each once; their number is [deviceCount / shmsize], and one more for
    the first [deviceCount % shmsize] ranks, so the ranks of a node get
    the same number of gpus only if the division leaves no remainder. *)
Theorem assign_gpus_round_robin (deviceCount shmrank shmsize : Z) :
  0 <= shmrank < shmsize ->
  shmsize <= deviceCount ->
  exists gpus,
    DistributedDomain.assign_gpus deviceCount shmrank shmsize = Some gpus /\
    (forall gpu, In gpu gpus <->
                 0 <= gpu < deviceCount /\ gpu mod shmsize = shmrank) /\
    NoDup gpus /\
    Z.of_nat (length gpus)
    = deviceCount / shmsize
      + (if shmrank <? deviceCount mod shmsize then 1 else 0).
Proof.
  intros Hr Hd. unfold DistributedDomain.assign_gpus.
  destruct (Z.leb_spec shmsize deviceCount) as [_|]; [|lia].
  eexists. split; [reflexivity|]. split; [|split].
  - intros gpu. now apply assign_gpus_members.
  - apply NoDup_filter. apply (zrange_NoDup deviceCount).
  - rewrite count_residue by exact Hr. rewrite Z2Nat.id by lia. reflexivity.
Qed.

(** X19.  On a node with more ranks than gpus the constructor gives a
    rank the single device [shmrank % deviceCount]: a device of the node,
    shared with the ranks [deviceCount] apart; on a node without gpu the
    division by zero ends the program. *)
Theorem assign_gpus_shared (deviceCount shmrank shmsize : Z) :
  0 <= shmrank < shmsize ->
  0 <= deviceCount < shmsize ->
  (deviceCount = 0 ->
   DistributedDomain.assign_gpus deviceCount shmrank shmsize = None) /\
  (1 <= deviceCount ->
   exists gpu,
     DistributedDomain.assign_gpus deviceCount shmrank shmsize = Some [gpu] /\
     0 <= gpu < deviceCount /\
     (forall other,
         0 <= other < shmsize ->
         (DistributedDomain.assign_gpus deviceCount other shmsize = Some [gpu]
          <-> (deviceCount | other - shmrank)))).
Proof.
  intros Hr Hd. unfold DistributedDomain.assign_gpus.
  destruct (Z.leb_spec shmsize deviceCount) as [|_]; [lia|].
  split.
  - intros ->. reflexivity.
  - intros Hpos.
    destruct (Z.eqb_spec deviceCount 0) as [|_]; [lia|].
    exists (Z.rem shmrank deviceCount).
    rewrite Z.rem_mod_nonneg by lia.
    split; [reflexivity|]. split; [apply Z.mod_pos_bound; lia|].
    intros other Ho. rewrite Z.rem_mod_nonneg by lia. split.
    + intros E. injection E as E.
      apply Z.mod_divide; [lia|].
      rewrite Zminus_mod, E, Z.sub_diag. apply Z.mod_0_l. lia.
    + intros (k & Hk). f_equal. f_equal.
      replace other with (shmrank + k * deviceCount) by lia.
      apply Z.mod_add. lia.
Qed.

Lemma assign_gpus_round_robin_witness :
  exists gpus,
    DistributedDomain.assign_gpus 5 1 3 = Some gpus /\
    (forall gpu, In gpu gpus <-> 0 <= gpu < 5 /\ gpu mod 3 = 1) /\
    NoDup gpus /\
    Z.of_nat (length gpus) = 5 / 3 + (if 1 <? 5 mod 3 then 1 else 0).
Proof. apply (assign_gpus_round_robin 5 1 3); lia. Defined.

Lemma assign_gpus_shared_witness :
  (2 = 0 -> DistributedDomain.assign_gpus 2 3 4 = None) /\
  (1 <= 2 ->
   exists gpu,
     DistributedDomain.assign_gpus 2 3 4 = Some [gpu] /\
     0 <= gpu < 2 /\
     (forall other,
         0 <= other < 4 ->
         (DistributedDomain.assign_gpus 2 other 4 = Some [gpu]
          <-> (2 | other - 3)))).
Proof. apply (assign_gpus_shared 2 3 4); lia. Defined.

(* ================================================================== *)
(** * The plans of all the ranks fit together *)
(* ================================================================== *)

Section PlanMatching.

Variables (size : Dim3) (W G : nat) (R : Z) (elems : list Z) (p : PFP.t).
Variables (cfg : nat -> DistributedDomain.t) (brk : nat -> Z).
Hypothesis size_pos :
  1 <= Dim3.x size /\ 1 <= Dim3.y size /\ 1 <= Dim3.z size.
Hypothesis W_pos : (1 <= W)%nat.
Hypothesis G_pos : (1 <= G)%nat.
Hypothesis partitioned : PFP.new size (Z.of_nat W) (Z.of_nat G) = Some p.
Hypothesis engines_configured :
  forall r, (r < W)%nat -> configured G R elems p r (cfg r).

Local Abbreviation engine r := (nth r (realize_all cfg brk W) no_engine).

(** The engines just realized are the engines of the cycle before the
    first swap. *)
Lemma realized_spec (r : nat) :
  (r < W)%nat ->
  DistributedDomain.rank_ (engine r) = Z.of_nat r /\
  DistributedDomain.partition_ (engine r) = p /\
  length (DistributedDomain.domains_ (engine r)) = G /\
  length (DistributedDomain.domainDirSender_ (engine r)) = G /\
  length (DistributedDomain.domainDirRecver_ (engine r)) = G /\
  (forall j, (j < G)%nat ->
             nth j (DistributedDomain.domainIdx_ (engine r)) Dim3.zero
             = PFP.dom_idx p (Z.of_nat r) (Z.of_nat j)).
Proof.
  exact (engine_spec W G R elems p cfg brk (fun _ => 0%nat)
           engines_configured r).
Qed.

Lemma realized_planned (r j : nat) :
  (r < W)%nat -> (j < G)%nat ->
  nth j (DistributedDomain.domainDirSender_ (engine r)) (DirectionMap.fill None)
  = fst (DistributedDomain.plan_domain (engine r) j) /\
  nth j (DistributedDomain.domainDirRecver_ (engine r)) (DirectionMap.fill None)
  = snd (DistributedDomain.plan_domain (engine r) j).
Proof.
  exact (engine_planned W G R elems p cfg brk (fun _ => 0%nat)
           engines_configured r j).
Qed.

Lemma stored_plan (r j : nat) (dir : Dim3) :
  (r < W)%nat -> (j < G)%nat -> is_dir dir -> dir <> Dim3.zero ->
  sender_at (engine r) j dir
  = Some (DistributedDomain.plan_sender (engine r) j dir) /\
  recver_at (engine r) j dir = DistributedDomain.plan_recver (engine r) j dir.
Proof.
  intros Hr Hj Hdir Hnz.
  destruct (realized_planned r j Hr Hj) as (Ps & Pr).
  unfold sender_at, recver_at. rewrite Ps, Pr.
  destruct (plan_domain_lookup (engine r) j dir Hdir) as (Ls & Lr).
  rewrite Ls, Lr.
  assert (E : Dim3.eqb dir (Dim3.mk 0 0 0) = false).
  { destruct (Dim3.eqb dir (Dim3.mk 0 0 0)) eqn:E; [|reflexivity].
    apply dim3_eqb_eq in E. contradiction. }
  rewrite E. split; reflexivity.
Qed.

Lemma planned_sender (r j : nat) (dir : Dim3) :
  (r < W)%nat -> (j < G)%nat ->
  exists rN jN,
    (rN < W)%nat /\ (jN < G)%nat /\
    PFP.dom_idx p (Z.of_nat rN) (Z.of_nat jN)
    = DistributedDomain.dst_idx p (PFP.dom_idx p (Z.of_nat r) (Z.of_nat j)) dir /\
    ((rN = r /\
      (DistributedDomain.plan_sender (engine r) j dir = RegionCopier jN j dir \/
       DistributedDomain.plan_sender (engine r) j dir
       = PackMemcpyCopier jN j dir)) \/
     (rN <> r /\
      DistributedDomain.plan_sender (engine r) j dir
      = RegionSender j (Z.of_nat r) (Z.of_nat j) (Z.of_nat rN) (Z.of_nat jN)
                     dir)).
Proof.
  intros Hr Hj.
  destruct (realized_spec r Hr) as (Hrank & Hpart & _ & _ & _ & Hidx).
  pose proof (grid_dims size W G p size_pos W_pos G_pos partitioned) as Hgrid.
  destruct (idx_owner size W G p size_pos W_pos G_pos partitioned
              (DistributedDomain.dst_idx p
                 (PFP.dom_idx p (Z.of_nat r) (Z.of_nat j)) dir))
    as (rN & jN & HrN & HjN & Erank & Egpu & Eidx);
    [apply dst_idx_in_grid, Hgrid|].
  exists rN, jN. split; [exact HrN|]. split; [exact HjN|].
  split; [exact Eidx|].
  unfold DistributedDomain.plan_sender.
  rewrite Hrank, Hpart, (Hidx j Hj), Erank, Egpu, Nat2Z.id.
  destruct (Z.eqb_spec (Z.of_nat r) (Z.of_nat rN)) as [Heq|Hne].
  - apply Nat2Z.inj in Heq. subst rN. left. split; [reflexivity|].
    destruct (DistributedDomain.get_peer _ _ _); [now left | now right].
  - right. split; [intros ->; now apply Hne|].
    destruct (DistributedDomain.colocated_count _ _); reflexivity.
Qed.

Lemma planned_recver (r j : nat) (dir : Dim3) :
  (r < W)%nat -> (j < G)%nat ->
  exists rS jS,
    (rS < W)%nat /\ (jS < G)%nat /\
    PFP.dom_idx p (Z.of_nat rS) (Z.of_nat jS)
    = DistributedDomain.src_idx p (PFP.dom_idx p (Z.of_nat r) (Z.of_nat j)) dir /\
    ((rS = r /\ DistributedDomain.plan_recver (engine r) j dir = None) \/
     (rS <> r /\
      DistributedDomain.plan_recver (engine r) j dir
      = Some (RegionRecver j (Z.of_nat rS) (Z.of_nat jS) (Z.of_nat r)
                           (Z.of_nat j) dir))).
Proof.
  exact (plan_recver_form size W G R elems p cfg brk (fun _ => 0%nat)
           size_pos W_pos G_pos partitioned engines_configured r j dir).
Qed.

Lemma same_owner (r j r' j' : nat) :
  (r < W)%nat -> (j < G)%nat -> (r' < W)%nat -> (j' < G)%nat ->
  PFP.dom_idx p (Z.of_nat r) (Z.of_nat j)
  = PFP.dom_idx p (Z.of_nat r') (Z.of_nat j') ->
  r = r' /\ j = j'.
Proof.
  intros Hr Hj Hr' Hj' E.
  destruct (domain_owner size W G p size_pos W_pos G_pos partitioned r j Hr Hj)
    as (_ & R1 & G1).
  destruct (domain_owner size W G p size_pos W_pos G_pos partitioned r' j'
              Hr' Hj') as (_ & R2 & G2).
  rewrite E in R1, G1. split; lia.
Qed.

(** X20.  After every rank has run [realize]: the sender a local domain
    holds for a non-zero direction is a copier to a local domain of its
    own rank, for which that domain holds no receiver, or a
    [RegionSender] to a domain of another rank, and then that domain
    holds for the same direction the [RegionRecver] with the same source
    rank and gpu and destination rank and gpu; in both cases the
    destination is the owner of the neighbor index, wrapped around the
    grid. *)
Theorem every_sender_has_its_recver (r j : nat) (dir : Dim3) :
  (r < W)%nat -> (j < G)%nat -> is_dir dir -> dir <> Dim3.zero ->
  exists rN jN,
    (rN < W)%nat /\ (jN < G)%nat /\
    PFP.dom_idx p (Z.of_nat rN) (Z.of_nat jN)
    = DistributedDomain.dst_idx p (PFP.dom_idx p (Z.of_nat r) (Z.of_nat j)) dir /\
    ((rN = r /\
      (sender_at (engine r) j dir = Some (RegionCopier jN j dir) \/
       sender_at (engine r) j dir = Some (PackMemcpyCopier jN j dir)) /\
      recver_at (engine r) jN dir = None) \/
     (rN <> r /\
      sender_at (engine r) j dir
      = Some (RegionSender j (Z.of_nat r) (Z.of_nat j) (Z.of_nat rN)
                           (Z.of_nat jN) dir) /\
      recver_at (engine rN) jN dir
      = Some (RegionRecver jN (Z.of_nat r) (Z.of_nat j) (Z.of_nat rN)
                           (Z.of_nat jN) dir))).
Proof.
  intros Hr Hj Hdir Hnz.
  pose proof (grid_dims size W G p size_pos W_pos G_pos partitioned) as Hgrid.
  destruct (planned_sender r j dir Hr Hj)
    as (rN & jN & HrN & HjN & Eidx & Hcases).
  exists rN, jN. split; [exact HrN|]. split; [exact HjN|].
  split; [exact Eidx|].
  destruct (stored_plan r j dir Hr Hj Hdir Hnz) as (-> & _).
  destruct (stored_plan rN jN dir HrN HjN Hdir Hnz) as (_ & Hrc).
  destruct (planned_recver rN jN dir HrN HjN)
    as (rS & jS & HrS & HjS & Esrc & Hrecv).
  assert (Hback : rS = r /\ jS = j).
  { apply same_owner; try assumption.
    rewrite Esrc, Eidx. apply src_of_dst; [exact Hgrid|].
    now apply (domain_owner size W G p size_pos W_pos G_pos partitioned). }
  destruct Hback as (-> & ->).
  destruct Hcases as [(-> & Hs)|(Hne & Hs)].
  - left. split; [reflexivity|]. split.
    + destruct Hs as [-> | ->]; [now left | now right].
    + rewrite Hrc. destruct Hrecv as [(_ & E)|(Hne & _)];
        [exact E | contradiction].
  - right. split; [exact Hne|]. split; [now rewrite Hs|].
    rewrite Hrc. destruct Hrecv as [(Heq & _)|(_ & E)];
      [now subst | exact E].
Qed.

(** X21.  After every rank has run [realize]: the receiver a local domain
    holds for a non-zero direction is null when the domain that sends to
    it in that direction is one of its own rank, and otherwise the
    [RegionRecver] for which that domain of the other rank holds the
    [RegionSender] with the same source and destination. *)
Theorem every_recver_has_its_sender (r j : nat) (dir : Dim3) :
  (r < W)%nat -> (j < G)%nat -> is_dir dir -> dir <> Dim3.zero ->
  exists rS jS,
    (rS < W)%nat /\ (jS < G)%nat /\
    PFP.dom_idx p (Z.of_nat rS) (Z.of_nat jS)
    = DistributedDomain.src_idx p (PFP.dom_idx p (Z.of_nat r) (Z.of_nat j)) dir /\
    ((rS = r /\ recver_at (engine r) j dir = None /\
      (sender_at (engine r) jS dir = Some (RegionCopier j jS dir) \/
       sender_at (engine r) jS dir = Some (PackMemcpyCopier j jS dir))) \/
     (rS <> r /\
      recver_at (engine r) j dir
      = Some (RegionRecver j (Z.of_nat rS) (Z.of_nat jS) (Z.of_nat r)
                           (Z.of_nat j) dir) /\
      sender_at (engine rS) jS dir
      = Some (RegionSender jS (Z.of_nat rS) (Z.of_nat jS) (Z.of_nat r)
                           (Z.of_nat j) dir))).
Proof.
  intros Hr Hj Hdir Hnz.
  pose proof (grid_dims size W G p size_pos W_pos G_pos partitioned) as Hgrid.
  destruct (planned_recver r j dir Hr Hj)
    as (rS & jS & HrS & HjS & Esrc & Hrecv).
  exists rS, jS. split; [exact HrS|]. split; [exact HjS|].
  split; [exact Esrc|].
  destruct (stored_plan r j dir Hr Hj Hdir Hnz) as (_ & ->).
  destruct (stored_plan rS jS dir HrS HjS Hdir Hnz) as (Hsd & _).
  destruct (planned_sender rS jS dir HrS HjS)
    as (rN & jN & HrN & HjN & Eidx & Hsend).
  assert (Hback : rN = r /\ jN = j).
  { apply same_owner; try assumption.
    rewrite Eidx, Esrc. apply dst_of_src; [exact Hgrid|].
    now apply (domain_owner size W G p size_pos W_pos G_pos partitioned). }
  destruct Hback as (-> & ->).
  destruct Hrecv as [(-> & Hrc)|(Hne & Hrc)].
  - left. split; [reflexivity|]. split; [exact Hrc|].
    rewrite Hsd.
    destruct Hsend as [(_ & [-> | ->])|(Hne & _)];
      [now left | now right | contradiction].
  - right. split; [exact Hne|]. split; [exact Hrc|].
    rewrite Hsd.
    destruct Hsend as [(Heq & _)|(_ & ->)]; [now subst | reflexivity].
Qed.

End PlanMatching.

Lemma every_sender_has_its_recver_witness :
  exists rN jN,
    (rN < 2)%nat /\ (jN < 2)%nat /\
    PFP.dom_idx duo_partition (Z.of_nat rN) (Z.of_nat jN)
    = DistributedDomain.dst_idx duo_partition
        (PFP.dom_idx duo_partition (Z.of_nat 0) (Z.of_nat 1)) (Dim3.mk 0 1 0) /\
    ((rN = 0%nat /\
      (sender_at (nth 0 (realize_all duo_cfg duo_brk 2) no_engine) 1
                 (Dim3.mk 0 1 0)
       = Some (RegionCopier jN 1 (Dim3.mk 0 1 0)) \/
       sender_at (nth 0 (realize_all duo_cfg duo_brk 2) no_engine) 1
                 (Dim3.mk 0 1 0)
       = Some (PackMemcpyCopier jN 1 (Dim3.mk 0 1 0))) /\
      recver_at (nth 0 (realize_all duo_cfg duo_brk 2) no_engine) jN
                (Dim3.mk 0 1 0) = None) \/
     (rN <> 0%nat /\
      sender_at (nth 0 (realize_all duo_cfg duo_brk 2) no_engine) 1
                (Dim3.mk 0 1 0)
      = Some (RegionSender 1 (Z.of_nat 0) (Z.of_nat 1) (Z.of_nat rN)
                           (Z.of_nat jN) (Dim3.mk 0 1 0)) /\
      recver_at (nth rN (realize_all duo_cfg duo_brk 2) no_engine) jN
                (Dim3.mk 0 1 0)
      = Some (RegionRecver jN (Z.of_nat 0) (Z.of_nat 1) (Z.of_nat rN)
                           (Z.of_nat jN) (Dim3.mk 0 1 0)))).
Proof.
  apply (every_sender_has_its_recver (Dim3.mk 5 4 3) 2 2 1 [4; 8] duo_partition
           duo_cfg duo_brk).
  - cbn. lia.
  - lia.
  - lia.
  - vm_compute. reflexivity.
  - intros r Hr. repeat split.
  - lia.
  - lia.
  - unfold is_dir. cbn. lia.
  - discriminate.
Defined.

Lemma every_recver_has_its_sender_witness :
  exists rS jS,
    (rS < 2)%nat /\ (jS < 2)%nat /\
    PFP.dom_idx duo_partition (Z.of_nat rS) (Z.of_nat jS)
    = DistributedDomain.src_idx duo_partition
        (PFP.dom_idx duo_partition (Z.of_nat 1) (Z.of_nat 0)) (Dim3.mk 0 1 0) /\
    ((rS = 1%nat /\
      recver_at (nth 1 (realize_all duo_cfg duo_brk 2) no_engine) 0
                (Dim3.mk 0 1 0) = None /\
      (sender_at (nth 1 (realize_all duo_cfg duo_brk 2) no_engine) jS
                 (Dim3.mk 0 1 0)
       = Some (RegionCopier 0 jS (Dim3.mk 0 1 0)) \/
       sender_at (nth 1 (realize_all duo_cfg duo_brk 2) no_engine) jS
                 (Dim3.mk 0 1 0)
       = Some (PackMemcpyCopier 0 jS (Dim3.mk 0 1 0)))) \/
     (rS <> 1%nat /\
      recver_at (nth 1 (realize_all duo_cfg duo_brk 2) no_engine) 0
                (Dim3.mk 0 1 0)
      = Some (RegionRecver 0 (Z.of_nat rS) (Z.of_nat jS) (Z.of_nat 1)
                           (Z.of_nat 0) (Dim3.mk 0 1 0)) /\
      sender_at (nth rS (realize_all duo_cfg duo_brk 2) no_engine) jS
                (Dim3.mk 0 1 0)
      = Some (RegionSender jS (Z.of_nat rS) (Z.of_nat jS) (Z.of_nat 1)
                           (Z.of_nat 0) (Dim3.mk 0 1 0)))).
Proof.
  apply (every_recver_has_its_sender (Dim3.mk 5 4 3) 2 2 1 [4; 8] duo_partition
           duo_cfg duo_brk).
  - cbn. lia.
  - lia.
  - lia.
  - vm_compute. reflexivity.
  - intros r Hr. repeat split.
  - lia.
  - lia.
  - unfold is_dir. cbn. lia.
  - discriminate.
Defined.

(** X24.  The neighbor indices of the planner, on the grid of a partition
    of a positive volume: the index a subdomain sends to and the index it
    receives from in a direction lie in the grid whatever the direction,
    each is the other's inverse, and receiving from a direction is
    sending to the opposite one. *)
Theorem neighbor_round_trip (size : Dim3) (ranks gpus : nat) (p : PFP.t)
    (idx d : Dim3) :
  1 <= Dim3.x size /\ 1 <= Dim3.y size /\ 1 <= Dim3.z size ->
  (1 <= ranks)%nat -> (1 <= gpus)%nat ->
  PFP.new size (Z.of_nat ranks) (Z.of_nat gpus) = Some p ->
  in_extent (PFP.grid p) idx ->
  in_extent (PFP.grid p) (DistributedDomain.dst_idx p idx d) /\
  in_extent (PFP.grid p) (DistributedDomain.src_idx p idx d) /\
  DistributedDomain.src_idx p (DistributedDomain.dst_idx p idx d) d = idx /\
  DistributedDomain.dst_idx p (DistributedDomain.src_idx p idx d) d = idx /\
  DistributedDomain.dst_idx p idx (Dim3.neg d)
  = DistributedDomain.src_idx p idx d.
Proof.
  intros Hsize Hr Hg Hnew Hidx.
  pose proof (grid_dims size ranks gpus p Hsize Hr Hg Hnew) as Hgrid.
  split; [now apply dst_idx_in_grid|].
  split; [now apply src_idx_in_grid|].
  split; [now apply src_of_dst|].
  split; [now apply dst_of_src|].
  reflexivity.
Qed.

Lemma neighbor_round_trip_witness :
  in_extent (PFP.grid duo_partition)
    (DistributedDomain.dst_idx duo_partition (Dim3.mk 1 1 0) (Dim3.mk 1 1 (-1))) /\
  in_extent (PFP.grid duo_partition)
    (DistributedDomain.src_idx duo_partition (Dim3.mk 1 1 0) (Dim3.mk 1 1 (-1))) /\
  DistributedDomain.src_idx duo_partition
    (DistributedDomain.dst_idx duo_partition (Dim3.mk 1 1 0) (Dim3.mk 1 1 (-1)))
    (Dim3.mk 1 1 (-1)) = Dim3.mk 1 1 0 /\
  DistributedDomain.dst_idx duo_partition
    (DistributedDomain.src_idx duo_partition (Dim3.mk 1 1 0) (Dim3.mk 1 1 (-1)))
    (Dim3.mk 1 1 (-1)) = Dim3.mk 1 1 0 /\
  DistributedDomain.dst_idx duo_partition (Dim3.mk 1 1 0)
    (Dim3.neg (Dim3.mk 1 1 (-1)))
  = DistributedDomain.src_idx duo_partition (Dim3.mk 1 1 0) (Dim3.mk 1 1 (-1)).
Proof.
  apply (neighbor_round_trip (Dim3.mk 5 4 3) 2 2 duo_partition).
  - cbn. lia.
  - lia.
  - lia.
  - vm_compute. reflexivity.
  - unfold in_extent. cbn. lia.
Defined.

(* ================================================================== *)
(** * What [realize] builds on one rank *)
(* ================================================================== *)

Section RealizedDomains.

(** The blocks of the fields of the domains of a rank, as the allocator
    numbers them, are distinct. *)
Lemma field_blocks_apart (b F j q j' q' c c' : Z) :
  0 <= q < F -> 0 <= q' < F -> 1 <= c <= 2 -> 1 <= c' <= 2 ->
  b + 2 * F * j + 2 * q + c = b + 2 * F * j' + 2 * q' + c' ->
  j = j' /\ q = q' /\ c = c'.
Proof.
  intros Hq Hq' Hc Hc' E.
  assert (Ec : c = c') by lia. subst c'.
  destruct (mixed_radix_inj F j q j' q') as (E1 & E2); lia.
Qed.

End RealizedDomains.

(** X26.  [realize] on a freshly configured rank: it builds one local
    domain per gpu and as many indices (the assertion of the planner
    holds); the index of domain [j] lies in the grid and is owned by this
    rank (the second assertion holds) and by gpu [j]; the domain is on
    the device of that gpu, has the local size of its index, the radius
    and the fields of the rank; and no two [curr] or [next] pointers of
    the rank are the same block. *)
Theorem realize_one_domain_per_gpu (size : Dim3) (W G : nat) (R : Z)
    (elems : list Z) (p : PFP.t) (dd : DistributedDomain.t) (r : nat)
    (brk : Z) :
  1 <= Dim3.x size /\ 1 <= Dim3.y size /\ 1 <= Dim3.z size ->
  (1 <= G)%nat -> (r < W)%nat ->
  PFP.new size (Z.of_nat W) (Z.of_nat G) = Some p ->
  configured G R elems p r dd ->
  let dd' := fst (DistributedDomain.realize dd brk) in
  let domain j := nth j (DistributedDomain.domains_ dd') no_domain in
  let index j := nth j (DistributedDomain.domainIdx_ dd') Dim3.zero in
  length (DistributedDomain.domains_ dd') = G /\
  length (DistributedDomain.domainIdx_ dd') = G /\
  forall j, (j < G)%nat ->
    in_extent (PFP.grid p) (index j) /\
    PFP.get_rank p (index j) = DistributedDomain.rank_ dd' /\
    PFP.get_gpu p (index j) = Z.of_nat j /\
    LocalDomain.gpu (domain j) = nth j (DistributedDomain.gpus_ dd) 0 /\
    LocalDomain.size (domain j) = PFP.local_domain_size p (index j) /\
    LocalDomain.radius_ (domain j) = R /\
    LocalDomain.dataElemSize_ (domain j) = elems /\
    LocalDomain.num_data (domain j) = Z.of_nat (length elems) /\
    forall q j' q',
      (q < length elems)%nat -> (j' < G)%nat -> (q' < length elems)%nat ->
      LocalDomain.curr_data (domain j) q <> LocalDomain.next_data (domain j') q' /\
      (LocalDomain.curr_data (domain j) q = LocalDomain.curr_data (domain j') q'
       -> j = j' /\ q = q') /\
      (LocalDomain.next_data (domain j) q = LocalDomain.next_data (domain j') q'
       -> j = j' /\ q = q').
Proof.
  intros Hsize HG Hr Hnew (Hrank & Hpart & Hg & Hrad & Hel & Hd & Hi).
  cbv zeta.
  destruct (realize_spec dd brk Hd Hi)
    as (Erank & Epart & _ & _ & _ & _ & Elen & Eidx & Hdom).
  cbv zeta in Hdom. rewrite Hg in *.
  split; [exact Elen|].
  split; [rewrite Eidx; now rewrite length_map, length_seq|].
  intros j Hj.
  assert (Eij : nth j (DistributedDomain.domainIdx_
                         (fst (DistributedDomain.realize dd brk))) Dim3.zero
                = PFP.dom_idx p (Z.of_nat r) (Z.of_nat j)).
  { rewrite Eidx, nth_map_seq by exact Hj. now rewrite Hrank, Hpart. }
  rewrite Eij, Erank, Hrank.
  destruct (domain_owner size W G p Hsize ltac:(lia) HG Hnew r j Hr Hj)
    as (Hin & Hor & Hog).
  split; [exact Hin|]. split; [exact Hor|]. split; [exact Hog|].
  destruct (Hdom j no_domain Hj) as (Hsz & Hra & Hde & Hdv & Hlc & Hln & Hptr).
  rewrite Hrank, Hpart in Hsz. rewrite Hel in *.
  split; [exact Hdv|]. split; [exact Hsz|].
  split; [now rewrite Hra|]. split; [exact Hde|].
  split; [unfold LocalDomain.num_data; now rewrite Hlc|].
  intros q j' q' Hq Hj' Hq'.
  destruct (Hdom j' no_domain Hj') as (_ & _ & _ & _ & _ & _ & Hptr').
  rewrite Hel in Hptr'.
  destruct (Hptr q Hq) as (-> & ->). destruct (Hptr' q' Hq') as (-> & ->).
  split; [|split]; [intros E | intros E | intros E].
  - destruct (field_blocks_apart brk (Z.of_nat (length elems)) (Z.of_nat j)
                (Z.of_nat q) (Z.of_nat j') (Z.of_nat q') 1 2); lia.
  - destruct (field_blocks_apart brk (Z.of_nat (length elems)) (Z.of_nat j)
                (Z.of_nat q) (Z.of_nat j') (Z.of_nat q') 1 1); lia.
  - destruct (field_blocks_apart brk (Z.of_nat (length elems)) (Z.of_nat j)
                (Z.of_nat q) (Z.of_nat j') (Z.of_nat q') 2 2); lia.
Qed.

Lemma realize_one_domain_per_gpu_witness :
  let dd' := fst (DistributedDomain.realize (duo_cfg 1) 16) in
  let domain j := nth j (DistributedDomain.domains_ dd') no_domain in
  let index j := nth j (DistributedDomain.domainIdx_ dd') Dim3.zero in
  length (DistributedDomain.domains_ dd') = 2%nat /\
  length (DistributedDomain.domainIdx_ dd') = 2%nat /\
  forall j, (j < 2)%nat ->
    in_extent (PFP.grid duo_partition) (index j) /\
    PFP.get_rank duo_partition (index j) = DistributedDomain.rank_ dd' /\
    PFP.get_gpu duo_partition (index j) = Z.of_nat j /\
    LocalDomain.gpu (domain j) = nth j (DistributedDomain.gpus_ (duo_cfg 1)) 0 /\
    LocalDomain.size (domain j)
    = PFP.local_domain_size duo_partition (index j) /\
    LocalDomain.radius_ (domain j) = 1 /\
    LocalDomain.dataElemSize_ (domain j) = [4; 8] /\
    LocalDomain.num_data (domain j) = Z.of_nat (length [4; 8]) /\
    forall q j' q',
      (q < length [4; 8])%nat -> (j' < 2)%nat -> (q' < length [4; 8])%nat ->
      LocalDomain.curr_data (domain j) q <> LocalDomain.next_data (domain j') q' /\
      (LocalDomain.curr_data (domain j) q = LocalDomain.curr_data (domain j') q'
       -> j = j' /\ q = q') /\
      (LocalDomain.next_data (domain j) q = LocalDomain.next_data (domain j') q'
       -> j = j' /\ q = q').
Proof.
  apply (realize_one_domain_per_gpu (Dim3.mk 5 4 3) 2 2 1 [4; 8] duo_partition
           (duo_cfg 1) 1 16).
  - cbn. lia.
  - lia.
  - lia.
  - vm_compute. reflexivity.
  - repeat split.
Defined.

(* ================================================================== *)
(** * The coordinates the exchange test stores in a cell *)
(* ================================================================== *)

Section PackedCoordinates.

Lemma land_1023 (v : Z) : Z.land v 1023 = v mod 1024.
Proof.
  change 1023 with (Z.ones 10). rewrite Z.land_ones by lia. reflexivity.
Qed.

Lemma int32_small (v : Z) : - 2 ^ 31 <= v < 2 ^ 31 -> int32 v = v.
Proof. intros H. unfold int32. rewrite Z.mod_small; lia. Qed.

(** Neither shift leaves the range of [int]. *)
Lemma pack_xyz_bits (x y z : Z) :
  pack_xyz x y z
  = Z.lor (Z.lor (Z.land x (Z.ones 10)) (Z.shiftl (Z.land y (Z.ones 10)) 10))
          (Z.shiftl (Z.land z (Z.ones 10)) 20).
Proof.
  unfold pack_xyz. cbv zeta. rewrite Z.lor_0_l.
  change 1023 with (Z.ones 10).
  pose proof (Z.mod_pos_bound y 1024 ltac:(lia)).
  pose proof (Z.mod_pos_bound z 1024 ltac:(lia)).
  rewrite !int32_small; [reflexivity| |];
    rewrite Z.land_ones, Z.shiftl_mul_pow2 by lia;
    change (2 ^ 10) with 1024; lia.
Qed.

End PackedCoordinates.

(** X22.  [pack_xyz] and [unpack_x], [unpack_y], [unpack_z] of the
    exchange test: each coordinate comes back reduced to its low ten
    bits, so unchanged when it is in 0..1023, and the packed value is
    never negative, so never the -1 the test puts in a halo. *)
Theorem pack_xyz_round_trip (x y z : Z) :
  unpack_x (pack_xyz x y z) = x mod 1024 /\
  unpack_y (pack_xyz x y z) = y mod 1024 /\
  unpack_z (pack_xyz x y z) = z mod 1024 /\
  0 <= pack_xyz x y z < 2 ^ 30.
Proof.
  rewrite pack_xyz_bits. unfold unpack_x, unpack_y, unpack_z.
  rewrite <- !land_1023. change 1023 with (Z.ones 10).
  split; [Z.bitblast|]. split; [Z.bitblast|]. split; [Z.bitblast|].
  set (v := Z.lor _ _).
  assert (E : v = Z.land v (Z.ones 30)) by (subst v; Z.bitblast).
  rewrite E, Z.land_ones by lia. apply Z.mod_pos_bound. lia.
Qed.

(* ================================================================== *)
(** * [Array]: the block behind an array *)
(* ================================================================== *)

Section ArrayBlocks.

Lemma in_remove_iff (p b : Z) (l : list Z) :
  In b (List.remove Z.eq_dec p l) <-> In b l /\ b <> p.
Proof.
  split.
  - apply in_remove.
  - intros (Hin & Hne). now apply in_in_remove.
Qed.

Lemma flatten_nonneg (d : Dim3) :
  array_size d -> 0 <= Dim3.flatten d < 2 ^ 64.
Proof.
  intros (Hx & Hy & Hz & Hf). split; [|exact Hf].
  unfold Dim3.flatten. apply Z.mul_nonneg_nonneg; [|exact Hz].
  now apply Z.mul_nonneg_nonneg.
Qed.

End ArrayBlocks.

(** X23.  [Array::resize] on an array that owns its block.  When it
    returns, the array has the new size and again owns its block, null
    exactly when the new size has no element; the block it held before is
    freed, no other block is allocated or freed; and a resize to the size
    the array already has changes nothing.  When [new T[n]] throws, the
    old block is already freed and the pointer null, while the array
    still reports its old size.  It returns whenever the allocator can
    serve the request. *)
Theorem resize_keeps_one_block (sizeofT : Z) (a : Array.t) (h : Array.Heap)
    (d : Dim3) :
  heap_ok h -> owns a h -> array_size d ->
  match Array.resize sizeofT a h d with
  | Array.Returned a' h' => resized a h d a' h'
  | Array.Thrown a' h' => resize_failed sizeofT a h d a' h'
  end /\
  (Dim3.flatten d * sizeofT < 2 ^ 64 ->
   Array.serves h (Dim3.flatten d * sizeofT) = true ->
   exists a' h', Array.resize sizeofT a h d = Array.Returned a' h').
Proof.
  intros (Hbrk & Hlive) (Hnull & Hown) Hd.
  pose proof (flatten_nonneg d Hd) as Hf.
  assert (Hserves : Array.serves (Array.delete_array h (Array.data_ a))
                    = Array.serves h).
  { unfold Array.delete_array.
    destruct (Array.data_ a =? nullptr); reflexivity. }
  unfold Array.resize.
  destruct (Dim3.eqb d (Array.size_ a)) eqn:E; cbn [negb].
  - apply dim3_eqb_eq in E. subst d. split; [|eauto].
    unfold resized.
    split; [reflexivity|]. split; [now split|]. split; [now split|].
    split; [tauto|]. split; [congruence|]. now split.
  - assert (Hne : d <> Array.size_ a).
    { intros ->. rewrite (proj2 (dim3_eqb_eq _ _) eq_refl) in E. discriminate. }
    rewrite Z.mod_small by lia.
    assert (Hfreed : ~ In (Array.data_ a)
                       (Array.live (Array.delete_array h (Array.data_ a))) \/
                     Array.data_ a = nullptr).
    { unfold Array.delete_array.
      destruct (Z.eqb_spec (Array.data_ a) nullptr) as [E0|E0];
        [now right|left].
      cbn [Array.live]. apply remove_In. }
    assert (Hrest : forall b, b <> Array.data_ a ->
              (In b (Array.live (Array.delete_array h (Array.data_ a)))
               <-> In b (Array.live h))).
    { intros b Hb. unfold Array.delete_array.
      destruct (Z.eqb_spec (Array.data_ a) nullptr); [tauto|].
      cbn [Array.live]. rewrite in_remove_iff. tauto. }
    assert (Hok1 : heap_ok (Array.delete_array h (Array.data_ a))).
    { unfold Array.delete_array, heap_ok.
      destruct (Z.eqb_spec (Array.data_ a) nullptr); [now split|].
      cbn [Array.live Array.brk]. split; [exact Hbrk|].
      rewrite Forall_forall in *. intros b Hb.
      apply in_remove in Hb. now apply Hlive. }
    assert (Hbrk1 : Array.brk (Array.delete_array h (Array.data_ a))
                    = Array.brk h).
    { unfold Array.delete_array.
      destruct (Array.data_ a =? nullptr); reflexivity. }
    assert (Hold : ~ In nullptr (Array.live h)).
    { intros Hin. rewrite Forall_forall in Hlive.
      specialize (Hlive _ Hin). unfold nullptr in Hlive. lia. }
    assert (Hgone : ~ In (Array.data_ a)
                      (Array.live (Array.delete_array h (Array.data_ a)))).
    { destruct Hfreed as [Hfr|Hfr]; [exact Hfr|].
      intros Hin. apply Hold. rewrite <- Hfr.
      destruct Hok1 as (_ & Hl1). rewrite Forall_forall in Hl1.
      specialize (Hl1 _ Hin). rewrite Hfr in Hl1. unfold nullptr in Hl1. lia. }
    set (h1 := Array.delete_array h (Array.data_ a)) in *.
    destruct Hok1 as (Hb1 & Hl1).
    destruct (Z.ltb_spec 0 (Dim3.flatten d)) as [Hpos|Hzero].
    + split.
      * destruct (Array.new_array h1 (Dim3.flatten d) sizeofT)
          as [[data h2]|] eqn:Hnew.
        -- unfold Array.new_array in Hnew.
           destruct (_ && _); [|discriminate]. injection Hnew as <- <-.
           unfold resized. cbn [Array.size_ Array.data_ Array.live Array.brk].
           split; [reflexivity|]. split; [|split; [|split; [|split]]].
           ++ split; cbn [Array.size_ Array.data_ Array.live].
              ** unfold nullptr. split; lia.
              ** intros _. now left.
           ++ unfold heap_ok. cbn [Array.live Array.brk]. split; [lia|].
              constructor; [lia|].
              rewrite Forall_forall in *. intros b Hb. specialize (Hl1 b Hb).
              lia.
           ++ intros b Hb Hb'. rewrite <- (Hrest b Hb).
              split; [intros [Heq|Hin]; [congruence | exact Hin] | now right].
           ++ intros _ [Heq|Hin]; [|now apply Hgone].
              assert (Hd0 : Array.data_ a <> nullptr) by (unfold nullptr; lia).
              specialize (Hown Hd0). rewrite Forall_forall in Hlive.
              specialize (Hlive _ Hown). lia.
           ++ intros Heq. contradiction.
        -- unfold resize_failed. cbn [Array.size_ Array.data_].
           split; [exact Hne|]. split; [exact Hpos|]. split; [exact Hnew|].
           split; [reflexivity|]. split; [reflexivity|].
           split; [now split|]. split; [exact Hrest | exact Hgone].
      * intros Hfit Hsrv. unfold Array.new_array. rewrite Hserves, Hsrv.
        destruct (Z.ltb_spec (Dim3.flatten d * sizeofT) (2 ^ 64)); [|lia].
        cbn [andb]. eauto.
    + split; [|eauto]. unfold resized. cbn [Array.size_ Array.data_].
      split; [reflexivity|]. split; [|split; [|split; [|split]]].
      * split; cbn [Array.size_ Array.data_].
        -- split; [intros _; lia | reflexivity].
        -- intros Hc. now contradiction Hc.
      * now split.
      * intros b Hb _. now apply Hrest.
      * intros _. exact Hgone.
      * intros Heq. contradiction.
Qed.

Lemma resize_keeps_one_block_witness :
  match Array.resize 4 (Array.mk (Dim3.mk 2 3 4) 5)
          (Array.mkHeap [5; 2] 7 (fun bytes => bytes <? 1000))
          (Dim3.mk 1048576 1048576 1048576) with
  | Array.Returned a' h' =>
      resized (Array.mk (Dim3.mk 2 3 4) 5)
              (Array.mkHeap [5; 2] 7 (fun bytes => bytes <? 1000))
              (Dim3.mk 1048576 1048576 1048576) a' h'
  | Array.Thrown a' h' =>
      resize_failed 4 (Array.mk (Dim3.mk 2 3 4) 5)
                    (Array.mkHeap [5; 2] 7 (fun bytes => bytes <? 1000))
                    (Dim3.mk 1048576 1048576 1048576) a' h'
  end /\
  (Dim3.flatten (Dim3.mk 1048576 1048576 1048576) * 4 < 2 ^ 64 ->
   Array.serves (Array.mkHeap [5; 2] 7 (fun bytes => bytes <? 1000))
                (Dim3.flatten (Dim3.mk 1048576 1048576 1048576) * 4) = true ->
   exists a' h',
     Array.resize 4 (Array.mk (Dim3.mk 2 3 4) 5)
       (Array.mkHeap [5; 2] 7 (fun bytes => bytes <? 1000))
       (Dim3.mk 1048576 1048576 1048576)
     = Array.Returned a' h').
Proof.
  apply (resize_keeps_one_block 4 (Array.mk (Dim3.mk 2 3 4) 5)
           (Array.mkHeap [5; 2] 7 (fun bytes => bytes <? 1000))
           (Dim3.mk 1048576 1048576 1048576)).
  - split; [cbn; lia|]. repeat constructor; cbn; lia.
  - split; cbn.
    + unfold nullptr. split; intros H; lia.
    + intros _. now left.
  - repeat split; cbn; lia.
Defined.
